(** * simdjson-go: scanner primitives, tokenizer and value parser

    A shallow embedding of [internal/scanner] and [internal/parser].
    Go slices of bytes are lists of [byte]; Go [int] indices are [Z];
    [uint32] and [int64] conversions are written out with their
    wrap-around; an index or slice expression that Go would answer with a
    run-time panic yields [Panic]; loops are recursive functions with a
    fuel argument whose exhaustion yields [Diverge]. *)

From Stdlib Require Import ZArith List Bool Lia.
From Stdlib Require Import Strings.String Strings.Ascii Strings.Byte.
Import ListNotations.
Local Open Scope Z_scope.

(** ** Outcomes of a Go call *)

Inductive outcome (A : Type) : Type :=
| Ok (a : A)            (* normal return, nil error *)
| Err (msg : string)    (* a non-nil error value *)
| Panic (msg : string)  (* run-time panic *)
| Diverge.              (* the loop fuel ran out *)

Arguments Ok {A} a.
Arguments Err {A} msg.
Arguments Panic {A} msg.
Arguments Diverge {A}.

Definition bind {A B} (m : outcome A) (k : A -> outcome B) : outcome B :=
  match m with
  | Ok a => k a
  | Err e => Err e
  | Panic e => Panic e
  | Diverge => Diverge
  end.

Notation "x <- m ;; k" := (bind m (fun x => k))
  (at level 61, m at next level, right associativity).
Notation "' p <- m ;; k" := (bind m (fun p => k))
  (at level 61, p pattern, m at next level, right associativity).

(** [returns o]: the call came back, with a value or with an error. *)
Definition returns {A} (o : outcome A) : Prop :=
  match o with
  | Ok _ | Err _ => True
  | Panic _ | Diverge => False
  end.

(** ** Bytes, slices, fixed-width integers *)

Definition byteZ (c : byte) : Z := Z.of_N (Byte.to_N c).

Definition quote : byte := x22.
Definition backslash : byte := x5c.

Definition bytes (s : string) : list byte := list_byte_of_string s.

(** Literal inputs: the text with every apostrophe read as a double quote. *)
Definition json (s : string) : list byte :=
  map (fun c => if Byte.eqb c "'" then quote else c) (bytes s).

Definition len {A} (s : list A) : Z := Z.of_nat (List.length s).

(** [s[i]] *)
Definition idx {A} (s : list A) (i : Z) : outcome A :=
  if (0 <=? i) && (i <? len s) then
    match nth_error s (Z.to_nat i) with
    | Some a => Ok a
    | None => Panic "index out of range"
    end
  else Panic "index out of range".

(** [s[lo:hi]], for a slice whose capacity is its length *)
Definition slice {A} (s : list A) (lo hi : Z) : outcome (list A) :=
  if (0 <=? lo) && (lo <=? hi) && (hi <=? len s) then
    Ok (firstn (Z.to_nat (hi - lo)) (skipn (Z.to_nat lo) s))
  else Panic "slice bounds out of range".

(** [i < len(s) && p(s[i])] *)
Definition inRangeAnd (s : list byte) (i : Z) (p : byte -> bool) : outcome bool :=
  if i <? len s then c <- idx s i ;; Ok (p c) else Ok false.

Definition uint32 (z : Z) : Z := z mod 4294967296.

Definition int64 (z : Z) : Z :=
  (z + 9223372036854775808) mod 18446744073709551616 - 9223372036854775808.

Definition uint8 (z : Z) : Z := z mod 256.

Definition MaxInt64 : Z := 9223372036854775807.
Definition MinInt64 : Z := -9223372036854775808.

Definition isDigit (c : byte) : bool := (48 <=? byteZ c) && (byteZ c <=? 57).

(** ** Leading-integer primitive *)

(** The digit loop shared by both scalar variants:
    [for i := start; i < len(data); i++ { ... }].  [Some (result, parsed)]
    is the state at loop exit, [None] the early [return 0, false]. *)
Fixpoint digitLoop (fuel : nat) (data : list byte) (i : Z) (result : Z) (parsed : bool)
  : outcome (option (Z * bool)) :=
  match fuel with
  | O => Diverge
  | S fuel' =>
      if i <? len data then
        c <- idx data i ;;
        if (byteZ c <? 48) || (57 <? byteZ c) then Ok (Some (result, parsed))
        else
          let digit := int64 (uint8 (byteZ c - 48)) in
          if Z.quot (MaxInt64 - digit) 10 <? result then Ok None
          else digitLoop fuel' data (i + 1) (int64 (result * 10 + digit)) true
      else Ok (Some (result, parsed))
  end.

Module Arm64.

(** unnamed/part_002: the NEON routine is a stub that asks for the fallback. *)
Definition parseIntegerNEON (data : list byte) : Z * bool := (0, false).

(** simd_arm64.go, [parseIntegerScalar] *)
Definition parseIntegerScalar (data : list byte) : outcome (Z * bool) :=
  if len data =? 0 then Ok (0, false)
  else
    c0 <- idx data 0 ;;
    let negative := Byte.eqb c0 "-" in
    let start := if negative then 1 else 0 in
    if negative && (len data =? 1) then Ok (0, false)
    else
      r <- digitLoop (S (List.length data)) data start 0 false ;;
      match r with
      | None => Ok (0, false)
      | Some (result, parsed) =>
          Ok (if negative then int64 (- result) else result, parsed)
      end.

(** simd_arm64.go, [SIMDParseInteger] *)
Definition SIMDParseInteger (data : list byte) : outcome (Z * bool) :=
  if len data =? 0 then Ok (0, false)
  else
    let '(result, valid) :=
      if 4 <=? len data then parseIntegerNEON data else (0, false) in
    if (4 <=? len data) && valid then Ok (result, true)
    else parseIntegerScalar data.

End Arm64.

Module Generic.

(** simd_generic.go, [parseIntegerScalar]: no [parsed] flag; the second
    result is [start < len(data)]. *)
Definition parseIntegerScalar (data : list byte) : outcome (Z * bool) :=
  if len data =? 0 then Ok (0, false)
  else
    c0 <- idx data 0 ;;
    let negative := Byte.eqb c0 "-" in
    let start := if negative then 1 else 0 in
    if negative && (len data =? 1) then Ok (0, false)
    else
      r <- digitLoop (S (List.length data)) data start 0 false ;;
      match r with
      | None => Ok (0, false)
      | Some (result, _) =>
          Ok (if negative then int64 (- result) else result, start <? len data)
      end.

Definition SIMDParseInteger (data : list byte) : outcome (Z * bool) :=
  parseIntegerScalar data.

End Generic.

(** ** Structural scan *)

Definition StructuralQuote : Z := Z.shiftl 1 0.
Definition StructuralBackslash : Z := Z.shiftl 1 1.
Definition StructuralColon : Z := Z.shiftl 1 2.
Definition StructuralComma : Z := Z.shiftl 1 3.
Definition StructuralLBrace : Z := Z.shiftl 1 4.
Definition StructuralRBrace : Z := Z.shiftl 1 5.
Definition StructuralLBracket : Z := Z.shiftl 1 6.
Definition StructuralRBracket : Z := Z.shiftl 1 7.
Definition StructuralWhitespace : Z := Z.shiftl 1 8.

(** The table filled by [initCharClassifier]; every other entry is zero. *)
Definition charClassifier (c : byte) : Z :=
  if Byte.eqb c quote then StructuralQuote
  else if Byte.eqb c backslash then StructuralBackslash
  else if Byte.eqb c ":" then StructuralColon
  else if Byte.eqb c "," then StructuralComma
  else if Byte.eqb c "{" then StructuralLBrace
  else if Byte.eqb c "}" then StructuralRBrace
  else if Byte.eqb c "[" then StructuralLBracket
  else if Byte.eqb c "]" then StructuralRBracket
  else if Byte.eqb c " " then StructuralWhitespace
  else if Byte.eqb c x09 then StructuralWhitespace
  else if Byte.eqb c x0a then StructuralWhitespace
  else if Byte.eqb c x0d then StructuralWhitespace
  else 0.

(** The body of [scanScalar]'s loop over [i]; [indices] is
    [s.structuralIndices]. *)
Fixpoint scanScalarLoop (fuel : nat) (buf : list byte) (i : Z)
    (inString escaped : bool) (indices : list Z) : outcome (list Z) :=
  match fuel with
  | O => Diverge
  | S fuel' =>
      if i <? len buf then
        c <- idx buf i ;;
        if escaped then scanScalarLoop fuel' buf (i + 1) inString false indices
        else if Byte.eqb c backslash && inString then
          scanScalarLoop fuel' buf (i + 1) inString true indices
        else if Byte.eqb c quote then
          scanScalarLoop fuel' buf (i + 1) (negb inString) escaped (indices ++ [uint32 i])
        else if negb inString then
          let class := charClassifier c in
          if negb (class =? 0) && negb (class =? StructuralWhitespace) then
            scanScalarLoop fuel' buf (i + 1) inString escaped (indices ++ [uint32 i])
          else if ((class =? 0) && isDigit c) || Byte.eqb c "-" || Byte.eqb c "t"
                  || Byte.eqb c "f" || Byte.eqb c "n" then
            atStart <-
              (if i =? 0 then Ok true
               else
                 p <- idx buf (i - 1) ;;
                 Ok (negb (charClassifier p =? 0) || Byte.eqb p " " || Byte.eqb p x09
                     || Byte.eqb p x0a || Byte.eqb p x0d)) ;;
            if atStart then
              scanScalarLoop fuel' buf (i + 1) inString escaped (indices ++ [uint32 i])
            else scanScalarLoop fuel' buf (i + 1) inString escaped indices
          else scanScalarLoop fuel' buf (i + 1) inString escaped indices
        else scanScalarLoop fuel' buf (i + 1) inString escaped indices
      else Ok indices
  end.

(** [scanScalar], started on the indices that [Scan] has truncated. *)
Definition scanScalar (buf : list byte) (indices : list Z) : outcome (list Z) :=
  scanScalarLoop (S (List.length buf)) buf 0 false false indices.

Module Arm64Scan.

(** unnamed/part_002: stub, reports that nothing was found. *)
Definition findStructuralIndicesNEON (aligned : list byte) : list Z * Z := ([], 0).

(** [scanNEON]; [ensureAligned] returns the buffer or a copy of it, and
    [s.structuralIndices] is empty, truncated by [Scan] or [ScanSIMD]. *)
Definition scanNEON (buf : list byte) : outcome (list Z) :=
  let '(found, count) := findStructuralIndicesNEON buf in
  if 0 <? count then
    taken <- slice found 0 count ;;
    Ok ([] ++ taken)
  else scanScalar buf [].

Definition scanSIMD (buf : list byte) : outcome (list Z) :=
  if len buf =? 0 then Ok []
  else if 16 <=? len buf then scanNEON buf
  else scanScalar buf [].

(** [Scan]: [hasSIMD()] is true on arm64. *)
Definition Scan (data : list byte) : outcome (list Z) := scanSIMD data.

Definition ScanSIMD (data : list byte) : outcome (list Z) := scanSIMD data.

End Arm64Scan.

Module GenericScan.

Definition scanSIMD (buf : list byte) : outcome (list Z) := scanScalar buf [].

(** [Scan]: [hasSIMD()] is false. *)
Definition Scan (data : list byte) : outcome (list Z) := scanScalar data [].

Definition ScanSIMD (data : list byte) : outcome (list Z) := scanSIMD data.

End GenericScan.

(** A [[]uint32]: its elements, and the elements of its backing array
    between its length and its capacity. *)
Record slice32 : Type := mkSlice32 { elts : list Z; spare : list Z }.

Definition capacity (s : slice32) : Z := len (elts s) + len (spare s).

(** [s[:0]] *)
Definition truncate32 (s : slice32) : slice32 := mkSlice32 [] (elts s ++ spare s).

(** [s[:cap(s)]] *)
Definition resliceToCap (s : slice32) : slice32 := mkSlice32 (elts s ++ spare s) [].

(** [make([]uint32, 0, n)] *)
Definition make32 (n : Z) : slice32 := mkSlice32 [] (repeat 0 (Z.to_nat n)).

Section Amd64.

(** [cpu.X86.HasAVX2], [cpu.X86.HasSSE42] *)
Variables hasAVX2 hasSSE42 : bool.

(** The assembly routines, by the offsets they store at the start of the
    index buffer; their number is the count they return. *)
Variable findStructuralIndicesAVX2 : list byte -> list Z.
Variable findStructuralIndicesSSE42 : list byte -> list Z.

Definition hasSIMD : bool := hasAVX2 || hasSSE42.

(** [s.structuralIndices[:count]] after a routine has stored [found]. *)
Definition stored (found : list Z) (indices : slice32) : outcome slice32 :=
  if len found <=? capacity indices
  then Ok (mkSlice32 found (skipn (List.length found) (elts indices)))
  else Panic "slice bounds out of range".

(** simd_amd64.go, [scanSIMD] *)
Definition scanSIMD_amd64 (buf : list byte) (indices : slice32) : outcome slice32 :=
  if len buf =? 0 then Ok indices
  else
    let estimatedIndices := Z.quot (len buf) 8 in
    let indices :=
      if capacity indices <? estimatedIndices then make32 estimatedIndices else indices in
    _ <- idx buf 0 ;;                     (* &s.buf[0] *)
    _ <- idx (elts indices) 0 ;;          (* &s.structuralIndices[0] *)
    let indices := resliceToCap indices in
    if hasAVX2 then stored (findStructuralIndicesAVX2 buf) indices
    else if hasSSE42 then stored (findStructuralIndicesSSE42 buf) indices
    else
      r <- scanScalar buf (elts indices) ;;
      Ok (mkSlice32 r []).

(** [Scan] on amd64, on a scanner whose index buffer is [indices]. *)
Definition Scan_amd64 (data : list byte) (indices : slice32) : outcome slice32 :=
  let indices := truncate32 indices in
  if hasSIMD then scanSIMD_amd64 data indices
  else
    r <- scanScalar data (elts indices) ;;
    Ok (mkSlice32 r []).

(** [ScanSIMD] on amd64 *)
Definition ScanSIMD_amd64 (data : list byte) (indices : slice32) : outcome slice32 :=
  scanSIMD_amd64 data (truncate32 indices).

End Amd64.

(** The index buffer of a scanner fresh from [scannerPool]:
    [make([]uint32, 0, 1024)]. *)
Definition newIndices : slice32 := make32 1024.
(** ** Quote mask *)

Definition uint64 (z : Z) : Z := z mod 18446744073709551616.

(** [s[i] = v] *)
Definition store {A} (s : list A) (i : Z) (v : A) : outcome (list A) :=
  if (0 <=? i) && (i <? len s) then
    Ok (firstn (Z.to_nat i) s ++ v :: skipn (S (Z.to_nat i)) s)
  else Panic "index out of range".

(** [for i, b := range data { ... }] of [generateQuoteMaskScalar] *)
Fixpoint quoteMaskLoop (fuel : nat) (data : list byte) (i : Z)
    (inString escaped : bool) (masks : list Z) : outcome (list Z) :=
  match fuel with
  | O => Diverge
  | S fuel' =>
      if i <? len data then
        b <- idx data i ;;
        if escaped then quoteMaskLoop fuel' data (i + 1) inString false masks
        else if Byte.eqb b backslash && inString then
          quoteMaskLoop fuel' data (i + 1) inString true masks
        else if Byte.eqb b quote then
          let maskIndex := Z.quot i 64 in
          let bitIndex := Z.rem i 64 in
          m <- idx masks maskIndex ;;
          masks <- store masks maskIndex (uint64 (Z.lor m (uint64 (Z.shiftl 1 bitIndex)))) ;;
          quoteMaskLoop fuel' data (i + 1) (negb inString) escaped masks
        else quoteMaskLoop fuel' data (i + 1) inString escaped masks
      else Ok masks
  end.

(** [generateQuoteMaskScalar] (simd_arm64.go and simd_generic.go; the
    generic file returns a nil slice for empty input, the arm64 one an empty
    slice, both of length zero). *)
Definition generateQuoteMaskScalar (data : list byte) : outcome (list Z) :=
  let maskCount := Z.quot (len data + 63) 64 in
  let masks := repeat 0 (Z.to_nat maskCount) in
  quoteMaskLoop (S (List.length data)) data 0 false false masks.

Module Arm64Mask.

(** unnamed/part_002: stub. *)
Definition findQuoteMaskNEON (data : list byte) (masks : list Z) : Z := 0.

Definition SIMDQuoteMask (data : list byte) : outcome (list Z) :=
  if len data =? 0 then Ok []
  else
    let maskCount := Z.quot (len data + 63) 64 in
    let masks := repeat 0 (Z.to_nat maskCount) in
    if (16 <=? len data) && (0 <? findQuoteMaskNEON data masks) then
      slice masks 0 (findQuoteMaskNEON data masks)
    else generateQuoteMaskScalar data.

End Arm64Mask.

Module GenericMask.

Definition SIMDQuoteMask (data : list byte) : outcome (list Z) :=
  generateQuoteMaskScalar data.

End GenericMask.

(** ** UTF-8 validation *)

Definition RuneError : Z := 0xFFFD.

(** [decodeRuneInString], the repository's simplified decoder *)
Definition decodeRuneInString (s : list byte) : outcome (Z * Z) :=
  if len s =? 0 then Ok (RuneError, 0)
  else
    c0 <- idx s 0 ;;
    if byteZ c0 <? 0x80 then Ok (byteZ c0, 1)
    else if byteZ c0 <? 0xC0 then Ok (RuneError, 1)
    else if byteZ c0 <? 0xE0 then
      if len s <? 2 then Ok (RuneError, 1)
      else
        c1 <- idx s 1 ;;
        if (byteZ c1 <? 0x80) || (0xC0 <=? byteZ c1) then Ok (RuneError, 1)
        else
          let r := Z.lor (Z.shiftl (Z.land (byteZ c0) 0x1F) 6) (Z.land (byteZ c1) 0x3F) in
          if r <? 0x80 then Ok (RuneError, 1) else Ok (r, 2)
    else Ok (RuneError, 1).

(** [for i := 0; i < len(data); { ... i += size }] *)
Fixpoint validateUTF8Loop (fuel : nat) (data : list byte) (i : Z) : outcome bool :=
  match fuel with
  | O => Diverge
  | S fuel' =>
      if i <? len data then
        rest <- slice data i (len data) ;;
        '(r, size) <- decodeRuneInString rest ;;
        if (r =? RuneError) && (size =? 1) then Ok false
        else validateUTF8Loop fuel' data (i + size)
      else Ok true
  end.

Definition validateUTF8Scalar (data : list byte) : outcome bool :=
  validateUTF8Loop (S (List.length data)) data 0.

Module Arm64Utf8.

Definition SIMDValidateUTF8 (data : list byte) : outcome bool :=
  if len data =? 0 then Ok true else validateUTF8Scalar data.

End Arm64Utf8.

Module GenericUtf8.

Definition SIMDValidateUTF8 (data : list byte) : outcome bool :=
  validateUTF8Scalar data.

End GenericUtf8.

(** ** Tokens *)

Inductive TokenType : Type :=
| TokenNone
| TokenObjectBegin
| TokenObjectEnd
| TokenArrayBegin
| TokenArrayEnd
| TokenString
| TokenNumber
| TokenTrue
| TokenFalse
| TokenNull
| TokenColon
| TokenComma.

Definition TokenType_eq_dec (a b : TokenType) : {a = b} + {a <> b}.
Proof. decide equality. Defined.

Definition TokenType_eqb (a b : TokenType) : bool :=
  if TokenType_eq_dec a b then true else false.

(** [Token]; the fields [Type] and [End] carry a trailing underscore. *)
Record Token : Type := mkToken { Type_ : TokenType; Start : Z; End_ : Z }.

Definition isWhitespace (c : byte) : bool :=
  Byte.eqb c " " || Byte.eqb c x09 || Byte.eqb c x0a || Byte.eqb c x0d.

Fixpoint bytes_eqb (a b : list byte) : bool :=
  match a, b with
  | [], [] => true
  | x :: a', y :: b' => Byte.eqb x y && bytes_eqb a' b'
  | _, _ => false
  end.

(** ** Tokenize, over the structural indices of a scan *)

(** [detectValueType] *)
Definition detectValueType (buf : list byte) (start : Z) : outcome TokenType :=
  if uint32 (len buf) <=? start then Ok TokenNone
  else
    c <- idx buf start ;;
    let literal ty lit :=
      if uint32 (start + len lit) <=? uint32 (len buf) then
        s <- slice buf start (uint32 (start + len lit)) ;;
        Ok (if bytes_eqb s lit then ty else TokenNone)
      else Ok TokenNone in
    if Byte.eqb c "t" then literal TokenTrue (bytes "true")
    else if Byte.eqb c "f" then literal TokenFalse (bytes "false")
    else if Byte.eqb c "n" then literal TokenNull (bytes "null")
    else if Byte.eqb c "-" || isDigit c then Ok TokenNumber
    else Ok TokenNone.

(** [findValueEnd]: [for i := start; i < uint32(len(s.buf)); i++ { ... }] *)
Fixpoint findValueEnd (fuel : nat) (buf : list byte) (i : Z) : outcome Z :=
  match fuel with
  | O => Diverge
  | S fuel' =>
      if i <? uint32 (len buf) then
        c <- idx buf i ;;
        if isWhitespace c || Byte.eqb c "," || Byte.eqb c "}" || Byte.eqb c "]" then Ok i
        else findValueEnd fuel' buf (uint32 (i + 1))
      else Ok (uint32 (len buf))
  end.

(** [for k := j - 1; k >= 0 && s.buf[k] == '\\'; k-- { backslashes++ }] with
    [k] a [uint32], for which [k >= 0] always holds. *)
Fixpoint countBackslashes32 (fuel : nat) (buf : list byte) (k : Z) (backslashes : Z)
  : outcome Z :=
  match fuel with
  | O => Diverge
  | S fuel' =>
      c <- idx buf k ;;
      if Byte.eqb c backslash then countBackslashes32 fuel' buf (uint32 (k - 1)) (backslashes + 1)
      else Ok backslashes
  end.

(** [for j := idx + 1; j < uint32(len(s.buf)); j++ { ... }]: [Some] of the
    token's end when a closing quote is found. *)
Fixpoint findClosingQuote (fuel : nat) (buf : list byte) (j : Z) : outcome (option Z) :=
  match fuel with
  | O => Diverge
  | S fuel' =>
      if j <? uint32 (len buf) then
        c <- idx buf j ;;
        if Byte.eqb c quote then
          backslashes <- countBackslashes32 (S (List.length buf)) buf (uint32 (j - 1)) 0 ;;
          let escaped := Z.rem backslashes 2 =? 1 in
          if negb escaped then Ok (Some (uint32 (j + 1)))
          else findClosingQuote fuel' buf (uint32 (j + 1))
        else findClosingQuote fuel' buf (uint32 (j + 1))
      else Ok None
  end.

(** The loop of [Tokenize] over [s.structuralIndices]. *)
Fixpoint tokenizeIndices (buf : list byte) (indices : list Z) (tokens : list Token)
  : outcome (list Token) :=
  match indices with
  | [] => Ok tokens
  | i :: rest =>
      c <- idx buf i ;;
      let single ty := tokenizeIndices buf rest (tokens ++ [mkToken ty i (uint32 (i + 1))]) in
      if Byte.eqb c "{" then single TokenObjectBegin
      else if Byte.eqb c "}" then single TokenObjectEnd
      else if Byte.eqb c "[" then single TokenArrayBegin
      else if Byte.eqb c "]" then single TokenArrayEnd
      else if Byte.eqb c ":" then single TokenColon
      else if Byte.eqb c "," then single TokenComma
      else if Byte.eqb c quote then
        found <- findClosingQuote (S (List.length buf)) buf (uint32 (i + 1)) ;;
        match found with
        | Some e => tokenizeIndices buf rest (tokens ++ [mkToken TokenString i e])
        | None => Err "unterminated string"
        end
      else
        ty <- detectValueType buf i ;;
        e <- findValueEnd (S (List.length buf)) buf i ;;
        tokenizeIndices buf rest (tokens ++ [mkToken ty i e])
  end.

(** [Tokenize], on the buffer and the indices a scan has left. *)
Definition Tokenize (buf : list byte) (indices : list Z) : outcome (list Token) :=
  if len indices =? 0 then Ok [] else tokenizeIndices buf indices [].

(** ** SimpleTokenize *)

(** [for i < len(data) && p(data[i]) { i++ }] *)
Fixpoint scanWhile (p : byte -> bool) (fuel : nat) (data : list byte) (i : Z) : outcome Z :=
  match fuel with
  | O => Diverge
  | S fuel' =>
      b <- inRangeAnd data i p ;;
      if b then scanWhile p fuel' data (i + 1) else Ok i
  end.

(** [for j := i - 1; j >= 0 && data[j] == '\\'; j-- { backslashes++ }] *)
Fixpoint countBackslashes (fuel : nat) (data : list byte) (j : Z) (backslashes : Z)
  : outcome Z :=
  match fuel with
  | O => Diverge
  | S fuel' =>
      if 0 <=? j then
        c <- idx data j ;;
        if Byte.eqb c backslash then countBackslashes fuel' data (j - 1) (backslashes + 1)
        else Ok backslashes
      else Ok backslashes
  end.

(** The string case's [for i < len(data) { ... }], entered after the
    opening quote; the result is [i] at loop exit. *)
Fixpoint scanStringLoop (fuel : nat) (data : list byte) (i : Z) : outcome Z :=
  match fuel with
  | O => Diverge
  | S fuel' =>
      if i <? len data then
        c <- idx data i ;;
        if Byte.eqb c quote then
          backslashes <- countBackslashes (S (List.length data)) data (i - 1) 0 ;;
          let escaped := Z.rem backslashes 2 =? 1 in
          if negb escaped then Ok (i + 1)
          else scanStringLoop fuel' data (i + 1)
        else scanStringLoop fuel' data (i + 1)
      else Ok i
  end.

(** [i+n <= len(data) && string(data[i:i+n]) == lit], [n = len(lit)] *)
Definition matchLiteral (data : list byte) (i : Z) (lit : list byte) : outcome bool :=
  if i + len lit <=? len data then
    s <- slice data i (i + len lit) ;;
    Ok (bytes_eqb s lit)
  else Ok false.

(** The number case; the result is [i] when the lexeme is complete. *)
Definition lexNumber (data : list byte) (i : Z) (c : byte) : outcome Z :=
  let fuel := S (List.length data) in
  let numStart := i in
  i <- (if Byte.eqb c "-" then
          let i := i + 1 in
          d <- inRangeAnd data i isDigit ;;
          if negb d then Err "invalid number: missing digits after minus" else Ok i
        else Ok i) ;;
  d <- inRangeAnd data i isDigit ;;
  if negb d then Err "invalid number: no digits"
  else
    c0 <- idx data i ;;
    i <- (if Byte.eqb c0 "0" then
            let i := i + 1 in
            d <- inRangeAnd data i isDigit ;;
            if d then Err "invalid number: leading zero" else Ok i
          else scanWhile isDigit fuel data i) ;;
    isDot <- inRangeAnd data i (fun c => Byte.eqb c ".") ;;
    i <- (if isDot then
            let i := i + 1 in
            d <- inRangeAnd data i isDigit ;;
            if negb d then Err "invalid number: no digits after decimal"
            else scanWhile isDigit fuel data i
          else Ok i) ;;
    isExp <- inRangeAnd data i (fun c => Byte.eqb c "e" || Byte.eqb c "E") ;;
    i <- (if isExp then
            let i := i + 1 in
            sign <- inRangeAnd data i (fun c => Byte.eqb c "+" || Byte.eqb c "-") ;;
            let i := if sign then i + 1 else i in
            d <- inRangeAnd data i isDigit ;;
            if negb d then Err "invalid number: no digits in exponent"
            else scanWhile isDigit fuel data i
          else Ok i) ;;
    bad <- (if i <=? numStart then Ok true
            else if numStart =? i - 1 then
              c <- idx data numStart ;; Ok (Byte.eqb c "-")
            else Ok false) ;;
    if bad then Err "invalid number" else Ok i.

(** The one-token lookback that precedes the switch. *)
Definition lookback (tokens : list Token) (c : byte) : outcome unit :=
  if 0 <? len tokens then
    lastToken <- idx tokens (len tokens - 1) ;;
    let last := Type_ lastToken in
    if TokenType_eqb last TokenColon
       && (Byte.eqb c "}" || Byte.eqb c "]" || Byte.eqb c ",")
    then Err "expected value after colon"
    else if TokenType_eqb last TokenComma && Byte.eqb c "," then Err "unexpected comma"
    else if TokenType_eqb last TokenComma && Byte.eqb c "}" then Err "trailing comma in object"
    else if TokenType_eqb last TokenComma && Byte.eqb c "]" then Err "trailing comma in array"
    else Ok tt
  else Ok tt.

(** [switch c { ... }]: the token that starts at [i] and the index after it. *)
Definition lexToken (data : list byte) (i : Z) (c : byte) : outcome (Token * Z) :=
  let single ty := Ok (mkToken ty (uint32 i) (uint32 (i + 1)), i + 1) in
  let keyword ty lit msg :=
    m <- matchLiteral data i lit ;;
    if m then Ok (mkToken ty (uint32 i) (uint32 (i + len lit)), i + len lit)
    else Err msg in
  if Byte.eqb c "{" then single TokenObjectBegin
  else if Byte.eqb c "}" then single TokenObjectEnd
  else if Byte.eqb c "[" then single TokenArrayBegin
  else if Byte.eqb c "]" then single TokenArrayEnd
  else if Byte.eqb c ":" then single TokenColon
  else if Byte.eqb c "," then single TokenComma
  else if Byte.eqb c quote then
    j <- scanStringLoop (S (List.length data)) data (i + 1) ;;
    Ok (mkToken TokenString (uint32 i) (uint32 j), j)
  else if Byte.eqb c "t" then
    keyword TokenTrue (bytes "true") "invalid token starting with 't'"%string
  else if Byte.eqb c "f" then
    keyword TokenFalse (bytes "false") "invalid token starting with 'f'"%string
  else if Byte.eqb c "n" then
    keyword TokenNull (bytes "null") "invalid token starting with 'n'"%string
  else if Byte.eqb c "-" || isDigit c then
    j <- lexNumber data i c ;;
    Ok (mkToken TokenNumber (uint32 i) (uint32 j), j)
  else Err (String.append "unexpected character: " (String (ascii_of_byte c) EmptyString)).

(** The outer [for i < len(data) { ... }]. *)
Fixpoint tokenizeLoop (fuel : nat) (data : list byte) (tokens : list Token) (i : Z)
  : outcome (list Token) :=
  match fuel with
  | O => Diverge
  | S fuel' =>
      if i <? len data then
        i <- scanWhile isWhitespace (S (List.length data)) data i ;;
        if len data <=? i then Ok tokens
        else
          c <- idx data i ;;
          _ <- lookback tokens c ;;
          '(token, i) <- lexToken data i c ;;
          tokenizeLoop fuel' data (tokens ++ [token]) i
      else Ok tokens
  end.

(** [SimpleTokenize]; [getTokenSlice] hands out an empty token slice. *)
Definition SimpleTokenize (data : list byte) : outcome (list Token) :=
  if len data =? 0 then Err "empty input"
  else tokenizeLoop (S (List.length data)) data [] 0.

(** ** Validate *)

(** [for _, token := range tokens { ... }] followed by the final test;
    an early [return false] is [Ok false]. *)
Fixpoint validateLoop (tokens : list Token) (depth : Z) (stack : list TokenType)
  : outcome bool :=
  match tokens with
  | [] => Ok ((depth =? 0) && (len stack =? 0))
  | token :: rest =>
      let continue depth stack :=
        if depth <? 0 then Ok false else validateLoop rest depth stack in
      let close opener :=
        let depth := depth - 1 in
        if len stack =? 0 then Ok false
        else
          top <- idx stack (len stack - 1) ;;
          if negb (TokenType_eqb top opener) then Ok false
          else
            stack <- slice stack 0 (len stack - 1) ;;
            continue depth stack in
      match Type_ token with
      | TokenObjectBegin => continue (depth + 1) (stack ++ [TokenObjectBegin])
      | TokenArrayBegin => continue (depth + 1) (stack ++ [TokenArrayBegin])
      | TokenObjectEnd => close TokenObjectBegin
      | TokenArrayEnd => close TokenArrayBegin
      | _ => continue depth stack
      end
  end.

Definition Validate (data : list byte) : outcome bool :=
  match SimpleTokenize data with
  | Ok tokens => validateLoop tokens 0 []
  | Err _ => Ok false
  | Panic m => Panic m
  | Diverge => Diverge
  end.
(** ** The standard-library conversions the parser calls

    [strconv] and the [string(rune)] conversion are not part of the
    repository; they are modelled from their documentation, on the inputs
    the parser can pass to them. *)

(** The value of a run of ASCII digits. *)
Definition decimalValue (digits : list byte) : Z :=
  fold_left (fun acc c => acc * 10 + (byteZ c - 48)) digits 0.

(** [strconv.ParseInt(s, 10, 64)]: an optional sign and one or more
    decimal digits, with a range error outside [int64]. *)
Definition ParseInt (s : list byte) : outcome Z :=
  match s with
  | [] => Err "strconv.ParseInt: invalid syntax"
  | c :: rest =>
      let neg := Byte.eqb c "-" in
      let body := if Byte.eqb c "+" || neg then rest else s in
      if (len body =? 0) || negb (forallb isDigit body)
      then Err "strconv.ParseInt: invalid syntax"
      else
        let un := decimalValue body in
        if negb neg && (9223372036854775808 <=? un) then Err "strconv.ParseInt: value out of range"
        else if neg && (9223372036854775808 <? un) then Err "strconv.ParseInt: value out of range"
        else Ok (if neg then - un else un)
  end.

Definition hexVal (c : byte) : option Z :=
  let v := byteZ c in
  if (48 <=? v) && (v <=? 57) then Some (v - 48)
  else if (97 <=? v) && (v <=? 102) then Some (v - 97 + 10)
  else if (65 <=? v) && (v <=? 70) then Some (v - 65 + 10)
  else None.

(** [strconv.ParseUint(s, 16, 16)] *)
Fixpoint ParseUint16 (s : list byte) (acc : Z) : outcome Z :=
  match s with
  | [] => Ok acc
  | c :: rest =>
      match hexVal c with
      | Some v => ParseUint16 rest (acc * 16 + v)
      | None => Err "strconv.ParseUint: invalid syntax"
      end
  end.

Definition ParseUint_16_16 (s : list byte) : outcome Z :=
  if len s =? 0 then Err "strconv.ParseUint: invalid syntax"
  else
    r <- ParseUint16 s 0 ;;
    if 65536 <=? r then Err "strconv.ParseUint: value out of range" else Ok r.

Definition byteOfZ (z : Z) : byte :=
  match Byte.of_N (Z.to_N z) with Some b => b | None => x00 end.

(** [string(rune(r))] for [0 <= r < 2^16]: the UTF-8 encoding of [r], and
    that of U+FFFD for a surrogate. *)
Definition encodeRune (r : Z) : list byte :=
  if r <? 0x80 then [byteOfZ r]
  else if r <? 0x800 then
    [byteOfZ (Z.lor 0xC0 (Z.shiftr r 6)); byteOfZ (Z.lor 0x80 (Z.land r 0x3F))]
  else if (0xD800 <=? r) && (r <=? 0xDFFF) then [xef; xbf; xbd]
  else
    [byteOfZ (Z.lor 0xE0 (Z.shiftr r 12));
     byteOfZ (Z.lor 0x80 (Z.land (Z.shiftr r 6) 0x3F));
     byteOfZ (Z.lor 0x80 (Z.land r 0x3F))].

(** A decimal numeral read exactly: [(-1)^dneg * mantissa * 10^exponent].
    A [float64] result is carried as the numeral it was converted from. *)
Record decimal : Type := mkDecimal { dneg : bool; mantissa : Z; exponent : Z }.

(** The longest prefix of digits, and what follows it. *)
Fixpoint spanDigits (s : list byte) : list byte * list byte :=
  match s with
  | c :: rest =>
      if isDigit c then let '(d, r) := spanDigits rest in (c :: d, r) else ([], s)
  | [] => ([], [])
  end.

Definition readDecimal (s : list byte) : option decimal :=
  let '(neg, s) :=
    match s with
    | c :: rest =>
        if Byte.eqb c "-" then (true, rest)
        else if Byte.eqb c "+" then (false, rest) else (false, s)
    | [] => (false, s)
    end in
  let '(intDigits, s) := spanDigits s in
  let '(fracDigits, s) :=
    match s with
    | c :: rest => if Byte.eqb c "." then spanDigits rest else ([], s)
    | [] => ([], s)
    end in
  if len (intDigits ++ fracDigits) =? 0 then None
  else
    let m := decimalValue (intDigits ++ fracDigits) in
    match s with
    | [] => Some (mkDecimal neg m (- len fracDigits))
    | c :: rest =>
        if Byte.eqb c "e" || Byte.eqb c "E" then
          let '(eneg, rest) :=
            match rest with
            | c :: rest' =>
                if Byte.eqb c "-" then (true, rest')
                else if Byte.eqb c "+" then (false, rest') else (false, rest)
            | [] => (false, rest)
            end in
          let '(expDigits, rest) := spanDigits rest in
          match expDigits, rest with
          | _ :: _, [] =>
              let e := decimalValue expDigits in
              Some (mkDecimal neg m ((if eneg then - e else e) - len fracDigits))
          | _, _ => None
          end
        else None
    end.

(** The numeral rounds to an infinity: it is at least the midpoint between
    the largest finite [float64] and [2^1024]. *)
Definition overflowsFloat64 (d : decimal) : bool :=
  let bound := 2 ^ 1024 - 2 ^ 970 in
  if 0 <=? exponent d then bound <=? mantissa d * 10 ^ exponent d
  else bound * 10 ^ (- exponent d) <=? mantissa d.

(** [strconv.ParseFloat(s, 64)] on decimal numerals. *)
Definition ParseFloat (s : list byte) : outcome decimal :=
  match readDecimal s with
  | Some d =>
      if overflowsFloat64 d then Err "strconv.ParseFloat: value out of range" else Ok d
  | None => Err "strconv.ParseFloat: invalid syntax"
  end.

(** ** Values *)

(** What [Parse] returns as [interface{}]: [nil], [bool], [int64],
    [float64], [string], [[]interface{}], [map[string]interface{}].  A map
    is kept as an association list without repeated keys. *)
#[warnings="-register-all"]
Inductive Value : Type :=
| VNull
| VBool (b : bool)
| VInt (n : Z)
| VFloat (d : decimal)
| VString (s : list byte)
| VArray (elems : list Value)
| VObject (fields : list (list byte * Value)).

(** [obj[key] = value] *)
Fixpoint mapSet (obj : list (list byte * Value)) (key : list byte) (value : Value)
  : list (list byte * Value) :=
  match obj with
  | [] => [(key, value)]
  | (k, v) :: obj' =>
      if bytes_eqb k key then (k, value) :: obj' else (k, v) :: mapSet obj' key value
  end.

(** ** Parser *)

(** The build the parser is compiled for; amd64 reaches the integer
    primitive through assembly and is left out. *)
Inductive arch : Type := arm64 | generic.

Definition SIMDParseInteger (a : arch) (data : list byte) : outcome (Z * bool) :=
  match a with
  | arm64 => Arm64.SIMDParseInteger data
  | generic => Generic.SIMDParseInteger data
  end.

Definition containsEscape (b : list byte) : bool :=
  existsb (fun c => Byte.eqb c backslash) b.

Definition containsFloatCharsBytes (b : list byte) : bool :=
  existsb (fun c => Byte.eqb c "." || Byte.eqb c "e" || Byte.eqb c "E") b.

(** [for i := 0; i < len(b); i++ { ... }] of [unescapeString] *)
Fixpoint unescapeLoop (fuel : nat) (b : list byte) (i : Z) (buf : list byte)
  : outcome (list byte) :=
  match fuel with
  | O => Diverge
  | S fuel' =>
      if i <? len b then
        c <- idx b i ;;
        if negb (Byte.eqb c backslash) then unescapeLoop fuel' b (i + 1) (buf ++ [c])
        else if len b <=? i + 1 then Err "invalid escape sequence"
        else
          let i := i + 1 in
          e <- idx b i ;;
          if Byte.eqb e quote || Byte.eqb e backslash || Byte.eqb e "/" then
            unescapeLoop fuel' b (i + 1) (buf ++ [e])
          else if Byte.eqb e "b" then unescapeLoop fuel' b (i + 1) (buf ++ [x08])
          else if Byte.eqb e "f" then unescapeLoop fuel' b (i + 1) (buf ++ [x0c])
          else if Byte.eqb e "n" then unescapeLoop fuel' b (i + 1) (buf ++ [x0a])
          else if Byte.eqb e "r" then unescapeLoop fuel' b (i + 1) (buf ++ [x0d])
          else if Byte.eqb e "t" then unescapeLoop fuel' b (i + 1) (buf ++ [x09])
          else if Byte.eqb e "u" then
            if len b <=? i + 4 then Err "invalid unicode escape"
            else
              hex <- slice b (i + 1) (i + 5) ;;
              r <- ParseUint_16_16 hex ;;
              unescapeLoop fuel' b (i + 4 + 1) (buf ++ encodeRune r)
          else Err "invalid escape character"
      else Ok buf
  end.

Definition unescapeString (b : list byte) : outcome (list byte) :=
  unescapeLoop (S (List.length b)) b 0 [].

Section Parser.

Variable a : arch.
Variable data : list byte.     (* p.data *)
Variable tokens : list Token.  (* p.tokens *)

(** [p.pos < len(p.tokens) && p.tokens[p.pos].Type == ty] *)
Definition tokenTypeAt (pos : Z) (ty : TokenType) : outcome bool :=
  if pos <? len tokens then
    t <- idx tokens pos ;; Ok (TokenType_eqb (Type_ t) ty)
  else Ok false.

(** Every parsing function returns its value with the new [p.pos]. *)
Definition parseString (pos : Z) : outcome (Value * Z) :=
  token <- idx tokens pos ;;
  let pos := pos + 1 in
  let lo := uint32 (Start token + 1) in
  let hi := uint32 (End_ token - 1) in
  if hi <=? lo then Ok (VString [], pos)
  else
    str <- slice data lo hi ;;
    if negb (containsEscape str) then Ok (VString str, pos)
    else
      s <- unescapeString str ;;
      Ok (VString s, pos).

Definition parseNumber (pos : Z) : outcome (Value * Z) :=
  token <- idx tokens pos ;;
  let pos := pos + 1 in
  numBytes <- slice data (Start token) (End_ token) ;;
  asInteger <-
    (if negb (containsFloatCharsBytes numBytes) then
       '(val, ok) <- SIMDParseInteger a numBytes ;;
       if ok then Ok (Some val)
       else
         match ParseInt numBytes with
         | Ok val => Ok (Some val)
         | _ => Ok None
         end
     else Ok None) ;;
  match asInteger with
  | Some val => Ok (VInt val, pos)
  | None =>
      val <- ParseFloat numBytes ;;
      Ok (VFloat val, pos)
  end.

(** The [for { ... }] of [parseObject]; [parseValue] is the value parser
    of the enclosing call. *)
Fixpoint objectLoop (parseValue : Z -> outcome (Value * Z)) (fuel : nat)
    (obj : list (list byte * Value)) (pos : Z) : outcome (Value * Z) :=
  match fuel with
  | O => Diverge
  | S fuel' =>
      isKey <- tokenTypeAt pos TokenString ;;
      if negb isKey then Err "expected string key"
      else
        '(key, pos) <- parseString pos ;;
        isColon <- tokenTypeAt pos TokenColon ;;
        if negb isColon then Err "expected colon after key"
        else
          let pos := pos + 1 in
          '(value, pos) <- parseValue pos ;;
          let obj :=
            match key with
            | VString k => mapSet obj k value
            | _ => obj
            end in
          if len tokens <=? pos then Err "unexpected end in object"
          else
            t <- idx tokens pos ;;
            if TokenType_eqb (Type_ t) TokenObjectEnd then Ok (VObject obj, pos + 1)
            else if TokenType_eqb (Type_ t) TokenComma then
              objectLoop parseValue fuel' obj (pos + 1)
            else Err "expected comma or object end"
  end.

Definition parseObject (parseValue : Z -> outcome (Value * Z)) (fuel : nat) (pos : Z)
  : outcome (Value * Z) :=
  let pos := pos + 1 in
  isEnd <- tokenTypeAt pos TokenObjectEnd ;;
  if isEnd then Ok (VObject [], pos + 1)
  else objectLoop parseValue fuel [] pos.

(** The [for { ... }] of [parseArray]. *)
Fixpoint arrayLoop (parseValue : Z -> outcome (Value * Z)) (fuel : nat)
    (arr : list Value) (pos : Z) : outcome (Value * Z) :=
  match fuel with
  | O => Diverge
  | S fuel' =>
      '(value, pos) <- parseValue pos ;;
      let arr := arr ++ [value] in
      if len tokens <=? pos then Err "unexpected end in array"
      else
        t <- idx tokens pos ;;
        if TokenType_eqb (Type_ t) TokenArrayEnd then Ok (VArray arr, pos + 1)
        else if TokenType_eqb (Type_ t) TokenComma then
          arrayLoop parseValue fuel' arr (pos + 1)
        else Err "expected comma or array end"
  end.

Definition parseArray (parseValue : Z -> outcome (Value * Z)) (fuel : nat) (pos : Z)
  : outcome (Value * Z) :=
  let pos := pos + 1 in
  isEnd <- tokenTypeAt pos TokenArrayEnd ;;
  if isEnd then Ok (VArray [], pos + 1)
  else arrayLoop parseValue fuel [] pos.

(** [parseValue]; [fuel] bounds the nesting depth and, in each object or
    array, the number of members. *)
Fixpoint parseValue (fuel : nat) (pos : Z) : outcome (Value * Z) :=
  match fuel with
  | O => Diverge
  | S fuel' =>
      if len tokens <=? pos then Err "unexpected end of JSON"
      else
        token <- idx tokens pos ;;
        match Type_ token with
        | TokenObjectBegin => parseObject (parseValue fuel') fuel' pos
        | TokenArrayBegin => parseArray (parseValue fuel') fuel' pos
        | TokenString => parseString pos
        | TokenNumber => parseNumber pos
        | TokenTrue => Ok (VBool true, pos + 1)
        | TokenFalse => Ok (VBool false, pos + 1)
        | TokenNull => Ok (VNull, pos + 1)
        | _ => Err "unexpected token"
        end
  end.

End Parser.

(** [Parse] *)
Definition Parse (a : arch) (data : list byte) : outcome Value :=
  tokens <- SimpleTokenize data ;;
  if len tokens =? 0 then Err "empty JSON"
  else
    '(result, _) <- parseValue a data tokens (S (List.length tokens)) 0 ;;
    Ok result.
(** ** The leading-integer primitive as the specification words it *)

(** An optional ['-'], then the maximal run of ASCII digits; no digit, or
    a run whose value is beyond [MaxInt64], gives [(0, false)]. *)
Definition leadingInteger (data : list byte) : Z * bool :=
  let '(neg, body) :=
    match data with
    | c :: rest => if Byte.eqb c "-" then (true, rest) else (false, data)
    | [] => (false, data)
    end in
  let digits := fst (spanDigits body) in
  match digits with
  | [] => (0, false)
  | _ :: _ =>
      let v := decimalValue digits in
      if MaxInt64 <? v then (0, false) else (if neg then - v else v, true)
  end.

(** One step of the decimal accumulation. *)
Definition digitStep (acc : Z) (c : byte) : Z := acc * 10 + (byteZ c - 48).

(** ** Well-formed UTF-8, as the Unicode standard tabulates it

    (Table 3-7, well-formed UTF-8 byte sequences.) *)

Definition inRange (lo hi : Z) (c : byte) : bool := (lo <=? byteZ c) && (byteZ c <=? hi).

Definition isCont (c : byte) : bool := inRange 0x80 0xBF c.

Fixpoint utf8WellFormed (s : list byte) : bool :=
  match s with
  | [] => true
  | c0 :: rest =>
      if byteZ c0 <? 0x80 then utf8WellFormed rest
      else if inRange 0xC2 0xDF c0 then
        match rest with
        | c1 :: rest' => isCont c1 && utf8WellFormed rest'
        | _ => false
        end
      else if inRange 0xE0 0xEF c0 then
        match rest with
        | c1 :: c2 :: rest' =>
            (if Byte.eqb c0 xe0 then inRange 0xA0 0xBF c1
             else if Byte.eqb c0 xed then inRange 0x80 0x9F c1
             else isCont c1)
            && isCont c2 && utf8WellFormed rest'
        | _ => false
        end
      else if inRange 0xF0 0xF4 c0 then
        match rest with
        | c1 :: c2 :: c3 :: rest' =>
            (if Byte.eqb c0 xf0 then inRange 0x90 0xBF c1
             else if Byte.eqb c0 xf4 then inRange 0x80 0x8F c1
             else isCont c1)
            && isCont c2 && isCont c3 && utf8WellFormed rest'
        | _ => false
        end
      else false
  end.

(** Every byte, for properties decided by enumeration. *)
Definition allBytes : list byte :=
  map (fun n => byteOfZ (Z.of_nat n)) (seq 0 256).

(** What the scalar validator accepts, read off [decodeRuneInString]:
    ASCII bytes and two-byte sequences that are not overlong. *)
Definition twoByteOk (c0 c1 : byte) : bool :=
  negb ((byteZ c1 <? 0x80) || (0xC0 <=? byteZ c1))
  && negb (Z.lor (Z.shiftl (Z.land (byteZ c0) 0x1F) 6) (Z.land (byteZ c1) 0x3F) <? 0x80).

Fixpoint scalarAccepts (s : list byte) : bool :=
  match s with
  | [] => true
  | c0 :: rest =>
      if byteZ c0 <? 0x80 then scalarAccepts rest
      else if byteZ c0 <? 0xC0 then false
      else if byteZ c0 <? 0xE0 then
        match rest with
        | c1 :: rest' => twoByteOk c0 c1 && scalarAccepts rest'
        | [] => false
        end
      else false
  end.

(** ** Reading a quote mask, and the bytes the scalar scan marks *)

(** Bit [i mod 64] of word [i / 64]. *)
Definition bitAt (masks : list Z) (i : Z) : bool :=
  Z.testbit (nth (Z.to_nat (i / 64)) masks 0) (i mod 64).

(** For each byte, whether the scalar scan marks it: a quote is marked
    unless the scan skips it as the byte that follows a backslash inside a
    string; a marked quote opens or closes a string. *)
Fixpoint markedQuotes (data : list byte) (inString escaped : bool) : list bool :=
  match data with
  | [] => []
  | b :: rest =>
      if escaped then false :: markedQuotes rest inString false
      else if Byte.eqb b backslash && inString then false :: markedQuotes rest inString true
      else if Byte.eqb b quote then true :: markedQuotes rest (negb inString) false
      else false :: markedQuotes rest inString false
  end.

(** ** Outcomes that return *)

(** [sat P o]: the call returns, and a value it returns satisfies [P]. *)
Definition sat {A} (P : A -> Prop) (o : outcome A) : Prop :=
  match o with
  | Ok a => P a
  | Err _ => True
  | Panic _ | Diverge => False
  end.

(** ** The shape of a token sequence *)

(** Consecutive spans [s < e] between [lo] and [n], each token carrying its
    span through the [uint32] conversion. *)
Fixpoint tokenSpans (lo n : Z) (toks : list Token) : Prop :=
  match toks with
  | [] => True
  | t :: rest =>
      exists s e,
        Start t = uint32 s /\ End_ t = uint32 e /\ lo <= s /\ s < e /\ e <= n
        /\ tokenSpans e n rest
  end.

(** A token begun at [i], with the index after it. *)
Definition spanOf (data : list byte) (i : Z) (p : Token * Z) : Prop :=
  Start (fst p) = uint32 i /\ End_ (fst p) = uint32 (snd p)
  /\ i < snd p /\ snd p <= len data.

(** ** The shape of a number lexeme *)

Definition isFloatChar (c : byte) : bool :=
  Byte.eqb c "." || Byte.eqb c "e" || Byte.eqb c "E".

(** [data[k]] exists and satisfies [p]. *)
Definition byteIs (data : list byte) (p : byte -> bool) (k : Z) : Prop :=
  exists c, nth_error data (Z.to_nat k) = Some c /\ p c = true.

(** What [lexNumber] has seen when it returns [j] for a lexeme begun at
    [i]: after the optional sign a non-empty run of digits up to [i2], and
    then either the end of the lexeme or a ['.'], ['e'] or ['E']. *)
Definition numberShape (data : list byte) (i : Z) (c : byte) (j : Z) : Prop :=
  let i1 := if Byte.eqb c "-" then i + 1 else i in
  exists i2,
    i1 < i2 /\ i2 <= j /\ j <= len data
    /\ (forall k, i1 <= k < i2 -> byteIs data isDigit k)
    /\ (i2 = j \/ (i2 < j /\ byteIs data isFloatChar i2)).

(** ** The integer a sign-and-digits lexeme denotes *)

Definition signedValue (b : list byte) : Z :=
  match b with
  | c :: rest => if Byte.eqb c "-" then - decimalValue rest else decimalValue b
  | [] => 0
  end.

Definition inInt64 (z : Z) : bool := (MinInt64 <=? z) && (z <=? MaxInt64).

(** A sign-and-digits lexeme, as both integer primitives see it. *)
Definition signDigits (b : list byte) : Prop :=
  match b with
  | c :: rest =>
      if Byte.eqb c "-"
      then rest <> [] /\ Forall (fun c => isDigit c = true) rest
      else Forall (fun c => isDigit c = true) b
  | [] => False
  end.

(** ** Auxiliary notions for the parser *)

(** A value parser whose successes stay inside [tokens] and are kept by a
    second one. *)
Definition extends (tokens : list Token) (pv1 pv2 : Z -> outcome (Value * Z)) : Prop :=
  forall p r, pv1 p = Ok r -> p < len tokens /\ pv2 p = Ok r.

(** Every token is a non-empty span of [data]. *)
Definition tokensInData (data : list byte) (tokens : list Token) : Prop :=
  Forall (fun t => 0 <= Start t /\ Start t < End_ t /\ End_ t <= len data) tokens.

(** A parsing step from [pos] returns and, when it succeeds, has consumed
    at least one token and none beyond the last. *)
Definition advances (tokens : list Token) (pos : Z) (o : outcome (Value * Z)) : Prop :=
  sat (fun r => pos < snd r /\ snd r <= len tokens) o.

(** ** A buffer of 2^32 bytes *)

(** [n] spaces and the digit [1]. *)
Definition spacesThenOne (n : nat) : list byte := repeat " "%byte n ++ ["1"%byte].

Definition fourGiB : list byte := spacesThenOne (Z.to_nat 4294967295).

(** ** Aligned buffers (internal/scanner, memory alignment utilities)

    Addresses are 64-bit words; the address at which [make] places a new
    array is an argument of the function that allocates.  Running out of
    memory is not modelled.  The build for other architectures carries a
    second [NewAlignedBuffer], which does not align; the one below is that
    of the alignment utilities, which [ProcessAligned] sits next to. *)

Definition uintptr (z : Z) : Z := z mod 18446744073709551616.

(** [make([]byte, n)] *)
Definition makeBytes (n : Z) : outcome (list byte) :=
  if n <? 0 then Panic "makeslice: len out of range" else Ok (repeat x00 (Z.to_nat n)).

(** [copy(dst, src)]: [dst] after the call. *)
Definition copyBytes (dst src : list byte) : list byte :=
  firstn (List.length dst) src ++ skipn (List.length src) dst.

(** [AlignedBuffer]: the array [data] at address [ab_addr], and the slice
    [aligned], which is [data[ab_offset : ab_offset+ab_len]]. *)
Record AlignedBuffer : Type := mkAlignedBuffer {
  ab_addr : Z;
  ab_data : list byte;
  ab_offset : Z;
  ab_len : Z;
  ab_capacity : Z
}.

(** [Bytes] *)
Definition Bytes (ab : AlignedBuffer) : list byte :=
  firstn (Z.to_nat (ab_len ab)) (skipn (Z.to_nat (ab_offset ab)) (ab_data ab)).

(** The address of [aligned[0]]. *)
Definition alignedAddr (ab : AlignedBuffer) : Z := ab_addr ab + ab_offset ab.

(** [IsAligned] *)
Definition IsAligned (ptr : Z) (alignment : Z) : bool :=
  Z.land ptr (uintptr (int64 (alignment - 1))) =? 0.

(** [NewAlignedBuffer], with [addr] the address of the new array. *)
Definition NewAlignedBuffer (addr : Z) (size alignment : Z) : outcome AlignedBuffer :=
  let totalSize := int64 (int64 (size + alignment) - 1) in
  data <- makeBytes totalSize ;;
  _ <- idx data 0 ;;
  let mask := uintptr (int64 (alignment - 1)) in
  let aligned := Z.ldiff (uintptr (addr + mask)) mask in
  let offset := uintptr (aligned - addr) in
  let hi := uintptr (offset + uintptr size) in
  _ <- slice data offset hi ;;
  Ok (mkAlignedBuffer addr data offset (hi - offset) size).

(** [Resize]; [addr] is the address of the array a reallocation would get.
    [ab.aligned[:newSize]] may reach up to the capacity of [aligned], the
    end of [data]. *)
Definition Resize (addr : Z) (ab : AlignedBuffer) (newSize alignment : Z)
  : outcome AlignedBuffer :=
  if newSize <=? ab_capacity ab then
    if (0 <=? newSize) && (newSize <=? len (ab_data ab) - ab_offset ab) then
      Ok (mkAlignedBuffer (ab_addr ab) (ab_data ab) (ab_offset ab) newSize (ab_capacity ab))
    else Panic "slice bounds out of range"
  else NewAlignedBuffer addr newSize alignment.

(** [PadToAlignment] *)
Definition PadToAlignment (data : list byte) (alignment : Z) : outcome (list byte) :=
  if alignment =? 0 then Panic "integer divide by zero"
  else
    let remainder := Z.rem (len data) alignment in
    if remainder =? 0 then Ok data
    else
      let padSize := int64 (alignment - remainder) in
      padded <- makeBytes (int64 (len data + padSize)) ;;
      Ok (copyBytes padded data).

Section ProcessAligned.

(** The processor, a closure: its state before the call, the chunk, and
    its state after the call or its error.  It is taken not to write to
    the chunk. *)
Variable St : Type.
Variable processor : St -> list byte -> outcome St.

(** [for i := 0; i+chunkSize <= len(data); i += chunkSize { ... }] *)
Fixpoint chunkLoop (fuel : nat) (data : list byte) (chunkSize : Z) (i : Z) (st : St)
  : outcome St :=
  match fuel with
  | O => Diverge
  | S fuel' =>
      if int64 (i + chunkSize) <=? len data then
        chunk <- slice data i (int64 (i + chunkSize)) ;;
        st <- processor st chunk ;;
        chunkLoop fuel' data chunkSize (int64 (i + chunkSize)) st
      else Ok st
  end.

(** [ProcessAligned]; [addr] is the address of [data[0]], [fresh] the
    address of the array a copy would get. *)
Definition ProcessAligned (addr fresh : Z) (data : list byte) (chunkSize : Z) (st : St)
  : outcome St :=
  _ <- idx data 0 ;;
  data <-
    (if negb (IsAligned addr chunkSize) then
       aligned <- NewAlignedBuffer fresh (len data) chunkSize ;;
       Ok (copyBytes (Bytes aligned) data)
     else Ok data) ;;
  st <- chunkLoop (S (List.length data)) data chunkSize 0 st ;;
  if chunkSize =? 0 then Panic "integer divide by zero"
  else
    let remainder := Z.rem (len data) chunkSize in
    if 0 <? remainder then
      padded <- makeBytes chunkSize ;;
      rest <- slice data (len data - remainder) (len data) ;;
      chunk <- slice (copyBytes padded rest) 0 remainder ;;
      processor st chunk
    else Ok st.

End ProcessAligned.

(** ** The encoder's scalars and strings (encoder.go)

    [for _, r := range s], [string(r)] and [strconv]'s formatting are the
    standard library's; they are modelled from their documentation. *)

(** The rune at the head of [s] and its width in bytes, as a [range] loop
    decodes it: an ill-formed or truncated sequence is U+FFFD of width 1. *)
Definition decodeRune (s : list byte) : Z * Z :=
  match s with
  | [] => (RuneError, 0)
  | c0 :: rest =>
      let b0 := byteZ c0 in
      if b0 <? 0x80 then (b0, 1)
      else if inRange 0xC2 0xDF c0 then
        match rest with
        | c1 :: _ =>
            if isCont c1
            then (Z.lor (Z.shiftl (Z.land b0 0x1F) 6) (Z.land (byteZ c1) 0x3F), 2)
            else (RuneError, 1)
        | [] => (RuneError, 1)
        end
      else if inRange 0xE0 0xEF c0 then
        match rest with
        | c1 :: c2 :: _ =>
            if (if Byte.eqb c0 xe0 then inRange 0xA0 0xBF c1
                else if Byte.eqb c0 xed then inRange 0x80 0x9F c1
                else isCont c1)
               && isCont c2
            then (Z.lor (Z.lor (Z.shiftl (Z.land b0 0x0F) 12)
                               (Z.shiftl (Z.land (byteZ c1) 0x3F) 6))
                        (Z.land (byteZ c2) 0x3F), 3)
            else (RuneError, 1)
        | _ => (RuneError, 1)
        end
      else if inRange 0xF0 0xF4 c0 then
        match rest with
        | c1 :: c2 :: c3 :: _ =>
            if (if Byte.eqb c0 xf0 then inRange 0x90 0xBF c1
                else if Byte.eqb c0 xf4 then inRange 0x80 0x8F c1
                else isCont c1)
               && isCont c2 && isCont c3
            then (Z.lor (Z.lor (Z.lor (Z.shiftl (Z.land b0 0x07) 18)
                                      (Z.shiftl (Z.land (byteZ c1) 0x3F) 12))
                               (Z.shiftl (Z.land (byteZ c2) 0x3F) 6))
                        (Z.land (byteZ c3) 0x3F), 4)
            else (RuneError, 1)
        | _ => (RuneError, 1)
        end
      else (RuneError, 1)
  end.

(** [for i, r := range s]: the pairs [(i, r)] in order. *)
Fixpoint rangeFrom (fuel : nat) (s : list byte) (i : Z) : list (Z * Z) :=
  match fuel with
  | O => []
  | S fuel' =>
      match s with
      | [] => []
      | _ :: _ =>
          let '(r, size) := decodeRune s in
          (i, r) :: rangeFrom fuel' (skipn (Z.to_nat size) s) (i + size)
      end
  end.

Definition rangeString (s : list byte) : list (Z * Z) := rangeFrom (List.length s) s 0.

(** [string(r)]: the UTF-8 encoding of [r], and that of U+FFFD when [r] is
    not a Unicode scalar value. *)
Definition stringOfRune (r : Z) : list byte :=
  if (r <? 0) || (0x10FFFF <? r) || ((0xD800 <=? r) && (r <=? 0xDFFF)) then [xef; xbf; xbd]
  else if r <? 0x80 then [byteOfZ r]
  else if r <? 0x800 then
    [byteOfZ (Z.lor 0xC0 (Z.shiftr r 6)); byteOfZ (Z.lor 0x80 (Z.land r 0x3F))]
  else if r <? 0x10000 then
    [byteOfZ (Z.lor 0xE0 (Z.shiftr r 12));
     byteOfZ (Z.lor 0x80 (Z.land (Z.shiftr r 6) 0x3F));
     byteOfZ (Z.lor 0x80 (Z.land r 0x3F))]
  else
    [byteOfZ (Z.lor 0xF0 (Z.shiftr r 18));
     byteOfZ (Z.lor 0x80 (Z.land (Z.shiftr r 12) 0x3F));
     byteOfZ (Z.lor 0x80 (Z.land (Z.shiftr r 6) 0x3F));
     byteOfZ (Z.lor 0x80 (Z.land r 0x3F))].

(** The digits of [n >= 0] in base [base], most significant first. *)
Fixpoint digitsIn (base : Z) (fuel : nat) (n : Z) (acc : list byte) : list byte :=
  match fuel with
  | O => acc
  | S fuel' =>
      let d := n mod base in
      let c := byteOfZ (if d <? 10 then 48 + d else 97 + (d - 10)) in
      if n <? base then c :: acc else digitsIn base fuel' (n / base) (c :: acc)
  end.

(** [strconv.FormatUint(u, base)] for a [uint64], which has at most 64 digits. *)
Definition FormatUint (u : Z) (base : Z) : list byte := digitsIn base 64 u [].

(** [strconv.FormatInt(i, base)] for an [int64] *)
Definition FormatInt (i : Z) (base : Z) : list byte :=
  if i <? 0 then "-"%byte :: FormatUint (- i) base else FormatUint i base.

(** [needsEscape] *)
Definition needsEscape (s : list byte) : bool :=
  existsb (fun p => (snd p <? 0x20) || (snd p =? 0x22) || (snd p =? 0x5C)) (rangeString s).

(** The body of [appendEscapedString]'s loop, for the rune [r]. *)
Definition appendRune (dst : list byte) (r : Z) : outcome (list byte) :=
  if r =? 0x22 then Ok (dst ++ [backslash; quote])
  else if r =? 0x5C then Ok (dst ++ [backslash; backslash])
  else if r =? 0x08 then Ok (dst ++ [backslash; "b"%byte])
  else if r =? 0x0C then Ok (dst ++ [backslash; "f"%byte])
  else if r =? 0x0A then Ok (dst ++ [backslash; "n"%byte])
  else if r =? 0x0D then Ok (dst ++ [backslash; "r"%byte])
  else if r =? 0x09 then Ok (dst ++ [backslash; "t"%byte])
  else if r <? 0x20 then
    let dst := dst ++ [backslash; "u"%byte] in
    let dst := dst ++ bytes "0000" in
    let hex := FormatInt (int64 r) 16 in
    target <- slice dst (len dst - len hex) (len dst) ;;
    Ok (firstn (Z.to_nat (len dst - len hex)) dst ++ copyBytes target hex)
  else Ok (dst ++ stringOfRune r).

Fixpoint appendRunes (runes : list (Z * Z)) (dst : list byte) : outcome (list byte) :=
  match runes with
  | [] => Ok dst
  | (_, r) :: runes' =>
      dst <- appendRune dst r ;;
      appendRunes runes' dst
  end.

(** [appendEscapedString] *)
Definition appendEscapedString (dst s : list byte) : outcome (list byte) :=
  appendRunes (rangeString s) dst.

(** The encoding methods, as functions from [e.buf] to [e.buf]. *)

(** [strconv.AppendInt(e.buf, i, 10)] *)
Definition encodeInt (buf : list byte) (i : Z) : outcome (list byte) :=
  Ok (buf ++ FormatInt i 10).

(** [strconv.AppendUint(e.buf, u, 10)] *)
Definition encodeUint (buf : list byte) (u : Z) : outcome (list byte) :=
  Ok (buf ++ FormatUint u 10).

Definition encodeString (buf s : list byte) : outcome (list byte) :=
  let buf := buf ++ [quote] in
  if negb (needsEscape s) then Ok ((buf ++ s) ++ [quote])
  else
    buf <- appendEscapedString buf s ;;
    Ok (buf ++ [quote]).

(** [findComma] (decoder.go), used on struct tags by both directions. *)
Definition findComma (s : list byte) : Z :=
  match find (fun p => snd p =? 0x2C) (rangeString s) with
  | Some (i, _) => i
  | None => -1
  end.

(** [containsFloatChars] (parser.go), the [string] sibling of
    [containsFloatCharsBytes]. *)
Definition containsFloatChars (s : list byte) : bool :=
  existsb (fun p => (snd p =? 0x2E) || (snd p =? 0x65) || (snd p =? 0x45)) (rangeString s).

(** ** Auxiliary notions for the further properties *)

(** The digits that follow the optional sign. *)
Definition leadingDigits (data : list byte) : list byte :=
  match data with
  | c :: rest => fst (spanDigits (if Byte.eqb c "-" then rest else data))
  | [] => []
  end.

(** *** The scalar scan, read as a function of the bytes *)

(** One step of the scan's state [(inString, escaped)]. *)
Definition scanStep (st : bool * bool) (c : byte) : bool * bool :=
  if snd st then (fst st, false)
  else if Byte.eqb c backslash && fst st then (fst st, true)
  else if Byte.eqb c quote then (negb (fst st), false)
  else (fst st, false).

(** The state in which the scan reaches the byte that follows [pre]. *)
Definition scanState (pre : list byte) : bool * bool := fold_left scanStep pre (false, false).

Definition lastByte (pre : list byte) : option byte :=
  match rev pre with
  | c :: _ => Some c
  | [] => None
  end.

(** Whether the scan, outside a string, records [c] when [prev] precedes it. *)
Definition recordsOutside (prev : option byte) (c : byte) : bool :=
  let class := charClassifier c in
  if negb (class =? 0) && negb (class =? StructuralWhitespace) then true
  else if ((class =? 0) && isDigit c) || Byte.eqb c "-" || Byte.eqb c "t"
          || Byte.eqb c "f" || Byte.eqb c "n" then
    match prev with
    | None => true
    | Some p =>
        negb (charClassifier p =? 0) || Byte.eqb p " " || Byte.eqb p x09
        || Byte.eqb p x0a || Byte.eqb p x0d
    end
  else false.

(** For each byte of [data], whether the scan records its offset. *)
Fixpoint scanMarks (data : list byte) (prev : option byte) (st : bool * bool) : list bool :=
  match data with
  | [] => []
  | c :: rest =>
      (negb (snd st) && negb (Byte.eqb c backslash && fst st)
       && (Byte.eqb c quote || negb (fst st) && recordsOutside prev c))
      :: scanMarks rest (Some c) (scanStep st c)
  end.

(** The offsets of the marked entries, the first entry being at offset [i]. *)
Fixpoint marked (marks : list bool) (i : Z) : list Z :=
  match marks with
  | [] => []
  | b :: rest => if b then i :: marked rest (i + 1) else marked rest (i + 1)
  end.

(** The bytes whose offsets a scan can record: a quote, a backslash, a
    bracket, a colon, a comma, or the first byte of a number or literal. *)
Definition scanCandidate (c : byte) : bool :=
  Byte.eqb c quote || Byte.eqb c backslash || Byte.eqb c ":" || Byte.eqb c ","
  || Byte.eqb c "{" || Byte.eqb c "}" || Byte.eqb c "[" || Byte.eqb c "]"
  || isDigit c || Byte.eqb c "-" || Byte.eqb c "t" || Byte.eqb c "f" || Byte.eqb c "n".

(** Offsets into [buf] that increase strictly from [lo], each at a byte
    that satisfies [p]. *)
Fixpoint offsetsFrom (buf : list byte) (p : byte -> bool) (lo : Z) (ps : list Z) : Prop :=
  match ps with
  | [] => True
  | i :: rest => lo <= i /\ byteIs buf p i /\ offsetsFrom buf p (i + 1) rest
  end.

(** The number of backslashes that end [pre]. *)
Definition trailingBackslashes (pre : list byte) : Z :=
  (fix count (l : list byte) : Z :=
     match l with
     | c :: l' => if Byte.eqb c backslash then 1 + count l' else 0
     | [] => 0
     end) (rev pre).

(** A quote at offset [j] that an even number of backslashes precedes. *)
Definition closesAt (buf : list byte) (j : Z) : Prop :=
  0 <= j /\ nth_error buf (Z.to_nat j) = Some quote
  /\ (Z.rem (trailingBackslashes (firstn (Z.to_nat j) buf)) 2 =? 1) = false.

(** What [Tokenize]'s loop can answer on the indices [idxs], after the
    tokens [toks]: one token per index, or the one error it has, raised at
    a quote. *)
Definition tokenizeOutcome (buf : list byte) (idxs : list Z) (toks : list Token)
    (o : outcome (list Token)) : Prop :=
  match o with
  | Ok r =>
      exists new,
        r = toks ++ new /\ map Start new = idxs
        /\ Forall (fun t => Start t < End_ t /\ End_ t <= len buf) new
        /\ (forall q, In q idxs -> nth_error buf (Z.to_nat q) = Some quote ->
              exists j, q < j /\ closesAt buf j)
  | Err m =>
      m = "unterminated string"%string
      /\ exists q, In q idxs /\ nth_error buf (Z.to_nat q) = Some quote
  | Panic _ | Diverge => False
  end.

(** *** Matching brackets *)

Definition isBracket (t : TokenType) : bool :=
  match t with
  | TokenObjectBegin | TokenObjectEnd | TokenArrayBegin | TokenArrayEnd => true
  | _ => false
  end.

(** Token types whose brackets match in pairs; the other tokens are free. *)
Inductive balanced : list TokenType -> Prop :=
| balanced_nil : balanced []
| balanced_other (t : TokenType) (w : list TokenType) :
    isBracket t = false -> balanced w -> balanced (t :: w)
| balanced_object (w1 w2 : list TokenType) :
    balanced w1 -> balanced w2 ->
    balanced (TokenObjectBegin :: w1 ++ TokenObjectEnd :: w2)
| balanced_array (w1 w2 : list TokenType) :
    balanced w1 -> balanced w2 ->
    balanced (TokenArrayBegin :: w1 ++ TokenArrayEnd :: w2).

(** The validator's stack discipline, the innermost open bracket first. *)
Fixpoint bracketsClose (ts : list TokenType) (open : list TokenType) : bool :=
  match ts with
  | [] => match open with [] => true | _ :: _ => false end
  | t :: rest =>
      match t with
      | TokenObjectBegin => bracketsClose rest (TokenObjectBegin :: open)
      | TokenArrayBegin => bracketsClose rest (TokenArrayBegin :: open)
      | TokenObjectEnd =>
          match open with
          | TokenObjectBegin :: open' => bracketsClose rest open'
          | _ => false
          end
      | TokenArrayEnd =>
          match open with
          | TokenArrayBegin :: open' => bracketsClose rest open'
          | _ => false
          end
      | _ => bracketsClose rest open
      end
  end.

(** *** Tokens and the bytes they start at *)

(** The type of the token that [SimpleTokenize] begins at the byte [c]. *)
Definition tokenTypeOf (c : byte) : TokenType :=
  if Byte.eqb c "{" then TokenObjectBegin
  else if Byte.eqb c "}" then TokenObjectEnd
  else if Byte.eqb c "[" then TokenArrayBegin
  else if Byte.eqb c "]" then TokenArrayEnd
  else if Byte.eqb c ":" then TokenColon
  else if Byte.eqb c "," then TokenComma
  else if Byte.eqb c quote then TokenString
  else if Byte.eqb c "t" then TokenTrue
  else if Byte.eqb c "f" then TokenFalse
  else if Byte.eqb c "n" then TokenNull
  else if Byte.eqb c "-" || isDigit c then TokenNumber
  else TokenNone.

(** The pairs of neighbours that the tokenizer's lookback refuses. *)
Definition refusedAfter (last next : TokenType) : bool :=
  match last, next with
  | TokenColon, (TokenObjectEnd | TokenArrayEnd | TokenComma) => true
  | TokenComma, (TokenComma | TokenObjectEnd | TokenArrayEnd) => true
  | _, _ => false
  end.

(** No token is directly followed by one that the lookback refuses. *)
Definition wellSeparated (tokens : list Token) : Prop :=
  forall k t1 t2,
    nth_error tokens k = Some t1 -> nth_error tokens (S k) = Some t2 ->
    refusedAfter (Type_ t1) (Type_ t2) = false.

(** The bytes a token of each type spans, when the type fixes them. *)
Definition lexemeOf (ty : TokenType) : option (list byte) :=
  match ty with
  | TokenObjectBegin => Some (bytes "{")
  | TokenObjectEnd => Some (bytes "}")
  | TokenArrayBegin => Some (bytes "[")
  | TokenArrayEnd => Some (bytes "]")
  | TokenColon => Some (bytes ":")
  | TokenComma => Some (bytes ",")
  | TokenTrue => Some (bytes "true")
  | TokenFalse => Some (bytes "false")
  | TokenNull => Some (bytes "null")
  | _ => None
  end.

(** A token whose span in [data] starts with a byte of its type and, for
    punctuation and literals, is the lexeme of its type. *)
Definition tokenMatches (data : list byte) (t : Token) : Prop :=
  exists c s,
    nth_error data (Z.to_nat (Start t)) = Some c
    /\ Type_ t = tokenTypeOf c
    /\ Type_ t <> TokenNone
    /\ slice data (Start t) (End_ t) = Ok s
    /\ match lexemeOf (Type_ t) with
       | Some lexeme => s = lexeme
       | None => True
       end.

(** *** JSON numbers (RFC 8259, section 6) *)

(** [data[a:b]] as a list. *)
Definition segment (data : list byte) (a b : Z) : list byte :=
  firstn (Z.to_nat (b - a)) (skipn (Z.to_nat a) data).

(** One or more digits. *)
Definition digitRun (s : list byte) : Prop :=
  s <> [] /\ Forall (fun c => isDigit c = true) s.

(** [int = zero / ( digit1-9 *DIGIT )] *)
Definition jsonInt (s : list byte) : Prop :=
  s = bytes "0" \/ (digitRun s /\ forall d ds, s = d :: ds -> d <> "0"%byte).

(** [[ frac ]], [frac = decimal-point 1*DIGIT] *)
Definition jsonFrac (s : list byte) : Prop :=
  s = [] \/ exists ds, s = "."%byte :: ds /\ digitRun ds.

(** [[ exp ]], [exp = e [ minus / plus ] 1*DIGIT] *)
Definition jsonExp (s : list byte) : Prop :=
  s = []
  \/ exists e sign ds,
       s = e :: sign ++ ds
       /\ (e = "e"%byte \/ e = "E"%byte)
       /\ (sign = [] \/ sign = bytes "+" \/ sign = bytes "-")
       /\ digitRun ds.

(** [number = [ minus ] int [ frac ] [ exp ]] *)
Definition jsonNumber (s : list byte) : Prop :=
  exists sign int frac exp,
    s = sign ++ int ++ frac ++ exp
    /\ (sign = [] \/ sign = bytes "-")
    /\ jsonInt int /\ jsonFrac frac /\ jsonExp exp.

(** A number token, as the tokenizer's number rule has cut it. *)
Definition numberToken (data : list byte) (t : Token) : Prop :=
  Type_ t = TokenNumber ->
  exists i j c,
    Start t = uint32 i /\ End_ t = uint32 j /\ 0 <= i
    /\ idx data i = Ok c /\ lexNumber data i c = Ok j.

(** *** JSON strings (RFC 8259, section 7) *)

(** What [appendEscapedString] writes for the rune [r]. *)
Definition escapeUnit (r : Z) : list byte :=
  if r =? 0x22 then [backslash; quote]
  else if r =? 0x5C then [backslash; backslash]
  else if r =? 0x08 then [backslash; "b"%byte]
  else if r =? 0x0C then [backslash; "f"%byte]
  else if r =? 0x0A then [backslash; "n"%byte]
  else if r =? 0x0D then [backslash; "r"%byte]
  else if r =? 0x09 then [backslash; "t"%byte]
  else if r <? 0x20 then
    [backslash; "u"%byte]
      ++ firstn (4 - List.length (FormatInt r 16)) (bytes "0000") ++ FormatInt r 16
  else stringOfRune r.

Definition isHexDigit (c : byte) : bool :=
  match hexVal c with Some _ => true | None => false end.

(** The bytes between the quotes of a string: unescaped bytes, two-byte
    escapes and [\uXXXX] escapes.  An unescaped byte is neither a control
    character nor a quote nor a backslash. *)
Inductive jsonStringBody : list byte -> Prop :=
| body_nil : jsonStringBody []
| body_plain (c : byte) (rest : list byte) :
    0x20 <= byteZ c -> c <> quote -> c <> backslash ->
    jsonStringBody rest -> jsonStringBody (c :: rest)
| body_escape (e : byte) (rest : list byte) :
    In e [quote; backslash; "/"%byte; "b"%byte; "f"%byte; "n"%byte; "r"%byte; "t"%byte] ->
    jsonStringBody rest -> jsonStringBody (backslash :: e :: rest)
| body_unicode (h1 h2 h3 h4 : byte) (rest : list byte) :
    isHexDigit h1 = true -> isHexDigit h2 = true ->
    isHexDigit h3 = true -> isHexDigit h4 = true ->
    jsonStringBody rest ->
    jsonStringBody (backslash :: "u"%byte :: h1 :: h2 :: h3 :: h4 :: rest).

(** [unescapeString] read as a function of the list of bytes. *)
Fixpoint unescapeList (b : list byte) : outcome (list byte) :=
  match b with
  | [] => Ok []
  | c :: rest =>
      if negb (Byte.eqb c backslash) then
        r <- unescapeList rest ;; Ok (c :: r)
      else
        match rest with
        | [] => Err "invalid escape sequence"
        | e :: rest' =>
            if Byte.eqb e quote || Byte.eqb e backslash || Byte.eqb e "/" then
              r <- unescapeList rest' ;; Ok (e :: r)
            else if Byte.eqb e "b" then r <- unescapeList rest' ;; Ok (x08 :: r)
            else if Byte.eqb e "f" then r <- unescapeList rest' ;; Ok (x0c :: r)
            else if Byte.eqb e "n" then r <- unescapeList rest' ;; Ok (x0a :: r)
            else if Byte.eqb e "r" then r <- unescapeList rest' ;; Ok (x0d :: r)
            else if Byte.eqb e "t" then r <- unescapeList rest' ;; Ok (x09 :: r)
            else if Byte.eqb e "u" then
              match rest' with
              | h1 :: h2 :: h3 :: h4 :: rest'' =>
                  v <- ParseUint_16_16 [h1; h2; h3; h4] ;;
                  r <- unescapeList rest'' ;;
                  Ok (encodeRune v ++ r)
              | _ => Err "invalid unicode escape"
              end
            else Err "invalid escape character"
        end
  end.

(** A rune that a range loop can yield: an ASCII code, or a scalar value
    whose encoding has no ASCII byte. *)
Definition rangedRune (r : Z) : Prop :=
  0 <= r < 0x80
  \/ (0x80 <= r <= 0x10FFFF /\ Forall (fun c => 0x80 <= byteZ c) (stringOfRune r)).

(** The runes of [s] written back: [s] with every byte that belongs to no
    well-formed sequence replaced by the encoding of U+FFFD. *)
Definition runesWritten (s : list byte) : list byte :=
  List.concat (map (fun x => stringOfRune (snd x)) (rangeString s)).

(** ** Chunks

    The pieces in which [ProcessAligned] hands a buffer to its processor:
    [n] bytes at a time, the last piece with what is left. *)

Fixpoint chunksFrom (fuel : nat) (n : nat) (l : list byte) : list (list byte) :=
  match fuel with
  | O => []
  | S fuel' =>
      match l with
      | [] => []
      | _ :: _ => firstn n l :: chunksFrom fuel' n (skipn n l)
      end
  end.

Definition chunks (n : nat) (l : list byte) : list (list byte) :=
  chunksFrom (List.length l) n l.

(** The processor run on each piece in turn, up to its first error. *)
Fixpoint processAll {St : Type} (processor : St -> list byte -> outcome St)
    (pieces : list (list byte)) (st : St) : outcome St :=
  match pieces with
  | [] => Ok st
  | c :: rest => st <- processor st c ;; processAll processor rest st
  end.

(** ** The token grammar of a value

    The sequences of token types that spell one JSON value: a scalar, or
    an array or object whose elements and members are separated by
    commas. *)

Definition isScalarToken (ty : TokenType) : bool :=
  match ty with
  | TokenString | TokenNumber | TokenTrue | TokenFalse | TokenNull => true
  | _ => false
  end.

Inductive valueTokens : list TokenType -> Prop :=
| vt_scalar (ty : TokenType) : isScalarToken ty = true -> valueTokens [ty]
| vt_empty_array : valueTokens [TokenArrayBegin; TokenArrayEnd]
| vt_array (es : list TokenType) :
    elementTokens es -> valueTokens (TokenArrayBegin :: es ++ [TokenArrayEnd])
| vt_empty_object : valueTokens [TokenObjectBegin; TokenObjectEnd]
| vt_object (ms : list TokenType) :
    memberTokens ms -> valueTokens (TokenObjectBegin :: ms ++ [TokenObjectEnd])
with elementTokens : list TokenType -> Prop :=
| et_last (v : list TokenType) : valueTokens v -> elementTokens v
| et_more (v es : list TokenType) :
    valueTokens v -> elementTokens es -> elementTokens (v ++ TokenComma :: es)
with memberTokens : list TokenType -> Prop :=
| mt_last (v : list TokenType) :
    valueTokens v -> memberTokens (TokenString :: TokenColon :: v)
| mt_more (v ms : list TokenType) :
    valueTokens v -> memberTokens ms ->
    memberTokens (TokenString :: TokenColon :: v ++ TokenComma :: ms).

(** The types of [tokens[a:b]]. *)
Definition typesBetween (tokens : list Token) (a b : Z) : list TokenType :=
  map Type_ (firstn (Z.to_nat (b - a)) (skipn (Z.to_nat a) tokens)).

(** A value parser that accepts values of the grammar only, and consumes
    the tokens of the value it returns. *)
Definition accepts (tokens : list Token) (pv : Z -> outcome (Value * Z)) : Prop :=
  forall p v p',
    pv p = Ok (v, p') ->
    0 <= p < p' /\ p' <= len tokens /\ valueTokens (typesBetween tokens p p').

(** * Properties *)

(** Settle a comparison that linear arithmetic decides. *)
Ltac cmp_true t :=
  replace t with true
    by (symmetry; first [apply Z.ltb_lt | apply Z.leb_le | apply Z.eqb_eq]; lia).

Ltac cmp_false t :=
  replace t with false
    by (symmetry; first [apply Z.ltb_ge | apply Z.leb_gt | apply Z.eqb_neq]; lia).

(** ** Slices and indices *)

Lemma len_nonneg {A} (s : list A) : 0 <= len s.
Proof. unfold len. lia. Qed.

Lemma len_nil {A} : len (@nil A) = 0.
Proof. reflexivity. Qed.

Lemma len_cons {A} (a : A) (s : list A) : len (a :: s) = len s + 1.
Proof. unfold len. simpl List.length. lia. Qed.

Lemma len_app {A} (s t : list A) : len (s ++ t) = len s + len t.
Proof. unfold len. rewrite length_app. lia. Qed.

Lemma len_zero_nil {A} (s : list A) : len s = 0 -> s = [].
Proof. destruct s; [reflexivity | rewrite len_cons; pose proof (len_nonneg s); lia]. Qed.

Lemma idx_Ok_iff {A} (s : list A) (i : Z) (a : A) :
  idx s i = Ok a <-> 0 <= i < len s /\ nth_error s (Z.to_nat i) = Some a.
Proof.
  unfold idx.
  destruct (0 <=? i) eqn:H0; destruct (i <? len s) eqn:H1; simpl;
    try (split; [discriminate | intros [? _]; lia]).
  destruct (nth_error s (Z.to_nat i)) eqn:E.
  - split; [intros [= ->]; split; [lia | reflexivity] | intros [_ [= ->]]; reflexivity].
  - split; [discriminate | intros [_ ?]; discriminate].
Qed.

Lemma idx_in_range {A} (s : list A) (i : Z) :
  0 <= i < len s -> exists a, idx s i = Ok a.
Proof.
  intros H. destruct (nth_error s (Z.to_nat i)) eqn:E.
  - exists a. apply idx_Ok_iff. auto.
  - apply nth_error_None in E. unfold len in H. lia.
Qed.

Lemma idx_app_here {A} (pre : list A) (c : A) (rest : list A) :
  idx (pre ++ c :: rest) (len pre) = Ok c.
Proof.
  apply idx_Ok_iff. split.
  - rewrite len_app, len_cons. pose proof (len_nonneg pre). pose proof (len_nonneg rest). lia.
  - unfold len. rewrite Nat2Z.id, nth_error_app2, Nat.sub_diag by lia. reflexivity.
Qed.

Lemma slice_in_range {A} (s : list A) (lo hi : Z) :
  0 <= lo <= hi -> hi <= len s ->
  slice s lo hi = Ok (firstn (Z.to_nat (hi - lo)) (skipn (Z.to_nat lo) s)).
Proof.
  intros H1 H2. unfold slice.
  cmp_true (0 <=? lo).
  cmp_true (lo <=? hi).
  cmp_true (hi <=? len s).
  reflexivity.
Qed.

Lemma slice_len {A} (s t : list A) (lo hi : Z) :
  slice s lo hi = Ok t -> 0 <= lo <= hi /\ hi <= len s /\ len t = hi - lo.
Proof.
  unfold slice.
  destruct (0 <=? lo) eqn:H0; destruct (lo <=? hi) eqn:H1; destruct (hi <=? len s) eqn:H2;
    simpl; try discriminate.
  intros [= <-]. apply Z.leb_le in H0, H1, H2.
  repeat split; try lia.
  unfold len in *. rewrite length_firstn, length_skipn. lia.
Qed.

(** ** Bytes *)

Lemma byteZ_range (c : byte) : 0 <= byteZ c <= 255.
Proof. unfold byteZ. pose proof (Byte.to_N_bounded c). lia. Qed.

Lemma byte_eqb_eq (a b : byte) : Byte.eqb a b = true <-> a = b.
Proof. split; [apply Byte.byte_dec_bl | apply Byte.byte_dec_lb]. Qed.

Lemma isDigit_range (c : byte) : isDigit c = true <-> 48 <= byteZ c <= 57.
Proof. unfold isDigit. rewrite andb_true_iff, !Z.leb_le. tauto. Qed.

Lemma int64_small (z : Z) : MinInt64 <= z <= MaxInt64 -> int64 z = z.
Proof.
  unfold int64, MinInt64, MaxInt64. intros H.
  rewrite Z.mod_small; lia.
Qed.

Lemma uint8_small (z : Z) : 0 <= z < 256 -> uint8 z = z.
Proof. unfold uint8. intros H. apply Z.mod_small. lia. Qed.

Lemma uint32_small (z : Z) : 0 <= z < 4294967296 -> uint32 z = z.
Proof. unfold uint32. intros H. apply Z.mod_small. lia. Qed.

(** ** Leading integer: the arm64 scalar routine meets the specification *)

Lemma decimalValue_fold (ds : list byte) : decimalValue ds = fold_left digitStep ds 0.
Proof. reflexivity. Qed.

Lemma fold_digits_ge (ds : list byte) (v : Z) :
  Forall (fun c => isDigit c = true) ds -> 0 <= v -> v <= fold_left digitStep ds v.
Proof.
  revert v. induction ds as [|c ds IH]; intros v Hd Hv; simpl; [lia|].
  inversion Hd as [|? ? Hc Hds]; subst. apply isDigit_range in Hc.
  etransitivity; [|apply IH; [assumption | unfold digitStep; lia]].
  unfold digitStep. lia.
Qed.

Lemma spanDigits_digits (s : list byte) :
  Forall (fun c => isDigit c = true) (fst (spanDigits s)).
Proof.
  induction s as [|c s IH]; simpl; [constructor|].
  destruct (isDigit c) eqn:E; [|constructor].
  destruct (spanDigits s) as [d r]. simpl in *. constructor; assumption.
Qed.

(** The loop, started after [pre] with an accumulator in range, ends with
    the value of the digit run that follows, or returns early exactly when
    that value is beyond [MaxInt64]. *)
Lemma digitLoop_spec (rest : list byte) :
  forall (pre : list byte) (result : Z) (parsed : bool) (fuel : nat),
    (List.length rest < fuel)%nat ->
    0 <= result <= MaxInt64 ->
    digitLoop fuel (pre ++ rest) (len pre) result parsed =
    Ok (let ds := fst (spanDigits rest) in
        let v := fold_left digitStep ds result in
        if MaxInt64 <? v then None
        else Some (v, match ds with [] => parsed | _ => true end)).
Proof.
  induction rest as [|c rest IH]; intros pre result parsed fuel Hf Hr.
  - destruct fuel; [simpl in Hf; lia|]. cbn [digitLoop spanDigits fst fold_left].
    rewrite app_nil_r, Z.ltb_irrefl.
    cmp_false (MaxInt64 <? result).
    reflexivity.
  - destruct fuel; [simpl in Hf; lia|]. simpl in Hf.
    cbn [digitLoop].
    replace (len pre <? len (pre ++ c :: rest)) with true
      by (symmetry; apply Z.ltb_lt; rewrite len_app, len_cons; pose proof (len_nonneg rest); lia).
    rewrite idx_app_here. cbn [bind spanDigits].
    pose proof (byteZ_range c) as Hc.
    destruct (isDigit c) eqn:Ed.
    + apply isDigit_range in Ed.
      cmp_false (byteZ c <? 48).
      cmp_false (57 <? byteZ c).
      cbn [orb].
      rewrite uint8_small, int64_small by (unfold MinInt64, MaxInt64; lia).
      destruct (spanDigits rest) as [ds r] eqn:Es. cbn [fst fold_left].
      assert (Hds : Forall (fun c => isDigit c = true) ds).
      { pose proof (spanDigits_digits rest) as H. rewrite Es in H. exact H. }
      destruct (Z.quot (MaxInt64 - (byteZ c - 48)) 10 <? result) eqn:Eo.
      * apply Z.ltb_lt in Eo.
        assert (MaxInt64 < digitStep result c).
        { unfold digitStep.
          rewrite Z.quot_div_nonneg in Eo by (unfold MaxInt64; lia).
          pose proof (Z.mul_succ_div_gt (MaxInt64 - (byteZ c - 48)) 10 ltac:(lia)).
          lia. }
        pose proof (fold_digits_ge ds (digitStep result c) Hds ltac:(lia)).
        cmp_true (MaxInt64 <? fold_left digitStep ds (digitStep result c)).
        reflexivity.
      * apply Z.ltb_ge in Eo.
        assert (digitStep result c <= MaxInt64).
        { unfold digitStep.
          rewrite Z.quot_div_nonneg in Eo by (unfold MaxInt64; lia).
          pose proof (Z.mul_div_le (MaxInt64 - (byteZ c - 48)) 10 ltac:(lia)).
          lia. }
        rewrite int64_small by (unfold digitStep, MinInt64 in *; lia).
        replace (pre ++ c :: rest) with ((pre ++ [c]) ++ rest)
          by (rewrite <- app_assoc; reflexivity).
        replace (len pre + 1) with (len (pre ++ [c])) by (rewrite len_app; reflexivity).
        rewrite IH; [| lia | unfold digitStep in *; lia].
        cbn [fst]. change (result * 10 + (byteZ c - 48)) with (digitStep result c).
        cbv zeta. destruct (MaxInt64 <? _); [reflexivity|].
        destruct ds; reflexivity.
    + assert (byteZ c < 48 \/ 57 < byteZ c) as Hnd.
      { destruct (Z.le_gt_cases 48 (byteZ c)); [|lia].
        destruct (Z.le_gt_cases (byteZ c) 57); [|lia].
        assert (isDigit c = true) by (apply isDigit_range; lia). congruence. }
      replace ((byteZ c <? 48) || (57 <? byteZ c)) with true
        by (symmetry; apply orb_true_iff; rewrite !Z.ltb_lt; exact Hnd).
      cbn [fst fold_left].
      cmp_false (MaxInt64 <? result).
      reflexivity.
Qed.

(** The arm64 scalar routine computes [leadingInteger]: it reports failure
    exactly on an empty input, when no digit follows the optional sign, and
    when the digit run is beyond [MaxInt64]. *)
Theorem Arm64_parseIntegerScalar_spec (data : list byte) :
  Arm64.parseIntegerScalar data = Ok (leadingInteger data).
Proof.
  unfold Arm64.parseIntegerScalar, leadingInteger.
  destruct data as [|c rest]; [reflexivity|].
  replace (len (c :: rest) =? 0) with false
    by (symmetry; apply Z.eqb_neq; rewrite len_cons; pose proof (len_nonneg rest); lia).
  change (idx (c :: rest) 0) with (idx ([] ++ c :: rest) (len (@nil byte))).
  rewrite idx_app_here. cbn [bind app].
  destruct (Byte.eqb c "-") eqn:Eneg.
  - cbn [andb].
    destruct rest as [|d rest'].
    + reflexivity.
    + replace (len (c :: d :: rest') =? 1) with false
        by (symmetry; apply Z.eqb_neq; rewrite !len_cons; pose proof (len_nonneg rest'); lia).
      change (c :: d :: rest') with ([c] ++ d :: rest').
      change 1 with (len [c]).
      rewrite digitLoop_spec; [| simpl; lia | unfold MaxInt64; lia].
      cbn [bind]. rewrite <- decimalValue_fold.
      pose proof (spanDigits_digits (d :: rest')) as Hds.
      destruct (fst (spanDigits (d :: rest'))) as [|x ds] eqn:Eds.
      * reflexivity.
      * pose proof (fold_digits_ge (x :: ds) 0 Hds ltac:(lia)) as Hge.
        rewrite <- decimalValue_fold in Hge.
        destruct (MaxInt64 <? decimalValue (x :: ds)) eqn:Eo; [reflexivity|].
        apply Z.ltb_ge in Eo.
        rewrite int64_small by (unfold MinInt64, MaxInt64 in *; lia).
        reflexivity.
  - cbn [andb].
    change (c :: rest) with ([] ++ c :: rest) at 2.
    change 0 with (len (@nil byte)) at 1.
    rewrite digitLoop_spec; [| simpl; lia | unfold MaxInt64; lia].
    cbn [bind app]. rewrite <- decimalValue_fold.
    destruct (fst (spanDigits (c :: rest))) as [|x ds] eqn:Eds.
    + reflexivity.
    + destruct (MaxInt64 <? decimalValue (x :: ds)); reflexivity.
Qed.

Corollary Arm64_SIMDParseInteger_spec (data : list byte) :
  Arm64.SIMDParseInteger data = Ok (leadingInteger data).
Proof.
  unfold Arm64.SIMDParseInteger.
  destruct (len data =? 0) eqn:E.
  - apply Z.eqb_eq, len_zero_nil in E. subst. reflexivity.
  - unfold Arm64.parseIntegerNEON.
    destruct (4 <=? len data); cbn [andb]; apply Arm64_parseIntegerScalar_spec.
Qed.

(** ** Deciding a property of all bytes by enumeration *)

Lemma byteOfZ_byteZ (c : byte) : byteOfZ (byteZ c) = c.
Proof.
  unfold byteOfZ, byteZ. rewrite N2Z.id, Byte.of_to_N. reflexivity.
Qed.

Lemma in_allBytes (c : byte) : In c allBytes.
Proof.
  unfold allBytes. apply in_map_iff.
  exists (Z.to_nat (byteZ c)). split.
  - pose proof (byteZ_range c). rewrite Z2Nat.id by lia. apply byteOfZ_byteZ.
  - apply in_seq. pose proof (byteZ_range c). lia.
Qed.

Lemma forall_bytes (P : byte -> bool) :
  forallb P allBytes = true -> forall c, P c = true.
Proof.
  intros H c. rewrite forallb_forall in H. apply H, in_allBytes.
Qed.

Lemma forall_bytes2 (P : byte -> byte -> bool) :
  forallb (fun a => forallb (P a) allBytes) allBytes = true -> forall a b, P a b = true.
Proof.
  intros H a b.
  apply (forall_bytes (P a)). revert a. apply forall_bytes. exact H.
Qed.

(** ** UTF-8 validation *)

Lemma slice_suffix {A} (pre rest : list A) :
  slice (pre ++ rest) (len pre) (len (pre ++ rest)) = Ok rest.
Proof.
  rewrite slice_in_range.
  - f_equal. rewrite len_app. replace (len pre + len rest - len pre) with (len rest) by lia.
    unfold len. rewrite !Nat2Z.id.
    rewrite skipn_app, skipn_all, Nat.sub_diag. simpl. apply firstn_all.
  - rewrite len_app. pose proof (len_nonneg pre). pose proof (len_nonneg rest). lia.
  - lia.
Qed.

Lemma validateUTF8Loop_spec (fuel : nat) :
  forall pre rest : list byte,
    (List.length rest < fuel)%nat ->
    validateUTF8Loop fuel (pre ++ rest) (len pre) = Ok (scalarAccepts rest).
Proof.
  induction fuel as [|fuel IH]; intros pre rest Hf; [lia|].
  cbn [validateUTF8Loop].
  destruct rest as [|c0 rest].
  - rewrite app_nil_r, Z.ltb_irrefl. reflexivity.
  - replace (len pre <? len (pre ++ c0 :: rest)) with true
      by (symmetry; apply Z.ltb_lt; rewrite len_app, len_cons; pose proof (len_nonneg rest); lia).
    rewrite slice_suffix. cbn [bind].
    unfold decodeRuneInString.
    replace (len (c0 :: rest) =? 0) with false
      by (symmetry; apply Z.eqb_neq; rewrite len_cons; pose proof (len_nonneg rest); lia).
    change (idx (c0 :: rest) 0) with (idx ([] ++ c0 :: rest) (len (@nil byte))).
    rewrite idx_app_here. cbn [bind scalarAccepts].
    pose proof (byteZ_range c0) as Hc0.
    destruct (byteZ c0 <? 0x80) eqn:E1.
    { cbn [bind]. apply Z.ltb_lt in E1.
      replace (byteZ c0 =? RuneError) with false
        by (symmetry; apply Z.eqb_neq; unfold RuneError; lia).
      cbn [andb].
      replace (pre ++ c0 :: rest) with ((pre ++ [c0]) ++ rest) by (rewrite <- app_assoc; reflexivity).
      replace (len pre + 1) with (len (pre ++ [c0])) by (rewrite len_app; reflexivity).
      apply IH. simpl in Hf. lia. }
    destruct (byteZ c0 <? 0xC0) eqn:E2; [reflexivity|].
    destruct (byteZ c0 <? 0xE0) eqn:E3; [|reflexivity].
    destruct rest as [|c1 rest].
    { reflexivity. }
    replace (len (c0 :: c1 :: rest) <? 2) with false
      by (symmetry; apply Z.ltb_ge; rewrite !len_cons; pose proof (len_nonneg rest); lia).
    change (idx (c0 :: c1 :: rest) 1) with (idx ([c0] ++ c1 :: rest) (len [c0])).
    rewrite idx_app_here. cbn [bind]. unfold twoByteOk.
    destruct ((byteZ c1 <? 0x80) || (0xC0 <=? byteZ c1)); [reflexivity|].
    cbn [negb andb].
    destruct (Z.lor _ _ <? 0x80); [reflexivity|].
    cbn [bind negb].
    replace (2 =? 1) with false by reflexivity. rewrite andb_false_r.
    replace (pre ++ c0 :: c1 :: rest) with ((pre ++ [c0; c1]) ++ rest)
      by (rewrite <- app_assoc; reflexivity).
    replace (len pre + 2) with (len (pre ++ [c0; c1])) by (rewrite len_app; reflexivity).
    apply IH. simpl in Hf. lia.
Qed.

Lemma validateUTF8Scalar_accepts (data : list byte) :
  validateUTF8Scalar data = Ok (scalarAccepts data).
Proof.
  unfold validateUTF8Scalar.
  apply (validateUTF8Loop_spec (S (List.length data)) [] data). lia.
Qed.

Lemma twoByte_table :
  forall c0 c1 : byte,
    (negb ((0xC0 <=? byteZ c0) && (byteZ c0 <? 0xE0))
     || Bool.eqb (twoByteOk c0 c1) (inRange 0xC2 0xDF c0 && isCont c1)) = true.
Proof. apply forall_bytes2. vm_compute. reflexivity. Qed.

Lemma lead_table :
  forall c0 : byte,
    (negb (inRange 0xE0 0xEF c0 || inRange 0xF0 0xF4 c0) || negb (byteZ c0 <? 0xE0)) = true.
Proof. apply forall_bytes. vm_compute. reflexivity. Qed.

(** The scalar validator accepts exactly the well-formed buffers in which
    no byte is [0xE0] or above: it is sound, and complete for the code
    points below U+0800. *)
Theorem validateUTF8Scalar_characterised (data : list byte) :
  validateUTF8Scalar data =
  Ok (utf8WellFormed data && forallb (fun c => byteZ c <? 0xE0) data).
Proof.
  rewrite validateUTF8Scalar_accepts. f_equal.
  remember (List.length data) as n eqn:Hn.
  revert data Hn. induction n as [n IH] using lt_wf_ind. intros data Hn.
  destruct data as [|c0 rest]; [reflexivity|].
  cbn [scalarAccepts utf8WellFormed forallb].
  pose proof (lead_table c0) as Hl.
  destruct (byteZ c0 <? 0x80) eqn:E1.
  { assert ((byteZ c0 <? 0xE0) = true) as ->
      by (apply Z.ltb_lt in E1; apply Z.ltb_lt; lia).
    cbn [andb]. apply (IH (List.length rest)); [subst; simpl; lia | reflexivity]. }
  destruct (byteZ c0 <? 0xC0) eqn:E2.
  { apply Z.ltb_ge in E1. apply Z.ltb_lt in E2.
    assert (inRange 0xC2 0xDF c0 = false) as ->
      by (unfold inRange; apply andb_false_iff; left; apply Z.leb_gt; lia).
    assert (inRange 0xE0 0xEF c0 = false) as ->
      by (unfold inRange; apply andb_false_iff; left; apply Z.leb_gt; lia).
    assert (inRange 0xF0 0xF4 c0 = false) as ->
      by (unfold inRange; apply andb_false_iff; left; apply Z.leb_gt; lia).
    reflexivity. }
  destruct (byteZ c0 <? 0xE0) eqn:E3.
  - destruct rest as [|c1 rest'].
    + destruct (inRange 0xC2 0xDF c0); [reflexivity|].
      destruct (inRange 0xE0 0xEF c0); [reflexivity|].
      destruct (inRange 0xF0 0xF4 c0); reflexivity.
    + pose proof (twoByte_table c0 c1) as Ht.
      apply Z.ltb_ge in E2.
      replace (0xC0 <=? byteZ c0) with true in Ht by (symmetry; apply Z.leb_le; lia).
      rewrite E3 in Ht. cbn [andb negb orb] in Ht.
      apply Bool.eqb_prop in Ht. rewrite Ht.
      specialize (IH (List.length rest') ltac:(subst; simpl; lia) rest' eq_refl).
      rewrite IH. cbn [forallb].
      destruct (inRange 0xC2 0xDF c0) eqn:R2.
      * cbn [andb].
        destruct (isCont c1) eqn:Ec; cbn [andb]; [|reflexivity].
        assert ((byteZ c1 <? 0xE0) = true) as ->.
        { unfold isCont, inRange in Ec.
          apply andb_true_iff in Ec. destruct Ec as [_ Ec]. apply Z.leb_le in Ec.
          apply Z.ltb_lt. lia. }
        reflexivity.
      * cbn [andb]. destruct (inRange 0xE0 0xEF c0) eqn:R3; [cbn in Hl; discriminate|].
        destruct (inRange 0xF0 0xF4 c0) eqn:R4; [cbn in Hl; discriminate|].
        reflexivity.
  - rewrite andb_false_r. reflexivity.
Qed.

(** ** Quote mask *)

Lemma store_in_range {A} (s : list A) (i : Z) (v : A) :
  0 <= i < len s ->
  store s i v = Ok (firstn (Z.to_nat i) s ++ v :: skipn (S (Z.to_nat i)) s).
Proof.
  intros H. unfold store.
  cmp_true (0 <=? i).
  cmp_true (i <? len s).
  reflexivity.
Qed.

Lemma length_stored {A} (s : list A) (n : nat) (v : A) :
  (n < List.length s)%nat ->
  List.length (firstn n s ++ v :: skipn (S n) s) = List.length s.
Proof.
  intros H. rewrite length_app, length_firstn, length_cons, length_skipn. lia.
Qed.

Lemma nth_stored {A} (s : list A) (n k : nat) (v d : A) :
  (n < List.length s)%nat ->
  nth k (firstn n s ++ v :: skipn (S n) s) d = if Nat.eqb k n then v else nth k s d.
Proof.
  intros H.
  assert (Hl : List.length (firstn n s) = n) by (rewrite length_firstn; lia).
  destruct (Nat.eqb k n) eqn:E.
  - apply Nat.eqb_eq in E. subst k.
    rewrite app_nth2 by lia. rewrite Hl, Nat.sub_diag. reflexivity.
  - apply Nat.eqb_neq in E.
    destruct (Nat.lt_ge_cases k n) as [Hlt|Hge].
    + rewrite app_nth1 by lia.
      rewrite <- (firstn_skipn n s) at 2. rewrite app_nth1 by lia. reflexivity.
    + rewrite app_nth2 by lia. rewrite Hl.
      destruct (k - n)%nat as [|m] eqn:Ek; [lia|]. cbn [nth].
      rewrite <- (firstn_skipn (S n) s) at 2.
      rewrite app_nth2 by (rewrite length_firstn; lia).
      rewrite length_firstn. f_equal. lia.
Qed.

Lemma idx_nth (s : list Z) (i : Z) :
  0 <= i < len s -> idx s i = Ok (nth (Z.to_nat i) s 0).
Proof.
  intros H. apply idx_Ok_iff. split; [exact H|].
  apply nth_error_nth'. unfold len in H. lia.
Qed.

Lemma testbit_set (m b k : Z) :
  0 <= b < 64 -> 0 <= k < 64 ->
  Z.testbit (uint64 (Z.lor m (uint64 (Z.shiftl 1 b)))) k = Z.testbit m k || (k =? b).
Proof.
  intros Hb Hk. unfold uint64.
  change 18446744073709551616 with (2 ^ 64).
  rewrite Z.mod_pow2_bits_low by lia.
  rewrite Z.lor_spec.
  rewrite Z.mod_pow2_bits_low by lia.
  rewrite Z.shiftl_spec by lia.
  f_equal.
  destruct (k =? b) eqn:E.
  - apply Z.eqb_eq in E. subst. rewrite Z.sub_diag. reflexivity.
  - apply Z.eqb_neq in E.
    destruct (Z.lt_ge_cases k b).
    + apply Z.testbit_neg_r. lia.
    + apply Z.bits_above_log2; [lia | change (Z.log2 1) with 0; lia].
Qed.

Lemma bitAt_set (masks : list Z) (i k : Z) :
  0 <= i < 64 * len masks -> 0 <= k ->
  let mi := Z.to_nat (i / 64) in
  let v := uint64 (Z.lor (nth mi masks 0) (uint64 (Z.shiftl 1 (i mod 64)))) in
  bitAt (firstn mi masks ++ v :: skipn (S mi) masks) k = bitAt masks k || (k =? i).
Proof.
  intros Hi Hk mi v. unfold bitAt.
  assert (Hq : 0 <= i / 64 < len masks).
  { split; [apply Z.div_pos; lia | apply Z.div_lt_upper_bound; lia]. }
  assert (Hmi : (mi < List.length masks)%nat) by (unfold mi, len in *; lia).
  rewrite nth_stored by exact Hmi.
  pose proof (Z.mod_pos_bound i 64 ltac:(lia)) as Hmi64.
  pose proof (Z.mod_pos_bound k 64 ltac:(lia)) as Hmk64.
  pose proof (Z.div_mod i 64 ltac:(lia)) as Hdi.
  pose proof (Z.div_mod k 64 ltac:(lia)) as Hdk.
  assert (0 <= k / 64) by (apply Z.div_pos; lia).
  destruct (Nat.eqb (Z.to_nat (k / 64)) mi) eqn:E.
  - apply Nat.eqb_eq in E. unfold mi in E.
    assert (k / 64 = i / 64) as Hsame by lia.
    unfold v. rewrite testbit_set by lia.
    unfold mi. rewrite Hsame. f_equal.
    destruct (k mod 64 =? i mod 64) eqn:Em; destruct (k =? i) eqn:Ek; try reflexivity.
    + apply Z.eqb_eq in Em. apply Z.eqb_neq in Ek. lia.
    + apply Z.eqb_neq in Em. apply Z.eqb_eq in Ek. subst. lia.
  - apply Nat.eqb_neq in E. unfold mi in E.
    replace (k =? i) with false; [rewrite orb_false_r; reflexivity|].
    symmetry. apply Z.eqb_neq. intros ->. lia.
Qed.

(** The loop leaves every word in place and ors into the mask exactly the
    bits of the bytes that [markedQuotes] marks. *)
Lemma quoteMaskLoop_spec (rest : list byte) :
  forall (pre : list byte) (inString escaped : bool) (masks : list Z) (fuel : nat),
    (List.length rest < fuel)%nat ->
    len (pre ++ rest) <= 64 * len masks ->
    exists masks',
      quoteMaskLoop fuel (pre ++ rest) (len pre) inString escaped masks = Ok masks'
      /\ len masks' = len masks
      /\ forall k, 0 <= k ->
           bitAt masks' k =
           bitAt masks k
           || ((len pre <=? k)
               && nth (Z.to_nat (k - len pre)) (markedQuotes rest inString escaped) false).
Proof.
  induction rest as [|b rest IH]; intros pre inString escaped masks fuel Hf Hlen.
  - destruct fuel; [simpl in Hf; lia|]. cbn [quoteMaskLoop markedQuotes].
    rewrite app_nil_r, Z.ltb_irrefl. exists masks. repeat split.
    intros k Hk. destruct (Z.to_nat (k - len pre)); cbn [nth];
      rewrite andb_false_r, orb_false_r; reflexivity.
  - destruct fuel; [simpl in Hf; lia|]. simpl in Hf.
    pose proof (len_nonneg pre) as Hpre. pose proof (len_nonneg rest) as Hrest.
    assert (Hstep : forall inS esc masks1 (mark : bool),
      len masks1 = len masks ->
      (forall k, 0 <= k -> bitAt masks1 k = bitAt masks k || (mark && (k =? len pre))) ->
      exists masks',
        quoteMaskLoop fuel (pre ++ b :: rest) (len pre + 1) inS esc masks1 = Ok masks'
        /\ len masks' = len masks
        /\ forall k, 0 <= k ->
             bitAt masks' k =
             bitAt masks k
             || ((len pre <=? k)
                 && nth (Z.to_nat (k - len pre)) (mark :: markedQuotes rest inS esc) false)).
    { intros inS esc masks1 mark Hl1 Hb1.
      replace (pre ++ b :: rest) with ((pre ++ [b]) ++ rest) in *
        by (rewrite <- app_assoc; reflexivity).
      replace (len pre + 1) with (len (pre ++ [b])) by (rewrite len_app; reflexivity).
      destruct (IH (pre ++ [b]) inS esc masks1 fuel ltac:(lia) ltac:(lia))
        as (masks' & Hrun & Hl' & Hb').
      exists masks'. split; [exact Hrun|]. split; [lia|].
      intros k Hk. rewrite Hb' by exact Hk. rewrite Hb1 by exact Hk.
      rewrite len_app. change (len [b]) with 1.
      destruct (Z.lt_trichotomy k (len pre)) as [Hlt|[Heq|Hgt]].
      - cmp_false (len pre + 1 <=? k).
        cmp_false (len pre <=? k).
        cmp_false (k =? len pre).
        cbn [andb orb]. rewrite ?andb_false_r, ?orb_false_r. reflexivity.
      - subst k.
        cmp_false (len pre + 1 <=? len pre).
        rewrite Z.leb_refl, Z.eqb_refl, Z.sub_diag. cbn [Z.to_nat nth andb orb].
        rewrite ?andb_true_r, ?orb_false_r. reflexivity.
      - cmp_true (len pre + 1 <=? k).
        cmp_true (len pre <=? k).
        cmp_false (k =? len pre).
        rewrite ?andb_false_r, ?orb_false_r. cbn [andb].
        replace (Z.to_nat (k - len pre)) with (S (Z.to_nat (k - (len pre + 1)))) by lia.
        reflexivity. }
    cbn [quoteMaskLoop markedQuotes].
    replace (len pre <? len (pre ++ b :: rest)) with true
      by (symmetry; apply Z.ltb_lt; rewrite len_app, len_cons; lia).
    rewrite idx_app_here. cbn [bind].
    assert (Hkeep : forall k, 0 <= k -> bitAt masks k = bitAt masks k || (false && (k =? len pre))).
    { intros k _. rewrite orb_false_r. reflexivity. }
    destruct escaped.
    { apply (Hstep inString false masks false eq_refl Hkeep). }
    destruct (Byte.eqb b backslash && inString).
    { apply (Hstep inString true masks false eq_refl Hkeep). }
    destruct (Byte.eqb b quote).
    + rewrite len_app, len_cons in Hlen.
      rewrite Z.quot_div_nonneg, Z.rem_mod_nonneg by lia.
      assert (Hq : 0 <= len pre / 64 < len masks).
      { split; [apply Z.div_pos; lia | apply Z.div_lt_upper_bound; lia]. }
      rewrite idx_nth by exact Hq. cbn [bind].
      rewrite store_in_range by exact Hq. cbn [bind].
      apply Hstep.
      * unfold len. rewrite length_stored by (unfold len in Hq; lia). reflexivity.
      * intros k Hk. cbn [andb]. apply bitAt_set; lia.
    + apply (Hstep inString false masks false eq_refl Hkeep).
Qed.

Lemma bitAt_zeros (n : nat) (k : Z) : bitAt (repeat 0 n) k = false.
Proof.
  unfold bitAt.
  replace (nth (Z.to_nat (k / 64)) (repeat 0 n) 0) with 0.
  - apply Z.testbit_0_l.
  - symmetry. destruct (Nat.lt_ge_cases (Z.to_nat (k / 64)) n).
    + apply nth_repeat_lt. assumption.
    + apply nth_overflow. rewrite repeat_length. assumption.
Qed.

(** The scalar mask: [(len(data)+63)/64] words, and bit [i] is set exactly
    when byte [i] is one that [markedQuotes] marks. *)
Theorem generateQuoteMaskScalar_bits (data : list byte) :
  exists masks,
    generateQuoteMaskScalar data = Ok masks
    /\ len masks = (len data + 63) / 64
    /\ forall i, 0 <= i ->
         bitAt masks i = nth (Z.to_nat i) (markedQuotes data false false) false.
Proof.
  unfold generateQuoteMaskScalar.
  pose proof (len_nonneg data) as Hd.
  rewrite Z.quot_div_nonneg by lia.
  set (n := Z.to_nat ((len data + 63) / 64)).
  assert (Hn : len (repeat 0 n) = (len data + 63) / 64).
  { unfold len. rewrite repeat_length. unfold n. rewrite Z2Nat.id; [reflexivity|].
    apply Z.div_pos; lia. }
  destruct (quoteMaskLoop_spec data [] false false (repeat 0 n) (S (List.length data)))
    as (masks & Hrun & Hl & Hb).
  - lia.
  - cbn [app]. rewrite Hn.
    pose proof (Z.div_mod (len data + 63) 64 ltac:(lia)).
    pose proof (Z.mod_pos_bound (len data + 63) 64 ltac:(lia)). lia.
  - exists masks. split; [exact Hrun|]. split; [lia|].
    intros i Hi. rewrite Hb by exact Hi. rewrite bitAt_zeros.
    change (len (@nil byte)) with 0. rewrite Z.sub_0_r.
    cmp_true (0 <=? i).
    reflexivity.
Qed.

(** ** Structural scan: the hardware paths against [scanScalar] *)

Lemma len_cons_nonzero {A} (a : A) (s : list A) : (len (a :: s) =? 0) = false.
Proof. apply Z.eqb_neq. rewrite len_cons. pose proof (len_nonneg s). lia. Qed.

(** On arm64 the NEON stub finds nothing and the scalar loop runs. *)
Lemma Arm64_scanSIMD_is_scalar (buf : list byte) :
  Arm64Scan.scanSIMD buf = scanScalar buf [].
Proof.
  unfold Arm64Scan.scanSIMD, Arm64Scan.scanNEON, Arm64Scan.findStructuralIndicesNEON.
  destruct (len buf =? 0) eqn:E.
  - apply Z.eqb_eq, len_zero_nil in E. subst. reflexivity.
  - destruct (16 <=? len buf); reflexivity.
Qed.

Lemma Generic_scanSIMD_is_scalar (buf : list byte) :
  GenericScan.scanSIMD buf = scanScalar buf [].
Proof. reflexivity. Qed.

Lemma Arm64_SIMDValidateUTF8_is_scalar (data : list byte) :
  Arm64Utf8.SIMDValidateUTF8 data = validateUTF8Scalar data.
Proof.
  unfold Arm64Utf8.SIMDValidateUTF8.
  destruct (len data =? 0) eqn:E; [|reflexivity].
  apply Z.eqb_eq, len_zero_nil in E. subst. reflexivity.
Qed.

Lemma Arm64_SIMDQuoteMask_is_scalar (data : list byte) :
  Arm64Mask.SIMDQuoteMask data = generateQuoteMaskScalar data.
Proof.
  unfold Arm64Mask.SIMDQuoteMask, Arm64Mask.findQuoteMaskNEON.
  destruct (len data =? 0) eqn:E.
  - apply Z.eqb_eq, len_zero_nil in E. subst. reflexivity.
  - rewrite andb_false_r. reflexivity.
Qed.

Lemma Arm64_SIMDParseInteger_is_scalar (data : list byte) :
  Arm64.SIMDParseInteger data = Arm64.parseIntegerScalar data.
Proof.
  rewrite Arm64_SIMDParseInteger_spec, Arm64_parseIntegerScalar_spec. reflexivity.
Qed.

(** On amd64 [scanSIMD] takes the address of element 0 of an index buffer
    that [Scan] has just truncated to length 0. *)
Lemma scanSIMD_amd64_truncated (hasAVX2 hasSSE42 : bool)
    (asmAVX2 asmSSE42 : list byte -> list Z)
    (c : byte) (data : list byte) (indices : slice32) :
  scanSIMD_amd64 hasAVX2 hasSSE42 asmAVX2 asmSSE42 (c :: data) (truncate32 indices)
  = Panic "index out of range".
Proof.
  unfold scanSIMD_amd64. rewrite len_cons_nonzero.
  change (idx (c :: data) 0) with (idx ([] ++ c :: data) (len (@nil byte))).
  rewrite idx_app_here. cbn [bind].
  destruct (capacity (truncate32 indices) <? Z.quot (len (c :: data)) 8); reflexivity.
Qed.

(** The scalar scan returns on every buffer. *)
Lemma scanScalarLoop_returns (buf : list byte) (fuel : nat) :
  forall i inString escaped indices,
    0 <= i -> (Z.to_nat (len buf - i) < fuel)%nat ->
    exists r, scanScalarLoop fuel buf i inString escaped indices = Ok r.
Proof.
  induction fuel as [|fuel IH]; intros i inString escaped indices Hi Hf; [lia|].
  cbn [scanScalarLoop].
  destruct (i <? len buf) eqn:E; [|eexists; reflexivity]. apply Z.ltb_lt in E.
  destruct (idx_in_range buf i ltac:(lia)) as [c Hc]. rewrite Hc. cbn [bind].
  assert (Hnext : forall inS esc ind,
            exists r, scanScalarLoop fuel buf (i + 1) inS esc ind = Ok r)
    by (intros; apply IH; lia).
  destruct escaped; [apply Hnext|].
  destruct (Byte.eqb c backslash && inString); [apply Hnext|].
  destruct (Byte.eqb c quote); [apply Hnext|].
  destruct (negb inString); [|apply Hnext].
  destruct (negb (charClassifier c =? 0) && negb (charClassifier c =? StructuralWhitespace));
    [apply Hnext|].
  destruct ((charClassifier c =? 0) && isDigit c || Byte.eqb c "-" || Byte.eqb c "t"
            || Byte.eqb c "f" || Byte.eqb c "n"); [|apply Hnext].
  destruct (i =? 0) eqn:E0.
  - cbn [bind]. apply Hnext.
  - apply Z.eqb_neq in E0.
    destruct (idx_in_range buf (i - 1) ltac:(lia)) as [p Hp]. rewrite Hp. cbn [bind].
    destruct (negb (charClassifier p =? 0) || Byte.eqb p " " || Byte.eqb p x09
              || Byte.eqb p x0a || Byte.eqb p x0d); apply Hnext.
Qed.

Theorem scanScalar_returns (buf : list byte) (indices : list Z) :
  exists r, scanScalar buf indices = Ok r.
Proof. apply scanScalarLoop_returns; [lia | unfold len; lia]. Qed.

(** ** Reasoning about calls that return *)

Lemma sat_bind {A B} (P : A -> Prop) (Q : B -> Prop) (m : outcome A) (k : A -> outcome B) :
  sat P m -> (forall a, P a -> sat Q (k a)) -> sat Q (bind m k).
Proof. destruct m; simpl; auto. Qed.

Lemma sat_weaken {A} (P Q : A -> Prop) (o : outcome A) :
  sat P o -> (forall a, P a -> Q a) -> sat Q o.
Proof. destruct o; simpl; auto. Qed.

Lemma sat_returns {A} (P : A -> Prop) (o : outcome A) : sat P o -> returns o.
Proof. destruct o; simpl; auto. Qed.

(** ** Guarded reads *)

Lemma nth_error_idx (s : list byte) (i : Z) (c : byte) :
  0 <= i -> nth_error s (Z.to_nat i) = Some c -> idx s i = Ok c.
Proof.
  intros Hi H. apply idx_Ok_iff. split; [|exact H].
  assert (Z.to_nat i < List.length s)%nat by (apply nth_error_Some; congruence).
  unfold len. lia.
Qed.

Lemma nth_error_in_range {A} (s : list A) (i : Z) (c : A) :
  0 <= i -> nth_error s (Z.to_nat i) = Some c -> i < len s.
Proof.
  intros Hi H.
  assert (Z.to_nat i < List.length s)%nat by (apply nth_error_Some; congruence).
  unfold len. lia.
Qed.

Lemma nth_error_past {A} (s : list A) (i : Z) :
  0 <= i -> nth_error s (Z.to_nat i) = None -> len s <= i.
Proof. intros Hi H. apply nth_error_None in H. unfold len. lia. Qed.

Lemma inRangeAnd_eq (s : list byte) (i : Z) (p : byte -> bool) :
  0 <= i ->
  inRangeAnd s i p =
  Ok (match nth_error s (Z.to_nat i) with Some c => p c | None => false end).
Proof.
  intros Hi. unfold inRangeAnd.
  destruct (nth_error s (Z.to_nat i)) as [c|] eqn:E.
  - replace (i <? len s) with true
      by (symmetry; apply Z.ltb_lt; eapply nth_error_in_range; eauto).
    rewrite (nth_error_idx s i c Hi E). reflexivity.
  - replace (i <? len s) with false
      by (symmetry; apply Z.ltb_ge; apply nth_error_past; assumption).
    reflexivity.
Qed.

(** ** The inner loops of the tokenizer *)

Section Loops.

Variable data : list byte.

Lemma scanWhile_spec (p : byte -> bool) (fuel : nat) :
  forall i,
    0 <= i -> (Z.to_nat (len data - i) < fuel)%nat ->
    exists j,
      scanWhile p fuel data i = Ok j
      /\ i <= j
      /\ (i <= len data -> j <= len data)
      /\ (forall k, i <= k < j ->
            exists c, nth_error data (Z.to_nat k) = Some c /\ p c = true)
      /\ match nth_error data (Z.to_nat j) with
         | Some c => p c = false
         | None => True
         end.
Proof.
  induction fuel as [|fuel IH]; intros i Hi Hf; [lia|].
  cbn [scanWhile]. rewrite inRangeAnd_eq by exact Hi. cbn [bind].
  destruct (nth_error data (Z.to_nat i)) as [c|] eqn:E.
  - destruct (p c) eqn:Ep.
    + pose proof (nth_error_in_range data i c Hi E) as Hlt.
      destruct (IH (i + 1) ltac:(lia) ltac:(lia)) as (j & Hj & Hle & Hlen & Hall & Hstop).
      exists j. split; [exact Hj|]. split; [lia|]. split; [intros; apply Hlen; lia|].
      split; [|exact Hstop].
      intros k Hk. destruct (Z.eq_dec k i) as [->|Hne].
      * exists c. auto.
      * apply Hall. lia.
    + exists i. split; [reflexivity|]. split; [lia|]. split; [auto|].
      split; [intros k Hk; lia|]. rewrite E. exact Ep.
  - exists i. split; [reflexivity|]. split; [lia|]. split; [auto|].
    split; [intros k Hk; lia|]. rewrite E. exact I.
Qed.

Lemma countBackslashes_returns (fuel : nat) :
  forall j acc,
    j < len data -> (Z.to_nat (j + 1) < fuel)%nat ->
    exists n, countBackslashes fuel data j acc = Ok n.
Proof.
  induction fuel as [|fuel IH]; intros j acc Hj Hf; [lia|].
  cbn [countBackslashes].
  destruct (0 <=? j) eqn:E0.
  - apply Z.leb_le in E0.
    destruct (idx_in_range data j ltac:(lia)) as [c Hc]. rewrite Hc. cbn [bind].
    destruct (Byte.eqb c backslash).
    + apply IH; lia.
    + eexists; reflexivity.
  - eexists; reflexivity.
Qed.

Lemma scanStringLoop_spec (fuel : nat) :
  forall i,
    0 <= i <= len data -> (Z.to_nat (len data - i) < fuel)%nat ->
    exists j, scanStringLoop fuel data i = Ok j /\ i <= j <= len data.
Proof.
  induction fuel as [|fuel IH]; intros i Hi Hf; [lia|].
  cbn [scanStringLoop].
  destruct (i <? len data) eqn:E.
  - apply Z.ltb_lt in E.
    destruct (idx_in_range data i ltac:(lia)) as [c Hc]. rewrite Hc. cbn [bind].
    assert (Hrec : exists j, scanStringLoop fuel data (i + 1) = Ok j /\ i <= j <= len data).
    { destruct (IH (i + 1) ltac:(lia) ltac:(lia)) as (j & Hj & Hr). exists j. split; [exact Hj | lia]. }
    destruct (Byte.eqb c quote); [|exact Hrec].
    destruct (countBackslashes_returns (S (List.length data)) (i - 1) 0) as [n Hn].
    { lia. }
    { unfold len in *. lia. }
    rewrite Hn. cbn [bind].
    destruct (negb (Z.rem n 2 =? 1)); [|exact Hrec].
    exists (i + 1). split; [reflexivity | lia].
  - apply Z.ltb_ge in E. exists i. split; [reflexivity | lia].
Qed.

Lemma matchLiteral_spec (i : Z) (lit : list byte) :
  0 <= i ->
  exists b, matchLiteral data i lit = Ok b /\ (b = true -> i + len lit <= len data).
Proof.
  intros Hi. unfold matchLiteral.
  destruct (i + len lit <=? len data) eqn:E.
  - apply Z.leb_le in E.
    rewrite slice_in_range by (pose proof (len_nonneg lit); lia). cbn [bind].
    eexists; split; [reflexivity | intros _; exact E].
  - eexists; split; [reflexivity | discriminate].
Qed.

End Loops.

(** ** The number rule *)

Section LexNumber.

Variable data : list byte.

Lemma fuel_enough (i : Z) : 0 <= i -> (Z.to_nat (len data - i) < (S (List.length data)))%nat.
Proof. intros Hi. unfold len. lia. Qed.

(** A digit run entered at a digit is not empty. *)
Lemma digit_run (i : Z) (c : byte) :
  0 <= i -> nth_error data (Z.to_nat i) = Some c -> isDigit c = true ->
  exists j,
    scanWhile isDigit (S (List.length data)) data i = Ok j
    /\ i < j /\ j <= len data
    /\ (forall k, i <= k < j -> byteIs data isDigit k).
Proof.
  intros Hi Hc Hd.
  destruct (scanWhile_spec data isDigit (S (List.length data)) i Hi (fuel_enough i Hi))
    as (j & Hj & Hle & Hlen & Hall & Hstop).
  pose proof (nth_error_in_range data i c Hi Hc) as Hlt.
  exists j. split; [exact Hj|]. split; [|split; [apply Hlen; lia | exact Hall]].
  destruct (Z.eq_dec i j) as [<-|]; [|lia].
  rewrite Hc in Hstop. congruence.
Qed.

(** After a digit at [i - 1]: the digits that follow. *)
Lemma digit_run_after (msg : string) (i : Z) :
  0 <= i <= len data ->
  sat (fun j => i <= j <= len data)
      (d <- inRangeAnd data i isDigit ;;
       if negb d then Err msg else scanWhile isDigit (S (List.length data)) data i).
Proof.
  intros Hi. rewrite inRangeAnd_eq by lia. cbn [bind].
  destruct (nth_error data (Z.to_nat i)) as [c|] eqn:E; [|exact I].
  destruct (isDigit c) eqn:Ed; [|exact I]. cbn [negb].
  destruct (digit_run i c ltac:(lia) E Ed) as (j & Hj & Hlt & Hle & _).
  rewrite Hj. simpl. lia.
Qed.

Theorem lexNumber_shape (i : Z) (c : byte) :
  0 <= i ->
  sat (fun j => i < j /\ numberShape data i c j) (lexNumber data i c).
Proof.
  intros Hi. unfold lexNumber. cbv zeta.
  set (i1 := if Byte.eqb c "-" then i + 1 else i).
  assert (Hi1 : i <= i1) by (unfold i1; destruct (Byte.eqb c "-"); lia).
  (* the sign *)
  apply sat_bind with (P := fun iA => iA = i1).
  { unfold i1. destruct (Byte.eqb c "-"); [|reflexivity].
    rewrite inRangeAnd_eq by lia. cbn [bind].
    destruct (nth_error data (Z.to_nat (i + 1))) as [x|]; [|exact I].
    destruct (isDigit x); [reflexivity | exact I]. }
  intros iA ->.
  (* at least one digit *)
  rewrite inRangeAnd_eq by lia. cbn [bind].
  destruct (nth_error data (Z.to_nat i1)) as [cA|] eqn:EA; [|exact I].
  destruct (isDigit cA) eqn:EdA; [|exact I]. cbn [negb].
  pose proof (nth_error_in_range data i1 cA ltac:(lia) EA) as HA.
  rewrite (nth_error_idx data i1 cA ltac:(lia) EA). cbn [bind].
  (* the integer part *)
  apply sat_bind with
    (P := fun i2 => i1 < i2 /\ i2 <= len data
                    /\ forall k, i1 <= k < i2 -> byteIs data isDigit k).
  { destruct (Byte.eqb cA "0").
    - rewrite inRangeAnd_eq by lia. cbn [bind].
      destruct (match nth_error data (Z.to_nat (i1 + 1)) with
                | Some c0 => isDigit c0 | None => false end); [exact I|].
      simpl. split; [lia|]. split; [lia|].
      intros k Hk. replace k with i1 by lia. exists cA. auto.
    - destruct (digit_run i1 cA ltac:(lia) EA EdA) as (j & Hj & Hlt & Hle & Hall).
      rewrite Hj. simpl. auto. }
  intros i2 (H12 & H2 & Hdigits).
  (* the fraction *)
  rewrite inRangeAnd_eq by lia. cbn [bind].
  apply sat_bind with
    (P := fun i3 => i2 <= i3 /\ i3 <= len data
                    /\ (i3 = i2 \/ (i2 < i3 /\ byteIs data isFloatChar i2))).
  { destruct (nth_error data (Z.to_nat i2)) as [cD|] eqn:ED; [|simpl; lia].
    destruct (Byte.eqb cD ".") eqn:Edot; [|simpl; lia].
    pose proof (nth_error_in_range data i2 cD ltac:(lia) ED) as HD.
    eapply sat_weaken; [apply (digit_run_after _ (i2 + 1)); lia|].
    intros j Hj. cbv beta in Hj |- *. split; [lia|]. split; [lia|]. right. split; [lia|].
    exists cD. split; [exact ED|]. unfold isFloatChar. rewrite Edot. reflexivity. }
  intros i3 (H23 & H3 & Hfrac).
  (* the exponent *)
  rewrite inRangeAnd_eq by lia. cbn [bind].
  apply sat_bind with
    (P := fun i4 => i3 <= i4 /\ i4 <= len data
                    /\ (i4 = i3 \/ (i3 < i4 /\ byteIs data isFloatChar i3))).
  { destruct (nth_error data (Z.to_nat i3)) as [cE|] eqn:EE; [|simpl; lia].
    destruct (Byte.eqb cE "e" || Byte.eqb cE "E") eqn:Eexp; [|simpl; lia].
    pose proof (nth_error_in_range data i3 cE ltac:(lia) EE) as HE.
    rewrite inRangeAnd_eq by lia. cbn [bind].
    assert (Hfc : byteIs data isFloatChar i3).
    { exists cE. split; [exact EE|]. unfold isFloatChar.
      rewrite <- orb_assoc, Eexp. apply orb_true_r. }
    destruct (match nth_error data (Z.to_nat (i3 + 1)) with
              | Some c0 => Byte.eqb c0 "+" || Byte.eqb c0 "-" | None => false end) eqn:Es.
    - assert (i3 + 1 < len data).
      { destruct (nth_error data (Z.to_nat (i3 + 1))) eqn:E1; [|discriminate].
        eapply nth_error_in_range; [|exact E1]. lia. }
      eapply sat_weaken; [apply (digit_run_after _ (i3 + 1 + 1)); lia|].
      intros j Hj. cbv beta in Hj |- *. split; [lia|]. split; [lia|]. right. split; [lia | exact Hfc].
    - eapply sat_weaken; [apply (digit_run_after _ (i3 + 1)); lia|].
      intros j Hj. cbv beta in Hj |- *. split; [lia|]. split; [lia|]. right. split; [lia | exact Hfc]. }
  intros i4 (H34 & H4 & Hexp).
  (* the closing check *)
  cmp_false (i4 <=? i).
  assert (Hshape : i < i4 /\ numberShape data i c i4).
  { split; [lia|]. unfold numberShape. fold i1. exists i2.
    split; [lia|]. split; [lia|]. split; [lia|]. split; [exact Hdigits|].
    destruct Hfrac as [->|[Hlt Hf]].
    - destruct Hexp as [->|[Hlt Hf]]; [left; reflexivity | right; split; [lia | exact Hf]].
    - right. split; [lia | exact Hf]. }
  destruct (i =? i4 - 1).
  - destruct (idx_in_range data i ltac:(lia)) as [x Hx]. rewrite Hx. cbn [bind].
    destruct (Byte.eqb x "-"); [exact I | exact Hshape].
  - cbn [bind]. exact Hshape.
Qed.

End LexNumber.

(** ** One token, and the token loop *)

Section Tokenizer.

Variable data : list byte.

Lemma lookback_returns (tokens : list Token) (c : byte) :
  sat (fun _ => True) (lookback tokens c).
Proof.
  unfold lookback. destruct (0 <? len tokens) eqn:E; [|exact I].
  apply Z.ltb_lt in E.
  destruct (idx_in_range tokens (len tokens - 1) ltac:(lia)) as [t Ht].
  rewrite Ht. cbn [bind].
  repeat match goal with |- sat _ (if ?b then _ else _) => destruct b end; exact I.
Qed.

Lemma lexToken_spec (i : Z) (c : byte) :
  0 <= i < len data -> sat (spanOf data i) (lexToken data i c).
Proof.
  intros Hi. unfold lexToken.
  assert (Hsingle : forall ty,
    sat (spanOf data i) (Ok (mkToken ty (uint32 i) (uint32 (i + 1)), i + 1))).
  { intros ty. unfold spanOf. simpl. repeat split; lia. }
  assert (Hkw : forall ty lit msg, 0 < len lit ->
    sat (spanOf data i)
        (m <- matchLiteral data i lit ;;
         if m then Ok (mkToken ty (uint32 i) (uint32 (i + len lit)), i + len lit)
         else Err msg)).
  { intros ty lit msg Hlit.
    destruct (matchLiteral_spec data i lit ltac:(lia)) as (b & Hb & Hin).
    rewrite Hb. cbn [bind]. destruct b; [|exact I].
    specialize (Hin eq_refl). unfold spanOf. simpl. repeat split; lia. }
  repeat match goal with
         | |- sat _ (if Byte.eqb c quote then _ else _) => fail 1
         | |- sat _ (if Byte.eqb c "t" then _ else _) => fail 1
         | |- sat _ (if ?b then _ else _) => destruct b; [apply Hsingle|]
         end.
  destruct (Byte.eqb c quote).
  { destruct (scanStringLoop_spec data (S (List.length data)) (i + 1)) as (j & Hj & Hr).
    - lia.
    - unfold len in *. lia.
    - rewrite Hj. cbn [bind]. unfold spanOf. simpl. repeat split; lia. }
  destruct (Byte.eqb c "t"); [apply Hkw; reflexivity|].
  destruct (Byte.eqb c "f"); [apply Hkw; reflexivity|].
  destruct (Byte.eqb c "n"); [apply Hkw; reflexivity|].
  destruct (Byte.eqb c "-" || isDigit c); [|exact I].
  eapply sat_bind; [apply (lexNumber_shape data i c); lia|].
  intros j [Hj Hs]. unfold numberShape in Hs. destruct Hs as (i2 & _ & _ & Hle & _).
  unfold spanOf. simpl. repeat split; lia.
Qed.

(** The loop returns, and what it appends is a chain of spans that
    starts at or after [i]. *)
Lemma tokenizeLoop_spec (fuel : nat) :
  forall (tokens : list Token) (i : Z),
    0 <= i -> (Z.to_nat (len data - i) < fuel)%nat ->
    sat (fun toks => exists new, toks = tokens ++ new /\ tokenSpans i (len data) new)
        (tokenizeLoop fuel data tokens i).
Proof.
  induction fuel as [|fuel IH]; intros tokens i Hi Hf; [lia|].
  cbn [tokenizeLoop].
  assert (Hnone : sat (fun toks => exists new, toks = tokens ++ new
                                   /\ tokenSpans i (len data) new) (Ok tokens)).
  { exists []. rewrite app_nil_r. split; [reflexivity | exact I]. }
  destruct (i <? len data) eqn:E; [|exact Hnone].
  apply Z.ltb_lt in E.
  destruct (scanWhile_spec data isWhitespace (S (List.length data)) i Hi)
    as (i0 & Hi0 & Hle & Hlen & _ & _).
  { unfold len. lia. }
  rewrite Hi0. cbn [bind].
  destruct (len data <=? i0) eqn:E0; [exact Hnone|].
  apply Z.leb_gt in E0.
  destruct (idx_in_range data i0 ltac:(lia)) as [c Hc]. rewrite Hc. cbn [bind].
  eapply sat_bind; [apply lookback_returns|]. intros _ _.
  eapply sat_bind; [apply (lexToken_spec i0 c); lia|].
  intros [tok j] (Hs & He & Hlt & Hj). cbn [fst snd] in *.
  eapply sat_weaken; [apply (IH (tokens ++ [tok]) j); lia|].
  intros toks (new & -> & Hnew). cbv beta.
  exists (tok :: new). split; [rewrite <- app_assoc; reflexivity|].
  cbn [tokenSpans]. exists i0, j. repeat split; try assumption; lia.
Qed.

Lemma SimpleTokenize_spec :
  sat (tokenSpans 0 (len data)) (SimpleTokenize data).
Proof.
  unfold SimpleTokenize. destruct (len data =? 0); [exact I|].
  eapply sat_weaken; [apply (tokenizeLoop_spec (S (List.length data)) [] 0)|].
  - lia.
  - unfold len. lia.
  - intros toks (new & -> & H). exact H.
Qed.

End Tokenizer.

(** [SimpleTokenize] returns on every buffer. *)
Theorem SimpleTokenize_returns (data : list byte) : returns (SimpleTokenize data).
Proof. eapply sat_returns, SimpleTokenize_spec. Qed.

(** ** Validate *)

Lemma validateLoop_returns (tokens : list Token) :
  forall depth stack, exists b, validateLoop tokens depth stack = Ok b.
Proof.
  induction tokens as [|t rest IH]; intros depth stack; cbn [validateLoop].
  - eexists; reflexivity.
  - assert (Hcont : forall d s, exists b,
              (if d <? 0 then Ok false else validateLoop rest d s) = Ok b).
    { intros d s. destruct (d <? 0); [eexists; reflexivity | apply IH]. }
    assert (Hclose : forall opener, exists b,
      (if len stack =? 0 then Ok false
       else
         top <- idx stack (len stack - 1) ;;
         if negb (TokenType_eqb top opener) then Ok false
         else
           stack0 <- slice stack 0 (len stack - 1) ;;
           (if depth - 1 <? 0 then Ok false else validateLoop rest (depth - 1) stack0))
      = Ok b).
    { intros opener. destruct (len stack =? 0) eqn:E; [eexists; reflexivity|].
      apply Z.eqb_neq in E. pose proof (len_nonneg stack).
      destruct (idx_in_range stack (len stack - 1) ltac:(lia)) as [top Ht].
      rewrite Ht. cbn [bind].
      destruct (negb (TokenType_eqb top opener)); [eexists; reflexivity|].
      rewrite slice_in_range by lia. cbn [bind]. apply Hcont. }
    destruct (Type_ t); try apply Hcont; apply Hclose.
Qed.

(** [Validate] returns a boolean on every buffer. *)
Theorem Validate_returns (data : list byte) : exists b, Validate data = Ok b.
Proof.
  unfold Validate. pose proof (SimpleTokenize_returns data) as H.
  destruct (SimpleTokenize data); simpl in H; try contradiction.
  - apply validateLoop_returns.
  - eexists; reflexivity.
Qed.

(** ** Whitespace-only buffers *)

Lemma SimpleTokenize_whitespace (data : list byte) :
  data <> [] -> Forall (fun c => isWhitespace c = true) data ->
  SimpleTokenize data = Ok [].
Proof.
  intros Hne Hws. unfold SimpleTokenize.
  assert (Hlen : 0 < len data).
  { destruct data; [contradiction|]. rewrite len_cons. pose proof (len_nonneg data). lia. }
  cmp_false (len data =? 0).
  cbn [tokenizeLoop].
  cmp_true (0 <? len data).
  destruct (scanWhile_spec data isWhitespace (S (List.length data)) 0 ltac:(lia))
    as (j & Hj & Hle & Hjlen & _ & Hstop).
  { unfold len. lia. }
  rewrite Hj. cbn [bind].
  destruct (nth_error data (Z.to_nat j)) as [c|] eqn:E.
  - exfalso. rewrite Forall_forall in Hws.
    rewrite (Hws c) in Hstop; [discriminate|]. eapply nth_error_In; eauto.
  - apply nth_error_past in E; [|lia].
    cmp_true (len data <=? j).
    reflexivity.
Qed.

(** ** Number materialisation *)

Lemma spanDigits_all (l : list byte) :
  Forall (fun c => isDigit c = true) l -> spanDigits l = (l, []).
Proof.
  induction 1 as [|c l Hc Hl IH]; [reflexivity|].
  cbn [spanDigits]. rewrite Hc, IH. reflexivity.
Qed.

Lemma leadingInteger_signDigits (b : list byte) :
  signDigits b ->
  leadingInteger b =
  if MaxInt64 <? Z.abs (signedValue b) then (0, false) else (signedValue b, true).
Proof.
  destruct b as [|c rest]; [contradiction|].
  unfold signDigits, leadingInteger, signedValue.
  destruct (Byte.eqb c "-") eqn:E.
  - intros [Hne Hd]. rewrite (spanDigits_all rest Hd). cbn [fst].
    pose proof (fold_digits_ge rest 0 Hd ltac:(lia)) as Hge.
    rewrite <- decimalValue_fold in Hge.
    rewrite Z.abs_opp, Z.abs_eq by lia.
    destruct rest; [contradiction | reflexivity].
  - intros Hd. rewrite (spanDigits_all (c :: rest) Hd). cbn [fst].
    pose proof (fold_digits_ge (c :: rest) 0 Hd ltac:(lia)) as Hge.
    rewrite <- decimalValue_fold in Hge.
    rewrite Z.abs_eq by lia. reflexivity.
Qed.

(** On a sign-and-digits lexeme the generic routine agrees with the arm64
    one. *)
Lemma Generic_parseIntegerScalar_signDigits (b : list byte) :
  signDigits b -> Generic.parseIntegerScalar b = Ok (leadingInteger b).
Proof.
  intros Hs. rewrite <- Arm64_parseIntegerScalar_spec.
  unfold Generic.parseIntegerScalar, Arm64.parseIntegerScalar.
  destruct b as [|c rest]; [contradiction|].
  rewrite len_cons_nonzero.
  change (idx (c :: rest) 0) with (idx ([] ++ c :: rest) (len (@nil byte))).
  rewrite idx_app_here. cbn [bind app].
  unfold signDigits in Hs.
  destruct (Byte.eqb c "-") eqn:E; cbn [andb].
  - destruct Hs as [Hne Hd]. destruct rest as [|d rest']; [contradiction|].
    replace (len (c :: d :: rest') =? 1) with false
      by (symmetry; apply Z.eqb_neq; rewrite !len_cons; pose proof (len_nonneg rest'); lia).
    change (c :: d :: rest') with ([c] ++ d :: rest').
    change 1 with (len [c]).
    rewrite digitLoop_spec; [| simpl; lia | unfold MaxInt64; lia].
    cbn [bind]. rewrite (spanDigits_all _ Hd). cbn [fst].
    destruct (MaxInt64 <? _); [reflexivity|].
    replace (len [c] <? len ([c] ++ d :: rest')) with true
      by (symmetry; apply Z.ltb_lt; rewrite len_app, !len_cons, len_nil; pose proof (len_nonneg rest'); lia).
    reflexivity.
  - pose proof (digitLoop_spec (c :: rest) [] 0 false (S (List.length (c :: rest)))
                  ltac:(lia) ltac:(unfold MaxInt64; lia)) as Hloop.
    cbn [app] in Hloop. change (len (@nil byte)) with 0 in Hloop. rewrite Hloop.
    clear Hloop. cbn [bind app]. rewrite (spanDigits_all _ Hs). cbv zeta. cbn [fst].
    destruct (MaxInt64 <? fold_left digitStep (c :: rest) 0); [reflexivity|].
    reflexivity.
Qed.

Lemma SIMDParseInteger_signDigits (a : arch) (b : list byte) :
  signDigits b -> SIMDParseInteger a b = Ok (leadingInteger b).
Proof.
  intros Hs. destruct a; cbn [SIMDParseInteger].
  - apply Arm64_SIMDParseInteger_spec.
  - apply Generic_parseIntegerScalar_signDigits, Hs.
Qed.

Lemma forallb_Forall (p : byte -> bool) (l : list byte) :
  Forall (fun c => p c = true) l -> forallb p l = true.
Proof. intros H. apply forallb_forall. rewrite Forall_forall in H. exact H. Qed.

Lemma ParseInt_signDigits (b : list byte) :
  signDigits b ->
  ParseInt b =
  if inInt64 (signedValue b) then Ok (signedValue b)
  else Err "strconv.ParseInt: value out of range".
Proof.
  destruct b as [|c rest]; [contradiction|].
  unfold signDigits, ParseInt, signedValue, inInt64, MinInt64, MaxInt64.
  destruct (Byte.eqb c "-") eqn:E.
  - intros [Hne Hd]. rewrite orb_true_r.
    replace (len rest =? 0) with false
      by (symmetry; apply Z.eqb_neq; destruct rest; [contradiction|];
          rewrite len_cons; pose proof (len_nonneg rest); lia).
    rewrite (forallb_Forall _ _ Hd). cbn [negb orb andb].
    pose proof (fold_digits_ge rest 0 Hd ltac:(lia)) as Hge.
    rewrite <- decimalValue_fold in Hge.
    destruct (9223372036854775808 <? decimalValue rest) eqn:Eo.
    + apply Z.ltb_lt in Eo.
      cmp_false (-9223372036854775808 <=? - decimalValue rest).
      reflexivity.
    + apply Z.ltb_ge in Eo.
      cmp_true (-9223372036854775808 <=? - decimalValue rest).
      cmp_true (- decimalValue rest <=? 9223372036854775807).
      reflexivity.
  - intros Hd.
    assert (Hc : isDigit c = true) by (inversion Hd; assumption).
    assert (Eplus : Byte.eqb c "+" = false).
    { destruct (Byte.eqb c "+") eqn:Ep; [|reflexivity].
      apply byte_eqb_eq in Ep. subst. discriminate. }
    rewrite Eplus. cbn [orb].
    rewrite len_cons_nonzero. rewrite (forallb_Forall _ _ Hd). cbn [negb orb andb].
    pose proof (fold_digits_ge (c :: rest) 0 Hd ltac:(lia)) as Hge.
    rewrite <- decimalValue_fold in Hge.
    destruct (9223372036854775808 <=? decimalValue (c :: rest)) eqn:Eo.
    + apply Z.leb_le in Eo.
      cmp_false (decimalValue (c :: rest) <=? 9223372036854775807).
      rewrite andb_false_r. reflexivity.
    + apply Z.leb_gt in Eo.
      cmp_true (-9223372036854775808 <=? decimalValue (c :: rest)).
      cmp_true (decimalValue (c :: rest) <=? 9223372036854775807).
      reflexivity.
Qed.

(** The integer fast path followed by the [strconv.ParseInt] fallback. *)
Lemma integer_paths (a : arch) (b : list byte) :
  signDigits b ->
  ('(val, ok) <- SIMDParseInteger a b ;;
   if ok then Ok (Some val)
   else match ParseInt b with Ok val => Ok (Some val) | _ => Ok None end)
  = Ok (if inInt64 (signedValue b) then Some (signedValue b) else None).
Proof.
  intros Hs. rewrite (SIMDParseInteger_signDigits a b Hs). cbn [bind].
  rewrite (leadingInteger_signDigits b Hs), (ParseInt_signDigits b Hs).
  unfold inInt64, MinInt64, MaxInt64.
  destruct (9223372036854775807 <? Z.abs (signedValue b)) eqn:Eo.
  - destruct ((-9223372036854775808 <=? signedValue b)
              && (signedValue b <=? 9223372036854775807)); reflexivity.
  - apply Z.ltb_ge in Eo.
    cmp_true (-9223372036854775808 <=? signedValue b).
    cmp_true (signedValue b <=? 9223372036854775807).
    reflexivity.
Qed.

Lemma slice_nth {A} (s : list A) (lo hi : Z) (b : list A) (k : Z) :
  slice s lo hi = Ok b -> 0 <= k < hi - lo ->
  nth_error b (Z.to_nat k) = nth_error s (Z.to_nat (lo + k)).
Proof.
  intros Hs Hk. pose proof (slice_len s b lo hi Hs) as (Hlo & Hhi & Hlen).
  rewrite slice_in_range in Hs by lia. injection Hs as <-.
  rewrite nth_error_firstn.
  replace (Z.to_nat k <? Z.to_nat (hi - lo))%nat with true
    by (symmetry; apply Nat.ltb_lt; lia).
  rewrite nth_error_skipn. f_equal. lia.
Qed.

Lemma Forall_nth_error {A} (P : A -> Prop) (l : list A) :
  (forall n, (n < List.length l)%nat -> exists x, nth_error l n = Some x /\ P x) ->
  Forall P l.
Proof.
  induction l as [|x l IH]; intros H; constructor.
  - destruct (H 0%nat ltac:(simpl; lia)) as (y & Hy & Py). injection Hy as ->. exact Py.
  - apply IH. intros n Hn. apply (H (S n)). simpl. lia.
Qed.

(** A lexeme of the number rule without ['.'], ['e'], ['E'] is a sign and
    digits. *)
Lemma shape_signDigits (data : list byte) (s e : Z) (c : byte) (b : list byte) :
  0 <= s -> idx data s = Ok c -> s < e ->
  numberShape data s c e ->
  slice data s e = Ok b ->
  containsFloatCharsBytes b = false ->
  signDigits b.
Proof.
  intros Hs Hc Hse (i2 & H12 & H2e & Helen & Hdigits & Hend) Hb Hnf.
  pose proof (slice_len data b s e Hb) as (_ & _ & Hlen).
  assert (Hnth : forall k, 0 <= k < e - s ->
            nth_error b (Z.to_nat k) = nth_error data (Z.to_nat (s + k))).
  { intros k Hk. apply (slice_nth data s e b k Hb Hk). }
  assert (Hi2 : i2 = e).
  { destruct Hend as [H|[Hlt (cf & Hcf & Hf)]]; [exact H|]. exfalso.
    assert (Hin : In cf b).
    { apply nth_error_In with (n := Z.to_nat (i2 - s)).
      rewrite Hnth by (destruct (Byte.eqb c "-"); lia).
      rewrite <- Hcf. f_equal. lia. }
    unfold containsFloatCharsBytes in Hnf.
    assert (existsb (fun c0 => Byte.eqb c0 "." || Byte.eqb c0 "e" || Byte.eqb c0 "E") b = true)
      as Hex by (apply existsb_exists; exists cf; split; [exact Hin | exact Hf]).
    congruence. }
  subst i2.
  destruct b as [|c' rest]; [rewrite len_nil in Hlen; lia|].
  assert (c' = c) as ->.
  { pose proof (Hnth 0 ltac:(lia)) as H0. cbn [Z.to_nat nth_error] in H0.
    apply idx_Ok_iff in Hc. destruct Hc as [_ Hc].
    rewrite Z.add_0_r, Hc in H0. congruence. }
  rewrite len_cons in Hlen. cbn [signDigits].
  destruct (Byte.eqb c "-") eqn:E.
  - split.
    + destruct rest; [rewrite len_nil in Hlen; lia | discriminate].
    + apply Forall_nth_error. intros n Hn.
      destruct (Hdigits (s + 1 + Z.of_nat n)) as (x & Hx & Hd).
      { unfold len in Hlen. lia. }
      exists x. split; [|exact Hd].
      pose proof (Hnth (1 + Z.of_nat n) ltac:(unfold len in Hlen; lia)) as Hk.
      replace (Z.to_nat (1 + Z.of_nat n)) with (S n) in Hk by lia.
      cbn [nth_error] in Hk. rewrite Hk, <- Hx. f_equal. lia.
  - apply Forall_nth_error. intros n Hn.
    destruct (Hdigits (s + Z.of_nat n)) as (x & Hx & Hd).
    { unfold len in Hlen. simpl in Hn. lia. }
    exists x. split; [|exact Hd].
    pose proof (Hnth (Z.of_nat n) ltac:(unfold len in Hlen; simpl in Hn; lia)) as Hk.
    rewrite Nat2Z.id in Hk. rewrite Hk, <- Hx. reflexivity.
Qed.

(** [parseNumber] on a token of the number rule: an [int64] when the
    lexeme has no ['.'], ['e'], ['E'] and denotes an integer in range, and
    otherwise whatever the float conversion gives. *)
Theorem parseNumber_spec (a : arch) (data : list byte) (tokens : list Token)
    (pos s e : Z) (c : byte) :
  idx tokens pos = Ok (mkToken TokenNumber (uint32 s) (uint32 e)) ->
  0 <= s -> e < 4294967296 ->
  idx data s = Ok c ->
  lexNumber data s c = Ok e ->
  exists numBytes,
    slice data s e = Ok numBytes
    /\ parseNumber a data tokens pos =
       if negb (containsFloatCharsBytes numBytes) && inInt64 (signedValue numBytes)
       then Ok (VInt (signedValue numBytes), pos + 1)
       else (val <- ParseFloat numBytes ;; Ok (VFloat val, pos + 1)).
Proof.
  intros Htok Hs He Hc Hlex.
  pose proof (lexNumber_shape data s c Hs) as Hsat.
  rewrite Hlex in Hsat. simpl in Hsat. destruct Hsat as [Hse Hshape].
  assert (Hlen : e <= len data) by (destruct Hshape as (i2 & _ & _ & H & _); exact H).
  exists (firstn (Z.to_nat (e - s)) (skipn (Z.to_nat s) data)).
  assert (Hslice : slice data s e = Ok (firstn (Z.to_nat (e - s)) (skipn (Z.to_nat s) data)))
    by (apply slice_in_range; lia).
  split; [exact Hslice|].
  set (numBytes := firstn (Z.to_nat (e - s)) (skipn (Z.to_nat s) data)) in *.
  unfold parseNumber. rewrite Htok. cbn [bind Start End_].
  rewrite !uint32_small by lia. rewrite Hslice. cbn [bind].
  destruct (containsFloatCharsBytes numBytes) eqn:Ef; cbn [negb andb bind]; [reflexivity|].
  rewrite integer_paths by (eapply shape_signDigits; eauto).
  cbn [bind]. destruct (inInt64 (signedValue numBytes)); reflexivity.
Qed.

(** ** The parser does not look past the value it parses *)

Lemma bind_Ok_inv {A B} (m : outcome A) (k : A -> outcome B) (b : B) :
  bind m k = Ok b -> exists a, m = Ok a /\ k a = Ok b.
Proof. destruct m; simpl; try discriminate. intros H. eauto. Qed.

Lemma idx_app_l {A} (s t : list A) (i : Z) (a : A) :
  idx s i = Ok a -> idx (s ++ t) i = Ok a.
Proof.
  intros H. apply idx_Ok_iff in H. destruct H as [Hr Hn].
  apply idx_Ok_iff. split.
  - rewrite len_app. pose proof (len_nonneg t). lia.
  - rewrite nth_error_app1; [exact Hn | unfold len in Hr; lia].
Qed.

Section Extension.

Variable a : arch.
Variable data : list byte.
Variables tokens extra : list Token.

Lemma tokenTypeAt_true (pos : Z) (ty : TokenType) :
  tokenTypeAt tokens pos ty = Ok true ->
  exists t, idx tokens pos = Ok t /\ TokenType_eqb (Type_ t) ty = true.
Proof.
  unfold tokenTypeAt. destruct (pos <? len tokens); [|discriminate].
  intros H. apply bind_Ok_inv in H. destruct H as (t & Ht & Hb).
  exists t. split; [exact Ht | congruence].
Qed.

Lemma tokenTypeAt_ext (pos : Z) (ty : TokenType) (b : bool) :
  pos < len tokens ->
  tokenTypeAt tokens pos ty = Ok b -> tokenTypeAt (tokens ++ extra) pos ty = Ok b.
Proof.
  intros Hlt. unfold tokenTypeAt.
  cmp_true (pos <? len tokens).
  replace (pos <? len (tokens ++ extra)) with true
    by (symmetry; apply Z.ltb_lt; rewrite len_app; pose proof (len_nonneg extra); lia).
  intros H. apply bind_Ok_inv in H. destruct H as (t & Ht & Hb).
  rewrite (idx_app_l _ _ _ _ Ht). exact Hb.
Qed.

Lemma tokenTypeAt_past (pos : Z) (ty : TokenType) :
  len tokens <= pos -> tokenTypeAt tokens pos ty = Ok false.
Proof.
  intros H. unfold tokenTypeAt.
  cmp_false (pos <? len tokens).
  reflexivity.
Qed.

Lemma parseString_ext (pos : Z) (r : Value * Z) :
  parseString data tokens pos = Ok r -> parseString data (tokens ++ extra) pos = Ok r.
Proof.
  unfold parseString. intros H. apply bind_Ok_inv in H. destruct H as (t & Ht & H).
  rewrite (idx_app_l _ _ _ _ Ht). exact H.
Qed.

Lemma parseNumber_ext (pos : Z) (r : Value * Z) :
  parseNumber a data tokens pos = Ok r -> parseNumber a data (tokens ++ extra) pos = Ok r.
Proof.
  unfold parseNumber. intros H. apply bind_Ok_inv in H. destruct H as (t & Ht & H).
  rewrite (idx_app_l _ _ _ _ Ht). exact H.
Qed.

Lemma after_value_ext (pos : Z) (K1 K2 : Token -> outcome (Value * Z)) (msg : string)
    (r : Value * Z) :
  (forall t, K1 t = Ok r -> K2 t = Ok r) ->
  (if len tokens <=? pos then Err msg else t <- idx tokens pos ;; K1 t) = Ok r ->
  (if len (tokens ++ extra) <=? pos then Err msg
   else t <- idx (tokens ++ extra) pos ;; K2 t) = Ok r.
Proof.
  intros HK H. destruct (len tokens <=? pos) eqn:E; [discriminate|].
  apply Z.leb_gt in E.
  replace (len (tokens ++ extra) <=? pos) with false
    by (symmetry; apply Z.leb_gt; rewrite len_app; pose proof (len_nonneg extra); lia).
  apply bind_Ok_inv in H. destruct H as (t & Ht & H).
  rewrite (idx_app_l _ _ _ _ Ht). cbn [bind]. apply HK, H.
Qed.

Lemma objectLoop_ext (pv1 pv2 : Z -> outcome (Value * Z)) :
  extends tokens pv1 pv2 ->
  forall fuel1 fuel2 obj pos r,
    (fuel1 <= fuel2)%nat ->
    objectLoop data tokens pv1 fuel1 obj pos = Ok r ->
    objectLoop data (tokens ++ extra) pv2 fuel2 obj pos = Ok r.
Proof.
  intros Hpv. induction fuel1 as [|fuel1 IH]; intros fuel2 obj pos r Hf H; [discriminate|].
  destruct fuel2 as [|fuel2]; [lia|].
  cbn [objectLoop] in *.
  apply bind_Ok_inv in H. destruct H as (isKey & HisKey & H).
  destruct isKey; [|discriminate]. cbn [negb] in H.
  destruct (tokenTypeAt_true pos TokenString HisKey) as (t & Ht & _).
  apply idx_Ok_iff in Ht. destruct Ht as [Hpos _].
  rewrite (tokenTypeAt_ext pos TokenString true ltac:(lia) HisKey). cbn [bind negb].
  apply bind_Ok_inv in H. destruct H as ([key pos1] & Hkey & H).
  rewrite (parseString_ext pos _ Hkey). cbn [bind].
  apply bind_Ok_inv in H. destruct H as (isColon & HisColon & H).
  destruct isColon; [|discriminate]. cbn [negb] in H.
  destruct (tokenTypeAt_true pos1 TokenColon HisColon) as (t1 & Ht1 & _).
  apply idx_Ok_iff in Ht1. destruct Ht1 as [Hpos1 _].
  rewrite (tokenTypeAt_ext pos1 TokenColon true ltac:(lia) HisColon). cbn [bind negb].
  apply bind_Ok_inv in H. destruct H as ([value pos2] & Hval & H).
  destruct (Hpv _ _ Hval) as [_ Hval2]. rewrite Hval2. cbn [bind].
  revert H. apply after_value_ext. intros t2.
  destruct (TokenType_eqb (Type_ t2) TokenObjectEnd); [auto|].
  destruct (TokenType_eqb (Type_ t2) TokenComma); [|discriminate].
  apply IH. lia.
Qed.

Lemma arrayLoop_ext (pv1 pv2 : Z -> outcome (Value * Z)) :
  extends tokens pv1 pv2 ->
  forall fuel1 fuel2 arr pos r,
    (fuel1 <= fuel2)%nat ->
    arrayLoop tokens pv1 fuel1 arr pos = Ok r ->
    arrayLoop (tokens ++ extra) pv2 fuel2 arr pos = Ok r.
Proof.
  intros Hpv. induction fuel1 as [|fuel1 IH]; intros fuel2 arr pos r Hf H; [discriminate|].
  destruct fuel2 as [|fuel2]; [lia|].
  cbn [arrayLoop] in *.
  apply bind_Ok_inv in H. destruct H as ([value pos2] & Hval & H).
  destruct (Hpv _ _ Hval) as [_ Hval2]. rewrite Hval2. cbn [bind].
  revert H. apply after_value_ext. intros t2.
  destruct (TokenType_eqb (Type_ t2) TokenArrayEnd); [auto|].
  destruct (TokenType_eqb (Type_ t2) TokenComma); [|discriminate].
  apply IH. lia.
Qed.

Lemma parseValue_in_range (fuel : nat) (pos : Z) (r : Value * Z) :
  parseValue a data tokens fuel pos = Ok r -> pos < len tokens.
Proof.
  destruct fuel; [discriminate|]. cbn [parseValue].
  destruct (len tokens <=? pos) eqn:E; [discriminate|].
  intros _. apply Z.leb_gt in E. exact E.
Qed.

Lemma parseValue_ext (fuel1 : nat) :
  forall fuel2 pos r,
    (fuel1 <= fuel2)%nat ->
    parseValue a data tokens fuel1 pos = Ok r ->
    parseValue a data (tokens ++ extra) fuel2 pos = Ok r.
Proof.
  induction fuel1 as [|fuel1 IH]; intros fuel2 pos r Hf H; [discriminate|].
  destruct fuel2 as [|fuel2]; [lia|].
  assert (Hext : extends tokens (parseValue a data tokens fuel1)
                         (parseValue a data (tokens ++ extra) fuel2)).
  { intros p r' Hp. split; [eapply parseValue_in_range; eauto | apply IH; [lia | exact Hp]]. }
  cbn [parseValue] in *. revert H. apply after_value_ext. intros t.
  destruct (Type_ t); auto.
  - (* object *)
    unfold parseObject. intros H.
    apply bind_Ok_inv in H. destruct H as (isEnd & HisEnd & H).
    destruct (Z.lt_ge_cases (pos + 1) (len tokens)) as [Hlt|Hge].
    + rewrite (tokenTypeAt_ext _ _ _ Hlt HisEnd). cbn [bind].
      destruct isEnd; [exact H|].
      eapply objectLoop_ext; [exact Hext | | exact H]. lia.
    + exfalso. rewrite tokenTypeAt_past in HisEnd by lia. injection HisEnd as <-.
      destruct fuel1; [discriminate|]. cbn [objectLoop] in H.
      rewrite tokenTypeAt_past in H by lia. discriminate.
  - (* array *)
    unfold parseArray. intros H.
    apply bind_Ok_inv in H. destruct H as (isEnd & HisEnd & H).
    destruct (Z.lt_ge_cases (pos + 1) (len tokens)) as [Hlt|Hge].
    + rewrite (tokenTypeAt_ext _ _ _ Hlt HisEnd). cbn [bind].
      destruct isEnd; [exact H|].
      eapply arrayLoop_ext; [exact Hext | | exact H]. lia.
    + exfalso. rewrite tokenTypeAt_past in HisEnd by lia. injection HisEnd as <-.
      destruct fuel1; [discriminate|]. cbn [arrayLoop] in H.
      apply bind_Ok_inv in H. destruct H as (vp & Hvp & _).
      apply parseValue_in_range in Hvp. lia.
  - apply parseString_ext.
  - apply parseNumber_ext.
Qed.

End Extension.

(** ** The parser returns on the tokens of any buffer *)

Lemma tokenSpans_inData (data : list byte) (toks : list Token) :
  len data < 4294967296 ->
  forall lo, 0 <= lo -> tokenSpans lo (len data) toks -> tokensInData data toks.
Proof.
  intros Hn. unfold tokensInData.
  induction toks as [|t toks IH]; intros lo Hlo H; [constructor|].
  cbn [tokenSpans] in H. destruct H as (s & e & Hs & He & H1 & H2 & H3 & Hrest).
  rewrite uint32_small in Hs, He by lia.
  constructor; [lia|]. apply (IH e); [lia | exact Hrest].
Qed.

Lemma ParseUint16_returns (s : list byte) :
  forall acc, sat (fun _ => True) (ParseUint16 s acc).
Proof.
  induction s as [|c s IH]; intros acc; cbn [ParseUint16]; [exact I|].
  destruct (hexVal c); [apply IH | exact I].
Qed.

Lemma ParseUint_16_16_returns (s : list byte) : sat (fun _ => True) (ParseUint_16_16 s).
Proof.
  unfold ParseUint_16_16. destruct (len s =? 0); [exact I|].
  eapply sat_bind; [apply ParseUint16_returns|].
  intros r _. destruct (65536 <=? r); exact I.
Qed.

Lemma unescapeLoop_returns (b : list byte) (fuel : nat) :
  forall i buf,
    0 <= i -> (Z.to_nat (len b - i) < fuel)%nat ->
    sat (fun _ => True) (unescapeLoop fuel b i buf).
Proof.
  induction fuel as [|fuel IH]; intros i buf Hi Hf; [lia|].
  cbn [unescapeLoop].
  destruct (i <? len b) eqn:E; [|exact I]. apply Z.ltb_lt in E.
  destruct (idx_in_range b i ltac:(lia)) as [c Hc]. rewrite Hc. cbn [bind].
  destruct (negb (Byte.eqb c backslash)); [apply IH; lia|].
  destruct (len b <=? i + 1) eqn:E1; [exact I|]. apply Z.leb_gt in E1.
  destruct (idx_in_range b (i + 1) ltac:(lia)) as [e He]. rewrite He. cbn [bind].
  repeat match goal with
         | |- sat _ (if Byte.eqb e "u" then _ else _) => fail 1
         | |- sat _ (if ?x then _ else _) => destruct x; [apply IH; lia|]
         end.
  destruct (Byte.eqb e "u"); [|exact I].
  destruct (len b <=? i + 1 + 4) eqn:E4; [exact I|]. apply Z.leb_gt in E4.
  rewrite slice_in_range by lia. cbn [bind].
  eapply sat_bind; [apply ParseUint_16_16_returns|].
  intros r _. apply IH; lia.
Qed.

Lemma unescapeString_returns (b : list byte) : sat (fun _ => True) (unescapeString b).
Proof. apply unescapeLoop_returns; [lia | unfold len; lia]. Qed.

Lemma Generic_parseIntegerScalar_returns (b : list byte) :
  exists r, Generic.parseIntegerScalar b = Ok r.
Proof.
  unfold Generic.parseIntegerScalar.
  destruct b as [|c rest]; [eexists; reflexivity|].
  rewrite len_cons_nonzero.
  change (idx (c :: rest) 0) with (idx ([] ++ c :: rest) (len (@nil byte))).
  rewrite idx_app_here. cbn [bind app].
  destruct (Byte.eqb c "-" && (len (c :: rest) =? 1)) eqn:E1; [eexists; reflexivity|].
  destruct (Byte.eqb c "-") eqn:E.
  - destruct rest as [|d rest']; [discriminate|].
    pose proof (digitLoop_spec (d :: rest') [c] 0 false (S (List.length (c :: d :: rest')))
                  ltac:(simpl; lia) ltac:(unfold MaxInt64; lia)) as Hloop.
    change (len [c]) with 1 in Hloop. cbn [app] in Hloop. rewrite Hloop. cbn [bind].
    cbv zeta. destruct (MaxInt64 <? _); eexists; reflexivity.
  - pose proof (digitLoop_spec (c :: rest) [] 0 false (S (List.length (c :: rest)))
                  ltac:(lia) ltac:(unfold MaxInt64; lia)) as Hloop.
    change (len (@nil byte)) with 0 in Hloop. cbn [app] in Hloop. rewrite Hloop. cbn [bind].
    cbv zeta. destruct (MaxInt64 <? _); eexists; reflexivity.
Qed.

Lemma SIMDParseInteger_returns (a : arch) (b : list byte) :
  exists r, SIMDParseInteger a b = Ok r.
Proof.
  destruct a; cbn [SIMDParseInteger].
  - rewrite Arm64_SIMDParseInteger_spec. eexists; reflexivity.
  - apply Generic_parseIntegerScalar_returns.
Qed.

Lemma ParseFloat_returns (b : list byte) : sat (fun _ => True) (ParseFloat b).
Proof.
  unfold ParseFloat. destruct (readDecimal b); [|exact I].
  destruct (overflowsFloat64 d); exact I.
Qed.

Section Returns.

Variable a : arch.
Variable data : list byte.
Variable tokens : list Token.
Hypothesis Hdata : len data < 4294967296.
Hypothesis Htokens : tokensInData data tokens.

Lemma token_in_data (pos : Z) (t : Token) :
  idx tokens pos = Ok t -> 0 <= Start t /\ Start t < End_ t /\ End_ t <= len data.
Proof.
  intros H. apply idx_Ok_iff in H. destruct H as [_ H].
  apply nth_error_In in H. unfold tokensInData in Htokens.
  rewrite Forall_forall in Htokens. apply (Htokens t H).
Qed.

Lemma tokenTypeAt_returns (pos : Z) (ty : TokenType) :
  0 <= pos -> exists b, tokenTypeAt tokens pos ty = Ok b /\ (b = true -> pos < len tokens).
Proof.
  intros Hpos. unfold tokenTypeAt. destruct (pos <? len tokens) eqn:E.
  - apply Z.ltb_lt in E. destruct (idx_in_range tokens pos ltac:(lia)) as [t Ht].
    rewrite Ht. cbn [bind]. eexists; split; [reflexivity | intros _; exact E].
  - eexists; split; [reflexivity | discriminate].
Qed.

Lemma parseString_returns (pos : Z) :
  0 <= pos < len tokens ->
  sat (fun r => snd r = pos + 1) (parseString data tokens pos).
Proof.
  intros Hpos. unfold parseString.
  destruct (idx_in_range tokens pos Hpos) as [t Ht]. rewrite Ht. cbn [bind].
  destruct (token_in_data pos t Ht) as (H0 & H1 & H2).
  rewrite !uint32_small by lia.
  destruct (End_ t - 1 <=? Start t + 1) eqn:E; [reflexivity|]. apply Z.leb_gt in E.
  rewrite slice_in_range by lia. cbn [bind].
  destruct (negb (containsEscape _)); [reflexivity|].
  eapply sat_bind; [apply unescapeString_returns|]. intros s _. reflexivity.
Qed.

Lemma parseNumber_returns (pos : Z) :
  0 <= pos < len tokens ->
  sat (fun r => snd r = pos + 1) (parseNumber a data tokens pos).
Proof.
  intros Hpos. unfold parseNumber.
  destruct (idx_in_range tokens pos Hpos) as [t Ht]. rewrite Ht. cbn [bind].
  destruct (token_in_data pos t Ht) as (H0 & H1 & H2).
  rewrite slice_in_range by lia. cbn [bind].
  set (numBytes := firstn _ _).
  apply sat_bind with (P := fun _ => True).
  - destruct (negb (containsFloatCharsBytes numBytes)); [|exact I].
    destruct (SIMDParseInteger_returns a numBytes) as [[val ok] Hr]. rewrite Hr. cbn [bind].
    destruct ok; [exact I|]. destruct (ParseInt numBytes); exact I.
  - intros [val|] _; [reflexivity|].
    eapply sat_bind; [apply ParseFloat_returns|]. intros f _. reflexivity.
Qed.

Lemma after_value_returns (pos0 pos : Z) (K : Token -> outcome (Value * Z)) (msg : string) :
  0 <= pos ->
  (forall t, pos < len tokens -> advances tokens pos0 (K t)) ->
  advances tokens pos0
    (if len tokens <=? pos then Err msg else t <- idx tokens pos ;; K t).
Proof.
  intros Hpos HK. destruct (len tokens <=? pos) eqn:E; [exact I|]. apply Z.leb_gt in E.
  destruct (idx_in_range tokens pos ltac:(lia)) as [t Ht]. rewrite Ht. cbn [bind].
  apply HK, E.
Qed.

Lemma objectLoop_returns (pv : Z -> outcome (Value * Z)) (lo : Z) :
  (forall p, lo <= p -> advances tokens p (pv p)) ->
  forall fuel obj pos,
    0 <= pos -> lo <= pos + 2 -> (Z.to_nat (len tokens - pos) < fuel)%nat ->
    advances tokens pos (objectLoop data tokens pv fuel obj pos).
Proof.
  intros Hpv. induction fuel as [|fuel IH]; intros obj pos Hpos Hlo Hf; [lia|].
  cbn [objectLoop]. unfold advances.
  destruct (tokenTypeAt_returns pos TokenString Hpos) as (isKey & HisKey & Hin).
  rewrite HisKey. cbn [bind]. destruct isKey; [|exact I]. cbn [negb].
  specialize (Hin eq_refl).
  eapply sat_bind; [apply parseString_returns; lia|].
  intros [key pos1] Hp1. cbn [snd] in Hp1. subst pos1.
  destruct (tokenTypeAt_returns (pos + 1) TokenColon ltac:(lia)) as (isColon & HisColon & _).
  rewrite HisColon. cbn [bind]. destruct isColon; [|exact I]. cbn [negb].
  eapply sat_bind; [apply (Hpv (pos + 1 + 1)); lia|].
  intros [value pos2] [Hlt Hle]. cbn [snd] in Hlt, Hle.
  apply after_value_returns; [lia|]. intros t Hin2.
  destruct (TokenType_eqb (Type_ t) TokenObjectEnd); [simpl; lia|].
  destruct (TokenType_eqb (Type_ t) TokenComma); [|exact I].
  eapply sat_weaken; [apply (IH _ (pos2 + 1)); lia|].
  intros r [H1 H2]. lia.
Qed.

Lemma arrayLoop_returns (pv : Z -> outcome (Value * Z)) (lo : Z) :
  (forall p, lo <= p -> advances tokens p (pv p)) ->
  forall fuel arr pos,
    0 <= pos -> lo <= pos -> (Z.to_nat (len tokens - pos) < fuel)%nat ->
    sat (fun r => pos < snd r /\ snd r <= len tokens) (arrayLoop tokens pv fuel arr pos).
Proof.
  intros Hpv. induction fuel as [|fuel IH]; intros arr pos Hpos Hlo Hf; [lia|].
  cbn [arrayLoop].
  eapply sat_bind; [apply (Hpv pos); lia|].
  intros [value pos2] [Hlt Hle]. cbn [snd] in Hlt, Hle.
  apply after_value_returns; [lia|]. intros t Hin2.
  destruct (TokenType_eqb (Type_ t) TokenArrayEnd); [simpl; lia|].
  destruct (TokenType_eqb (Type_ t) TokenComma); [|exact I].
  eapply sat_weaken; [apply (IH _ (pos2 + 1)); lia|].
  intros r [H1 H2]. lia.
Qed.

Theorem parseValue_returns (fuel : nat) :
  forall pos,
    0 <= pos -> (Z.to_nat (len tokens - pos) < fuel)%nat ->
    advances tokens pos (parseValue a data tokens fuel pos).
Proof.
  induction fuel as [|fuel IH]; intros pos Hpos Hf; [lia|].
  cbn [parseValue].
  apply after_value_returns; [lia|]. intros t Hin.
  assert (Hpv : forall p, pos + 1 <= p ->
            advances tokens p (parseValue a data tokens fuel p)).
  { intros p Hp. apply IH; lia. }
  destruct (Type_ t); try exact I; try (simpl; lia).
  - unfold parseObject.
    destruct (tokenTypeAt_returns (pos + 1) TokenObjectEnd ltac:(lia)) as (isEnd & HisEnd & Hend).
    rewrite HisEnd. cbn [bind]. destruct isEnd.
    + specialize (Hend eq_refl). simpl. lia.
    + eapply sat_weaken;
        [apply (objectLoop_returns _ (pos + 1) Hpv fuel [] (pos + 1)); lia|].
      intros r [H1 H2]. lia.
  - unfold parseArray.
    destruct (tokenTypeAt_returns (pos + 1) TokenArrayEnd ltac:(lia)) as (isEnd & HisEnd & Hend).
    rewrite HisEnd. cbn [bind]. destruct isEnd.
    + specialize (Hend eq_refl). simpl. lia.
    + eapply sat_weaken;
        [apply (arrayLoop_returns _ (pos + 1) Hpv fuel [] (pos + 1)); lia|].
      intros r [H1 H2]. lia.
  - eapply sat_weaken; [apply parseString_returns; lia|].
    intros r Hr. cbv beta in Hr |- *. lia.
  - eapply sat_weaken; [apply parseNumber_returns; lia|].
    intros r Hr. cbv beta in Hr |- *. lia.
Qed.

End Returns.

(** [Parse] returns, with a value or an error, on every buffer whose
    offsets fit the tokens' 32-bit fields. *)
Theorem Parse_returns (a : arch) (data : list byte) :
  len data < 4294967296 -> returns (Parse a data).
Proof.
  intros Hn. unfold Parse.
  pose proof (SimpleTokenize_spec data) as Hs.
  destruct (SimpleTokenize data) as [tokens| | |]; simpl in Hs; try contradiction; [|exact I].
  cbn [bind]. destruct (len tokens =? 0); [exact I|].
  pose proof (tokenSpans_inData data tokens Hn 0 ltac:(lia) Hs) as Hin.
  pose proof (parseValue_returns a data tokens Hn Hin (S (List.length tokens)) 0
                ltac:(lia) ltac:(unfold len; lia)) as Hv.
  unfold advances in Hv.
  destruct (parseValue a data tokens (S (List.length tokens)) 0) as [[v p]| | |];
    simpl in Hv; try contradiction; exact I.
Qed.

(** ** Offsets beyond 32 bits *)

Lemma lexToken_digit (data : list byte) (i : Z) (c : byte) :
  isDigit c = true ->
  lexToken data i c =
  (j <- lexNumber data i c ;; Ok (mkToken TokenNumber (uint32 i) (uint32 j), j)).
Proof. intros H. destruct c; try discriminate H; reflexivity. Qed.

Section SpacesThenOne.

Variable n : nat.

Lemma spaces_len : len (spacesThenOne n) = Z.of_nat n + 1.
Proof. unfold spacesThenOne. rewrite len_app. unfold len. rewrite repeat_length. reflexivity. Qed.

Lemma spaces_before (k : Z) :
  0 <= k < Z.of_nat n -> nth_error (spacesThenOne n) (Z.to_nat k) = Some " "%byte.
Proof.
  intros Hk. unfold spacesThenOne. rewrite nth_error_app1 by (rewrite repeat_length; lia).
  apply nth_error_repeat. lia.
Qed.

Lemma spaces_at : nth_error (spacesThenOne n) (Z.to_nat (Z.of_nat n)) = Some "1"%byte.
Proof.
  unfold spacesThenOne. rewrite Nat2Z.id.
  rewrite nth_error_app2 by (rewrite repeat_length; lia).
  rewrite repeat_length, Nat.sub_diag. reflexivity.
Qed.

Lemma spaces_after (k : Z) :
  Z.of_nat n < k -> nth_error (spacesThenOne n) (Z.to_nat k) = None.
Proof.
  intros Hk. apply nth_error_None. pose proof spaces_len as H. unfold len in H. lia.
Qed.

Lemma spaces_skip :
  scanWhile isWhitespace (S (List.length (spacesThenOne n))) (spacesThenOne n) 0 = Ok (Z.of_nat n).
Proof.
  destruct (scanWhile_spec (spacesThenOne n) isWhitespace (S (List.length (spacesThenOne n))) 0 ltac:(lia))
    as (j & Hj & Hle & _ & Hall & Hstop).
  { unfold len. lia. }
  rewrite Hj. f_equal.
  destruct (Z.lt_trichotomy j (Z.of_nat n)) as [Hlt|[Heq|Hgt]]; [|exact Heq|].
  - rewrite (spaces_before j ltac:(lia)) in Hstop. discriminate Hstop.
  - destruct (Hall (Z.of_nat n) ltac:(lia)) as (c & Hc & Hws).
    rewrite spaces_at in Hc. injection Hc as <-. discriminate Hws.
Qed.

Lemma spaces_number :
  lexNumber (spacesThenOne n) (Z.of_nat n) "1" = Ok (Z.of_nat n + 1).
Proof.
  pose proof spaces_len as Hlen.
  unfold lexNumber. cbv zeta.
  change (Byte.eqb "1" "-") with false. cbv iota. cbn [bind].
  rewrite inRangeAnd_eq by lia. rewrite spaces_at.
  change (isDigit "1") with true. cbn [bind negb].
  rewrite (nth_error_idx (spacesThenOne n) (Z.of_nat n) "1" ltac:(lia) spaces_at). cbn [bind].
  change (Byte.eqb "1" "0") with false. cbv iota.
  destruct (digit_run (spacesThenOne n) (Z.of_nat n) "1" ltac:(lia) spaces_at eq_refl)
    as (j & Hj & Hlt & Hle & _).
  rewrite Hj. cbn [bind].
  assert (j = Z.of_nat n + 1) as -> by lia.
  rewrite inRangeAnd_eq by lia. rewrite spaces_after by lia. cbn [bind].
  rewrite inRangeAnd_eq by lia. rewrite spaces_after by lia. cbn [bind].
  cmp_false (Z.of_nat n + 1 <=? Z.of_nat n).
  cmp_true (Z.of_nat n =? Z.of_nat n + 1 - 1).
  reflexivity.
Qed.

(** [n] spaces and a digit: one number token, at offset [n] as [uint32]
    carries it. *)
Lemma SimpleTokenize_spaces_then_one :
  SimpleTokenize (spacesThenOne n)
  = Ok [mkToken TokenNumber (uint32 (Z.of_nat n)) (uint32 (Z.of_nat n + 1))].
Proof.
  pose proof spaces_len as Hlen.
  unfold SimpleTokenize.
  cmp_false (len (spacesThenOne n) =? 0).
  cbn [tokenizeLoop].
  cmp_true (0 <? len (spacesThenOne n)).
  rewrite spaces_skip. cbn [bind].
  cmp_false (len (spacesThenOne n) <=? Z.of_nat n).
  rewrite (nth_error_idx (spacesThenOne n) (Z.of_nat n) "1" ltac:(lia) spaces_at). cbn [bind].
  change (lookback [] "1") with (Ok tt). cbn [bind].
  rewrite lexToken_digit by reflexivity.
  rewrite spaces_number. cbn [bind].
  assert (Hfuel : List.length (spacesThenOne n) = S n).
  { unfold spacesThenOne. rewrite length_app, repeat_length. cbn [List.length]. lia. }
  rewrite Hfuel. cbn [tokenizeLoop].
  cmp_false (Z.of_nat n + 1 <? len (spacesThenOne n)).
  reflexivity.
Qed.

End SpacesThenOne.

Lemma fourGiB_len : len fourGiB = 4294967296.
Proof.
  unfold fourGiB. rewrite spaces_len. rewrite Z2Nat.id by lia. reflexivity.
Qed.

Lemma fourGiB_tokens : SimpleTokenize fourGiB = Ok [mkToken TokenNumber 4294967295 0].
Proof.
  unfold fourGiB. rewrite SimpleTokenize_spaces_then_one.
  rewrite Z2Nat.id by lia. reflexivity.
Qed.

(** Beyond 2^32 bytes a number token can carry [Start > End], and
    [parseNumber] slices the buffer with it. *)
Lemma Parse_fourGiB_panics (a : arch) :
  Parse a fourGiB = Panic "slice bounds out of range".
Proof.
  unfold Parse. rewrite fourGiB_tokens. cbn [bind].
  change (len [mkToken TokenNumber 4294967295 0] =? 0) with false. cbv iota.
  change (S (List.length [mkToken TokenNumber 4294967295 0])) with 2%nat.
  cbn [parseValue].
  change (len [mkToken TokenNumber 4294967295 0] <=? 0) with false. cbv iota.
  change (idx [mkToken TokenNumber 4294967295 0] 0) with (Ok (mkToken TokenNumber 4294967295 0)).
  cbn [bind Type_]. unfold parseNumber.
  change (idx [mkToken TokenNumber 4294967295 0] 0) with (Ok (mkToken TokenNumber 4294967295 0)).
  cbn [bind Start End_]. unfold slice.
  change (4294967295 <=? 0) with false. cbn [andb]. reflexivity.
Qed.

(** ** Strings without a closing quote *)

Lemma scanStringLoop_no_quote (data : list byte) (fuel : nat) :
  forall i,
    0 <= i <= len data ->
    (forall k c, i <= k -> nth_error data (Z.to_nat k) = Some c -> c <> quote) ->
    (Z.to_nat (len data - i) < fuel)%nat ->
    scanStringLoop fuel data i = Ok (len data).
Proof.
  induction fuel as [|fuel IH]; intros i Hi Hnq Hf; [lia|].
  cbn [scanStringLoop].
  destruct (i <? len data) eqn:E.
  - apply Z.ltb_lt in E.
    destruct (idx_in_range data i ltac:(lia)) as [c Hc]. rewrite Hc. cbn [bind].
    apply idx_Ok_iff in Hc. destruct Hc as [_ Hc].
    assert (Byte.eqb c quote = false) as ->.
    { destruct (Byte.eqb c quote) eqn:Eq; [|reflexivity].
      apply byte_eqb_eq in Eq. exfalso. apply (Hnq i c ltac:(lia) Hc Eq). }
    apply IH; [lia | | lia].
    intros k c' Hk. apply Hnq. lia.
  - apply Z.ltb_ge in E. f_equal. lia.
Qed.

(** An opening quote followed by bytes none of which is a quote: one
    string token that runs to the end of the buffer, and no error. *)
Theorem SimpleTokenize_unterminated_string (rest : list byte) :
  Forall (fun c => c <> quote) rest ->
  SimpleTokenize (quote :: rest)
  = Ok [mkToken TokenString 0 (uint32 (len (quote :: rest)))].
Proof.
  intros Hnq. set (data := quote :: rest).
  assert (Hlen : 0 < len data)
    by (unfold data; rewrite len_cons; pose proof (len_nonneg rest); lia).
  unfold SimpleTokenize. cmp_false (len data =? 0).
  change (S (List.length data)) with (S (S (List.length rest))) at 1.
  cbn [tokenizeLoop]. cmp_true (0 <? len data).
  assert (Hskip : scanWhile isWhitespace (S (List.length data)) data 0 = Ok 0).
  { cbn [scanWhile]. rewrite inRangeAnd_eq by lia. reflexivity. }
  rewrite Hskip. cbn [bind]. cmp_false (len data <=? 0).
  change (idx data 0) with (idx ([] ++ quote :: rest) (len (@nil byte))).
  rewrite idx_app_here. cbn [bind app].
  change (lookback [] quote) with (Ok tt). cbn [bind].
  change (lexToken data 0 quote)
    with (j <- scanStringLoop (S (List.length data)) data (0 + 1) ;;
          Ok (mkToken TokenString (uint32 0) (uint32 j), j)).
  rewrite (scanStringLoop_no_quote data (S (List.length data)) (0 + 1)).
  - cbn [bind]. cmp_false (len data <? len data). reflexivity.
  - lia.
  - intros k c Hk Hc. unfold data in Hc.
    replace (Z.to_nat k) with (S (Z.to_nat (k - 1))) in Hc by lia.
    cbn [nth_error] in Hc. rewrite Forall_forall in Hnq.
    apply Hnq. eapply nth_error_In; eauto.
  - unfold len. lia.
Qed.

(** ** The generic integer routine without a digit *)

(** On a non-empty buffer other than a lone minus sign, with no digit after
    the optional sign, the generic routine reports success with value 0. *)
Theorem Generic_parseIntegerScalar_no_digit (c : byte) (rest : list byte) :
  (if Byte.eqb c "-" then
     match rest with d :: _ => isDigit d = false | [] => False end
   else isDigit c = false) ->
  Generic.parseIntegerScalar (c :: rest) = Ok (0, true)
  /\ leadingInteger (c :: rest) = (0, false).
Proof.
  intros H. unfold Generic.parseIntegerScalar, leadingInteger.
  rewrite len_cons_nonzero.
  change (idx (c :: rest) 0) with (idx ([] ++ c :: rest) (len (@nil byte))).
  rewrite idx_app_here. cbn [bind app].
  destruct (Byte.eqb c "-") eqn:E; cbn [andb].
  - destruct rest as [|d rest']; [contradiction|].
    replace (len (c :: d :: rest') =? 1) with false
      by (symmetry; apply Z.eqb_neq; rewrite !len_cons; pose proof (len_nonneg rest'); lia).
    pose proof (digitLoop_spec (d :: rest') [c] 0 false (S (List.length (c :: d :: rest')))
                  ltac:(simpl; lia) ltac:(unfold MaxInt64; lia)) as Hloop.
    change (len [c]) with 1 in Hloop. cbn [app] in Hloop. rewrite Hloop. clear Hloop.
    cbn [spanDigits]. rewrite H. cbn [fst fold_left bind].
    change (MaxInt64 <? 0) with false. cbv iota.
    replace (1 <? len (c :: d :: rest')) with true
      by (symmetry; apply Z.ltb_lt; rewrite !len_cons; pose proof (len_nonneg rest'); lia).
    split; reflexivity.
  - pose proof (digitLoop_spec (c :: rest) [] 0 false (S (List.length (c :: rest)))
                  ltac:(lia) ltac:(unfold MaxInt64; lia)) as Hloop.
    change (len (@nil byte)) with 0 in Hloop. cbn [app] in Hloop. rewrite Hloop. clear Hloop.
    cbn [spanDigits]. rewrite H. cbn [fst fold_left bind].
    split; reflexivity.
Qed.

(** ** The repository's own test vectors, evaluated on the embedding *)

Example scanScalar_simple_object :
  scanScalar (json "{'key':'value'}") [] = Ok [0; 1; 5; 6; 7; 13; 14].
Proof. reflexivity. Qed.

Example scanScalar_simple_array :
  scanScalar (json "[1,2,3]") [] = Ok [0; 1; 2; 3; 4; 5; 6].
Proof. reflexivity. Qed.

Example scanScalar_nested :
  scanScalar (json "{'a':[1,2],'b':true}") []
  = Ok [0; 1; 3; 4; 5; 6; 7; 8; 9; 10; 11; 13; 14; 15; 19].
Proof. reflexivity. Qed.

Example Validate_vectors :
  map (fun s => Validate (json s))
      ["{'key':'value'}"; "[1,2,3]"; "{'a':[1,2],'b':{'c':3}}"; "{'key:value}";
       "{'key':'value',}"; "{'key':'value'"; "[1,2,3"; "[1,,2]"; ""; "null"; "42"]%string
  = [Ok true; Ok true; Ok true; Ok false; Ok false; Ok false; Ok false; Ok false;
     Ok false; Ok true; Ok true].
Proof. vm_compute. reflexivity. Qed.

Example Parse_object :
  Parse arm64 (json "{'a':1}") = Ok (VObject [(bytes "a", VInt 1)]).
Proof. vm_compute. reflexivity. Qed.

Example Parse_array :
  Parse generic (json "[1,2,3]") = Ok (VArray [VInt 1; VInt 2; VInt 3]).
Proof. vm_compute. reflexivity. Qed.

Example Parse_trailing_comma :
  Parse arm64 (json "{'key':'value',}") = Err "trailing comma in object".
Proof. vm_compute. reflexivity. Qed.

Example Parse_empty : Parse arm64 [] = Err "empty input".
Proof. reflexivity. Qed.

Example Parse_escaped_quotes :
  Parse arm64 (json "'say \'hi\''") = Ok (VString (json "say 'hi'")).
Proof. vm_compute. reflexivity. Qed.

Example Parse_min_int64 :
  Parse arm64 (bytes "-9223372036854775808") = Ok (VInt MinInt64).
Proof. vm_compute. reflexivity. Qed.

Example Parse_one_and_one_point_zero :
  Parse arm64 (bytes "1") = Ok (VInt 1)
  /\ Parse arm64 (bytes "1.0") = Ok (VFloat (mkDecimal false 10 (-1))).
Proof. split; vm_compute; reflexivity. Qed.

Example Parse_float_out_of_range :
  Parse arm64 (bytes "1e999") = Err "strconv.ParseFloat: value out of range".
Proof. vm_compute. reflexivity. Qed.

Example Tokenize_reports_unterminated_string :
  scanScalar (quote :: bytes "abc") [] = Ok [0]
  /\ Tokenize (quote :: bytes "abc") [0] = Err "unterminated string".
Proof. split; reflexivity. Qed.

(** ** The claims *)

(** C1 (the code departs from the claim).  The claim: no primitive, the
    tokenizer or the parser panics on any byte sequence.  On amd64 with
    AVX2 or SSE4.2, [Scan] reaches [scanSIMD], which evaluates
    [&s.structuralIndices[0]] on the index buffer that [Scan] has just
    truncated to length 0: every non-empty buffer ends in an
    index-out-of-range panic, whatever the assembly routines would do. *)
Theorem Scan_amd64_panics_on_nonempty_buffers :
  forall (flag : bool) (asmAVX2 asmSSE42 : list byte -> list Z)
         (c : byte) (data : list byte) (indices : slice32),
    Scan_amd64 true flag asmAVX2 asmSSE42 (c :: data) indices = Panic "index out of range"
    /\ Scan_amd64 flag true asmAVX2 asmSSE42 (c :: data) indices = Panic "index out of range".
Proof.
  intros flag asmAVX2 asmSSE42 c data indices.
  unfold Scan_amd64, hasSIMD. rewrite orb_true_r. cbn [orb].
  split; apply scanSIMD_amd64_truncated.
Qed.

(** C2 (the code departs from the claim).  The claim: every hardware path
    of a primitive returns what its scalar baseline returns.  On the first
    buffer of the repository's own comparison test the scalar scan returns
    seven offsets while the amd64 SIMD entry point panics before it calls
    any assembly. *)
Theorem ScanSIMD_amd64_differs_from_scanScalar :
  forall (hasAVX2 hasSSE42 : bool) (asmAVX2 asmSSE42 : list byte -> list Z),
    scanScalar (json "{'key':'value'}") [] = Ok [0; 1; 5; 6; 7; 13; 14]
    /\ ScanSIMD_amd64 hasAVX2 hasSSE42 asmAVX2 asmSSE42 (json "{'key':'value'}") newIndices
       = Panic "index out of range".
Proof.
  intros. split; [reflexivity|].
  unfold ScanSIMD_amd64. apply scanSIMD_amd64_truncated.
Qed.

(** C3 (the code departs from the claim).  The claim: an unterminated
    string makes tokenization fail, so [Validate] is false and [Parse]
    errs.  [SimpleTokenize] leaves its string loop at the end of the buffer
    and emits a string token all the same: the four bytes quote, a, b, c
    validate and parse to the string [ab]. *)
Theorem unterminated_string_is_accepted :
  SimpleTokenize (quote :: bytes "abc") = Ok [mkToken TokenString 0 4]
  /\ Validate (quote :: bytes "abc") = Ok true
  /\ forall a, Parse a (quote :: bytes "abc") = Ok (VString (bytes "ab")).
Proof.
  split; [reflexivity|]. split; [reflexivity|]. intros []; reflexivity.
Qed.

(** C4 (the code departs from the claim).  The claim: the validator
    returns true exactly on well-formed UTF-8.  The three bytes E4 B8 96
    (U+4E16) are well formed and rejected, by the scalar validator and by
    both entry points that fall back to it. *)
Theorem validateUTF8Scalar_rejects_three_byte_sequence :
  utf8WellFormed [xe4; xb8; x96] = true
  /\ validateUTF8Scalar [xe4; xb8; x96] = Ok false
  /\ Arm64Utf8.SIMDValidateUTF8 [xe4; xb8; x96] = Ok false
  /\ GenericUtf8.SIMDValidateUTF8 [xe4; xb8; x96] = Ok false.
Proof. repeat split; reflexivity. Qed.

Lemma markedQuotes_quote (data : list byte) :
  forall inString escaped n,
    nth n (markedQuotes data inString escaped) false = true ->
    nth_error data n = Some quote.
Proof.
  induction data as [|b data IH]; intros inString escaped n H.
  - destruct n; discriminate.
  - cbn [markedQuotes] in H.
    destruct escaped.
    { destruct n; [discriminate | apply (IH _ _ _ H)]. }
    destruct (Byte.eqb b backslash && inString).
    { destruct n; [discriminate | apply (IH _ _ _ H)]. }
    destruct (Byte.eqb b quote) eqn:E.
    + destruct n; [|apply (IH _ _ _ H)].
      apply byte_eqb_eq in E. subst. reflexivity.
    + destruct n; [discriminate | apply (IH _ _ _ H)].
Qed.

Lemma markedQuotes_no_backslash (data : list byte) :
  Forall (fun c => c <> backslash) data ->
  forall inString n,
    nth_error data n = Some quote ->
    nth n (markedQuotes data inString false) false = true.
Proof.
  induction 1 as [|b data Hb Hdata IH]; intros inString n H.
  - destruct n; discriminate.
  - cbn [markedQuotes].
    assert (Byte.eqb b backslash = false) as ->.
    { destruct (Byte.eqb b backslash) eqn:E; [|reflexivity].
      apply byte_eqb_eq in E. contradiction. }
    cbn [andb].
    destruct (Byte.eqb b quote) eqn:E.
    + destruct n; [reflexivity | apply IH, H].
    + destruct n; [|apply IH, H].
      injection H as ->. discriminate.
Qed.



(** C6 (the code departs from the claim).  The claim: the primitive reports
    failure when the first byte after the optional sign is not a digit.
    The generic build's scalar routine returns [start < len(data)] as its
    flag and reports success on [abc]; the specification and the arm64
    routine report failure. *)
Theorem Generic_parseInteger_accepts_non_numeric :
  Generic.SIMDParseInteger (bytes "abc") = Ok (0, true)
  /\ leadingInteger (bytes "abc") = (0, false)
  /\ Arm64.SIMDParseInteger (bytes "abc") = Ok (0, false).
Proof. repeat split; reflexivity. Qed.






Lemma tokenSpans_ordered (n : Z) (toks : list Token) :
  n < 4294967296 ->
  forall lo, 0 <= lo -> tokenSpans lo n toks ->
    (forall t, In t toks -> lo <= Start t /\ Start t < End_ t /\ End_ t <= n)
    /\ (forall k t1 t2, nth_error toks k = Some t1 -> nth_error toks (S k) = Some t2 ->
          End_ t1 <= Start t2).
Proof.
  intros Hn. induction toks as [|t toks IH]; intros lo Hlo H.
  - split; [intros t [] | intros k t1 t2 Hk; destruct k; discriminate].
  - cbn [tokenSpans] in H. destruct H as (s & e & Hs & He & H1 & H2 & H3 & Hrest).
    rewrite uint32_small in Hs, He by lia.
    destruct (IH e ltac:(lia) Hrest) as [Hin Hadj].
    split.
    + intros t' [<-|Ht']; [lia|]. destruct (Hin t' Ht'). lia.
    + intros k t1 t2 Hk1 Hk2. destruct k.
      * injection Hk1 as <-. cbn [nth_error] in Hk2.
        destruct toks as [|t' toks']; [discriminate|]. injection Hk2 as <-.
        destruct (Hin t' (or_introl eq_refl)). lia.
      * apply (Hadj k t1 t2 Hk1 Hk2).
Qed.

(** C9, against the claim as stated: on a buffer of 2^32 bytes, spaces and
    a final digit, the one token has [Start = 2^32 - 1] and [End = 0]. *)
Lemma SimpleTokenize_offsets_wrap :
  len fourGiB = 4294967296
  /\ SimpleTokenize fourGiB = Ok [mkToken TokenNumber 4294967295 0]
  /\ ~ (Start (mkToken TokenNumber 4294967295 0) < End_ (mkToken TokenNumber 4294967295 0)).
Proof.
  split; [exact fourGiB_len|]. split; [exact fourGiB_tokens|].
  cbn [Start End_]. lia.
Qed.

(** C9 (amended).  For a buffer shorter than 2^32 bytes, every token of a
    successful [SimpleTokenize] has [Start < End <= len(data)], and each
    token starts at or after the end of the one before it. *)
Theorem SimpleTokenize_tokens_ordered :
  forall (data : list byte) (toks : list Token),
    len data < 4294967296 ->
    SimpleTokenize data = Ok toks ->
    (forall t, In t toks -> Start t < End_ t /\ End_ t <= len data)
    /\ (forall k t1 t2, nth_error toks k = Some t1 -> nth_error toks (S k) = Some t2 ->
          End_ t1 <= Start t2).
Proof.
  intros data toks Hn Htok.
  pose proof (SimpleTokenize_spec data) as Hs. rewrite Htok in Hs. simpl in Hs.
  destruct (tokenSpans_ordered (len data) toks Hn 0 ltac:(lia) Hs) as [Hin Hadj].
  split; [|exact Hadj]. intros t Ht. destruct (Hin t Ht). lia.
Qed.

Lemma SimpleTokenize_tokens_ordered_witness :
  len (json "{'a':1}") < 4294967296
  /\ SimpleTokenize (json "{'a':1}")
     = Ok [mkToken TokenObjectBegin 0 1; mkToken TokenString 1 4; mkToken TokenColon 4 5;
           mkToken TokenNumber 5 6; mkToken TokenObjectEnd 6 7]
  /\ (forall t,
        In t [mkToken TokenObjectBegin 0 1; mkToken TokenString 1 4; mkToken TokenColon 4 5;
              mkToken TokenNumber 5 6; mkToken TokenObjectEnd 6 7] ->
        Start t < End_ t /\ End_ t <= len (json "{'a':1}"))
  /\ (forall k t1 t2,
        nth_error [mkToken TokenObjectBegin 0 1; mkToken TokenString 1 4;
                   mkToken TokenColon 4 5; mkToken TokenNumber 5 6;
                   mkToken TokenObjectEnd 6 7] k = Some t1 ->
        nth_error [mkToken TokenObjectBegin 0 1; mkToken TokenString 1 4;
                   mkToken TokenColon 4 5; mkToken TokenNumber 5 6;
                   mkToken TokenObjectEnd 6 7] (S k) = Some t2 ->
        End_ t1 <= Start t2).
Proof.
  split; [reflexivity|]. split; [reflexivity|].
  apply (SimpleTokenize_tokens_ordered (json "{'a':1}")); reflexivity.
Defined.

(** C10.  On a buffer of whitespace bytes only: if it is not empty,
    [SimpleTokenize] returns no token and no error, [Validate] is true and
    [Parse] errs; [Validate] is false exactly when the buffer is empty. *)
Theorem whitespace_only_buffers :
  forall data : list byte,
    Forall (fun c => isWhitespace c = true) data ->
    (data <> [] ->
       SimpleTokenize data = Ok []
       /\ Validate data = Ok true
       /\ forall a, Parse a data = Err "empty JSON")
    /\ (Validate data = Ok false <-> data = []).
Proof.
  intros data Hws.
  assert (Hne : data <> [] ->
            SimpleTokenize data = Ok [] /\ Validate data = Ok true
            /\ forall a, Parse a data = Err "empty JSON").
  { intros Hd. pose proof (SimpleTokenize_whitespace data Hd Hws) as Ht.
    split; [exact Ht|]. split.
    - unfold Validate. rewrite Ht. reflexivity.
    - intros a. unfold Parse. rewrite Ht. reflexivity. }
  split; [exact Hne|]. split.
  - intros Hv. destruct data as [|c data]; [reflexivity|].
    destruct (Hne ltac:(discriminate)) as (_ & Hv' & _). congruence.
  - intros ->. reflexivity.
Qed.

Lemma whitespace_only_buffers_witness :
  Forall (fun c => isWhitespace c = true) [" "%byte; x09; x0a; x0d]
  /\ (([" "%byte; x09; x0a; x0d] <> [] ->
        SimpleTokenize [" "%byte; x09; x0a; x0d] = Ok []
        /\ Validate [" "%byte; x09; x0a; x0d] = Ok true
        /\ forall a, Parse a [" "%byte; x09; x0a; x0d] = Err "empty JSON")
      /\ (Validate [" "%byte; x09; x0a; x0d] = Ok false <-> [" "%byte; x09; x0a; x0d] = [])).
Proof.
  assert (H : Forall (fun c => isWhitespace c = true) [" "%byte; x09; x0a; x0d])
    by (repeat constructor).
  split; [exact H|].
  apply (whitespace_only_buffers [" "%byte; x09; x0a; x0d] H).
Defined.

(** * Further properties of the code *)

(** ** The integer primitive of the generic build, on every input *)

(** X1.  The generic routine returns the same value as the arm64 one on
    every buffer (zero when no digit was read or the run overflows), and
    reports success on every buffer that is not empty, is not a lone minus
    sign, and whose digit run does not exceed [MaxInt64]: a buffer without
    any digit included. *)
Theorem Generic_parseIntegerScalar_characterised (data : list byte) :
  Generic.parseIntegerScalar data
  = Ok (fst (leadingInteger data),
        negb (len data =? 0) && negb (bytes_eqb data (bytes "-"))
        && (decimalValue (leadingDigits data) <=? MaxInt64)).
Proof.
  unfold Generic.parseIntegerScalar, leadingInteger, leadingDigits.
  destruct data as [|c rest]; [reflexivity|].
  rewrite len_cons_nonzero.
  change (idx (c :: rest) 0) with (idx ([] ++ c :: rest) (len (@nil byte))).
  rewrite idx_app_here. cbn [bind app negb andb].
  destruct (Byte.eqb c "-") eqn:Eneg; cbn [andb].
  - apply byte_eqb_eq in Eneg. subst c.
    destruct rest as [|d rest'].
    + reflexivity.
    + replace (len ("-"%byte :: d :: rest') =? 1) with false
        by (symmetry; apply Z.eqb_neq; rewrite !len_cons; pose proof (len_nonneg rest'); lia).
      pose proof (digitLoop_spec (d :: rest') ["-"%byte] 0 false
                    (S (List.length ("-"%byte :: d :: rest')))
                    ltac:(simpl; lia) ltac:(unfold MaxInt64; lia)) as Hloop.
      change (len ["-"%byte]) with 1 in Hloop. cbn [app] in Hloop. rewrite Hloop. clear Hloop.
      cbn [bind]. rewrite <- decimalValue_fold.
      replace (1 <? len ("-"%byte :: d :: rest')) with true
        by (symmetry; apply Z.ltb_lt; rewrite !len_cons; pose proof (len_nonneg rest'); lia).
      change (bytes_eqb ("-"%byte :: d :: rest') (bytes "-")) with false.
      cbn [negb andb].
      pose proof (spanDigits_digits (d :: rest')) as Hds.
      destruct (fst (spanDigits (d :: rest'))) as [|x ds] eqn:Eds.
      * reflexivity.
      * pose proof (fold_digits_ge (x :: ds) 0 Hds ltac:(lia)) as Hge.
        rewrite <- decimalValue_fold in Hge.
        destruct (MaxInt64 <? decimalValue (x :: ds)) eqn:Eo.
        -- apply Z.ltb_lt in Eo. cmp_false (decimalValue (x :: ds) <=? MaxInt64). reflexivity.
        -- apply Z.ltb_ge in Eo. cmp_true (decimalValue (x :: ds) <=? MaxInt64).
           rewrite int64_small by (unfold MinInt64, MaxInt64 in *; lia).
           reflexivity.
  - pose proof (digitLoop_spec (c :: rest) [] 0 false (S (List.length (c :: rest)))
                  ltac:(lia) ltac:(unfold MaxInt64; lia)) as Hloop.
    change (len (@nil byte)) with 0 in Hloop. cbn [app] in Hloop. rewrite Hloop. clear Hloop.
    cbn [bind]. rewrite <- decimalValue_fold.
    replace (0 <? len (c :: rest)) with true
      by (symmetry; apply Z.ltb_lt; rewrite !len_cons; pose proof (len_nonneg rest); lia).
    replace (bytes_eqb (c :: rest) (bytes "-")) with false.
    2:{ symmetry. change (bytes "-") with ["-"%byte]. cbn [bytes_eqb].
        rewrite Eneg. reflexivity. }
    cbn [negb andb].
    destruct (fst (spanDigits (c :: rest))) as [|x ds] eqn:Eds.
    + reflexivity.
    + destruct (MaxInt64 <? decimalValue (x :: ds)) eqn:Eo.
      * apply Z.ltb_lt in Eo. cmp_false (decimalValue (x :: ds) <=? MaxInt64). reflexivity.
      * apply Z.ltb_ge in Eo. cmp_true (decimalValue (x :: ds) <=? MaxInt64). reflexivity.
Qed.

(** ** The scalar scan as a function of the bytes *)

Lemma lastByte_snoc (pre : list byte) (c : byte) : lastByte (pre ++ [c]) = Some c.
Proof. unfold lastByte. rewrite rev_app_distr. reflexivity. Qed.

Lemma snoc_cons {A} (pre : list A) (c : A) (rest : list A) :
  pre ++ c :: rest = (pre ++ [c]) ++ rest.
Proof. rewrite <- app_assoc. reflexivity. Qed.

Lemma len_snoc {A} (pre : list A) (c : A) : len (pre ++ [c]) = len pre + 1.
Proof. rewrite len_app. reflexivity. Qed.

(** The byte before offset [len pre], as the scan reads it. *)
Lemma scan_previous (pre rest : list byte) :
  (if len pre =? 0 then Ok true
   else
     p <- idx (pre ++ rest) (len pre - 1) ;;
     Ok (negb (charClassifier p =? 0) || Byte.eqb p " " || Byte.eqb p x09
         || Byte.eqb p x0a || Byte.eqb p x0d))
  = Ok match lastByte pre with
       | None => true
       | Some p =>
           negb (charClassifier p =? 0) || Byte.eqb p " " || Byte.eqb p x09
           || Byte.eqb p x0a || Byte.eqb p x0d
       end.
Proof.
  destruct pre as [|a pre'] using rev_ind; [reflexivity|].
  rewrite lastByte_snoc, len_snoc.
  pose proof (len_nonneg pre').
  cmp_false (len pre' + 1 =? 0).
  replace (len pre' + 1 - 1) with (len pre') by lia.
  rewrite <- snoc_cons, idx_app_here. reflexivity.
Qed.

Lemma scanScalarLoop_marks (rest : list byte) :
  forall (pre : list byte) (st : bool * bool) (indices : list Z) (fuel : nat),
    (List.length rest < fuel)%nat ->
    scanScalarLoop fuel (pre ++ rest) (len pre) (fst st) (snd st) indices
    = Ok (indices ++ map uint32 (marked (scanMarks rest (lastByte pre) st) (len pre))).
Proof.
  induction rest as [|c rest IH]; intros pre st indices fuel Hf;
    (destruct fuel as [|fuel]; [simpl in Hf; lia|]); cbn [scanScalarLoop].
  - rewrite app_nil_r. rewrite Z.ltb_irrefl. cbn [scanMarks marked map].
    rewrite app_nil_r. reflexivity.
  - pose proof (len_nonneg pre) as Hp. pose proof (len_nonneg rest) as Hr.
    replace (len pre <? len (pre ++ c :: rest)) with true
      by (symmetry; apply Z.ltb_lt; rewrite len_app, len_cons; lia).
    rewrite idx_app_here. cbn [bind]. rewrite scan_previous. cbn [bind].
    assert (Hnext : forall st' ind,
              scanScalarLoop fuel (pre ++ c :: rest) (len pre + 1) (fst st') (snd st') ind
              = Ok (ind ++ map uint32 (marked (scanMarks rest (Some c) st') (len pre + 1)))).
    { intros st' ind. rewrite snoc_cons, <- (len_snoc pre c), <- (lastByte_snoc pre c).
      apply IH. simpl in Hf. lia. }
    cbn [scanMarks]. unfold scanStep, recordsOutside.
    destruct st as [inS esc]. cbn [fst snd].
    destruct esc; cbn [negb andb marked].
    { apply (Hnext (inS, false)). }
    destruct (Byte.eqb c backslash && inS) eqn:Eb; cbn [negb andb marked].
    { apply (Hnext (inS, true)). }
    destruct (Byte.eqb c quote) eqn:Eq; cbn [orb marked map].
    { rewrite (Hnext (negb inS, false)). rewrite <- app_assoc. reflexivity. }
    destruct inS; cbn [negb andb marked].
    { apply (Hnext (true, false)). }
    destruct (negb (charClassifier c =? 0) && negb (charClassifier c =? StructuralWhitespace)).
    { cbn [marked map]. rewrite (Hnext (false, false)). rewrite <- app_assoc. reflexivity. }
    destruct ((charClassifier c =? 0) && isDigit c || Byte.eqb c "-" || Byte.eqb c "t"
              || Byte.eqb c "f" || Byte.eqb c "n").
    2:{ cbn [marked]. apply (Hnext (false, false)). }
    destruct (match lastByte pre with
              | Some p => _
              | None => true
              end).
    + cbn [marked map]. rewrite (Hnext (false, false)). rewrite <- app_assoc. reflexivity.
    + cbn [marked]. apply (Hnext (false, false)).
Qed.

(** The scan computes the marked offsets of [scanMarks]. *)
Lemma scanScalar_marks (buf : list byte) (indices : list Z) :
  scanScalar buf indices
  = Ok (indices ++ map uint32 (marked (scanMarks buf None (false, false)) 0)).
Proof.
  unfold scanScalar.
  apply (scanScalarLoop_marks buf [] (false, false) indices). lia.
Qed.

Lemma offsetsFrom_weaken (buf : list byte) (p : byte -> bool) (ps : list Z) :
  forall lo lo', lo' <= lo -> offsetsFrom buf p lo ps -> offsetsFrom buf p lo' ps.
Proof.
  destruct ps as [|i rest]; intros lo lo' Hlo H; [exact I|].
  cbn [offsetsFrom] in *. destruct H as (H1 & H2 & H3). repeat split; [lia | assumption..].
Qed.

Lemma recordsOutside_candidate (prev : option byte) (c : byte) :
  recordsOutside prev c = true -> scanCandidate c = true.
Proof.
  unfold recordsOutside.
  assert (H1 : forall c,
             (negb (negb (charClassifier c =? 0) && negb (charClassifier c =? StructuralWhitespace))
              || scanCandidate c) = true)
    by (apply forall_bytes; vm_compute; reflexivity).
  assert (H2 : forall c,
             (negb ((charClassifier c =? 0) && isDigit c || Byte.eqb c "-" || Byte.eqb c "t"
                    || Byte.eqb c "f" || Byte.eqb c "n")
              || scanCandidate c) = true)
    by (apply forall_bytes; vm_compute; reflexivity).
  specialize (H1 c). specialize (H2 c).
  destruct (negb (charClassifier c =? 0) && negb (charClassifier c =? StructuralWhitespace)).
  - intros _. exact H1.
  - destruct ((charClassifier c =? 0) && isDigit c || Byte.eqb c "-" || Byte.eqb c "t"
              || Byte.eqb c "f" || Byte.eqb c "n").
    + intros _. exact H2.
    + discriminate.
Qed.

Lemma marked_offsets (rest : list byte) :
  forall (pre : list byte) (prev : option byte) (st : bool * bool),
    offsetsFrom (pre ++ rest) scanCandidate (len pre)
      (marked (scanMarks rest prev st) (len pre)).
Proof.
  induction rest as [|c rest IH]; intros pre prev st; [exact I|].
  cbn [scanMarks marked].
  assert (Hrest : offsetsFrom (pre ++ c :: rest) scanCandidate (len pre + 1)
                    (marked (scanMarks rest (Some c) (scanStep st c)) (len pre + 1))).
  { rewrite snoc_cons, <- (len_snoc pre c). apply IH. }
  destruct (negb (snd st) && negb (Byte.eqb c backslash && fst st)
            && (Byte.eqb c quote || negb (fst st) && recordsOutside prev c)) eqn:E.
  - cbn [offsetsFrom]. split; [lia|]. split; [|exact Hrest].
    exists c. split.
    + unfold len. rewrite Nat2Z.id. rewrite nth_error_app2 by lia.
      rewrite Nat.sub_diag. reflexivity.
    + apply andb_true_iff in E. destruct E as [_ E].
      apply orb_true_iff in E. destruct E as [E|E].
      * unfold scanCandidate. rewrite E. reflexivity.
      * apply andb_true_iff in E. eapply recordsOutside_candidate. apply E.
  - eapply offsetsFrom_weaken; [|exact Hrest]. lia.
Qed.

(** ** Tokenize over the indices of a scan *)

Lemma trailing_snoc (l : list byte) (c : byte) :
  trailingBackslashes (l ++ [c])
  = if Byte.eqb c backslash then 1 + trailingBackslashes l else 0.
Proof. unfold trailingBackslashes. rewrite rev_app_distr. reflexivity. Qed.

Lemma trailing_nonneg (l : list byte) : 0 <= trailingBackslashes l.
Proof.
  induction l as [|c l IH] using rev_ind; [unfold trailingBackslashes; simpl; lia|].
  rewrite trailing_snoc. destruct (Byte.eqb c backslash); lia.
Qed.

Lemma firstn_succ_nth {A} (l : list A) (n : nat) (c : A) :
  nth_error l n = Some c -> firstn (S n) l = firstn n l ++ [c].
Proof.
  revert n. induction l as [|a l IH]; intros [|n] H; try discriminate.
  - injection H as ->. reflexivity.
  - cbn [nth_error] in H. cbn [firstn app]. f_equal. apply IH. exact H.
Qed.

Section Tokenize.

Variable buf : list byte.
Hypothesis Hlen : len buf + 5 <= 4294967296.

(** The backward count stops at a byte that is not a backslash before it
    can step below offset zero. *)
Lemma countBackslashes32_spec (q : Z) (x : byte) (fuel : nat) :
  0 <= q -> nth_error buf (Z.to_nat q) = Some x -> Byte.eqb x backslash = false ->
  forall k acc,
    q <= k < len buf -> (Z.to_nat (k - q) < fuel)%nat ->
    countBackslashes32 fuel buf k acc
    = Ok (acc + trailingBackslashes (firstn (Z.to_nat (k + 1)) buf)).
Proof.
  intros Hq Hx Hnb.
  induction fuel as [|fuel IH]; intros k acc Hk Hf; [lia|].
  cbn [countBackslashes32].
  destruct (idx_in_range buf k ltac:(lia)) as [c Hc]. rewrite Hc. cbn [bind].
  apply idx_Ok_iff in Hc. destruct Hc as [_ Hc].
  replace (Z.to_nat (k + 1)) with (S (Z.to_nat k)) by lia.
  rewrite (firstn_succ_nth _ _ _ Hc), trailing_snoc.
  destruct (Byte.eqb c backslash) eqn:Ec.
  - assert (k <> q) by (intros ->; congruence).
    rewrite uint32_small by lia.
    rewrite IH by lia.
    replace (Z.to_nat (k - 1 + 1)) with (Z.to_nat k) by lia.
    f_equal. lia.
  - f_equal. lia.
Qed.

(** The search for a closing quote, begun after a byte that is not a
    backslash, returns; what it finds is a quote that an even number of
    backslashes precedes. *)
Lemma findClosingQuote_spec (q : Z) (x : byte) :
  0 <= q -> nth_error buf (Z.to_nat q) = Some x -> Byte.eqb x backslash = false ->
  forall (fuel : nat) (j : Z),
    q < j <= len buf -> (Z.to_nat (len buf - j) < fuel)%nat ->
    exists r,
      findClosingQuote fuel buf j = Ok r
      /\ match r with
         | Some e => exists j', j <= j' /\ e = j' + 1 /\ e <= len buf /\ closesAt buf j'
         | None => True
         end.
Proof.
  intros Hq Hx Hnb.
  induction fuel as [|fuel IH]; intros j Hj Hf; [lia|].
  cbn [findClosingQuote].
  rewrite (uint32_small (len buf)) by (pose proof (len_nonneg buf); lia).
  destruct (j <? len buf) eqn:E; [|exists None; split; [reflexivity|exact I]].
  apply Z.ltb_lt in E.
  destruct (idx_in_range buf j ltac:(lia)) as [c Hc]. rewrite Hc. cbn [bind].
  apply idx_Ok_iff in Hc. destruct Hc as [_ Hc].
  assert (Hnext : exists r,
             findClosingQuote fuel buf (uint32 (j + 1)) = Ok r
             /\ match r with
                | Some e => exists j', j <= j' /\ e = j' + 1 /\ e <= len buf /\ closesAt buf j'
                | None => True
                end).
  { rewrite uint32_small by lia.
    destruct (IH (j + 1) ltac:(lia) ltac:(lia)) as (r & Hr & Hspec).
    exists r. split; [exact Hr|].
    destruct r as [e|]; [|exact I].
    destruct Hspec as (j' & H1 & H2 & H3 & H4). exists j'.
    split; [lia|]. split; [exact H2|]. split; [exact H3|exact H4]. }
  destruct (Byte.eqb c quote) eqn:Ec; [|exact Hnext].
  rewrite uint32_small by lia.
  rewrite (countBackslashes32_spec q x (S (List.length buf)) Hq Hx Hnb)
    by (unfold len in *; lia).
  cbn [bind]. replace (j - 1 + 1) with j by lia. rewrite Z.add_0_l.
  destruct (Z.rem (trailingBackslashes (firstn (Z.to_nat j) buf)) 2 =? 1) eqn:Ee;
    cbn [negb]; [exact Hnext|].
  exists (Some (uint32 (j + 1))). split; [reflexivity|].
  exists j. rewrite uint32_small by lia.
  split; [lia|]. split; [reflexivity|]. split; [lia|].
  apply byte_eqb_eq in Ec. subst c.
  split; [lia|]. split; [exact Hc|exact Ee].
Qed.

Lemma detectValueType_returns (i : Z) :
  0 <= i < len buf -> exists ty, detectValueType buf i = Ok ty.
Proof.
  intros Hi. unfold detectValueType.
  rewrite (uint32_small (len buf)) by lia.
  cmp_false (len buf <=? i).
  destruct (idx_in_range buf i Hi) as [c Hc]. rewrite Hc. cbn [bind].
  assert (Hlit : forall ty lit,
             0 <= len lit <= 5 ->
             exists r,
               (if uint32 (i + len lit) <=? len buf
                then s <- slice buf i (uint32 (i + len lit)) ;;
                     Ok (if bytes_eqb s lit then ty else TokenNone)
                else Ok TokenNone) = Ok r).
  { intros ty lit Hl. rewrite uint32_small by lia.
    destruct (i + len lit <=? len buf) eqn:E; [|eexists; reflexivity].
    apply Z.leb_le in E. rewrite slice_in_range by lia. cbn [bind]. eexists; reflexivity. }
  destruct (Byte.eqb c "t"); [apply Hlit; vm_compute; split; discriminate|].
  destruct (Byte.eqb c "f"); [apply Hlit; vm_compute; split; discriminate|].
  destruct (Byte.eqb c "n"); [apply Hlit; vm_compute; split; discriminate|].
  destruct (Byte.eqb c "-" || isDigit c); eexists; reflexivity.
Qed.

Lemma findValueEnd_spec (fuel : nat) :
  forall i,
    0 <= i <= len buf -> (Z.to_nat (len buf - i) < fuel)%nat ->
    exists e, findValueEnd fuel buf i = Ok e /\ i <= e <= len buf
              /\ (e = i ->
                  i = len buf
                  \/ exists c, nth_error buf (Z.to_nat i) = Some c
                               /\ (isWhitespace c || Byte.eqb c "," || Byte.eqb c "}"
                                   || Byte.eqb c "]") = true).
Proof.
  induction fuel as [|fuel IH]; intros i Hi Hf; [lia|].
  cbn [findValueEnd].
  rewrite (uint32_small (len buf)) by lia.
  destruct (i <? len buf) eqn:E.
  - apply Z.ltb_lt in E.
    destruct (idx_in_range buf i ltac:(lia)) as [c Hc]. rewrite Hc. cbn [bind].
    apply idx_Ok_iff in Hc. destruct Hc as [_ Hc].
    destruct (isWhitespace c || Byte.eqb c "," || Byte.eqb c "}" || Byte.eqb c "]") eqn:Et.
    + exists i. split; [reflexivity|]. split; [lia|]. intros _. right. exists c. split; assumption.
    + rewrite uint32_small by lia.
      destruct (IH (i + 1) ltac:(lia) ltac:(lia)) as (e & He & Hr & _).
      exists e. split; [exact He|]. split; [lia|]. intros ->. lia.
  - apply Z.ltb_ge in E. exists (len buf). split; [reflexivity|]. split; [lia|].
    intros _. left. lia.
Qed.

Lemma tokenize_step (i : Z) (rest : list Z) (toks : list Token) (t : Token) (c : byte)
    (o : outcome (list Token)) :
  nth_error buf (Z.to_nat i) = Some c ->
  Start t = i -> Start t < End_ t <= len buf ->
  (c = quote -> exists j, i < j /\ closesAt buf j) ->
  tokenizeOutcome buf rest (toks ++ [t]) o ->
  tokenizeOutcome buf (i :: rest) toks o.
Proof.
  intros Hc Hs He Hq H. destruct o as [r|m|m|]; cbn [tokenizeOutcome] in *; try exact H.
  - destruct H as (new & Hr & Hmap & Hall & Hclose).
    exists (t :: new). split; [rewrite Hr, <- app_assoc; reflexivity|].
    split; [cbn [map]; rewrite Hs, Hmap; reflexivity|].
    split; [constructor; [lia|exact Hall]|].
    intros q [<-|Hin] Hquote.
    + apply Hq. congruence.
    + apply Hclose; assumption.
  - destruct H as (Hm & q & Hin & Hquote). split; [exact Hm|].
    exists q. split; [right; exact Hin|exact Hquote].
Qed.

Lemma candidate_not_space (c : byte) :
  scanCandidate c = true -> isWhitespace c = false.
Proof.
  assert (H : forall c, (negb (scanCandidate c) || negb (isWhitespace c)) = true)
    by (apply forall_bytes; vm_compute; reflexivity).
  specialize (H c). intros Hc. rewrite Hc in H. cbn [negb orb] in H.
  destruct (isWhitespace c); [discriminate|reflexivity].
Qed.

Lemma tokenizeIndices_spec (idxs : list Z) :
  Forall (fun i => 0 <= i /\ byteIs buf scanCandidate i) idxs ->
  forall toks, tokenizeOutcome buf idxs toks (tokenizeIndices buf idxs toks).
Proof.
  induction idxs as [|i rest IH]; intros Hall toks.
  - cbn [tokenizeIndices tokenizeOutcome]. exists []. rewrite app_nil_r.
    repeat split; try constructor. intros q [].
  - inversion Hall as [|? ? [Hi (c & Hc & Hcand)] Hrest]; subst.
    specialize (IH Hrest).
    pose proof (nth_error_in_range buf i c Hi Hc) as Hlt.
    cbn [tokenizeIndices]. rewrite (nth_error_idx buf i c Hi Hc). cbn [bind].
    assert (Hsingle : forall ty,
               Byte.eqb c quote = false ->
               tokenizeOutcome buf (i :: rest) toks
                 (tokenizeIndices buf rest (toks ++ [mkToken ty i (uint32 (i + 1))]))).
    { intros ty Hnq.
      apply (tokenize_step i rest toks (mkToken ty i (uint32 (i + 1))) c _ Hc eq_refl);
        [| |apply IH].
      - cbn [Start End_]. rewrite uint32_small by lia. lia.
      - intros ->. discriminate. }
    destruct (Byte.eqb c "{") eqn:E1;
      [apply Hsingle; apply byte_eqb_eq in E1; subst c; reflexivity|].
    destruct (Byte.eqb c "}") eqn:E2;
      [apply Hsingle; apply byte_eqb_eq in E2; subst c; reflexivity|].
    destruct (Byte.eqb c "[") eqn:E3;
      [apply Hsingle; apply byte_eqb_eq in E3; subst c; reflexivity|].
    destruct (Byte.eqb c "]") eqn:E4;
      [apply Hsingle; apply byte_eqb_eq in E4; subst c; reflexivity|].
    destruct (Byte.eqb c ":") eqn:E5;
      [apply Hsingle; apply byte_eqb_eq in E5; subst c; reflexivity|].
    destruct (Byte.eqb c ",") eqn:E6;
      [apply Hsingle; apply byte_eqb_eq in E6; subst c; reflexivity|].
    destruct (Byte.eqb c quote) eqn:Eq.
    + apply byte_eqb_eq in Eq. subst c.
      rewrite uint32_small by lia.
      destruct (findClosingQuote_spec i quote Hi Hc eq_refl (S (List.length buf)) (i + 1)
                  ltac:(lia) ltac:(unfold len in *; lia)) as (r & Hr & Hspec).
      rewrite Hr. cbn [bind].
      destruct r as [e|].
      * destruct Hspec as (j & Hj & He & Hle & Hcl).
        apply (tokenize_step i rest toks (mkToken TokenString i e) quote _ Hc eq_refl);
          [| |apply IH].
        -- cbn [Start End_]. lia.
        -- intros _. exists j. split; [lia|exact Hcl].
      * cbn [tokenizeOutcome]. split; [reflexivity|].
        exists i. split; [left; reflexivity|exact Hc].
    + destruct (detectValueType_returns i ltac:(lia)) as [ty Hty]. rewrite Hty. cbn [bind].
      destruct (findValueEnd_spec (S (List.length buf)) i ltac:(lia)
                  ltac:(unfold len in *; lia)) as (e & He & Hr & Hstop).
      rewrite He. cbn [bind].
      apply (tokenize_step i rest toks (mkToken ty i e) c _ Hc eq_refl); [| |apply IH].
      * cbn [Start End_]. split; [|lia].
        destruct (Z.eq_dec e i) as [->|]; [|lia].
        destruct (Hstop eq_refl) as [->|(c' & Hc' & Hterm)]; [lia|].
        rewrite Hc in Hc'. injection Hc' as <-.
        rewrite (candidate_not_space c Hcand), E6, E2, E4 in Hterm. discriminate.
      * intros ->. discriminate.
Qed.

End Tokenize.

(** *** The scan's state and the parity of the backslashes *)

Lemma scanState_snoc (pre : list byte) (c : byte) :
  scanState (pre ++ [c]) = scanStep (scanState pre) c.
Proof. unfold scanState. rewrite fold_left_app. reflexivity. Qed.

Lemma rem2_succ (t : Z) :
  0 <= t -> (Z.rem (1 + t) 2 =? 1) = negb (Z.rem t 2 =? 1).
Proof.
  intros Ht.
  rewrite !Z.rem_mod_nonneg by lia.
  pose proof (Z.mod_pos_bound t 2 ltac:(lia)) as H1.
  pose proof (Z.mod_pos_bound (1 + t) 2 ltac:(lia)) as H2.
  pose proof (Z.div_mod t 2 ltac:(lia)) as H3.
  pose proof (Z.div_mod (1 + t) 2 ltac:(lia)) as H4.
  destruct (t mod 2 =? 1) eqn:E1; destruct ((1 + t) mod 2 =? 1) eqn:E2;
    try reflexivity; exfalso;
    [apply Z.eqb_eq in E1; apply Z.eqb_eq in E2 | apply Z.eqb_neq in E1; apply Z.eqb_neq in E2];
    lia.
Qed.

(** The scan is in its escaped state exactly inside a string, after an odd
    number of backslashes. *)
Lemma scanState_escaped (pre : list byte) :
  snd (scanState pre)
  = fst (scanState pre) && (Z.rem (trailingBackslashes pre) 2 =? 1).
Proof.
  induction pre as [|c pre IH] using rev_ind; [reflexivity|].
  rewrite scanState_snoc, trailing_snoc.
  pose proof (trailing_nonneg pre) as Ht.
  destruct (scanState pre) as [inS esc]. cbn [fst snd] in IH.
  unfold scanStep. cbn [fst snd].
  destruct esc.
  - cbn [fst snd]. symmetry in IH. apply andb_true_iff in IH. destruct IH as [-> Hodd].
    destruct (Byte.eqb c backslash); [|reflexivity].
    rewrite rem2_succ by lia. rewrite Hodd. reflexivity.
  - destruct (Byte.eqb c backslash) eqn:Eb; cbn [andb].
    + destruct inS; cbn [fst snd andb].
      * rewrite rem2_succ by lia. cbn [andb] in IH. rewrite <- IH. reflexivity.
      * apply byte_eqb_eq in Eb. subst c. reflexivity.
    + destruct (Byte.eqb c quote); cbn [fst snd]; rewrite andb_false_r; reflexivity.
Qed.

Lemma scanState_no_quote (pre : list byte) :
  ~ In quote pre -> fst (scanState pre) = false.
Proof.
  induction pre as [|c pre IH] using rev_ind; intros Hn; [reflexivity|].
  rewrite scanState_snoc.
  assert (Hpre : fst (scanState pre) = false)
    by (apply IH; intros H; apply Hn; apply in_or_app; left; exact H).
  assert (Hc : Byte.eqb c quote = false).
  { destruct (Byte.eqb c quote) eqn:E; [|reflexivity].
    apply byte_eqb_eq in E. subst c. exfalso. apply Hn. apply in_or_app. right. left. reflexivity. }
  unfold scanStep. destruct (scanState pre) as [inS esc]. cbn [fst snd] in *. subst inS.
  rewrite andb_false_r, Hc. destruct esc; reflexivity.
Qed.

(** Whether the scan records a quote: it does unless it is in its escaped
    state. *)
Lemma scanMarks_quote (pre rest : list byte) :
  forall (prev : option byte) (st : bool * bool),
    nth (List.length pre) (scanMarks (pre ++ quote :: rest) prev st) false
    = negb (snd (fold_left scanStep pre st)).
Proof.
  induction pre as [|c pre IH]; intros prev st.
  - cbn [app scanMarks List.length nth fold_left].
    change (Byte.eqb quote backslash) with false. change (Byte.eqb quote quote) with true.
    cbn [andb orb negb]. rewrite !andb_true_r. reflexivity.
  - cbn [app scanMarks List.length nth fold_left]. apply IH.
Qed.

Lemma marked_In (marks : list bool) :
  forall (i : Z) (n : nat),
    nth n marks false = true -> In (i + Z.of_nat n) (marked marks i).
Proof.
  induction marks as [|b marks IH]; intros i n H.
  - destruct n; discriminate.
  - cbn [marked]. destruct n as [|n].
    + cbn [nth] in H. subst b. left. lia.
    + cbn [nth] in H. replace (i + Z.of_nat (S n)) with ((i + 1) + Z.of_nat n) by lia.
      destruct b; [right|]; apply IH; exact H.
Qed.

Lemma offsetsFrom_Forall (buf : list byte) (p : byte -> bool) (ps : list Z) :
  forall lo, 0 <= lo -> offsetsFrom buf p lo ps ->
             Forall (fun i => 0 <= i /\ byteIs buf p i) ps.
Proof.
  induction ps as [|i ps IH]; intros lo Hlo H; [constructor|].
  cbn [offsetsFrom] in H. destruct H as (H1 & H2 & H3).
  constructor; [split; [lia|exact H2]|]. apply (IH (i + 1)); [lia|exact H3].
Qed.

Lemma uint32_offsets (buf : list byte) (p : byte -> bool) (ps : list Z) :
  len buf <= 4294967296 ->
  Forall (fun i => 0 <= i /\ byteIs buf p i) ps -> map uint32 ps = ps.
Proof.
  intros Hlen H. induction H as [|i ps [Hi (c & Hc & _)] _ IH]; [reflexivity|].
  cbn [map]. rewrite IH. f_equal. apply uint32_small.
  pose proof (nth_error_in_range buf i c Hi Hc). lia.
Qed.

(** A quote preceded by an even number of backslashes is recorded. *)
Lemma closesAt_recorded (buf : list byte) (j : Z) :
  closesAt buf j -> In j (marked (scanMarks buf None (false, false)) 0).
Proof.
  intros (Hj & Hq & Heven).
  destruct (nth_error_split buf (Z.to_nat j) Hq) as (pre & rest & Hbuf & Hpre).
  assert (Hfirst : firstn (Z.to_nat j) buf = pre).
  { rewrite Hbuf, <- Hpre. rewrite firstn_app, Nat.sub_diag, firstn_all. cbn [firstn].
    apply app_nil_r. }
  rewrite Hfirst in Heven.
  replace j with (0 + Z.of_nat (List.length pre)) by lia.
  apply marked_In. rewrite Hbuf, scanMarks_quote.
  change (fold_left scanStep pre (false, false)) with (scanState pre).
  rewrite scanState_escaped, Heven, andb_false_r. reflexivity.
Qed.

Lemma first_occurrence (c : byte) (l : list byte) :
  In c l -> exists pre rest, l = pre ++ c :: rest /\ ~ In c pre.
Proof.
  induction l as [|a l IH]; intros H; [destruct H|].
  destruct (Byte.eqb a c) eqn:E.
  - apply byte_eqb_eq in E. subst a. exists [], l. split; [reflexivity|intros []].
  - assert (Hl : In c l).
    { destruct H as [->|H]; [|exact H].
      assert (Byte.eqb c c = true) by (apply byte_eqb_eq; reflexivity). congruence. }
    destruct (IH Hl) as (pre & rest & -> & Hn).
    exists (a :: pre), rest. split; [reflexivity|].
    intros [->|Hin]; [|exact (Hn Hin)].
    assert (Byte.eqb c c = true) by (apply byte_eqb_eq; reflexivity). congruence.
Qed.

(** The first quote of a buffer is recorded. *)
Lemma first_quote_recorded (buf : list byte) :
  In quote buf ->
  exists q, In q (marked (scanMarks buf None (false, false)) 0)
            /\ 0 <= q /\ nth_error buf (Z.to_nat q) = Some quote.
Proof.
  intros H. destruct (first_occurrence quote buf H) as (pre & rest & -> & Hn).
  exists (0 + Z.of_nat (List.length pre)). split; [|split; [lia|]].
  - apply marked_In. rewrite scanMarks_quote.
    change (fold_left scanStep pre (false, false)) with (scanState pre).
    rewrite scanState_escaped, (scanState_no_quote pre Hn). reflexivity.
  - rewrite Z.add_0_l, Nat2Z.id, nth_error_app2 by lia. rewrite Nat.sub_diag. reflexivity.
Qed.

(** X2.  On a buffer that holds a double quote, the indices of the scalar
    scan make [Tokenize] fail: the closing quote of a string is itself a
    recorded index, and the search for its partner runs to the end of the
    buffer.  (The buffer is at least five bytes short of 2^32.) *)
Theorem Tokenize_rejects_every_string (buf : list byte) :
  len buf + 5 <= 4294967296 ->
  In quote buf ->
  exists idxs,
    scanScalar buf [] = Ok idxs
    /\ Tokenize buf idxs = Err "unterminated string".
Proof.
  intros Hlen Hq.
  pose proof (marked_offsets buf [] None (false, false)) as Hoff.
  cbn [app] in Hoff. change (len (@nil byte)) with 0 in Hoff.
  pose proof (offsetsFrom_Forall _ _ _ 0 ltac:(lia) Hoff) as Hall.
  exists (marked (scanMarks buf None (false, false)) 0).
  split.
  { rewrite scanScalar_marks. cbn [app].
    rewrite (uint32_offsets buf scanCandidate) by (assumption || lia). reflexivity. }
  destruct (first_quote_recorded buf Hq) as (q0 & Hin0 & Hq0 & Hquote0).
  unfold Tokenize.
  destruct (marked (scanMarks buf None (false, false)) 0) as [|i0 idxs] eqn:Em;
    [destruct Hin0|].
  rewrite len_cons_nonzero.
  pose proof (tokenizeIndices_spec buf Hlen (i0 :: idxs) Hall []) as Hspec.
  destruct (tokenizeIndices buf (i0 :: idxs) []) as [r|m|m|];
    cbn [tokenizeOutcome] in Hspec; try contradiction.
  - exfalso. destruct Hspec as (_ & _ & _ & _ & Hclose).
    assert (Hasc : forall (n : nat) (q : Z),
               In q (i0 :: idxs) -> 0 <= q ->
               nth_error buf (Z.to_nat q) = Some quote ->
               (Z.to_nat (len buf - q) <= n)%nat -> False).
    { induction n as [|n IHn]; intros q Hin Hq0' Hquote Hn.
      - pose proof (nth_error_in_range buf q quote Hq0' Hquote). lia.
      - destruct (Hclose q Hin Hquote) as (j & Hj & Hcl).
        pose proof (closesAt_recorded buf j Hcl) as Hrec. rewrite Em in Hrec.
        destruct Hcl as (Hj0 & Hjq & _).
        pose proof (nth_error_in_range buf j quote Hj0 Hjq).
        apply (IHn j Hrec Hj0 Hjq). lia. }
    exact (Hasc _ q0 Hin0 Hq0 Hquote0 (Nat.le_refl _)).
  - destruct Hspec as [-> _]. reflexivity.
Qed.

Lemma Tokenize_rejects_every_string_witness :
  len (json "{'a':1}") + 5 <= 4294967296
  /\ In quote (json "{'a':1}")
  /\ exists idxs,
       scanScalar (json "{'a':1}") [] = Ok idxs
       /\ Tokenize (json "{'a':1}") idxs = Err "unterminated string".
Proof.
  assert (H1 : len (json "{'a':1}") + 5 <= 4294967296) by (vm_compute; discriminate).
  assert (H2 : In quote (json "{'a':1}")) by (right; left; reflexivity).
  split; [exact H1|]. split; [exact H2|].
  exact (Tokenize_rejects_every_string (json "{'a':1}") H1 H2).
Defined.

(** X3.  On a buffer without a double quote, [Tokenize] turns the indices
    of the scalar scan into one token per index: the token starts at the
    index and ends after it, inside the buffer. *)
Theorem Tokenize_without_strings (buf : list byte) :
  len buf + 5 <= 4294967296 ->
  ~ In quote buf ->
  exists idxs toks,
    scanScalar buf [] = Ok idxs
    /\ Tokenize buf idxs = Ok toks
    /\ map Start toks = idxs
    /\ Forall (fun t => Start t < End_ t /\ End_ t <= len buf) toks.
Proof.
  intros Hlen Hnq.
  pose proof (marked_offsets buf [] None (false, false)) as Hoff.
  cbn [app] in Hoff. change (len (@nil byte)) with 0 in Hoff.
  pose proof (offsetsFrom_Forall _ _ _ 0 ltac:(lia) Hoff) as Hall.
  exists (marked (scanMarks buf None (false, false)) 0).
  assert (Hscan : scanScalar buf [] = Ok (marked (scanMarks buf None (false, false)) 0)).
  { rewrite scanScalar_marks. cbn [app].
    rewrite (uint32_offsets buf scanCandidate) by (assumption || lia). reflexivity. }
  unfold Tokenize.
  destruct (len (marked (scanMarks buf None (false, false)) 0) =? 0) eqn:E0.
  - apply Z.eqb_eq, len_zero_nil in E0. rewrite E0 in *.
    exists []. repeat split; try assumption; constructor.
  - pose proof (tokenizeIndices_spec buf Hlen _ Hall []) as Hspec.
    destruct (tokenizeIndices buf (marked (scanMarks buf None (false, false)) 0) [])
      as [r|m|m|]; cbn [tokenizeOutcome] in Hspec; try contradiction.
    + destruct Hspec as (new & Hr & Hmap & Hsp & _). cbn [app] in Hr. subst r.
      exists new. repeat split; assumption.
    + exfalso. destruct Hspec as (_ & q & _ & Hquote).
      apply Hnq. eapply nth_error_In. exact Hquote.
Qed.

Lemma Tokenize_without_strings_witness :
  len (bytes "[1,true]") + 5 <= 4294967296
  /\ ~ In quote (bytes "[1,true]")
  /\ exists idxs toks,
       scanScalar (bytes "[1,true]") [] = Ok idxs
       /\ Tokenize (bytes "[1,true]") idxs = Ok toks
       /\ map Start toks = idxs
       /\ Forall (fun t => Start t < End_ t /\ End_ t <= len (bytes "[1,true]")) toks.
Proof.
  assert (H1 : len (bytes "[1,true]") + 5 <= 4294967296) by (vm_compute; discriminate).
  assert (H2 : ~ In quote (bytes "[1,true]")).
  { intros H. repeat (destruct H as [H|H]; [discriminate H|]). exact H. }
  split; [exact H1|]. split; [exact H2|].
  exact (Tokenize_without_strings (bytes "[1,true]") H1 H2).
Defined.

(** ** The scanner's primitives on every input *)

(** X4.  The scalar scan returns on every buffer.  It keeps the indices it
    was given and appends, through the [uint32] conversion, offsets that
    increase strictly and lie inside the buffer, each at a quote, a
    backslash, a bracket, a colon, a comma or the first byte of a number or
    literal; whitespace is never recorded.  Up to 2^32 bytes the conversion
    changes nothing. *)
Theorem scanScalar_offsets (buf : list byte) (indices : list Z) :
  exists ps,
    scanScalar buf indices = Ok (indices ++ map uint32 ps)
    /\ offsetsFrom buf scanCandidate 0 ps
    /\ Forall (fun i => exists c, nth_error buf (Z.to_nat i) = Some c
                                  /\ isWhitespace c = false) ps
    /\ (len buf <= 4294967296 -> map uint32 ps = ps).
Proof.
  exists (marked (scanMarks buf None (false, false)) 0).
  pose proof (marked_offsets buf [] None (false, false)) as Hoff.
  cbn [app] in Hoff. change (len (@nil byte)) with 0 in Hoff.
  pose proof (offsetsFrom_Forall _ _ _ 0 ltac:(lia) Hoff) as Hall.
  split; [apply scanScalar_marks|]. split; [exact Hoff|]. split.
  - eapply Forall_impl; [|exact Hall].
    intros i (_ & c & Hc & Hcand). exists c. split; [exact Hc|].
    apply candidate_not_space. exact Hcand.
  - intros Hlen. apply (uint32_offsets buf scanCandidate); assumption.
Qed.

(** X5.  On the arm64 and generic builds every hardware entry point
    answers as the scalar routine does, on every buffer: the NEON routines
    are stubs that report nothing found. *)
Theorem hardware_entry_points_are_scalar (data : list byte) :
  Arm64Scan.Scan data = scanScalar data []
  /\ Arm64Scan.ScanSIMD data = scanScalar data []
  /\ GenericScan.Scan data = scanScalar data []
  /\ GenericScan.ScanSIMD data = scanScalar data []
  /\ Arm64Mask.SIMDQuoteMask data = generateQuoteMaskScalar data
  /\ GenericMask.SIMDQuoteMask data = generateQuoteMaskScalar data
  /\ Arm64Utf8.SIMDValidateUTF8 data = validateUTF8Scalar data
  /\ GenericUtf8.SIMDValidateUTF8 data = validateUTF8Scalar data
  /\ Arm64.SIMDParseInteger data = Arm64.parseIntegerScalar data
  /\ Generic.SIMDParseInteger data = Generic.parseIntegerScalar data.
Proof.
  assert (Hscan : Arm64Scan.scanSIMD data = scanScalar data []).
  { unfold Arm64Scan.scanSIMD, Arm64Scan.scanNEON, Arm64Scan.findStructuralIndicesNEON.
    destruct (len data =? 0) eqn:E.
    - apply Z.eqb_eq, len_zero_nil in E. subst. reflexivity.
    - destruct (16 <=? len data); reflexivity. }
  repeat split; try reflexivity; try exact Hscan.
  - unfold Arm64Mask.SIMDQuoteMask, Arm64Mask.findQuoteMaskNEON.
    destruct (len data =? 0) eqn:E.
    + apply Z.eqb_eq, len_zero_nil in E. subst. reflexivity.
    + rewrite andb_false_r. reflexivity.
  - unfold Arm64Utf8.SIMDValidateUTF8.
    destruct (len data =? 0) eqn:E; [|reflexivity].
    apply Z.eqb_eq, len_zero_nil in E. subst. reflexivity.
  - unfold Arm64.SIMDParseInteger, Arm64.parseIntegerNEON.
    destruct (len data =? 0) eqn:E.
    + apply Z.eqb_eq, len_zero_nil in E. subst. reflexivity.
    + destruct (4 <=? len data); reflexivity.
Qed.

(** X6.  The scalar UTF-8 validator returns on every buffer and is sound:
    what it accepts is well-formed UTF-8.  It accepts exactly the
    well-formed buffers that hold no byte from 0xE0 up, that is, no
    sequence of three or four bytes. *)
Theorem validateUTF8Scalar_sound (data : list byte) :
  exists b,
    validateUTF8Scalar data = Ok b
    /\ (b = true -> utf8WellFormed data = true)
    /\ (b = true <->
        utf8WellFormed data = true /\ Forall (fun c => byteZ c < 0xE0) data).
Proof.
  exists (utf8WellFormed data && forallb (fun c => byteZ c <? 0xE0) data).
  split; [apply validateUTF8Scalar_characterised|].
  split.
  - intros H. apply andb_true_iff in H. apply H.
  - rewrite andb_true_iff, forallb_forall, Forall_forall.
    split; intros [H1 H2]; (split; [exact H1|]); intros c Hc; specialize (H2 c Hc);
      [apply Z.ltb_lt | apply Z.ltb_lt]; exact H2.
Qed.

(** X7.  On arm64 the integer primitive computes, on every buffer, the
    value of the longest run of digits after an optional minus sign; it
    reports failure on an empty buffer, when no digit follows the sign and
    when the run exceeds [MaxInt64].  A value it reports is never
    [MinInt64]. *)
Theorem SIMDParseInteger_arm64_leading_integer (data : list byte) :
  SIMDParseInteger arm64 data = Ok (leadingInteger data)
  /\ (snd (leadingInteger data) = true ->
      - MaxInt64 <= fst (leadingInteger data) <= MaxInt64
      /\ leadingDigits data <> []
      /\ Z.abs (fst (leadingInteger data)) = decimalValue (leadingDigits data)).
Proof.
  split; [apply Arm64_SIMDParseInteger_spec|].
  unfold leadingInteger, leadingDigits.
  destruct data as [|c rest]; [discriminate|].
  set (body := if Byte.eqb c "-" then rest else c :: rest).
  replace (let '(neg, body0) :=
             if Byte.eqb c "-" then (true, rest) else (false, c :: rest) in _)
    with (match fst (spanDigits body) with
          | [] => (0, false)
          | _ :: _ =>
              if MaxInt64 <? decimalValue (fst (spanDigits body)) then (0, false)
              else (if Byte.eqb c "-" then - decimalValue (fst (spanDigits body))
                    else decimalValue (fst (spanDigits body)), true)
          end)
    by (unfold body; destruct (Byte.eqb c "-"); reflexivity).
  pose proof (spanDigits_digits body) as Hds.
  destruct (fst (spanDigits body)) as [|x ds] eqn:Eds; [discriminate|].
  pose proof (fold_digits_ge (x :: ds) 0 Hds ltac:(lia)) as Hge.
  rewrite <- decimalValue_fold in Hge.
  destruct (MaxInt64 <? decimalValue (x :: ds)) eqn:Eo; [discriminate|].
  apply Z.ltb_ge in Eo. intros _. cbn [fst].
  split; [destruct (Byte.eqb c "-"); lia|]. split; [discriminate|].
  destruct (Byte.eqb c "-"); lia.
Qed.

(** ** The tokenizer, the validator and the parser return *)

(** X8.  On every buffer [SimpleTokenize] returns tokens or an error and
    [Validate] returns a boolean: no index or slice expression of either
    goes out of range and every loop ends.  [Validate] is false whenever
    the tokenizer reports an error. *)
Theorem tokenizer_and_validator_return (data : list byte) :
  returns (SimpleTokenize data)
  /\ (exists b, Validate data = Ok b)
  /\ (forall e, SimpleTokenize data = Err e -> Validate data = Ok false).
Proof.
  split; [apply SimpleTokenize_returns|]. split; [apply Validate_returns|].
  intros e He. unfold Validate. rewrite He. reflexivity.
Qed.



(** ** What Validate checks *)

Lemma idx_last {A} (s : list A) (x : A) : idx (s ++ [x]) (len (s ++ [x]) - 1) = Ok x.
Proof.
  rewrite len_app. change (len [x]) with 1.
  replace (len s + 1 - 1) with (len s) by lia. apply idx_app_here.
Qed.

Lemma slice_init {A} (s : list A) (x : A) : slice (s ++ [x]) 0 (len (s ++ [x]) - 1) = Ok s.
Proof.
  pose proof (len_nonneg s).
  rewrite slice_in_range by (rewrite len_app; change (len [x]) with 1; lia).
  rewrite len_app. change (len [x]) with 1. cbn [Z.to_nat skipn].
  replace (Z.to_nat (len s + 1 - 1 - 0)) with (List.length s) by (unfold len; lia).
  rewrite firstn_app, Nat.sub_diag, firstn_all. cbn [firstn]. rewrite app_nil_r. reflexivity.
Qed.

(** The depth counter is the height of the stack, and the loop is the
    stack discipline of [bracketsClose]. *)
Lemma validateLoop_brackets (tokens : list Token) :
  forall stack,
    validateLoop tokens (len stack) stack
    = Ok (bracketsClose (map Type_ tokens) (rev stack)).
Proof.
  induction tokens as [|t rest IH]; intros stack; cbn [validateLoop map bracketsClose].
  - destruct stack as [|x stack] using rev_ind; [reflexivity|].
    rewrite rev_app_distr. cbn [rev app]. rewrite len_app. change (len [x]) with 1.
    pose proof (len_nonneg stack). cmp_false (len stack + 1 =? 0). reflexivity.
  - pose proof (len_nonneg stack) as Hs.
    assert (Hopen : forall o,
               (if len stack + 1 <? 0 then Ok false
                else validateLoop rest (len stack + 1) (stack ++ [o]))
               = Ok (bracketsClose (map Type_ rest) (o :: rev stack))).
    { intros o. cmp_false (len stack + 1 <? 0).
      replace (len stack + 1) with (len (stack ++ [o])) by (rewrite len_app; reflexivity).
      rewrite IH, rev_app_distr. reflexivity. }
    assert (Hclose : forall opener,
               (if len stack =? 0 then Ok false
                else
                  top <- idx stack (len stack - 1) ;;
                  if negb (TokenType_eqb top opener) then Ok false
                  else
                    stack0 <- slice stack 0 (len stack - 1) ;;
                    (if len stack - 1 <? 0 then Ok false
                     else validateLoop rest (len stack - 1) stack0))
               = Ok match rev stack with
                    | top :: open' =>
                        if TokenType_eqb top opener
                        then bracketsClose (map Type_ rest) open' else false
                    | [] => false
                    end).
    { intros opener.
      destruct stack as [|x stack'] using rev_ind; [reflexivity|].
      clear IHstack'. rewrite rev_app_distr. cbn [rev app].
      pose proof (len_nonneg stack').
      replace (len (stack' ++ [x]) =? 0) with false
        by (symmetry; apply Z.eqb_neq; rewrite len_app; change (len [x]) with 1; lia).
      rewrite idx_last. cbn [bind].
      destruct (TokenType_eqb x opener); cbn [negb]; [|reflexivity].
      rewrite slice_init. cbn [bind].
      replace (len (stack' ++ [x]) - 1) with (len stack')
        by (rewrite len_app; change (len [x]) with 1; lia).
      cmp_false (len stack' <? 0). apply IH. }
    assert (Hskip : (if len stack <? 0 then Ok false else validateLoop rest (len stack) stack)
                    = Ok (bracketsClose (map Type_ rest) (rev stack))).
    { cmp_false (len stack <? 0). apply IH. }
    destruct (Type_ t); try exact Hskip.
    + apply Hopen.
    + rewrite (Hclose TokenObjectBegin). f_equal.
      destruct (rev stack) as [|top open']; [reflexivity|].
      destruct top; reflexivity.
    + apply Hopen.
    + rewrite (Hclose TokenArrayBegin). f_equal.
      destruct (rev stack) as [|top open']; [reflexivity|].
      destruct top; reflexivity.
Qed.

(** A balanced word leaves the open brackets as they were. *)
Lemma bracketsClose_balanced (w : list TokenType) :
  balanced w ->
  forall rest open, bracketsClose (w ++ rest) open = bracketsClose rest open.
Proof.
  induction 1 as [|t w Ht _ IH|w1 w2 _ IH1 _ IH2|w1 w2 _ IH1 _ IH2]; intros rest open.
  - reflexivity.
  - cbn [app bracketsClose]. rewrite IH. destruct t; try reflexivity; discriminate.
  - cbn [app bracketsClose]. rewrite <- app_assoc, IH1. cbn [app bracketsClose]. apply IH2.
  - cbn [app bracketsClose]. rewrite <- app_assoc, IH1. cbn [app bracketsClose]. apply IH2.
Qed.

(** With a bracket open, a word that closes everything splits at the
    partner of that bracket. *)
Lemma bracketsClose_split (n : nat) :
  forall (ts : list TokenType) (o : TokenType) (open : list TokenType),
    (List.length ts <= n)%nat ->
    o = TokenObjectBegin \/ o = TokenArrayBegin ->
    bracketsClose ts (o :: open) = true ->
    exists w1 w2,
      ts = w1 ++ (if TokenType_eqb o TokenObjectBegin then TokenObjectEnd else TokenArrayEnd)
                 :: w2
      /\ balanced w1 /\ bracketsClose w2 open = true.
Proof.
  induction n as [|n IH]; intros ts o open Hn Ho H.
  - destruct ts; [|simpl in Hn; lia]. destruct Ho; subst o; discriminate H.
  - destruct ts as [|t ts]; [destruct Ho; subst o; discriminate H|].
    simpl in Hn.
    assert (Hother : isBracket t = false -> bracketsClose ts (o :: open) = true ->
                     exists w1 w2,
                       t :: ts
                       = w1 ++ (if TokenType_eqb o TokenObjectBegin
                                then TokenObjectEnd else TokenArrayEnd) :: w2
                       /\ balanced w1 /\ bracketsClose w2 open = true).
    { intros Hb H'. destruct (IH ts o open ltac:(lia) Ho H') as (w1 & w2 & -> & Hw1 & Hw2).
      exists (t :: w1), w2. split; [reflexivity|]. split; [|exact Hw2].
      apply balanced_other; assumption. }
    assert (Hnest : forall o',
               o' = TokenObjectBegin \/ o' = TokenArrayBegin ->
               bracketsClose ts (o' :: o :: open) = true ->
               exists w1 w2,
                 o' :: ts
                 = w1 ++ (if TokenType_eqb o TokenObjectBegin
                          then TokenObjectEnd else TokenArrayEnd) :: w2
                 /\ balanced w1 /\ bracketsClose w2 open = true).
    { intros o' Ho' H'.
      destruct (IH ts o' (o :: open) ltac:(lia) Ho' H') as (u1 & u2 & -> & Hu1 & Hu2).
      assert (Hlen : (List.length u2 <= n)%nat).
      { rewrite length_app in Hn. cbn [List.length] in Hn. lia. }
      destruct (IH u2 o open Hlen Ho Hu2) as (v1 & v2 & -> & Hv1 & Hv2).
      exists (o' :: u1 ++ (if TokenType_eqb o' TokenObjectBegin
                           then TokenObjectEnd else TokenArrayEnd) :: v1), v2.
      split; [cbn [app]; rewrite <- app_assoc; reflexivity|]. split; [|exact Hv2].
      destruct Ho' as [->| ->]; cbn [TokenType_eqb];
        [apply balanced_object | apply balanced_array]; assumption. }
    destruct t; cbn [bracketsClose] in H;
      try (apply Hother; [reflexivity | exact H]).
    + apply Hnest; [left; reflexivity | exact H].
    + destruct Ho as [->| ->]; [|discriminate H].
      exists [], ts. split; [reflexivity|]. split; [constructor | exact H].
    + apply Hnest; [right; reflexivity | exact H].
    + destruct Ho as [->| ->]; [discriminate H|].
      exists [], ts. split; [reflexivity|]. split; [constructor | exact H].
Qed.

Lemma bracketsClose_iff (n : nat) :
  forall ts, (List.length ts <= n)%nat ->
             bracketsClose ts [] = true -> balanced ts.
Proof.
  induction n as [|n IH]; intros ts Hn H.
  - destruct ts; [constructor | simpl in Hn; lia].
  - destruct ts as [|t ts]; [constructor|]. simpl in Hn.
    assert (Hopen : forall o,
               o = TokenObjectBegin \/ o = TokenArrayBegin ->
               bracketsClose ts [o] = true -> balanced (o :: ts)).
    { intros o Ho H'.
      destruct (bracketsClose_split n ts o [] ltac:(lia) Ho H') as (w1 & w2 & -> & Hw1 & Hw2).
      assert (Hlen : (List.length w2 <= n)%nat).
      { rewrite length_app in Hn. cbn [List.length] in Hn. lia. }
      specialize (IH w2 Hlen Hw2).
      destruct Ho as [->| ->]; cbn [TokenType_eqb];
        [apply balanced_object | apply balanced_array]; assumption. }
    destruct t; cbn [bracketsClose] in H; try discriminate H;
      try (apply balanced_other; [reflexivity | apply IH; [lia | exact H]]).
    + apply Hopen; [left; reflexivity | exact H].
    + apply Hopen; [right; reflexivity | exact H].
Qed.

(** X10.  [Validate] accepts a buffer exactly when [SimpleTokenize]
    succeeds on it and the brackets among its tokens match in pairs; it
    looks at no other token. *)
Theorem Validate_accepts_balanced_brackets (data : list byte) :
  Validate data = Ok true
  <-> exists tokens, SimpleTokenize data = Ok tokens /\ balanced (map Type_ tokens).
Proof.
  unfold Validate. split.
  - destruct (SimpleTokenize data) as [tokens|e|m|]; try discriminate.
    intros H. exists tokens. split; [reflexivity|].
    change 0 with (len (@nil TokenType)) in H.
    rewrite validateLoop_brackets in H. injection H as H.
    apply (bracketsClose_iff (List.length (map Type_ tokens))); [lia | exact H].
  - intros (tokens & -> & Hb).
    change 0 with (len (@nil TokenType)).
    rewrite validateLoop_brackets. f_equal. cbn [rev].
    rewrite <- (app_nil_r (map Type_ tokens)).
    rewrite (bracketsClose_balanced _ Hb). reflexivity.
Qed.

(** ** Invariants of the token sequence *)

Section TokenInvariant.

Variable data : list byte.

(** A property of the token sequence that every appended token keeps. *)
Variable Inv : list Token -> Prop.

Hypothesis Inv_step :
  forall tokens i c tok j,
    Inv tokens -> 0 <= i < len data -> idx data i = Ok c ->
    lookback tokens c = Ok tt -> lexToken data i c = Ok (tok, j) ->
    Inv (tokens ++ [tok]).

Lemma tokenizeLoop_invariant (fuel : nat) :
  forall (tokens : list Token) (i : Z),
    Inv tokens -> 0 <= i -> (Z.to_nat (len data - i) < fuel)%nat ->
    sat Inv (tokenizeLoop fuel data tokens i).
Proof.
  induction fuel as [|fuel IH]; intros tokens i HInv Hi Hf; [lia|].
  cbn [tokenizeLoop].
  destruct (i <? len data) eqn:E; [|exact HInv].
  apply Z.ltb_lt in E.
  destruct (scanWhile_spec data isWhitespace (S (List.length data)) i Hi)
    as (i0 & Hi0 & Hle & Hlen & _ & _).
  { unfold len. lia. }
  rewrite Hi0. cbn [bind].
  destruct (len data <=? i0) eqn:E0; [exact HInv|].
  apply Z.leb_gt in E0.
  destruct (idx_in_range data i0 ltac:(lia)) as [c Hc]. rewrite Hc. cbn [bind].
  pose proof (lookback_returns tokens c) as Hlb.
  destruct (lookback tokens c) as [[]|e|m|] eqn:Elb; cbn [sat] in Hlb; try contradiction;
    cbn [bind]; [|exact I].
  pose proof (lexToken_spec data i0 c ltac:(lia)) as Hlex.
  destruct (lexToken data i0 c) as [[tok j]|e|m|] eqn:Elex; cbn [sat] in Hlex;
    try contradiction; cbn [bind]; [|exact I].
  destruct Hlex as (_ & _ & Hlt & Hj). cbn [fst snd] in *.
  apply IH; [|lia|lia].
  apply (Inv_step tokens i0 c tok j HInv ltac:(lia) Hc Elb Elex).
Qed.

Lemma SimpleTokenize_invariant :
  Inv [] -> sat Inv (SimpleTokenize data).
Proof.
  intros H0. unfold SimpleTokenize. destruct (len data =? 0); [exact I|].
  apply tokenizeLoop_invariant; [exact H0 | lia | unfold len; lia].
Qed.

End TokenInvariant.

Lemma bytes_eqb_eq (a b : list byte) : bytes_eqb a b = true -> a = b.
Proof.
  revert b. induction a as [|x a IH]; intros [|y b] H; try discriminate; [reflexivity|].
  cbn [bytes_eqb] in H. apply andb_true_iff in H. destruct H as [H1 H2].
  apply byte_eqb_eq in H1. subst y. f_equal. apply IH. exact H2.
Qed.

(** The token begun at the byte [c] has the type of [c], and its span is
    the lexeme of that type. *)
Lemma lexToken_lexeme (data : list byte) (i : Z) (c : byte) (tok : Token) (j : Z) :
  0 <= i < len data -> idx data i = Ok c ->
  lexToken data i c = Ok (tok, j) ->
  Type_ tok = tokenTypeOf c /\ Type_ tok <> TokenNone
  /\ Start tok = uint32 i /\ End_ tok = uint32 j /\ i < j <= len data
  /\ exists s, slice data i j = Ok s
               /\ match lexemeOf (Type_ tok) with
                  | Some lexeme => s = lexeme
                  | None => True
                  end.
Proof.
  intros Hi Hc Hlex.
  pose proof (lexToken_spec data i c Hi) as Hspan. rewrite Hlex in Hspan.
  destruct Hspan as (Hs & He & Hlt & Hj). cbn [fst snd] in *.
  apply idx_Ok_iff in Hc. destruct Hc as [_ Hc].
  assert (Hone : slice data i (i + 1) = Ok [c]).
  { rewrite slice_in_range by lia.
    replace (Z.to_nat (i + 1 - i)) with 1%nat by lia.
    destruct (nth_error_split data (Z.to_nat i) Hc) as (l1 & l2 & -> & Hl1).
    rewrite <- Hl1, skipn_app, Nat.sub_diag, skipn_all. reflexivity. }
  unfold lexToken, tokenTypeOf in *.
  assert (Hsingle : forall ty lexeme,
             lexeme = [c] ->
             Ok (mkToken ty (uint32 i) (uint32 (i + 1)), i + 1) = Ok (tok, j) ->
             lexemeOf ty = Some lexeme -> ty <> TokenNone ->
             Type_ tok = ty /\ Type_ tok <> TokenNone
             /\ Start tok = uint32 i /\ End_ tok = uint32 j /\ i < j <= len data
             /\ exists s, slice data i j = Ok s
                          /\ match lexemeOf (Type_ tok) with
                             | Some lexeme => s = lexeme
                             | None => True
                             end).
  { intros ty lexeme Hl H Hlx Hne. injection H as <- <-. cbn [Type_ Start End_].
    repeat (split; [first [reflexivity | exact Hne | lia]|]).
    exists [c]. split; [exact Hone|]. rewrite Hlx. symmetry. exact Hl. }
  assert (Hkw : forall ty lit msg,
             (m <- matchLiteral data i lit ;;
              if m then Ok (mkToken ty (uint32 i) (uint32 (i + len lit)), i + len lit)
              else Err msg) = Ok (tok, j) ->
             lexemeOf ty = Some lit -> ty <> TokenNone ->
             Type_ tok = ty /\ Type_ tok <> TokenNone
             /\ Start tok = uint32 i /\ End_ tok = uint32 j /\ i < j <= len data
             /\ exists s, slice data i j = Ok s
                          /\ match lexemeOf (Type_ tok) with
                             | Some lexeme => s = lexeme
                             | None => True
                             end).
  { intros ty lit msg H Hlx Hne. unfold matchLiteral in H.
    destruct (i + len lit <=? len data); [|discriminate H].
    destruct (slice data i (i + len lit)) as [s| | |] eqn:Es; try discriminate H.
    cbn [bind] in H. destruct (bytes_eqb s lit) eqn:Eb; [|discriminate H].
    injection H as <- <-. cbn [Type_ Start End_].
    repeat (split; [first [reflexivity | exact Hne | lia]|]).
    exists s. split; [exact Es|]. rewrite Hlx. apply bytes_eqb_eq. exact Eb. }
  destruct (Byte.eqb c "{") eqn:E1.
  { apply byte_eqb_eq in E1. subst c. eapply Hsingle; eauto; discriminate. }
  destruct (Byte.eqb c "}") eqn:E2.
  { apply byte_eqb_eq in E2. subst c. eapply Hsingle; eauto; discriminate. }
  destruct (Byte.eqb c "[") eqn:E3.
  { apply byte_eqb_eq in E3. subst c. eapply Hsingle; eauto; discriminate. }
  destruct (Byte.eqb c "]") eqn:E4.
  { apply byte_eqb_eq in E4. subst c. eapply Hsingle; eauto; discriminate. }
  destruct (Byte.eqb c ":") eqn:E5.
  { apply byte_eqb_eq in E5. subst c. eapply Hsingle; eauto; discriminate. }
  destruct (Byte.eqb c ",") eqn:E6.
  { apply byte_eqb_eq in E6. subst c. eapply Hsingle; eauto; discriminate. }
  assert (Hplain : forall ty (o : outcome Z),
             (j' <- o ;; Ok (mkToken ty (uint32 i) (uint32 j'), j')) = Ok (tok, j) ->
             lexemeOf ty = None -> ty <> TokenNone ->
             Type_ tok = ty /\ Type_ tok <> TokenNone
             /\ Start tok = uint32 i /\ End_ tok = uint32 j /\ i < j <= len data
             /\ exists s, slice data i j = Ok s
                          /\ match lexemeOf (Type_ tok) with
                             | Some lexeme => s = lexeme
                             | None => True
                             end).
  { intros ty o H Hlx Hne. destruct o as [j'| | |]; try discriminate H.
    cbn [bind] in H. injection H as <- <-. cbn [Type_ Start End_].
    repeat (split; [first [reflexivity | exact Hne | lia]|]).
    rewrite slice_in_range by lia. eexists. split; [reflexivity|]. rewrite Hlx. exact I. }
  destruct (Byte.eqb c quote) eqn:E7.
  { eapply Hplain; eauto; discriminate. }
  destruct (Byte.eqb c "t") eqn:E8.
  { eapply Hkw; eauto; discriminate. }
  destruct (Byte.eqb c "f") eqn:E9.
  { eapply Hkw; eauto; discriminate. }
  destruct (Byte.eqb c "n") eqn:E10.
  { eapply Hkw; eauto; discriminate. }
  destruct (Byte.eqb c "-" || isDigit c) eqn:E11; [|discriminate Hlex].
  eapply Hplain; eauto; discriminate.
Qed.

(** X11.  In a successful tokenization of a buffer shorter than 2^32 bytes
    every token starts at a byte of its type; a punctuation token spans
    exactly its one byte and a literal token exactly the bytes true, false
    or null. *)
Theorem tokens_match_lexemes (data : list byte) (tokens : list Token) :
  len data < 4294967296 ->
  SimpleTokenize data = Ok tokens ->
  Forall (tokenMatches data) tokens.
Proof.
  intros Hlen Htok.
  pose proof (SimpleTokenize_invariant data (Forall (tokenMatches data))) as H.
  rewrite Htok in H. apply H; [|constructor].
  intros toks i c tok j HInv Hi Hc _ Hlex.
  apply Forall_app. split; [exact HInv|]. constructor; [|constructor].
  destruct (lexToken_lexeme data i c tok j Hi Hc Hlex)
    as (Hty & Hne & Hs & He & Hj & s & Hsl & Hlx).
  rewrite uint32_small in Hs by lia. rewrite uint32_small in He by lia.
  apply idx_Ok_iff in Hc. destruct Hc as [_ Hc].
  exists c, s. rewrite Hs, He. repeat split; assumption.
Qed.

Lemma tokens_match_lexemes_witness :
  len (json "{'a':[true,null]}") < 4294967296
  /\ SimpleTokenize (json "{'a':[true,null]}")
     = Ok [mkToken TokenObjectBegin 0 1; mkToken TokenString 1 4; mkToken TokenColon 4 5;
           mkToken TokenArrayBegin 5 6; mkToken TokenTrue 6 10; mkToken TokenComma 10 11;
           mkToken TokenNull 11 15; mkToken TokenArrayEnd 15 16;
           mkToken TokenObjectEnd 16 17]
  /\ Forall (tokenMatches (json "{'a':[true,null]}"))
       [mkToken TokenObjectBegin 0 1; mkToken TokenString 1 4; mkToken TokenColon 4 5;
        mkToken TokenArrayBegin 5 6; mkToken TokenTrue 6 10; mkToken TokenComma 10 11;
        mkToken TokenNull 11 15; mkToken TokenArrayEnd 15 16;
        mkToken TokenObjectEnd 16 17].
Proof.
  assert (H1 : len (json "{'a':[true,null]}") < 4294967296) by (vm_compute; reflexivity).
  split; [exact H1|]. split; [reflexivity|].
  exact (tokens_match_lexemes (json "{'a':[true,null]}") _ H1 eq_refl).
Defined.

(** *** Neighbouring tokens *)

Lemma refused_by_lookback (tokens : list Token) (last : Token) (c : byte) :
  lookback (tokens ++ [last]) c = Ok tt ->
  refusedAfter (Type_ last) (tokenTypeOf c) = false.
Proof.
  unfold lookback.
  pose proof (len_nonneg tokens).
  replace (0 <? len (tokens ++ [last])) with true
    by (symmetry; apply Z.ltb_lt; rewrite len_app; change (len [last]) with 1; lia).
  rewrite len_app. change (len [last]) with 1.
  replace (len tokens + 1 - 1) with (len tokens) by lia.
  rewrite idx_app_here. cbn [bind].
  assert (Hc : forall c,
             (Bool.eqb (refusedAfter TokenColon (tokenTypeOf c))
                       (Byte.eqb c "}" || Byte.eqb c "]" || Byte.eqb c ",")
              && Bool.eqb (refusedAfter TokenComma (tokenTypeOf c))
                          (Byte.eqb c "," || Byte.eqb c "}" || Byte.eqb c "]")) = true)
    by (apply forall_bytes; vm_compute; reflexivity).
  specialize (Hc c). apply andb_true_iff in Hc. destruct Hc as [Hcolon Hcomma].
  apply eqb_prop in Hcolon. apply eqb_prop in Hcomma.
  destruct (Type_ last); try reflexivity; cbn [TokenType_eqb andb].
  - (* colon *)
    change (TokenType_eqb TokenColon TokenColon) with true.
    change (TokenType_eqb TokenColon TokenComma) with false. cbn [andb].
    rewrite Hcolon.
    destruct (Byte.eqb c "}" || Byte.eqb c "]" || Byte.eqb c ","); [discriminate|reflexivity].
  - (* comma *)
    change (TokenType_eqb TokenComma TokenColon) with false.
    change (TokenType_eqb TokenComma TokenComma) with true. cbn [andb].
    rewrite Hcomma.
    destruct (Byte.eqb c ","); [discriminate|].
    destruct (Byte.eqb c "}"); [discriminate|].
    destruct (Byte.eqb c "]"); [discriminate|reflexivity].
Qed.

Lemma wellSeparated_snoc (tokens : list Token) (tok : Token) :
  wellSeparated tokens ->
  (forall init last, tokens = init ++ [last] ->
                     refusedAfter (Type_ last) (Type_ tok) = false) ->
  wellSeparated (tokens ++ [tok]).
Proof.
  intros Hws Hlast k t1 t2 H1 H2.
  destruct (Nat.lt_ge_cases (S k) (List.length tokens)) as [Hlt|Hge].
  - rewrite nth_error_app1 in H1 by lia. rewrite nth_error_app1 in H2 by lia.
    exact (Hws k t1 t2 H1 H2).
  - assert (Hk : S k = List.length tokens).
    { assert (S k < List.length (tokens ++ [tok]))%nat
        by (apply nth_error_Some; congruence).
      rewrite length_app in H. cbn [List.length] in H. lia. }
    rewrite nth_error_app2 in H2 by lia.
    replace (S k - List.length tokens)%nat with 0%nat in H2 by lia.
    injection H2 as <-.
    rewrite nth_error_app1 in H1 by lia.
    destruct (nth_error_split tokens k H1) as (init & rest & Heq & Hinit).
    assert (rest = []).
    { destruct rest; [reflexivity|]. exfalso.
      rewrite Heq, length_app in Hk. cbn [List.length] in Hk. lia. }
    subst rest. exact (Hlast init t1 Heq).
Qed.

(** X12.  In a successful tokenization no colon is directly followed by a
    comma or a closing bracket, and no comma by another comma or a closing
    bracket: a trailing comma is refused by the tokenizer. *)
Theorem tokens_well_separated (data : list byte) (tokens : list Token) :
  SimpleTokenize data = Ok tokens -> wellSeparated tokens.
Proof.
  intros Htok.
  pose proof (SimpleTokenize_invariant data wellSeparated) as H.
  rewrite Htok in H. apply H.
  - intros toks i c tok j HInv Hi Hc Hlb Hlex.
    apply wellSeparated_snoc; [exact HInv|].
    intros init last ->.
    destruct (lexToken_lexeme data i c tok j Hi Hc Hlex) as (Hty & _).
    rewrite Hty. eapply refused_by_lookback. exact Hlb.
  - intros k t1 t2 H1. destruct k; discriminate H1.
Qed.

Lemma tokens_well_separated_witness :
  SimpleTokenize (json "[1,{'a':2}]")
  = Ok [mkToken TokenArrayBegin 0 1; mkToken TokenNumber 1 2; mkToken TokenComma 2 3;
        mkToken TokenObjectBegin 3 4; mkToken TokenString 4 7; mkToken TokenColon 7 8;
        mkToken TokenNumber 8 9; mkToken TokenObjectEnd 9 10; mkToken TokenArrayEnd 10 11]
  /\ wellSeparated
       [mkToken TokenArrayBegin 0 1; mkToken TokenNumber 1 2; mkToken TokenComma 2 3;
        mkToken TokenObjectBegin 3 4; mkToken TokenString 4 7; mkToken TokenColon 7 8;
        mkToken TokenNumber 8 9; mkToken TokenObjectEnd 9 10; mkToken TokenArrayEnd 10 11].
Proof.
  split; [reflexivity|].
  exact (tokens_well_separated (json "[1,{'a':2}]") _ eq_refl).
Defined.

(** ** Number tokens are JSON numbers *)

Lemma firstn_add {A} (n m : nat) (l : list A) :
  firstn (n + m) l = firstn n l ++ firstn m (skipn n l).
Proof.
  revert l. induction n as [|n IH]; intros l; [reflexivity|].
  destruct l as [|a l]; [cbn; rewrite firstn_nil; reflexivity|].
  cbn [Nat.add firstn skipn app]. f_equal. apply IH.
Qed.

Section Segments.

Variable data : list byte.

Lemma segment_nil (a : Z) : segment data a a = [].
Proof. unfold segment. rewrite Z.sub_diag. reflexivity. Qed.

Lemma segment_split (a b c : Z) :
  0 <= a <= b -> b <= c ->
  segment data a c = segment data a b ++ segment data b c.
Proof.
  intros Hab Hbc. unfold segment.
  replace (Z.to_nat (c - a)) with (Z.to_nat (b - a) + Z.to_nat (c - b))%nat by lia.
  rewrite firstn_add, skipn_skipn. do 3 f_equal. lia.
Qed.

Lemma segment_single (a : Z) (x : byte) :
  0 <= a -> nth_error data (Z.to_nat a) = Some x -> segment data a (a + 1) = [x].
Proof.
  intros Ha Hx. unfold segment.
  replace (Z.to_nat (a + 1 - a)) with 1%nat by lia.
  destruct (nth_error_split data (Z.to_nat a) Hx) as (l1 & l2 & -> & Hl1).
  rewrite <- Hl1, skipn_app, Nat.sub_diag, skipn_all. reflexivity.
Qed.

Lemma segment_head (a b : Z) (x : byte) :
  0 <= a < b -> nth_error data (Z.to_nat a) = Some x ->
  segment data a b = x :: segment data (a + 1) b.
Proof.
  intros Hab Hx. rewrite (segment_split a (a + 1) b) by lia.
  rewrite (segment_single a x) by (lia || assumption). reflexivity.
Qed.

Lemma segment_digits (n : nat) :
  forall a b,
    0 <= a -> Z.to_nat (b - a) = n ->
    (forall k, a <= k < b -> byteIs data isDigit k) ->
    Forall (fun c => isDigit c = true) (segment data a b).
Proof.
  induction n as [|n IH]; intros a b Ha Hn Hall.
  - unfold segment. rewrite Hn. constructor.
  - destruct (Hall a ltac:(lia)) as (x & Hx & Hd).
    rewrite (segment_head a b x) by (lia || assumption).
    constructor; [exact Hd|]. apply IH; [lia | lia |].
    intros k Hk. apply Hall. lia.
Qed.

Lemma segment_digitRun (a b : Z) :
  0 <= a < b ->
  (forall k, a <= k < b -> byteIs data isDigit k) ->
  digitRun (segment data a b).
Proof.
  intros Hab Hall. split.
  - destruct (Hall a ltac:(lia)) as (x & Hx & _).
    rewrite (segment_head a b x) by (lia || assumption). discriminate.
  - apply (segment_digits (Z.to_nat (b - a))); [lia | reflexivity | exact Hall].
Qed.

Lemma slice_segment (a b : Z) (s : list byte) :
  slice data a b = Ok s -> s = segment data a b.
Proof.
  unfold slice, segment.
  destruct ((0 <=? a) && (a <=? b) && (b <=? len data)); [|discriminate].
  intros H. injection H as <-. reflexivity.
Qed.

(** The digits that must follow a sign, a point or an exponent mark. *)
Lemma digits_after (msg : string) (i : Z) :
  0 <= i <= len data ->
  sat (fun j => i < j /\ j <= len data /\ digitRun (segment data i j))
      (d <- inRangeAnd data i isDigit ;;
       if negb d then Err msg else scanWhile isDigit (S (List.length data)) data i).
Proof.
  intros Hi. rewrite inRangeAnd_eq by lia. cbn [bind].
  destruct (nth_error data (Z.to_nat i)) as [c|] eqn:E; [|exact I].
  destruct (isDigit c) eqn:Ed; [|exact I]. cbn [negb].
  destruct (digit_run data i c ltac:(lia) E Ed) as (j & Hj & Hlt & Hle & Hall).
  rewrite Hj. cbn [sat]. split; [lia|]. split; [lia|].
  apply segment_digitRun; [lia | exact Hall].
Qed.

(** What the number rule accepts is a number of the JSON grammar. *)
Lemma lexNumber_accepts_json_numbers (i j : Z) (c : byte) :
  0 <= i -> idx data i = Ok c ->
  lexNumber data i c = Ok j ->
  i < j <= len data /\ jsonNumber (segment data i j).
Proof.
  intros Hi Hc Hlex.
  apply idx_Ok_iff in Hc. destruct Hc as [Hilen Hc].
  assert (Hsat : sat (fun j => i < j <= len data /\ jsonNumber (segment data i j))
                     (lexNumber data i c)); [|rewrite Hlex in Hsat; exact Hsat].
  clear Hlex j. unfold lexNumber. cbv zeta.
  set (i1 := if Byte.eqb c "-" then i + 1 else i).
  assert (Hsign : i <= i1 <= len data
                  /\ (segment data i i1 = [] \/ segment data i i1 = bytes "-")).
  { unfold i1. destruct (Byte.eqb c "-") eqn:E.
    - apply byte_eqb_eq in E. subst c. split; [lia|]. right.
      apply segment_single; [lia | exact Hc].
    - split; [lia|]. left. apply segment_nil. }
  destruct Hsign as (Hi1 & Hsign).
  apply sat_bind with (P := fun iA => iA = i1).
  { unfold i1. destruct (Byte.eqb c "-"); [|reflexivity].
    rewrite inRangeAnd_eq by lia. cbn [bind].
    destruct (nth_error data (Z.to_nat (i + 1))) as [x|]; [|exact I].
    destruct (isDigit x); [reflexivity | exact I]. }
  intros iA ->.
  rewrite inRangeAnd_eq by lia. cbn [bind].
  destruct (nth_error data (Z.to_nat i1)) as [cA|] eqn:EA; [|exact I].
  destruct (isDigit cA) eqn:EdA; [|exact I]. cbn [negb].
  pose proof (nth_error_in_range data i1 cA ltac:(lia) EA) as HA.
  rewrite (nth_error_idx data i1 cA ltac:(lia) EA). cbn [bind].
  (* the integer part *)
  apply sat_bind with
    (P := fun i2 => i1 < i2 /\ i2 <= len data /\ jsonInt (segment data i1 i2)).
  { destruct (Byte.eqb cA "0") eqn:E0.
    - rewrite inRangeAnd_eq by lia. cbn [bind].
      destruct (match nth_error data (Z.to_nat (i1 + 1)) with
                | Some c0 => isDigit c0 | None => false end); [exact I|].
      cbn [sat]. split; [lia|]. split; [lia|]. left.
      apply byte_eqb_eq in E0. subst cA. apply segment_single; [lia | exact EA].
    - destruct (digit_run data i1 cA ltac:(lia) EA EdA) as (j & Hj & Hlt & Hle & Hall).
      rewrite Hj. cbn [sat]. split; [lia|]. split; [lia|]. right.
      split; [apply segment_digitRun; [lia | exact Hall]|].
      intros d ds Hseg. rewrite (segment_head i1 j cA) in Hseg by (lia || assumption).
      injection Hseg as <- _. intros ->. discriminate E0. }
  intros i2 (H12 & H2 & Hint).
  (* the fraction *)
  rewrite inRangeAnd_eq by lia. cbn [bind].
  apply sat_bind with
    (P := fun i3 => i2 <= i3 /\ i3 <= len data /\ jsonFrac (segment data i2 i3)).
  { assert (Hnone : sat (fun i3 => i2 <= i3 /\ i3 <= len data
                                   /\ jsonFrac (segment data i2 i3)) (Ok i2)).
    { cbn [sat]. split; [lia|]. split; [lia|]. left. apply segment_nil. }
    destruct (nth_error data (Z.to_nat i2)) as [cD|] eqn:ED; [|exact Hnone].
    destruct (Byte.eqb cD ".") eqn:Edot; [|exact Hnone].
    pose proof (nth_error_in_range data i2 cD ltac:(lia) ED) as HD.
    eapply sat_weaken; [apply (digits_after _ (i2 + 1)); lia|].
    intros j (Hj1 & Hj2 & Hrun). cbv beta. split; [lia|]. split; [lia|]. right.
    exists (segment data (i2 + 1) j). split; [|exact Hrun].
    apply byte_eqb_eq in Edot. subst cD. apply segment_head; [lia | exact ED]. }
  intros i3 (H23 & H3 & Hfrac).
  (* the exponent *)
  rewrite inRangeAnd_eq by lia. cbn [bind].
  apply sat_bind with
    (P := fun i4 => i3 <= i4 /\ i4 <= len data /\ jsonExp (segment data i3 i4)).
  { assert (Hnone : sat (fun i4 => i3 <= i4 /\ i4 <= len data
                                   /\ jsonExp (segment data i3 i4)) (Ok i3)).
    { cbn [sat]. split; [lia|]. split; [lia|]. left. apply segment_nil. }
    destruct (nth_error data (Z.to_nat i3)) as [cE|] eqn:EE; [|exact Hnone].
    destruct (Byte.eqb cE "e" || Byte.eqb cE "E") eqn:Eexp; [|exact Hnone].
    pose proof (nth_error_in_range data i3 cE ltac:(lia) EE) as HE.
    assert (HcE : cE = "e"%byte \/ cE = "E"%byte).
    { apply orb_true_iff in Eexp. destruct Eexp as [E|E]; apply byte_eqb_eq in E; auto. }
    rewrite inRangeAnd_eq by lia. cbn [bind].
    destruct (nth_error data (Z.to_nat (i3 + 1))) as [cS|] eqn:ES.
    - pose proof (nth_error_in_range data (i3 + 1) cS ltac:(lia) ES) as HS.
      destruct (Byte.eqb cS "+" || Byte.eqb cS "-") eqn:Esg.
      + eapply sat_weaken; [apply (digits_after _ (i3 + 1 + 1)); lia|].
        intros j (Hj1 & Hj2 & Hrun). cbv beta. split; [lia|]. split; [lia|]. right.
        exists cE, [cS], (segment data (i3 + 1 + 1) j).
        split; [|split; [exact HcE|split; [|exact Hrun]]].
        * rewrite (segment_head i3 j cE) by (lia || assumption).
          rewrite (segment_head (i3 + 1) j cS) by (lia || assumption). reflexivity.
        * apply orb_true_iff in Esg.
          destruct Esg as [E|E]; apply byte_eqb_eq in E; subst cS; auto.
      + eapply sat_weaken; [apply (digits_after _ (i3 + 1)); lia|].
        intros j (Hj1 & Hj2 & Hrun). cbv beta. split; [lia|]. split; [lia|]. right.
        exists cE, [], (segment data (i3 + 1) j).
        split; [|split; [exact HcE|split; [left; reflexivity|exact Hrun]]].
        rewrite (segment_head i3 j cE) by (lia || assumption). reflexivity.
    - eapply sat_weaken; [apply (digits_after _ (i3 + 1)); lia|].
      intros j (Hj1 & Hj2 & Hrun). cbv beta. split; [lia|]. split; [lia|]. right.
      exists cE, [], (segment data (i3 + 1) j).
      split; [|split; [exact HcE|split; [left; reflexivity|exact Hrun]]].
      rewrite (segment_head i3 j cE) by (lia || assumption). reflexivity. }
  intros i4 (H34 & H4 & Hexp).
  (* the closing check *)
  cmp_false (i4 <=? i).
  assert (Hnum : i < i4 <= len data /\ jsonNumber (segment data i i4)).
  { split; [lia|].
    exists (segment data i i1), (segment data i1 i2), (segment data i2 i3),
           (segment data i3 i4).
    split; [|split; [exact Hsign|split; [exact Hint|split; [exact Hfrac|exact Hexp]]]].
    rewrite (segment_split i i1 i4), (segment_split i1 i2 i4), (segment_split i2 i3 i4)
      by lia.
    reflexivity. }
  destruct (i =? i4 - 1).
  - destruct (idx_in_range data i ltac:(lia)) as [x Hx]. rewrite Hx. cbn [bind].
    destruct (Byte.eqb x "-"); [exact I | exact Hnum].
  - cbn [bind]. exact Hnum.
Qed.

End Segments.

(** *** The float conversion on a JSON number *)

Lemma spanDigits_prefix (ds rest : list byte) :
  Forall (fun c => isDigit c = true) ds ->
  match rest with
  | x :: _ => isDigit x = false
  | [] => True
  end ->
  spanDigits (ds ++ rest) = (ds, rest).
Proof.
  intros Hds Hrest. induction Hds as [|d ds Hd _ IH].
  - cbn [app]. destruct rest as [|x r]; [reflexivity|].
    cbn [spanDigits]. rewrite Hrest. reflexivity.
  - cbn [app spanDigits]. rewrite Hd, IH. reflexivity.
Qed.

Lemma digit_not_sign (d : byte) :
  isDigit d = true ->
  Byte.eqb d "-" = false /\ Byte.eqb d "+" = false /\ Byte.eqb d "." = false
  /\ Byte.eqb d "e" = false /\ Byte.eqb d "E" = false.
Proof.
  assert (H : forall d,
             (negb (isDigit d)
              || (negb (Byte.eqb d "-") && negb (Byte.eqb d "+") && negb (Byte.eqb d ".")
                  && negb (Byte.eqb d "e") && negb (Byte.eqb d "E"))) = true)
    by (apply forall_bytes; vm_compute; reflexivity).
  intros Hd. specialize (H d). rewrite Hd in H. cbn [negb orb] in H.
  repeat (apply andb_true_iff in H; destruct H as [H ?]).
  repeat split; apply negb_true_iff; assumption.
Qed.

Lemma jsonInt_digitRun (s : list byte) : jsonInt s -> digitRun s.
Proof.
  intros [->|[H _]]; [|exact H].
  split; [discriminate|]. repeat constructor.
Qed.

(** The strict decimal reader accepts every JSON number. *)
Lemma readDecimal_json (s : list byte) :
  jsonNumber s -> exists d, readDecimal s = Some d.
Proof.
  intros (sign & int & frac & exp & -> & Hsign & Hint & Hfrac & Hexp).
  apply jsonInt_digitRun in Hint. destruct Hint as [Hne Hint].
  destruct int as [|d int']; [contradiction|]. clear Hne.
  pose proof (Forall_inv Hint) as Hd.
  destruct (digit_not_sign d Hd) as (Hd1 & Hd2 & _).
  (* what follows the integer part does not begin with a digit *)
  assert (Hexp0 : match exp with x :: _ => isDigit x = false | [] => True end).
  { destruct Hexp as [->|(e & sg & ds & -> & [->| ->] & _)]; [exact I|reflexivity..]. }
  assert (Htail : match frac ++ exp with x :: _ => isDigit x = false | [] => True end).
  { destruct Hfrac as [->|(ds & -> & _)]; [exact Hexp0|reflexivity]. }
  assert (Hread :
            readDecimal (sign ++ (d :: int') ++ frac ++ exp)
            = let neg := match sign with [] => false | _ => true end in
              let '(fracDigits, s) :=
                match frac ++ exp with
                | c :: rest => if Byte.eqb c "." then spanDigits rest else ([], frac ++ exp)
                | [] => ([], frac ++ exp)
                end in
              if len ((d :: int') ++ fracDigits) =? 0 then None
              else
                let m := decimalValue ((d :: int') ++ fracDigits) in
                match s with
                | [] => Some (mkDecimal neg m (- len fracDigits))
                | c :: rest =>
                    if Byte.eqb c "e" || Byte.eqb c "E" then
                      let '(eneg, rest) :=
                        match rest with
                        | c :: rest' =>
                            if Byte.eqb c "-" then (true, rest')
                            else if Byte.eqb c "+" then (false, rest') else (false, rest)
                        | [] => (false, rest)
                        end in
                      let '(expDigits, rest) := spanDigits rest in
                      match expDigits, rest with
                      | _ :: _, [] =>
                          let e := decimalValue expDigits in
                          Some (mkDecimal neg m ((if eneg then - e else e) - len fracDigits))
                      | _, _ => None
                      end
                    else None
                end).
  { unfold readDecimal.
    destruct Hsign as [->| ->].
    - cbn [app]. rewrite Hd1, Hd2.
      change (d :: int' ++ frac ++ exp) with ((d :: int') ++ frac ++ exp).
      rewrite (spanDigits_prefix (d :: int') (frac ++ exp) Hint Htail). reflexivity.
    - change (bytes "-" ++ (d :: int') ++ frac ++ exp)
        with ("-"%byte :: (d :: int') ++ frac ++ exp).
      cbv beta iota. change (Byte.eqb "-" "-") with true. cbv iota.
      rewrite (spanDigits_prefix (d :: int') (frac ++ exp) Hint Htail). reflexivity. }
  rewrite Hread. clear Hread. cbv zeta.
  set (neg := match sign with [] => false | _ => true end). clearbody neg.
  (* the fraction *)
  assert (Hfr : exists fracDigits,
             match frac ++ exp with
             | c :: rest => if Byte.eqb c "." then spanDigits rest else ([], frac ++ exp)
             | [] => ([], frac ++ exp)
             end = (fracDigits, exp)).
  { destruct Hfrac as [->|(ds & -> & _ & Hds)].
    - exists []. cbn [app]. destruct exp as [|x r]; [reflexivity|].
      destruct Hexp as [H|(e & sg & ds & H & [->| ->] & _)]; [discriminate H| |];
        injection H as -> _; reflexivity.
    - exists ds. cbn [app]. cbv beta iota. change (Byte.eqb "." ".") with true. cbv iota.
      apply spanDigits_prefix; assumption. }
  destruct Hfr as (fracDigits & ->).
  replace (len ((d :: int') ++ fracDigits) =? 0) with false
    by (symmetry; apply Z.eqb_neq; cbn [app]; rewrite len_cons;
        pose proof (len_nonneg (int' ++ fracDigits)); lia).
  (* the exponent *)
  destruct Hexp as [->|(e & sg & ds & -> & He & Hsg & Hne & Hds)].
  - eexists; reflexivity.
  - replace (Byte.eqb e "e" || Byte.eqb e "E") with true
      by (destruct He as [->| ->]; reflexivity).
    destruct ds as [|x ds']; [contradiction|].
    pose proof (Forall_inv Hds) as Hx.
    destruct (digit_not_sign x Hx) as (Hx1 & Hx2 & _).
    destruct Hsg as [->|[->| ->]].
    + cbn [app]. rewrite Hx1, Hx2. rewrite (spanDigits_all (x :: ds') Hds).
      eexists; reflexivity.
    + change (bytes "+" ++ x :: ds') with ("+"%byte :: x :: ds').
      cbv beta iota.
      change (Byte.eqb "+" "-") with false. change (Byte.eqb "+" "+") with true. cbv iota.
      rewrite (spanDigits_all (x :: ds') Hds). eexists; reflexivity.
    + change (bytes "-" ++ x :: ds') with ("-"%byte :: x :: ds').
      cbv beta iota. change (Byte.eqb "-" "-") with true. cbv iota.
      rewrite (spanDigits_all (x :: ds') Hds). eexists; reflexivity.
Qed.

(** *** Number tokens *)

Lemma lexToken_number (data : list byte) (i : Z) (c : byte) (tok : Token) (j : Z) :
  lexToken data i c = Ok (tok, j) -> Type_ tok = TokenNumber ->
  lexNumber data i c = Ok j /\ Start tok = uint32 i /\ End_ tok = uint32 j.
Proof.
  unfold lexToken. intros H Hty.
  assert (Hkw : forall ty lit msg,
             ty <> TokenNumber ->
             (m <- matchLiteral data i lit ;;
              if m then Ok (mkToken ty (uint32 i) (uint32 (i + len lit)), i + len lit)
              else Err msg) = Ok (tok, j) -> False).
  { intros ty lit msg Hne H'. destruct (matchLiteral data i lit) as [[|]| | |];
      try discriminate H'. cbn [bind] in H'. injection H' as <- _. exact (Hne Hty). }
  repeat match type of H with
         | (if Byte.eqb c quote then _ else _) = _ => fail 1
         | (if ?b then _ else _) = _ =>
             destruct b; [injection H as <- _; discriminate Hty|]
         end.
  destruct (Byte.eqb c quote).
  { destruct (scanStringLoop _ data (i + 1)); try discriminate H.
    cbn [bind] in H. injection H as <- _. discriminate Hty. }
  destruct (Byte.eqb c "t"); [exfalso; eapply Hkw; [|exact H]; discriminate|].
  destruct (Byte.eqb c "f"); [exfalso; eapply Hkw; [|exact H]; discriminate|].
  destruct (Byte.eqb c "n"); [exfalso; eapply Hkw; [|exact H]; discriminate|].
  destruct (Byte.eqb c "-" || isDigit c); [|discriminate H].
  destruct (lexNumber data i c) as [j'| | |]; try discriminate H.
  cbn [bind] in H. injection H as <- <-. repeat split.
Qed.

Lemma number_tokens (data : list byte) (tokens : list Token) :
  SimpleTokenize data = Ok tokens -> Forall (numberToken data) tokens.
Proof.
  intros Htok.
  pose proof (SimpleTokenize_invariant data (Forall (numberToken data))) as H.
  rewrite Htok in H. apply H; [|constructor].
  intros toks i c tok j HInv Hi Hc _ Hlex.
  apply Forall_app. split; [exact HInv|]. constructor; [|constructor].
  intros Hty. destruct (lexToken_number data i c tok j Hlex Hty) as (Hnum & Hs & He).
  exists i, j, c. repeat split; try assumption; lia.
Qed.

(** X13.  In a successful tokenization of a buffer shorter than 2^32 bytes
    every number token spans a number of the JSON grammar: an optional
    minus sign, an integer part without a superfluous leading zero, an
    optional fraction and an optional exponent, each with at least one
    digit. *)
Theorem number_tokens_are_json_numbers (data : list byte) (tokens : list Token) :
  len data < 4294967296 ->
  SimpleTokenize data = Ok tokens ->
  Forall (fun t => Type_ t = TokenNumber ->
                   exists s, slice data (Start t) (End_ t) = Ok s /\ jsonNumber s) tokens.
Proof.
  intros Hlen Htok.
  eapply Forall_impl; [|apply (number_tokens data tokens Htok)].
  intros t Hnum Hty. destruct (Hnum Hty) as (i & j & c & Hs & He & Hi & Hc & Hlex).
  destruct (lexNumber_accepts_json_numbers data i j c Hi Hc Hlex) as (Hj & Hjson).
  rewrite Hs, He, !uint32_small by lia.
  exists (segment data i j). split; [|exact Hjson].
  rewrite slice_in_range by lia. reflexivity.
Qed.

Lemma number_tokens_are_json_numbers_witness :
  len (bytes "[-0.5e+3,10]") < 4294967296
  /\ SimpleTokenize (bytes "[-0.5e+3,10]")
     = Ok [mkToken TokenArrayBegin 0 1; mkToken TokenNumber 1 8; mkToken TokenComma 8 9;
           mkToken TokenNumber 9 11; mkToken TokenArrayEnd 11 12]
  /\ Forall (fun t => Type_ t = TokenNumber ->
                      exists s, slice (bytes "[-0.5e+3,10]") (Start t) (End_ t) = Ok s
                                /\ jsonNumber s)
       [mkToken TokenArrayBegin 0 1; mkToken TokenNumber 1 8; mkToken TokenComma 8 9;
        mkToken TokenNumber 9 11; mkToken TokenArrayEnd 11 12].
Proof.
  assert (H1 : len (bytes "[-0.5e+3,10]") < 4294967296) by (vm_compute; reflexivity).
  split; [exact H1|]. split; [reflexivity|].
  exact (number_tokens_are_json_numbers (bytes "[-0.5e+3,10]") _ H1 eq_refl).
Defined.



(** ** UTF-8 as the encoder reads and writes it *)

(** *** Bit operations as arithmetic *)

Lemma testbit_small (b k n : Z) :
  0 <= b < 2 ^ k -> k <= n -> Z.testbit b n = false.
Proof.
  intros Hb Hn.
  destruct (Z.eq_dec b 0) as [->|Hnz]; [apply Z.bits_0|].
  apply Z.bits_above_log2; [lia|].
  assert (Z.log2 b < k); [|lia].
  apply Z.log2_lt_pow2; lia.
Qed.

Lemma lor_shiftl_add (a b k : Z) :
  0 <= a -> 0 <= k -> 0 <= b < 2 ^ k ->
  Z.lor (Z.shiftl a k) b = a * 2 ^ k + b.
Proof.
  intros Ha Hk Hb.
  assert (Hland : Z.land (Z.shiftl a k) b = 0).
  { apply Z.bits_inj'. intros n Hn. rewrite Z.land_spec, Z.bits_0.
    destruct (Z.lt_ge_cases n k) as [Hlt|Hge].
    - rewrite Z.shiftl_spec_low by lia. reflexivity.
    - rewrite (testbit_small b k n) by lia. apply andb_false_r. }
  rewrite <- Z.lxor_lor by exact Hland.
  rewrite <- Z.add_nocarry_lxor by exact Hland.
  rewrite Z.shiftl_mul_pow2 by lia. reflexivity.
Qed.

Lemma lor_const (hi lo k x : Z) :
  hi = lo * 2 ^ k -> 0 <= lo -> 0 <= k -> 0 <= x < 2 ^ k -> Z.lor hi x = hi + x.
Proof.
  intros -> Hlo Hk Hx. rewrite <- Z.shiftl_mul_pow2 by lia.
  rewrite lor_shiftl_add by lia. rewrite Z.shiftl_mul_pow2 by lia. reflexivity.
Qed.

Lemma land_63 (x : Z) : Z.land x 0x3F = x mod 64.
Proof. change 0x3F with (Z.ones 6). rewrite Z.land_ones by lia. reflexivity. Qed.

Lemma byteOfZ_add (c : byte) (k : Z) : byteOfZ (k + (byteZ c - k)) = c.
Proof. replace (k + (byteZ c - k)) with (byteZ c) by lia. apply byteOfZ_byteZ. Qed.

(** The payload bits of a continuation byte and of each kind of lead byte. *)
Lemma payload_bits (c : byte) :
  (isCont c = true -> Z.land (byteZ c) 0x3F = byteZ c - 0x80)
  /\ (inRange 0xC2 0xDF c = true -> Z.land (byteZ c) 0x1F = byteZ c - 0xC0)
  /\ (inRange 0xE0 0xEF c = true -> Z.land (byteZ c) 0x0F = byteZ c - 0xE0)
  /\ (inRange 0xF0 0xF4 c = true -> Z.land (byteZ c) 0x07 = byteZ c - 0xF0).
Proof.
  assert (H : forall c,
             ((negb (isCont c) || (Z.land (byteZ c) 0x3F =? byteZ c - 0x80))
              && (negb (inRange 0xC2 0xDF c) || (Z.land (byteZ c) 0x1F =? byteZ c - 0xC0))
              && (negb (inRange 0xE0 0xEF c) || (Z.land (byteZ c) 0x0F =? byteZ c - 0xE0))
              && (negb (inRange 0xF0 0xF4 c) || (Z.land (byteZ c) 0x07 =? byteZ c - 0xF0)))
             = true)
    by (apply forall_bytes; vm_compute; reflexivity).
  specialize (H c).
  repeat (apply andb_true_iff in H; destruct H as [H ?]).
  repeat split; intros Hc;
    match goal with
    | Hx : (negb ?b || _) = true |- _ =>
        match type of Hc with b = true =>
          rewrite Hc in Hx; cbn [negb orb] in Hx; apply Z.eqb_eq in Hx; exact Hx
        end
    end.
Qed.

Lemma inRange_iff (lo hi : Z) (c : byte) : inRange lo hi c = true <-> lo <= byteZ c <= hi.
Proof. unfold inRange. rewrite andb_true_iff, !Z.leb_le. reflexivity. Qed.

Lemma isCont_iff (c : byte) : isCont c = true <-> 0x80 <= byteZ c <= 0xBF.
Proof. apply inRange_iff. Qed.

Lemma byte_eqb_byteZ (c d : byte) : Byte.eqb c d = (byteZ c =? byteZ d).
Proof.
  destruct (Byte.eqb c d) eqn:E.
  - apply byte_eqb_eq in E. subst. symmetry. apply Z.eqb_refl.
  - symmetry. apply Z.eqb_neq. intros H.
    assert (c = d) by (rewrite <- (byteOfZ_byteZ c), <- (byteOfZ_byteZ d), H; reflexivity).
    subst. assert (Byte.eqb d d = true) by (apply byte_eqb_eq; reflexivity). congruence.
Qed.

(** A continuation byte written back from its payload. *)
Lemma encode_cont (c : byte) (x : Z) :
  isCont c = true -> x = byteZ c - 0x80 -> byteOfZ (Z.lor 0x80 x) = c.
Proof.
  intros Hc ->. apply isCont_iff in Hc.
  rewrite (lor_const 0x80 2 6) by (reflexivity || lia || (change (2 ^ 6) with 64; lia)).
  apply byteOfZ_add.
Qed.

(** *** Two-byte sequences *)

Lemma decode2 (c0 c1 : byte) :
  inRange 0xC2 0xDF c0 = true -> isCont c1 = true ->
  let r := Z.lor (Z.shiftl (Z.land (byteZ c0) 0x1F) 6) (Z.land (byteZ c1) 0x3F) in
  0x80 <= r < 0x800 /\ stringOfRune r = [c0; c1].
Proof.
  intros H0 H1.
  destruct (payload_bits c0) as (_ & P0 & _). destruct (payload_bits c1) as (P1 & _).
  rewrite (P0 H0), (P1 H1).
  apply inRange_iff in H0. pose proof H1 as H1'. apply isCont_iff in H1.
  rewrite lor_shiftl_add by (change (2 ^ 6) with 64; lia).
  change (2 ^ 6) with 64.
  set (r := (byteZ c0 - 0xC0) * 64 + (byteZ c1 - 0x80)). cbv zeta.
  assert (Hr : 0x80 <= r < 0x800) by (unfold r; lia).
  split; [exact Hr|].
  unfold stringOfRune.
  cmp_false (r <? 0). cmp_false (0x10FFFF <? r). cmp_false (0xD800 <=? r).
  cbn [orb andb]. cmp_false (r <? 0x80). cmp_true (r <? 0x800).
  assert (Hq : Z.shiftr r 6 = byteZ c0 - 0xC0).
  { rewrite Z.shiftr_div_pow2 by lia. change (2 ^ 6) with 64. unfold r.
    Z.div_mod_to_equations. lia. }
  assert (Hm : Z.land r 0x3F = byteZ c1 - 0x80).
  { rewrite land_63. unfold r. Z.div_mod_to_equations. lia. }
  rewrite Hq, Hm.
  rewrite (lor_const 0xC0 6 5) by (reflexivity || lia || (change (2 ^ 5) with 32; lia)).
  rewrite byteOfZ_add. rewrite (encode_cont c1) by (assumption || reflexivity).
  reflexivity.
Qed.

(** *** Three-byte sequences *)

Lemma decode3 (c0 c1 c2 : byte) :
  inRange 0xE0 0xEF c0 = true ->
  (if Byte.eqb c0 xe0 then inRange 0xA0 0xBF c1
   else if Byte.eqb c0 xed then inRange 0x80 0x9F c1
   else isCont c1) = true ->
  isCont c2 = true ->
  let r := Z.lor (Z.lor (Z.shiftl (Z.land (byteZ c0) 0x0F) 12)
                        (Z.shiftl (Z.land (byteZ c1) 0x3F) 6))
                 (Z.land (byteZ c2) 0x3F) in
  0x800 <= r < 0x10000 /\ stringOfRune r = [c0; c1; c2].
Proof.
  intros H0 H1 H2.
  assert (H1c : isCont c1 = true
                /\ (byteZ c0 = 0xE0 -> 0xA0 <= byteZ c1)
                /\ (byteZ c0 = 0xED -> byteZ c1 <= 0x9F)).
  { rewrite !byte_eqb_byteZ in H1.
    change (byteZ xe0) with 0xE0 in H1. change (byteZ xed) with 0xED in H1.
    destruct (byteZ c0 =? 0xE0) eqn:Ea.
    - apply Z.eqb_eq in Ea. apply inRange_iff in H1.
      split; [apply isCont_iff; lia|]. split; intros; lia.
    - apply Z.eqb_neq in Ea. destruct (byteZ c0 =? 0xED) eqn:Eb.
      + apply Z.eqb_eq in Eb. apply inRange_iff in H1.
        split; [apply isCont_iff; lia|]. split; intros; lia.
      + apply Z.eqb_neq in Eb. split; [exact H1|]. split; intros; lia. }
  destruct H1c as (H1' & Hlow & Hhigh).
  destruct (payload_bits c0) as (_ & _ & P0 & _).
  destruct (payload_bits c1) as (P1 & _). destruct (payload_bits c2) as (P2 & _).
  rewrite (P0 H0), (P1 H1'), (P2 H2).
  apply inRange_iff in H0.
  pose proof H1' as H1z. apply isCont_iff in H1z.
  pose proof H2 as H2z. apply isCont_iff in H2z.
  rewrite (Z.shiftl_mul_pow2 (byteZ c1 - 0x80) 6) by lia. change (2 ^ 6) with 64.
  rewrite lor_shiftl_add by (change (2 ^ 12) with 4096; lia).
  change (2 ^ 12) with 4096.
  rewrite (lor_const _ ((byteZ c0 - 0xE0) * 64 + (byteZ c1 - 0x80)) 6)
    by (change (2 ^ 6) with 64; lia).
  set (r := (byteZ c0 - 0xE0) * 4096 + (byteZ c1 - 0x80) * 64 + (byteZ c2 - 0x80)).
  cbv zeta.
  assert (Hr : 0x800 <= r < 0x10000).
  { unfold r. destruct (Z.eq_dec (byteZ c0) 0xE0) as [E|E]; [specialize (Hlow E)|]; lia. }
  assert (Hs : r < 0xD800 \/ 0xDFFF < r).
  { unfold r. destruct (Z.eq_dec (byteZ c0) 0xED) as [E|E]; [specialize (Hhigh E)|]; lia. }
  split; [exact Hr|].
  unfold stringOfRune.
  cmp_false (r <? 0). cmp_false (0x10FFFF <? r).
  replace ((0xD800 <=? r) && (r <=? 0xDFFF)) with false
    by (symmetry; apply andb_false_iff; rewrite Z.leb_gt, Z.leb_gt; lia).
  cbn [orb]. cmp_false (r <? 0x80). cmp_false (r <? 0x800). cmp_true (r <? 0x10000).
  assert (Hq : Z.shiftr r 12 = byteZ c0 - 0xE0).
  { rewrite Z.shiftr_div_pow2 by lia. change (2 ^ 12) with 4096. unfold r.
    Z.div_mod_to_equations. lia. }
  assert (Hm1 : Z.land (Z.shiftr r 6) 0x3F = byteZ c1 - 0x80).
  { rewrite land_63, Z.shiftr_div_pow2 by lia. change (2 ^ 6) with 64. unfold r.
    Z.div_mod_to_equations. lia. }
  assert (Hm2 : Z.land r 0x3F = byteZ c2 - 0x80).
  { rewrite land_63. unfold r. Z.div_mod_to_equations. lia. }
  rewrite Hq, Hm1, Hm2.
  rewrite (lor_const 0xE0 14 4) by (reflexivity || lia || (change (2 ^ 4) with 16; lia)).
  rewrite byteOfZ_add.
  rewrite (encode_cont c1), (encode_cont c2) by (assumption || reflexivity).
  reflexivity.
Qed.

(** *** Four-byte sequences *)

Lemma decode4 (c0 c1 c2 c3 : byte) :
  inRange 0xF0 0xF4 c0 = true ->
  (if Byte.eqb c0 xf0 then inRange 0x90 0xBF c1
   else if Byte.eqb c0 xf4 then inRange 0x80 0x8F c1
   else isCont c1) = true ->
  isCont c2 = true -> isCont c3 = true ->
  let r := Z.lor (Z.lor (Z.lor (Z.shiftl (Z.land (byteZ c0) 0x07) 18)
                               (Z.shiftl (Z.land (byteZ c1) 0x3F) 12))
                        (Z.shiftl (Z.land (byteZ c2) 0x3F) 6))
                 (Z.land (byteZ c3) 0x3F) in
  0x10000 <= r <= 0x10FFFF /\ stringOfRune r = [c0; c1; c2; c3].
Proof.
  intros H0 H1 H2 H3.
  assert (H1c : isCont c1 = true
                /\ (byteZ c0 = 0xF0 -> 0x90 <= byteZ c1)
                /\ (byteZ c0 = 0xF4 -> byteZ c1 <= 0x8F)).
  { rewrite !byte_eqb_byteZ in H1.
    change (byteZ xf0) with 0xF0 in H1. change (byteZ xf4) with 0xF4 in H1.
    destruct (byteZ c0 =? 0xF0) eqn:Ea.
    - apply Z.eqb_eq in Ea. apply inRange_iff in H1.
      split; [apply isCont_iff; lia|]. split; intros; lia.
    - apply Z.eqb_neq in Ea. destruct (byteZ c0 =? 0xF4) eqn:Eb.
      + apply Z.eqb_eq in Eb. apply inRange_iff in H1.
        split; [apply isCont_iff; lia|]. split; intros; lia.
      + apply Z.eqb_neq in Eb. split; [exact H1|]. split; intros; lia. }
  destruct H1c as (H1' & Hlow & Hhigh).
  destruct (payload_bits c0) as (_ & _ & _ & P0).
  destruct (payload_bits c1) as (P1 & _). destruct (payload_bits c2) as (P2 & _).
  destruct (payload_bits c3) as (P3 & _).
  rewrite (P0 H0), (P1 H1'), (P2 H2), (P3 H3).
  apply inRange_iff in H0.
  pose proof H1' as H1z. apply isCont_iff in H1z.
  pose proof H2 as H2z. apply isCont_iff in H2z.
  pose proof H3 as H3z. apply isCont_iff in H3z.
  rewrite (Z.shiftl_mul_pow2 (byteZ c1 - 0x80) 12) by lia. change (2 ^ 12) with 4096.
  rewrite (Z.shiftl_mul_pow2 (byteZ c2 - 0x80) 6) by lia. change (2 ^ 6) with 64.
  rewrite lor_shiftl_add by (change (2 ^ 18) with 262144; lia).
  change (2 ^ 18) with 262144.
  rewrite (lor_const ((byteZ c0 - 0xF0) * 262144 + (byteZ c1 - 0x80) * 4096)
             ((byteZ c0 - 0xF0) * 64 + (byteZ c1 - 0x80)) 12 ((byteZ c2 - 0x80) * 64))
    by (change (2 ^ 12) with 4096; lia).
  rewrite (lor_const _ (((byteZ c0 - 0xF0) * 64 + (byteZ c1 - 0x80)) * 64
                        + (byteZ c2 - 0x80)) 6 (byteZ c3 - 0x80))
    by (change (2 ^ 6) with 64; lia).
  set (r := (byteZ c0 - 0xF0) * 262144 + (byteZ c1 - 0x80) * 4096
            + (byteZ c2 - 0x80) * 64 + (byteZ c3 - 0x80)).
  cbv zeta.
  assert (Hr : 0x10000 <= r <= 0x10FFFF).
  { unfold r.
    destruct (Z.eq_dec (byteZ c0) 0xF0) as [E|E]; [specialize (Hlow E)|];
      destruct (Z.eq_dec (byteZ c0) 0xF4) as [E'|E']; try specialize (Hhigh E'); lia. }
  split; [exact Hr|].
  unfold stringOfRune.
  cmp_false (r <? 0). cmp_false (0x10FFFF <? r). cmp_false (r <=? 0xDFFF).
  rewrite andb_false_r.
  cbn [orb]. cmp_false (r <? 0x80). cmp_false (r <? 0x800). cmp_false (r <? 0x10000).
  assert (Hq : Z.shiftr r 18 = byteZ c0 - 0xF0).
  { rewrite Z.shiftr_div_pow2 by lia. change (2 ^ 18) with 262144. unfold r.
    Z.div_mod_to_equations. lia. }
  assert (Hm1 : Z.land (Z.shiftr r 12) 0x3F = byteZ c1 - 0x80).
  { rewrite land_63, Z.shiftr_div_pow2 by lia. change (2 ^ 12) with 4096. unfold r.
    Z.div_mod_to_equations. lia. }
  assert (Hm2 : Z.land (Z.shiftr r 6) 0x3F = byteZ c2 - 0x80).
  { rewrite land_63, Z.shiftr_div_pow2 by lia. change (2 ^ 6) with 64. unfold r.
    Z.div_mod_to_equations. lia. }
  assert (Hm3 : Z.land r 0x3F = byteZ c3 - 0x80).
  { rewrite land_63. unfold r. Z.div_mod_to_equations. lia. }
  rewrite Hq, Hm1, Hm2, Hm3.
  rewrite (lor_const 0xF0 30 3) by (reflexivity || lia || (change (2 ^ 3) with 8; lia)).
  rewrite byteOfZ_add.
  rewrite (encode_cont c1), (encode_cont c2), (encode_cont c3) by (assumption || reflexivity).
  reflexivity.
Qed.

(** *** One step of a range loop *)

(** The rune at the head of a string is an ASCII byte, or U+FFFD for one
    byte that begins no well-formed sequence, or the scalar value of a
    well-formed multi-byte sequence, which [string(r)] writes back. *)
Lemma decodeRune_spec (c0 : byte) (rest : list byte) :
  exists r w,
    decodeRune (c0 :: rest) = (r, Z.of_nat w)
    /\ (1 <= w <= List.length (c0 :: rest))%nat
    /\ ((w = 1%nat /\ byteZ c0 < 0x80 /\ r = byteZ c0)
        \/ (w = 1%nat /\ 0x80 <= byteZ c0 /\ r = RuneError)
        \/ (0x80 <= r <= 0x10FFFF
            /\ stringOfRune r = firstn w (c0 :: rest)
            /\ Forall (fun c => 0x80 <= byteZ c) (firstn w (c0 :: rest)))).
Proof.
  assert (Hbad : 0x80 <= byteZ c0 ->
                 exists r w,
                   (RuneError, 1) = (r, Z.of_nat w)
                   /\ (1 <= w <= List.length (c0 :: rest))%nat
                   /\ ((w = 1%nat /\ byteZ c0 < 0x80 /\ r = byteZ c0)
                       \/ (w = 1%nat /\ 0x80 <= byteZ c0 /\ r = RuneError)
                       \/ (0x80 <= r <= 0x10FFFF
                           /\ stringOfRune r = firstn w (c0 :: rest)
                           /\ Forall (fun c => 0x80 <= byteZ c) (firstn w (c0 :: rest))))).
  { intros H. exists RuneError, 1%nat. split; [reflexivity|].
    split; [cbn [List.length]; lia|]. right. left. auto. }
  unfold decodeRune.
  destruct (byteZ c0 <? 0x80) eqn:E0.
  { apply Z.ltb_lt in E0. exists (byteZ c0), 1%nat. split; [reflexivity|].
    split; [cbn [List.length]; lia|]. left. auto. }
  apply Z.ltb_ge in E0.
  destruct (inRange 0xC2 0xDF c0) eqn:E2.
  { destruct rest as [|c1 rest]; [apply Hbad; exact E0|].
    destruct (isCont c1) eqn:E1; [|apply Hbad; exact E0].
    destruct (decode2 c0 c1 E2 E1) as (Hr & Hs).
    eexists _, 2%nat. split; [reflexivity|]. split; [cbn [List.length]; lia|].
    right. right. split; [lia|]. split; [exact Hs|].
    apply isCont_iff in E1. cbn [firstn]. repeat constructor; lia. }
  destruct (inRange 0xE0 0xEF c0) eqn:E3.
  { destruct rest as [|c1 [|c2 rest]]; try (apply Hbad; exact E0).
    destruct ((if Byte.eqb c0 xe0 then inRange 0xA0 0xBF c1
               else if Byte.eqb c0 xed then inRange 0x80 0x9F c1 else isCont c1)) eqn:E1;
      [|apply Hbad; exact E0].
    destruct (isCont c2) eqn:Ec2; [|apply Hbad; exact E0]. cbn [andb].
    destruct (decode3 c0 c1 c2 E3 E1 Ec2) as (Hr & Hs).
    eexists _, 3%nat. split; [reflexivity|]. split; [cbn [List.length]; lia|].
    right. right. split; [lia|]. split; [exact Hs|].
    assert (H1 : 0x80 <= byteZ c1).
    { destruct (Byte.eqb c0 xe0); [apply inRange_iff in E1; lia|].
      destruct (Byte.eqb c0 xed); [apply inRange_iff in E1; lia|].
      apply isCont_iff in E1; lia. }
    apply isCont_iff in Ec2. cbn [firstn]. repeat constructor; lia. }
  destruct (inRange 0xF0 0xF4 c0) eqn:E4; [|apply Hbad; exact E0].
  destruct rest as [|c1 [|c2 [|c3 rest]]]; try (apply Hbad; exact E0).
  destruct ((if Byte.eqb c0 xf0 then inRange 0x90 0xBF c1
             else if Byte.eqb c0 xf4 then inRange 0x80 0x8F c1 else isCont c1)) eqn:E1;
    [|apply Hbad; exact E0].
  destruct (isCont c2) eqn:Ec2; [|apply Hbad; exact E0].
  destruct (isCont c3) eqn:Ec3; [|apply Hbad; exact E0]. cbn [andb].
  destruct (decode4 c0 c1 c2 c3 E4 E1 Ec2 Ec3) as (Hr & Hs).
  eexists _, 4%nat. split; [reflexivity|]. split; [cbn [List.length]; lia|].
  right. right. split; [lia|]. split; [exact Hs|].
  assert (H1 : 0x80 <= byteZ c1).
  { destruct (Byte.eqb c0 xf0); [apply inRange_iff in E1; lia|].
    destruct (Byte.eqb c0 xf4); [apply inRange_iff in E1; lia|].
    apply isCont_iff in E1; lia. }
  apply isCont_iff in Ec2. apply isCont_iff in Ec3. cbn [firstn]. repeat constructor; lia.
Qed.

(** The loop's pairs, one step unfolded. *)
Lemma rangeFrom_cons (fuel : nat) (c0 : byte) (rest : list byte) (i : Z) :
  rangeFrom (S fuel) (c0 :: rest) i
  = (i, fst (decodeRune (c0 :: rest)))
      :: rangeFrom fuel (skipn (Z.to_nat (snd (decodeRune (c0 :: rest)))) (c0 :: rest))
                   (i + snd (decodeRune (c0 :: rest))).
Proof. cbn [rangeFrom]. destruct (decodeRune (c0 :: rest)). reflexivity. Qed.

(** *** Tests on runes that only ASCII runes can pass *)

Section AsciiTests.

Variable p : Z -> bool.
Hypothesis p_high : forall r, 0x80 <= r -> p r = false.

Lemma existsb_range (fuel : nat) :
  forall (s : list byte) (i : Z),
    (List.length s <= fuel)%nat ->
    existsb (fun x => p (snd x)) (rangeFrom fuel s i)
    = existsb (fun c => p (byteZ c)) s.
Proof.
  induction fuel as [|fuel IH]; intros s i Hf.
  - destruct s; [reflexivity | simpl in Hf; lia].
  - destruct s as [|c0 rest]; [reflexivity|].
    rewrite rangeFrom_cons.
    destruct (decodeRune_spec c0 rest) as (r & w & Hd & Hw & Hcase).
    rewrite Hd. cbn [fst snd existsb]. rewrite Nat2Z.id.
    rewrite IH by (rewrite length_skipn; lia).
    destruct Hcase as [(-> & _ & ->)|[(-> & Hc & ->)|(Hr & _ & Hall)]].
    + reflexivity.
    + rewrite !p_high by (unfold RuneError; lia). reflexivity.
    + rewrite p_high by lia. cbn [orb].
      change (p (byteZ c0) || existsb (fun c => p (byteZ c)) rest)
        with (existsb (fun c => p (byteZ c)) (c0 :: rest)).
      rewrite <- (firstn_skipn w (c0 :: rest)) at 2.
      rewrite existsb_app.
      replace (existsb (fun c => p (byteZ c)) (firstn w (c0 :: rest))) with false;
        [reflexivity|].
      symmetry. apply not_true_is_false. intros H. apply existsb_exists in H.
      destruct H as (c & Hin & Hp). rewrite Forall_forall in Hall.
      rewrite p_high in Hp by (apply Hall; exact Hin). discriminate.
Qed.

End AsciiTests.

Lemma existsb_pointwise {A} (f g : A -> bool) (l : list A) :
  (forall x, f x = g x) -> existsb f l = existsb g l.
Proof. intros H. induction l as [|a l IH]; [reflexivity|]. cbn [existsb]. rewrite H, IH. reflexivity. Qed.

Lemma needsEscape_bytes (s : list byte) :
  needsEscape s
  = existsb (fun c => (byteZ c <? 0x20) || Byte.eqb c quote || Byte.eqb c backslash) s.
Proof.
  unfold needsEscape, rangeString.
  rewrite (existsb_range (fun r => (r <? 0x20) || (r =? 0x22) || (r =? 0x5C))).
  - apply existsb_pointwise. intros c. rewrite !byte_eqb_byteZ. reflexivity.
  - intros r Hr. cmp_false (r <? 0x20). cmp_false (r =? 0x22). cmp_false (r =? 0x5C).
    reflexivity.
  - lia.
Qed.

Lemma containsFloatChars_bytes (s : list byte) :
  containsFloatChars s = containsFloatCharsBytes s.
Proof.
  unfold containsFloatChars, containsFloatCharsBytes, rangeString.
  rewrite (existsb_range (fun r => (r =? 0x2E) || (r =? 0x65) || (r =? 0x45))).
  - apply existsb_pointwise. intros c. rewrite !byte_eqb_byteZ. reflexivity.
  - intros r Hr. cmp_false (r =? 0x2E). cmp_false (r =? 0x65). cmp_false (r =? 0x45).
    reflexivity.
  - lia.
Qed.

(** X15.  [needsEscape] ranges over the runes of its argument, but it
    answers as a test on the bytes would, on every string, ill-formed
    UTF-8 included: a string needs escaping exactly when it holds a
    control byte, a quote or a backslash.  The same holds of
    [containsFloatChars] and its sibling on byte slices. *)
Theorem needsEscape_bytewise (s : list byte) :
  needsEscape s
  = existsb (fun c => (byteZ c <? 0x20) || Byte.eqb c quote || Byte.eqb c backslash) s
  /\ containsFloatChars s = containsFloatCharsBytes s.
Proof.
  split.
  - apply needsEscape_bytes.
  - apply containsFloatChars_bytes.
Qed.

(** *** The first comma of a struct tag *)

Lemma find_comma (fuel : nat) :
  forall (s : list byte) (i : Z),
    (List.length s <= fuel)%nat ->
    match find (fun x => snd x =? 0x2C) (rangeFrom fuel s i) with
    | Some (j, _) =>
        exists pre rest, s = pre ++ ","%byte :: rest /\ ~ In ","%byte pre /\ j = i + len pre
    | None => ~ In ","%byte s
    end.
Proof.
  induction fuel as [|fuel IH]; intros s i Hf.
  - destruct s; [intros [] | simpl in Hf; lia].
  - destruct s as [|c0 rest]; [intros []|].
    rewrite rangeFrom_cons.
    destruct (decodeRune_spec c0 rest) as (r & w & Hd & Hw & Hcase).
    rewrite Hd. cbn [fst snd find]. rewrite Nat2Z.id.
    specialize (IH (skipn w (c0 :: rest)) (i + Z.of_nat w)
                   ltac:(rewrite length_skipn; lia)).
    assert (Hskip : Forall (fun c => c <> ","%byte) (firstn w (c0 :: rest)) ->
                    match find (fun x => snd x =? 0x2C)
                               (rangeFrom fuel (skipn w (c0 :: rest)) (i + Z.of_nat w)) with
                    | Some (j, _) =>
                        exists pre rest0,
                          c0 :: rest = pre ++ ","%byte :: rest0
                          /\ ~ In ","%byte pre /\ j = i + len pre
                    | None => ~ In ","%byte (c0 :: rest)
                    end).
    { intros Hall. rewrite Forall_forall in Hall.
      destruct (find _ _) as [[j r']|].
      - destruct IH as (pre & rest0 & Heq & Hn & Hj).
        exists (firstn w (c0 :: rest) ++ pre), rest0.
        split; [rewrite <- app_assoc, <- Heq, firstn_skipn; reflexivity|].
        split.
        + intros Hin. apply in_app_or in Hin. destruct Hin as [Hin|Hin];
            [exact (Hall _ Hin eq_refl) | exact (Hn Hin)].
        + rewrite len_app. unfold len at 1. rewrite length_firstn. lia.
      - intros Hin. rewrite <- (firstn_skipn w (c0 :: rest)) in Hin.
        apply in_app_or in Hin. destruct Hin as [Hin|Hin];
          [exact (Hall _ Hin eq_refl) | exact (IH Hin)]. }
    destruct Hcase as [(-> & Hc & ->)|[(-> & Hc & ->)|(Hr & _ & Hall)]].
    + destruct (byteZ c0 =? 0x2C) eqn:E.
      * exists [], rest. split; [|split; [intros []|rewrite len_nil; lia]].
        apply Z.eqb_eq in E.
        assert (c0 = ","%byte)
          by (rewrite <- (byteOfZ_byteZ c0), E; reflexivity).
        subst. reflexivity.
      * apply Hskip. cbn [firstn]. constructor; [|constructor].
        intros ->. apply Z.eqb_neq in E. apply E. reflexivity.
    + change (RuneError =? 0x2C) with false. cbv iota.
      apply Hskip. cbn [firstn]. constructor; [|constructor].
      intros ->. change (byteZ ",") with 0x2C in Hc. lia.
    + cmp_false (r =? 0x2C). cbv iota.
      apply Hskip.
      eapply Forall_impl; [|exact Hall]. intros c Hge ->.
      change (byteZ ",") with 0x2C in Hge. lia.
Qed.

(** X16.  [findComma] returns the offset of the first comma byte of its
    argument, and -1 when there is none, on every string; multi-byte
    runes and ill-formed bytes before the comma count with their width. *)
Theorem findComma_first (s : list byte) :
  (findComma s = -1 /\ ~ In ","%byte s)
  \/ (exists pre rest,
        s = pre ++ ","%byte :: rest /\ ~ In ","%byte pre /\ findComma s = len pre).
Proof.
  unfold findComma, rangeString.
  pose proof (find_comma (List.length s) s 0 (Nat.le_refl _)) as H.
  destruct (find _ _) as [[j r]|].
  - right. destruct H as (pre & rest & Heq & Hn & Hj).
    exists pre, rest. split; [exact Heq|]. split; [exact Hn|lia].
  - left. split; [reflexivity | exact H].
Qed.

(** ** Strings: what the encoder writes and what the parser reads *)

Lemma byteZ_byteOfZ (z : Z) : 0 <= z < 256 -> byteZ (byteOfZ z) = z.
Proof.
  intros Hz.
  assert (H : forallb (fun n => byteZ (byteOfZ (Z.of_nat n)) =? Z.of_nat n) (seq 0 256) = true)
    by (vm_compute; reflexivity).
  rewrite forallb_forall in H.
  specialize (H (Z.to_nat z) ltac:(apply in_seq; lia)).
  apply Z.eqb_eq in H. rewrite Z2Nat.id in H by lia. exact H.
Qed.

(** A property of the numbers below [n], decided by enumeration. *)
Lemma below_by_enumeration (n : nat) (P : Z -> bool) :
  forallb (fun k => P (Z.of_nat k)) (seq 0 n) = true ->
  forall z, 0 <= z < Z.of_nat n -> P z = true.
Proof.
  intros H z Hz. rewrite forallb_forall in H.
  specialize (H (Z.to_nat z) ltac:(apply in_seq; lia)).
  rewrite Z2Nat.id in H by lia. exact H.
Qed.

(** *** The escape of one rune *)

Lemma overwrite_tail (dst tail hex : list byte) :
  (List.length hex <= List.length tail)%nat ->
  (target <- slice (dst ++ tail) (len (dst ++ tail) - len hex) (len (dst ++ tail)) ;;
   Ok (firstn (Z.to_nat (len (dst ++ tail) - len hex)) (dst ++ tail) ++ copyBytes target hex))
  = Ok (dst ++ firstn (List.length tail - List.length hex) tail ++ hex).
Proof.
  intros Hle.
  pose proof (len_nonneg dst). pose proof (len_nonneg tail). pose proof (len_nonneg hex).
  assert (Hl : len hex <= len tail) by (unfold len; lia).
  rewrite slice_in_range by (rewrite len_app; lia).
  cbn [bind]. rewrite len_app.
  replace (Z.to_nat (len dst + len tail - len hex))
    with (List.length dst + (List.length tail - List.length hex))%nat by (unfold len; lia).
  replace (Z.to_nat (len dst + len tail - (len dst + len tail - len hex)))
    with (List.length hex) by (unfold len; lia).
  rewrite firstn_app_2, skipn_app.
  replace (List.length dst + (List.length tail - List.length hex) - List.length dst)%nat
    with (List.length tail - List.length hex)%nat by lia.
  rewrite skipn_all2 by lia. cbn [app].
  unfold copyBytes.
  assert (Hk : List.length (firstn (List.length hex)
                              (skipn (List.length tail - List.length hex) tail))
               = List.length hex).
  { rewrite length_firstn, length_skipn. lia. }
  rewrite Hk, firstn_all, skipn_all2 by lia.
  rewrite app_nil_r, <- app_assoc. reflexivity.
Qed.

Lemma hex_of_control (r : Z) :
  0 <= r < 0x20 -> (List.length (FormatInt (int64 r) 16) <= 4)%nat /\ int64 r = r.
Proof.
  intros Hr.
  pose proof (below_by_enumeration 32
                (fun r => (Nat.leb (List.length (FormatInt (int64 r) 16)) 4)
                          && (int64 r =? r))
                ltac:(vm_compute; reflexivity) r Hr) as H.
  cbv beta in H. apply andb_true_iff in H. destruct H as [H1 H2].
  split; [apply Nat.leb_le; exact H1 | apply Z.eqb_eq; exact H2].
Qed.

(** [appendRune] appends the escape of the rune. *)
Lemma appendRune_unit (dst : list byte) (r : Z) :
  0 <= r -> appendRune dst r = Ok (dst ++ escapeUnit r).
Proof.
  intros Hr. unfold appendRune, escapeUnit.
  repeat match goal with
         | |- (if ?b then _ else _) = Ok (_ ++ (if ?b then _ else _)) =>
             destruct b eqn:?; [reflexivity|]
         end.
  destruct (r <? 0x20) eqn:E; [|reflexivity].
  apply Z.ltb_lt in E.
  destruct (hex_of_control r ltac:(lia)) as (Hlen & Hint). rewrite Hint in *.
  rewrite <- (app_assoc dst [backslash; "u"%byte] (bytes "0000")).
  rewrite overwrite_tail by (cbn [app List.length bytes]; simpl; lia).
  do 2 f_equal.
  change ([backslash; "u"%byte] ++ bytes "0000")
    with (backslash :: "u"%byte :: bytes "0000").
  change (List.length (backslash :: "u"%byte :: bytes "0000")) with 6%nat.
  replace (6 - List.length (FormatInt r 16))%nat
    with (S (S (4 - List.length (FormatInt r 16)))) by lia.
  reflexivity.
Qed.

Lemma escapeUnit_high (r : Z) : 0x80 <= r -> escapeUnit r = stringOfRune r.
Proof.
  intros Hr. unfold escapeUnit.
  cmp_false (r =? 0x22). cmp_false (r =? 0x5C). cmp_false (r =? 0x08).
  cmp_false (r =? 0x0C). cmp_false (r =? 0x0A). cmp_false (r =? 0x0D).
  cmp_false (r =? 0x09). cmp_false (r <? 0x20). reflexivity.
Qed.

Lemma ascii_enumerated (r : Z) :
  0 <= r < 0x80 -> In r (map Z.of_nat (seq 0 128)).
Proof.
  intros Hr. apply in_map_iff. exists (Z.to_nat r). split; [lia | apply in_seq; lia].
Qed.

Lemma unescapeList_plain (l rest : list byte) :
  Forall (fun c => c <> backslash) l ->
  unescapeList (l ++ rest) = (x <- unescapeList rest ;; Ok (l ++ x)).
Proof.
  induction 1 as [|c l Hc _ IH]; cbn [app].
  - destruct (unescapeList rest); reflexivity.
  - cbn [unescapeList].
    assert (E : Byte.eqb c backslash = false).
    { destruct (Byte.eqb c backslash) eqn:E; [|reflexivity].
      apply byte_eqb_eq in E. contradiction. }
    rewrite E. cbn [negb]. rewrite IH.
    destruct (unescapeList rest); reflexivity.
Qed.

Lemma body_plain_run (l rest : list byte) :
  Forall (fun c => 0x20 <= byteZ c /\ c <> quote /\ c <> backslash) l ->
  jsonStringBody rest -> jsonStringBody (l ++ rest).
Proof.
  intros Hl Hrest. induction Hl as [|c l (H1 & H2 & H3) _ IH]; [exact Hrest|].
  cbn [app]. apply body_plain; assumption.
Qed.

Lemma high_is_plain (l : list byte) :
  Forall (fun c => 0x80 <= byteZ c) l ->
  Forall (fun c => 0x20 <= byteZ c /\ c <> quote /\ c <> backslash) l.
Proof.
  apply Forall_impl. intros c Hc. split; [lia|].
  split; intros ->; vm_compute in Hc; apply Hc; reflexivity.
Qed.

(** The escape of a rune reads back as the rune's encoding. *)
Lemma unescape_unit (r : Z) (rest : list byte) :
  rangedRune r ->
  unescapeList (escapeUnit r ++ rest)
  = (x <- unescapeList rest ;; Ok (stringOfRune r ++ x)).
Proof.
  intros [Hr|[Hr Hhigh]].
  - pose proof (ascii_enumerated r Hr) as Hin. vm_compute in Hin.
    repeat (destruct Hin as [<-|Hin]; [reflexivity|]). destruct Hin.
  - rewrite escapeUnit_high by lia.
    apply unescapeList_plain.
    eapply Forall_impl; [|apply high_is_plain; exact Hhigh]. intros c H. apply H.
Qed.

(** The escape of a rune is a piece of a JSON string. *)
Lemma body_unit (r : Z) (rest : list byte) :
  rangedRune r -> jsonStringBody rest -> jsonStringBody (escapeUnit r ++ rest).
Proof.
  intros [Hr|[Hr Hhigh]] Hrest.
  - pose proof (ascii_enumerated r Hr) as Hin. vm_compute in Hin.
    repeat (destruct Hin as [<-|Hin];
            [match goal with
             | |- jsonStringBody (escapeUnit ?k ++ _) =>
                 let u := eval vm_compute in (escapeUnit k) in
                 change (escapeUnit k) with u; cbn [app]
             end;
             first [ apply body_escape; [cbn [In]; tauto | exact Hrest]
                   | apply body_unicode; [reflexivity | reflexivity | reflexivity
                                          | reflexivity | exact Hrest]
                   | apply body_plain;
                     [vm_compute; discriminate | discriminate | discriminate | exact Hrest] ]
            |]).
    destruct Hin.
  - rewrite escapeUnit_high by lia.
    apply body_plain_run; [apply high_is_plain; exact Hhigh | exact Hrest].
Qed.

Lemma body_of_units (rs : list Z) :
  Forall rangedRune rs ->
  jsonStringBody (List.concat (map escapeUnit rs))
  /\ unescapeList (List.concat (map escapeUnit rs))
     = Ok (List.concat (map stringOfRune rs)).
Proof.
  induction 1 as [|r rs Hr _ [IH1 IH2]]; cbn [map List.concat].
  - split; [constructor | reflexivity].
  - split; [apply body_unit; assumption|].
    rewrite unescape_unit by exact Hr. rewrite IH2. reflexivity.
Qed.

(** *** The runes of a string *)

Lemma ranged_runes (fuel : nat) :
  forall (s : list byte) (i : Z),
    (List.length s <= fuel)%nat ->
    Forall rangedRune (map snd (rangeFrom fuel s i)).
Proof.
  induction fuel as [|fuel IH]; intros s i Hf; [constructor|].
  destruct s as [|c0 rest]; [constructor|].
  rewrite rangeFrom_cons.
  destruct (decodeRune_spec c0 rest) as (r & w & Hd & Hw & Hcase).
  rewrite Hd. cbn [fst snd map]. rewrite Nat2Z.id.
  constructor; [|apply IH; rewrite length_skipn; lia].
  pose proof (byteZ_range c0).
  destruct Hcase as [(_ & Hc & ->)|[(_ & _ & ->)|(Hr & Hs & Hall)]].
  - left. lia.
  - right. split; [unfold RuneError; lia|]. vm_compute. repeat constructor; discriminate.
  - right. split; [exact Hr|]. rewrite Hs. exact Hall.
Qed.

Lemma rangedRune_nonneg (r : Z) : rangedRune r -> 0 <= r.
Proof. intros [H|[H _]]; lia. Qed.

Lemma appendRunes_units (runes : list (Z * Z)) :
  Forall rangedRune (map snd runes) ->
  forall dst,
    appendRunes runes dst = Ok (dst ++ List.concat (map escapeUnit (map snd runes))).
Proof.
  induction runes as [|[i r] runes IH]; intros Hall dst; cbn [appendRunes map List.concat].
  - rewrite app_nil_r. reflexivity.
  - inversion Hall as [|? ? Hr Hrest]; subst. cbn [snd] in Hr.
    rewrite appendRune_unit by (apply rangedRune_nonneg; exact Hr).
    cbn [bind]. rewrite IH by exact Hrest. rewrite <- app_assoc. reflexivity.
Qed.

(** On well-formed UTF-8 a range step consumes a whole sequence. *)
Lemma wellFormed_step (c0 : byte) (rest : list byte) :
  utf8WellFormed (c0 :: rest) = true ->
  forall r w,
    decodeRune (c0 :: rest) = (r, Z.of_nat w) ->
    (byteZ c0 < 0x80 \/ (2 <= w)%nat)
    /\ utf8WellFormed (skipn w (c0 :: rest)) = true.
Proof.
  cbn [utf8WellFormed]. unfold decodeRune.
  destruct (byteZ c0 <? 0x80) eqn:E0.
  { intros H r w Hd. injection Hd as _ Hw.
    replace w with 1%nat by lia. split; [left; apply Z.ltb_lt; exact E0 | exact H]. }
  destruct (inRange 0xC2 0xDF c0).
  { destruct rest as [|c1 rest]; [discriminate|].
    intros H r w Hd. apply andb_true_iff in H. destruct H as [H1 H2].
    rewrite H1 in Hd. injection Hd as _ Hw.
    replace w with 2%nat by lia. split; [right; lia | exact H2]. }
  destruct (inRange 0xE0 0xEF c0).
  { destruct rest as [|c1 [|c2 rest]]; try discriminate.
    intros H r w Hd. apply andb_true_iff in H. destruct H as [H1 H2].
    rewrite H1 in Hd. injection Hd as _ Hw.
    replace w with 3%nat by lia. split; [right; lia | exact H2]. }
  destruct (inRange 0xF0 0xF4 c0); [|discriminate].
  destruct rest as [|c1 [|c2 [|c3 rest]]]; try discriminate.
  intros H r w Hd. apply andb_true_iff in H. destruct H as [H1 H2].
  rewrite H1 in Hd. injection Hd as _ Hw.
  replace w with 4%nat by lia. split; [right; lia | exact H2].
Qed.

Lemma wellFormed_written (fuel : nat) :
  forall (s : list byte) (i : Z),
    (List.length s <= fuel)%nat ->
    utf8WellFormed s = true ->
    List.concat (map (fun x => stringOfRune (snd x)) (rangeFrom fuel s i)) = s.
Proof.
  induction fuel as [|fuel IH]; intros s i Hf Hwf.
  - destruct s; [reflexivity | simpl in Hf; lia].
  - destruct s as [|c0 rest]; [reflexivity|].
    rewrite rangeFrom_cons.
    destruct (decodeRune_spec c0 rest) as (r & w & Hd & Hw & Hcase).
    destruct (wellFormed_step c0 rest Hwf r w Hd) as (Hok & Hwf').
    rewrite Hd. cbn [fst snd map List.concat]. rewrite Nat2Z.id.
    rewrite IH by (rewrite ?length_skipn; lia || exact Hwf').
    pose proof (byteZ_range c0).
    destruct Hcase as [(-> & Hc & ->)|[(-> & Hc & ->)|(Hr & Hs & Hall)]].
    + unfold stringOfRune.
      cmp_false (byteZ c0 <? 0). cmp_false (0x10FFFF <? byteZ c0).
      cmp_false (0xD800 <=? byteZ c0). cbn [orb andb].
      cmp_true (byteZ c0 <? 0x80). rewrite byteOfZ_byteZ. reflexivity.
    + exfalso. destruct Hok; lia.
    + rewrite Hs. apply firstn_skipn.
Qed.

(** What [appendEscapedString] appends: a piece of a JSON string, which
    reads back as the runes of the argument. *)
Lemma appendEscapedString_spec (dst s : list byte) :
  exists body,
    appendEscapedString dst s = Ok (dst ++ body)
    /\ jsonStringBody body
    /\ unescapeList body = Ok (runesWritten s).
Proof.
  unfold appendEscapedString, runesWritten, rangeString.
  pose proof (ranged_runes (List.length s) s 0 (Nat.le_refl _)) as Hall.
  exists (List.concat (map escapeUnit (map snd (rangeFrom (List.length s) s 0)))).
  split; [apply appendRunes_units; exact Hall|].
  destruct (body_of_units _ Hall) as [H1 H2].
  split; [exact H1|]. rewrite H2, map_map. reflexivity.
Qed.

(** What [encodeString] appends between the quotes. *)
Lemma encodeString_body (buf s : list byte) :
  exists body,
    encodeString buf s = Ok (buf ++ quote :: body ++ [quote])
    /\ jsonStringBody body
    /\ unescapeList body = Ok (if needsEscape s then runesWritten s else s).
Proof.
  unfold encodeString.
  destruct (needsEscape s) eqn:E; cbn [negb].
  - destruct (appendEscapedString_spec (buf ++ [quote]) s) as (body & Happ & Hbody & Hun).
    exists body. rewrite Happ. cbn [bind].
    split; [rewrite <- !app_assoc; reflexivity|]. split; assumption.
  - exists s. split; [rewrite <- !app_assoc; reflexivity|].
    rewrite needsEscape_bytes in E.
    assert (Hplain : Forall (fun c => 0x20 <= byteZ c /\ c <> quote /\ c <> backslash) s).
    { apply Forall_forall. intros c Hin.
      assert (Hc : ((byteZ c <? 0x20) || Byte.eqb c quote || Byte.eqb c backslash) = false).
      { destruct ((byteZ c <? 0x20) || Byte.eqb c quote || Byte.eqb c backslash) eqn:Ec;
          [|reflexivity].
        assert (existsb (fun c => (byteZ c <? 0x20) || Byte.eqb c quote
                                  || Byte.eqb c backslash) s = true)
          by (apply existsb_exists; exists c; split; assumption).
        congruence. }
      apply orb_false_iff in Hc. destruct Hc as [Hc H3].
      apply orb_false_iff in Hc. destruct Hc as [H1 H2].
      apply Z.ltb_ge in H1. split; [exact H1|].
      split; intros ->; discriminate. }
    split.
    + rewrite <- (app_nil_r s). apply body_plain_run; [exact Hplain | constructor].
    + rewrite <- (app_nil_r s) at 1. rewrite unescapeList_plain.
      * cbn [unescapeList bind]. rewrite app_nil_r. reflexivity.
      * eapply Forall_impl; [|exact Hplain]. intros c H. apply H.
Qed.

(** *** unescapeString as a function of the list of bytes *)

Lemma slice_middle {A} (pre mid post : list A) :
  slice (pre ++ mid ++ post) (len pre) (len pre + len mid) = Ok mid.
Proof.
  pose proof (len_nonneg pre). pose proof (len_nonneg mid). pose proof (len_nonneg post).
  rewrite slice_in_range by (rewrite ?len_app; lia).
  replace (Z.to_nat (len pre + len mid - len pre)) with (List.length mid) by (unfold len; lia).
  replace (Z.to_nat (len pre)) with (List.length pre) by (unfold len; lia).
  rewrite skipn_app, Nat.sub_diag, skipn_all. cbn [app skipn].
  rewrite firstn_app, Nat.sub_diag, firstn_all. cbn [firstn]. rewrite app_nil_r. reflexivity.
Qed.

Lemma bind_assoc_cons (o : outcome (list byte)) (buf : list byte) (c : list byte) :
  (r <- (x <- o ;; Ok (c ++ x)) ;; Ok (buf ++ r)) = (x <- o ;; Ok ((buf ++ c) ++ x)).
Proof. destruct o; cbn [bind]; [rewrite <- app_assoc|..]; reflexivity. Qed.

Lemma unescapeLoop_list (fuel : nat) :
  forall (b pre buf : list byte),
    (List.length b < fuel)%nat ->
    unescapeLoop fuel (pre ++ b) (len pre) buf
    = (r <- unescapeList b ;; Ok (buf ++ r)).
Proof.
  induction fuel as [|fuel IH]; intros b pre buf Hf; [lia|].
  cbn [unescapeLoop].
  pose proof (len_nonneg pre) as Hp.
  destruct b as [|c rest].
  - rewrite app_nil_r, Z.ltb_irrefl. cbn [unescapeList bind]. rewrite app_nil_r. reflexivity.
  - pose proof (len_nonneg rest) as Hr. cbn [List.length] in Hf.
    replace (len pre <? len (pre ++ c :: rest)) with true
      by (symmetry; apply Z.ltb_lt; rewrite len_app, len_cons; lia).
    rewrite idx_app_here. cbn [bind unescapeList].
    assert (Hnext : forall buf',
               unescapeLoop fuel (pre ++ c :: rest) (len pre + 1) buf'
               = (r <- unescapeList rest ;; Ok (buf' ++ r))).
    { intros buf'. rewrite snoc_cons, <- (len_snoc pre c). apply IH. lia. }
    destruct (Byte.eqb c backslash) eqn:Ec; cbn [negb].
    2:{ rewrite Hnext.
        destruct (unescapeList rest); cbn [bind]; [rewrite <- app_assoc|..]; reflexivity. }
    destruct rest as [|e rest'].
    { replace (len (pre ++ [c]) <=? len pre + 1) with true
        by (symmetry; apply Z.leb_le; rewrite len_app; change (len [c]) with 1; lia).
      reflexivity. }
    pose proof (len_nonneg rest') as Hr'. cbn [List.length] in Hf.
    replace (len (pre ++ c :: e :: rest') <=? len pre + 1) with false
      by (symmetry; apply Z.leb_gt; rewrite len_app, !len_cons; lia).
    assert (He : idx (pre ++ c :: e :: rest') (len pre + 1) = Ok e).
    { rewrite snoc_cons, <- (len_snoc pre c). apply idx_app_here. }
    rewrite He. cbn [bind].
    assert (Hnext2 : forall buf',
               unescapeLoop fuel (pre ++ c :: e :: rest') (len pre + 1 + 1) buf'
               = (r <- unescapeList rest' ;; Ok (buf' ++ r))).
    { intros buf'.
      replace (pre ++ c :: e :: rest') with ((pre ++ [c; e]) ++ rest')
        by (rewrite <- app_assoc; reflexivity).
      replace (len pre + 1 + 1) with (len (pre ++ [c; e]))
        by (rewrite len_app; change (len [c; e]) with 2; lia).
      apply IH. lia. }
    assert (Hone : forall y,
               unescapeLoop fuel (pre ++ c :: e :: rest') (len pre + 1 + 1) (buf ++ [y])
               = (r <- (x <- unescapeList rest' ;; Ok (y :: x)) ;; Ok (buf ++ r))).
    { intros y. rewrite Hnext2. change (y :: ?x) with ([y] ++ x).
      symmetry. apply bind_assoc_cons. }
    destruct (Byte.eqb e quote || Byte.eqb e backslash || Byte.eqb e "/"); [apply Hone|].
    destruct (Byte.eqb e "b"); [apply Hone|].
    destruct (Byte.eqb e "f"); [apply Hone|].
    destruct (Byte.eqb e "n"); [apply Hone|].
    destruct (Byte.eqb e "r"); [apply Hone|].
    destruct (Byte.eqb e "t"); [apply Hone|].
    destruct (Byte.eqb e "u"); [|reflexivity].
    destruct rest' as [|h1 [|h2 [|h3 [|h4 rest'']]]];
      try (replace (len (pre ++ _) <=? len pre + 1 + 4) with true
            by (symmetry; apply Z.leb_le; rewrite len_app, ?len_cons, ?len_nil; lia);
           reflexivity).
    pose proof (len_nonneg rest'') as Hr''. cbn [List.length] in Hf.
    replace (len (pre ++ c :: e :: h1 :: h2 :: h3 :: h4 :: rest'') <=? len pre + 1 + 4)
      with false
      by (symmetry; apply Z.leb_gt; rewrite len_app, !len_cons; lia).
    assert (Hs : slice (pre ++ c :: e :: h1 :: h2 :: h3 :: h4 :: rest'')
                       (len pre + 1 + 1) (len pre + 1 + 5) = Ok [h1; h2; h3; h4]).
    { replace (pre ++ c :: e :: h1 :: h2 :: h3 :: h4 :: rest'')
        with ((pre ++ [c; e]) ++ [h1; h2; h3; h4] ++ rest'')
        by (rewrite <- app_assoc; reflexivity).
      replace (len pre + 1 + 1) with (len (pre ++ [c; e]))
        by (rewrite len_app; change (len [c; e]) with 2; lia).
      replace (len pre + 1 + 5) with (len (pre ++ [c; e]) + len [h1; h2; h3; h4])
        by (rewrite len_app; change (len [c; e]) with 2;
            change (len [h1; h2; h3; h4]) with 4; lia).
      apply slice_middle. }
    rewrite Hs. cbn [bind].
    destruct (ParseUint_16_16 [h1; h2; h3; h4]) as [v| | |]; cbn [bind]; try reflexivity.
    replace (pre ++ c :: e :: h1 :: h2 :: h3 :: h4 :: rest'')
      with ((pre ++ [c; e; h1; h2; h3; h4]) ++ rest'')
      by (rewrite <- app_assoc; reflexivity).
    replace (len pre + 1 + 4 + 1) with (len (pre ++ [c; e; h1; h2; h3; h4]))
      by (rewrite len_app; change (len [c; e; h1; h2; h3; h4]) with 6; lia).
    rewrite IH by lia.
    symmetry. apply bind_assoc_cons.
Qed.

(** [unescapeString] is [unescapeList]. *)
Lemma unescapeString_list (b : list byte) : unescapeString b = unescapeList b.
Proof.
  unfold unescapeString.
  pose proof (unescapeLoop_list (S (List.length b)) b [] [] ltac:(lia)) as H.
  cbn [app] in H. change (len (@nil byte)) with 0 in H. rewrite H.
  destruct (unescapeList b); reflexivity.
Qed.

(** *** The tokenizer on a string *)

Lemma countBackslashes_trailing (pre : list byte) :
  forall (rest : list byte) (acc : Z) (fuel : nat),
    (List.length pre < fuel)%nat ->
    countBackslashes fuel (pre ++ rest) (len pre - 1) acc
    = Ok (acc + trailingBackslashes pre).
Proof.
  induction pre as [|x pre IH] using rev_ind; intros rest acc fuel Hf;
    (destruct fuel as [|fuel]; [lia|]); cbn [countBackslashes].
  - change (len (@nil byte) - 1) with (-1). cbn. f_equal. unfold trailingBackslashes. cbn. lia.
  - pose proof (len_nonneg pre). rewrite len_snoc.
    replace (len pre + 1 - 1) with (len pre) by lia.
    cmp_true (0 <=? len pre).
    rewrite <- app_assoc. cbn [app]. rewrite idx_app_here. cbn [bind].
    rewrite trailing_snoc.
    destruct (Byte.eqb x backslash).
    + rewrite length_app in Hf. cbn [List.length] in Hf.
      rewrite IH by lia. f_equal. lia.
    + f_equal. lia.
Qed.

Section ScanString.

Variables (pre : list byte) (c : byte) (rest : list byte) (fuel : nat).

Lemma scanString_head :
  scanStringLoop (S fuel) (pre ++ c :: rest) (len pre)
  = if Byte.eqb c quote then
      if negb (Z.rem (trailingBackslashes pre) 2 =? 1) then Ok (len pre + 1)
      else scanStringLoop fuel ((pre ++ [c]) ++ rest) (len (pre ++ [c]))
    else scanStringLoop fuel ((pre ++ [c]) ++ rest) (len (pre ++ [c])).
Proof.
  cbn [scanStringLoop].
  pose proof (len_nonneg pre). pose proof (len_nonneg rest).
  replace (len pre <? len (pre ++ c :: rest)) with true
    by (symmetry; apply Z.ltb_lt; rewrite len_app, len_cons; lia).
  rewrite idx_app_here. cbn [bind].
  rewrite <- snoc_cons, len_snoc.
  destruct (Byte.eqb c quote); [|reflexivity].
  rewrite countBackslashes_trailing by (rewrite length_app; cbn [List.length]; lia).
  cbn [bind]. rewrite Z.add_0_l. reflexivity.
Qed.

End ScanString.

Lemma hex_not_special (h : byte) :
  isHexDigit h = true -> Byte.eqb h quote = false /\ Byte.eqb h backslash = false.
Proof.
  assert (H : forall h, (negb (isHexDigit h)
                         || (negb (Byte.eqb h quote) && negb (Byte.eqb h backslash))) = true)
    by (apply forall_bytes; vm_compute; reflexivity).
  intros Hh. specialize (H h). rewrite Hh in H. cbn [negb orb] in H.
  apply andb_true_iff in H. destruct H as [H1 H2].
  split; apply negb_true_iff; assumption.
Qed.

Lemma neq_eqb (a b : byte) : a <> b -> Byte.eqb a b = false.
Proof.
  intros H. destruct (Byte.eqb a b) eqn:E; [|reflexivity].
  apply byte_eqb_eq in E. contradiction.
Qed.

(** The string loop, entered after the opening quote, stops after the
    quote that follows the body. *)
Lemma scanString_body (body : list byte) :
  jsonStringBody body ->
  forall (pre post : list byte) (fuel : nat),
    (Z.rem (trailingBackslashes pre) 2 =? 1) = false ->
    (List.length body < fuel)%nat ->
    scanStringLoop fuel (pre ++ body ++ quote :: post) (len pre)
    = Ok (len pre + len body + 1).
Proof.
  induction 1 as [|c rest Hc Hq Hb _ IH|e rest He _ IH|h1 h2 h3 h4 rest H1 H2 H3 H4 _ IH];
    intros pre post fuel Hpre Hf.
  - destruct fuel as [|fuel]; [simpl in Hf; lia|].
    cbn [app]. rewrite scanString_head.
    change (Byte.eqb quote quote) with true. cbv iota. rewrite Hpre. cbn [negb].
    rewrite len_nil. f_equal. lia.
  - destruct fuel as [|fuel]; [simpl in Hf; lia|]. cbn [List.length] in Hf.
    cbn [app]. rewrite scanString_head, (neq_eqb c quote Hq).
    rewrite IH; [rewrite len_snoc, len_cons; f_equal; lia | | lia].
    rewrite trailing_snoc, (neq_eqb c backslash Hb). reflexivity.
  - destruct fuel as [|[|fuel]]; try (simpl in Hf; lia). cbn [List.length] in Hf.
    pose proof (trailing_nonneg pre) as Ht.
    cbn [app]. rewrite scanString_head.
    change (Byte.eqb backslash quote) with false. cbv iota.
    rewrite scanString_head.
    assert (Hodd : (Z.rem (trailingBackslashes (pre ++ [backslash])) 2 =? 1) = true).
    { rewrite trailing_snoc. change (Byte.eqb backslash backslash) with true. cbv iota.
      rewrite rem2_succ by lia. rewrite Hpre. reflexivity. }
    rewrite Hodd. cbn [negb].
    assert (Hnext : scanStringLoop fuel (((pre ++ [backslash]) ++ [e]) ++ rest ++ quote :: post)
                      (len ((pre ++ [backslash]) ++ [e]))
                    = Ok (len pre + len (backslash :: e :: rest) + 1)).
    { rewrite IH; [rewrite !len_snoc, !len_cons; f_equal; lia | | lia].
      rewrite !trailing_snoc. change (Byte.eqb backslash backslash) with true. cbv iota.
      destruct (Byte.eqb e backslash); [|reflexivity].
      replace (1 + (1 + trailingBackslashes pre)) with (1 + (1 + trailingBackslashes pre))
        by reflexivity.
      rewrite rem2_succ by lia. rewrite rem2_succ by lia. rewrite Hpre. reflexivity. }
    destruct (Byte.eqb e quote); exact Hnext.
  - destruct fuel as [|[|[|[|[|[|fuel]]]]]]; try (simpl in Hf; lia). cbn [List.length] in Hf.
    destruct (hex_not_special h1 H1) as (Q1 & _). destruct (hex_not_special h2 H2) as (Q2 & _).
    destruct (hex_not_special h3 H3) as (Q3 & _). destruct (hex_not_special h4 H4) as (Q4 & B4).
    cbn [app]. rewrite scanString_head.
    change (Byte.eqb backslash quote) with false. cbv iota.
    rewrite scanString_head. change (Byte.eqb "u" quote) with false. cbv iota.
    rewrite scanString_head, Q1. rewrite scanString_head, Q2.
    rewrite scanString_head, Q3. rewrite scanString_head, Q4.
    rewrite IH; [rewrite !len_snoc, !len_cons; f_equal; lia | | lia].
    rewrite trailing_snoc, B4. reflexivity.
Qed.

(** A quoted body is one string token. *)
Lemma SimpleTokenize_string (body : list byte) :
  jsonStringBody body ->
  SimpleTokenize (quote :: body ++ [quote])
  = Ok [mkToken TokenString 0 (uint32 (len body + 2))].
Proof.
  intros Hbody. set (data := quote :: body ++ [quote]).
  pose proof (len_nonneg body) as Hb.
  assert (Hlen : len data = len body + 2)
    by (unfold data; rewrite len_cons, len_app; change (len [quote]) with 1; lia).
  unfold SimpleTokenize. cmp_false (len data =? 0).
  assert (Hfuel : S (List.length data) = S (S (S (List.length body))))
    by (unfold data; cbn [List.length]; rewrite length_app; cbn [List.length]; lia).
  rewrite Hfuel at 1.
  cbn [tokenizeLoop]. cmp_true (0 <? len data).
  assert (Hskip : scanWhile isWhitespace (S (List.length data)) data 0 = Ok 0).
  { cbn [scanWhile]. rewrite inRangeAnd_eq by lia. reflexivity. }
  rewrite Hskip. cbn [bind]. cmp_false (len data <=? 0).
  change (idx data 0) with (idx ([] ++ quote :: body ++ [quote]) (len (@nil byte))).
  rewrite idx_app_here. cbn [bind app].
  change (lookback [] quote) with (Ok tt). cbn [bind].
  change (lexToken data 0 quote)
    with (j <- scanStringLoop (S (List.length data)) data (0 + 1) ;;
          Ok (mkToken TokenString (uint32 0) (uint32 j), j)).
  pose proof (scanString_body body Hbody [quote] [] (S (List.length data))
                eq_refl ltac:(lia)) as Hscan.
  change ([quote] ++ body ++ [quote]) with data in Hscan.
  change (len [quote]) with 1 in Hscan. change (0 + 1) with 1.
  rewrite Hscan. cbn [bind].
  replace (1 + len body + 1) with (len body + 2) by lia.
  replace (len body + 2 <? len data) with false by (symmetry; apply Z.ltb_ge; lia).
  reflexivity.
Qed.

Lemma hexVal_range (h : byte) (x : Z) : hexVal h = Some x -> 0 <= x < 16.
Proof.
  unfold hexVal. cbv zeta.
  destruct ((48 <=? byteZ h) && (byteZ h <=? 57)) eqn:Ea.
  - intros Hx. injection Hx as <-. apply andb_true_iff in Ea. lia.
  - destruct ((97 <=? byteZ h) && (byteZ h <=? 102)) eqn:Eb.
    + intros Hx. injection Hx as <-. apply andb_true_iff in Eb. lia.
    + destruct ((65 <=? byteZ h) && (byteZ h <=? 70)) eqn:Ec; [|discriminate].
      intros Hx. injection Hx as <-. apply andb_true_iff in Ec. lia.
Qed.

(** Four hexadecimal digits are a 16-bit value. *)
Lemma ParseUint_hex4 (h1 h2 h3 h4 : byte) :
  isHexDigit h1 = true -> isHexDigit h2 = true ->
  isHexDigit h3 = true -> isHexDigit h4 = true ->
  exists x, ParseUint_16_16 [h1; h2; h3; h4] = Ok x.
Proof.
  unfold isHexDigit. intros H1 H2 H3 H4.
  unfold ParseUint_16_16. change (len [h1; h2; h3; h4] =? 0) with false. cbv iota.
  cbn [ParseUint16].
  destruct (hexVal h1) as [v1|] eqn:E1; [|discriminate].
  destruct (hexVal h2) as [v2|] eqn:E2; [|discriminate].
  destruct (hexVal h3) as [v3|] eqn:E3; [|discriminate].
  destruct (hexVal h4) as [v4|] eqn:E4; [|discriminate].
  cbn [bind].
  pose proof (hexVal_range _ _ E1). pose proof (hexVal_range _ _ E2).
  pose proof (hexVal_range _ _ E3). pose proof (hexVal_range _ _ E4).
  cmp_false (65536 <=? (((0 * 16 + v1) * 16 + v2) * 16 + v3) * 16 + v4).
  eexists. reflexivity.
Qed.

Lemma body_unescapes (body : list byte) :
  jsonStringBody body -> exists v, unescapeList body = Ok v.
Proof.
  induction 1 as [|c rest Hc Hq Hb _ [v IH]|e rest He _ [v IH]
                  |h1 h2 h3 h4 rest H1 H2 H3 H4 _ [v IH]].
  - exists []. reflexivity.
  - exists (c :: v). cbn [unescapeList]. rewrite (neq_eqb c backslash Hb). cbn [negb].
    rewrite IH. reflexivity.
  - cbn [unescapeList]. change (Byte.eqb backslash backslash) with true. cbn [negb].
    rewrite IH. cbn [In] in He.
    repeat (destruct He as [<-|He]; [eexists; reflexivity|]). destruct He.
  - destruct (ParseUint_hex4 h1 h2 h3 h4 H1 H2 H3 H4) as [x Hx].
    exists (encodeRune x ++ v).
    cbn [unescapeList]. change (Byte.eqb backslash backslash) with true. cbn [negb].
    change (Byte.eqb "u" quote || Byte.eqb "u" backslash || Byte.eqb "u" "/") with false.
    change (Byte.eqb "u" "b") with false. change (Byte.eqb "u" "f") with false.
    change (Byte.eqb "u" "n") with false. change (Byte.eqb "u" "r") with false.
    change (Byte.eqb "u" "t") with false. change (Byte.eqb "u" "u") with true. cbv iota.
    rewrite Hx, IH. reflexivity.
Qed.

(** *** Parsing a string *)

Lemma no_escape_plain (b : list byte) :
  containsEscape b = false -> unescapeList b = Ok b.
Proof.
  intros H. rewrite <- (app_nil_r b) at 1. rewrite unescapeList_plain.
  - cbn [unescapeList bind]. rewrite app_nil_r. reflexivity.
  - apply Forall_forall. intros c Hin Hc. subst c.
    unfold containsEscape in H.
    assert (Ht : existsb (fun c => Byte.eqb c backslash) b = true)
      by (apply existsb_exists; exists backslash; split; [exact Hin | reflexivity]).
    congruence.
Qed.

Lemma Parse_string (a : arch) (body : list byte) :
  jsonStringBody body ->
  len body + 2 < 4294967296 ->
  exists v, unescapeString body = Ok v
            /\ Parse a (quote :: body ++ [quote]) = Ok (VString v).
Proof.
  intros Hbody Hlen. pose proof (len_nonneg body) as Hb.
  destruct (body_unescapes body Hbody) as [v Hv].
  exists v. rewrite unescapeString_list. split; [exact Hv|].
  unfold Parse. rewrite (SimpleTokenize_string body Hbody). cbn [bind].
  change (len [mkToken TokenString 0 (uint32 (len body + 2))] =? 0) with false. cbv iota.
  change (S (List.length [mkToken TokenString 0 (uint32 (len body + 2))])) with 2%nat.
  cbn [parseValue].
  change (len [mkToken TokenString 0 (uint32 (len body + 2))] <=? 0) with false. cbv iota.
  change (idx [mkToken TokenString 0 (uint32 (len body + 2))] 0)
    with (Ok (mkToken TokenString 0 (uint32 (len body + 2)))).
  cbn [bind Type_]. unfold parseString.
  change (idx [mkToken TokenString 0 (uint32 (len body + 2))] 0)
    with (Ok (mkToken TokenString 0 (uint32 (len body + 2)))).
  cbn [bind Start End_]. cbv zeta.
  rewrite (uint32_small (len body + 2)) by lia.
  change (uint32 (0 + 1)) with 1.
  replace (len body + 2 - 1) with (len body + 1) by lia.
  rewrite (uint32_small (len body + 1)) by lia.
  destruct body as [|c body'].
  - change (len (@nil byte) + 1 <=? 1) with true. cbv iota. cbn [bind].
    cbn [unescapeList] in Hv. congruence.
  - set (body := c :: body') in *.
    replace (len body + 1 <=? 1) with false
      by (symmetry; apply Z.leb_gt; unfold body; rewrite len_cons; pose proof (len_nonneg body'); lia).
    pose proof (slice_middle [quote] body [quote]) as Hs.
    change (len [quote]) with 1 in Hs. change ([quote] ++ body ++ [quote])
      with (quote :: body ++ [quote]) in Hs.
    replace (1 + len body) with (len body + 1) in Hs by lia.
    rewrite Hs. cbn [bind].
    destruct (containsEscape body) eqn:Ee; cbn [negb].
    + rewrite unescapeString_list, Hv. reflexivity.
    + rewrite (no_escape_plain body Ee) in Hv. cbn [bind]. congruence.
Qed.

(** X17.  [encodeString] appends, between two quotes, bytes that form the
    body of a JSON string on every argument: no control character, and no
    quote or backslash outside an escape.  [unescapeString] reads the body
    back as the argument when it needed no escape, even if it is not UTF-8;
    otherwise as the argument with every byte that belongs to no
    well-formed sequence replaced by U+FFFD. *)
Theorem encodeString_writes_json_string (buf s : list byte) :
  exists body,
    encodeString buf s = Ok (buf ++ quote :: body ++ [quote])
    /\ jsonStringBody body
    /\ unescapeString body = Ok (if needsEscape s then runesWritten s else s).
Proof.
  destruct (encodeString_body buf s) as (body & Henc & Hbody & Hun).
  exists body. rewrite unescapeString_list. split; [exact Henc|]. split; assumption.
Qed.

(** X18.  [Parse] accepts every JSON string literal shorter than 2^32
    bytes: a body of unescaped bytes, two-byte escapes and [\uXXXX] escapes
    between two quotes parses to the String that [unescapeString] makes of
    the body, and [unescapeString] does not fail on it. *)
Theorem Parse_accepts_string_literals (a : arch) (body : list byte) :
  jsonStringBody body ->
  len body + 2 < 4294967296 ->
  exists v, unescapeString body = Ok v
            /\ Parse a (quote :: body ++ [quote]) = Ok (VString v).
Proof.
  intros Hbody Hlen. exact (Parse_string a body Hbody Hlen).
Qed.

Lemma Parse_accepts_string_literals_witness :
  jsonStringBody (bytes "a\n\u00e9")
  /\ len (bytes "a\n\u00e9") + 2 < 4294967296
  /\ exists v, unescapeString (bytes "a\n\u00e9") = Ok v
               /\ Parse arm64 (quote :: bytes "a\n\u00e9" ++ [quote]) = Ok (VString v).
Proof.
  assert (H1 : jsonStringBody (bytes "a\n\u00e9")).
  { apply body_plain; [vm_compute; discriminate | discriminate | discriminate |].
    apply (body_escape "n"); [do 5 right; left; reflexivity|].
    apply (body_unicode "0" "0" "e" "9"); try reflexivity. apply body_nil. }
  assert (H2 : len (bytes "a\n\u00e9") + 2 < 4294967296) by (vm_compute; reflexivity).
  split; [exact H1|]. split; [exact H2|].
  exact (Parse_accepts_string_literals arm64 (bytes "a\n\u00e9") H1 H2).
Defined.

(** X19.  Round trip of a string: what [encodeString] writes into an empty
    buffer, [Parse] reads back (below 2^32 bytes) as a String.  The String
    is the argument itself whenever the argument is well-formed UTF-8, and
    also when it needs no escape; an argument that needs an escape and is
    not UTF-8 comes back with U+FFFD in place of each offending byte. *)
Theorem encodeString_Parse_round_trip (a : arch) (s out : list byte) :
  encodeString [] s = Ok out ->
  len out < 4294967296 ->
  Parse a out = Ok (VString (if needsEscape s then runesWritten s else s))
  /\ (utf8WellFormed s = true -> Parse a out = Ok (VString s)).
Proof.
  intros Henc Hlen.
  destruct (encodeString_body [] s) as (body & Hout & Hbody & Hun).
  rewrite Hout in Henc. injection Henc as <-. cbn [app] in Hlen |- *.
  assert (Hb : len body + 2 < 4294967296).
  { rewrite len_cons, len_app in Hlen. change (len [quote]) with 1 in Hlen. lia. }
  destruct (Parse_string a body Hbody Hb) as (v & Hv & HParse).
  rewrite unescapeString_list, Hun in Hv. injection Hv as <-.
  split; [exact HParse|].
  intros Hwf. rewrite HParse.
  destruct (needsEscape s); [|reflexivity].
  unfold runesWritten, rangeString.
  rewrite (wellFormed_written (List.length s) s 0 (Nat.le_refl _) Hwf). reflexivity.
Qed.

Lemma encodeString_Parse_round_trip_witness :
  encodeString [] (json "say 'hi'\") = Ok (json "'say \'hi\'\\'")
  /\ len (json "'say \'hi\'\\'") < 4294967296
  /\ Parse arm64 (json "'say \'hi\'\\'")
     = Ok (VString (if needsEscape (json "say 'hi'\") then runesWritten (json "say 'hi'\")
                    else json "say 'hi'\"))
  /\ (utf8WellFormed (json "say 'hi'\") = true ->
      Parse arm64 (json "'say \'hi\'\\'") = Ok (VString (json "say 'hi'\"))).
Proof.
  assert (H1 : encodeString [] (json "say 'hi'\") = Ok (json "'say \'hi\'\\'"))
    by (vm_compute; reflexivity).
  assert (H2 : len (json "'say \'hi\'\\'") < 4294967296) by (vm_compute; reflexivity).
  split; [exact H1|]. split; [exact H2|].
  exact (encodeString_Parse_round_trip arm64 (json "say 'hi'\") _ H1 H2).
Defined.

(** *** Integers written by the encoder *)

Lemma digitsIn_acc (base : Z) (fuel : nat) :
  forall n acc, digitsIn base fuel n acc = digitsIn base fuel n [] ++ acc.
Proof.
  induction fuel as [|fuel IH]; intros n acc; cbn [digitsIn]; [reflexivity|].
  cbv zeta. destruct (n <? base); [reflexivity|].
  rewrite IH. rewrite (IH _ [_]). rewrite <- app_assoc. reflexivity.
Qed.

Lemma digitsIn_S (base : Z) (fuel : nat) (n : Z) (acc : list byte) :
  digitsIn base (S fuel) n acc
  = if n <? base
    then byteOfZ (if n mod base <? 10 then 48 + n mod base else 97 + (n mod base - 10)) :: acc
    else digitsIn base fuel (n / base)
           (byteOfZ (if n mod base <? 10 then 48 + n mod base else 97 + (n mod base - 10))
            :: acc).
Proof. reflexivity. Qed.

Lemma decimalValue_snoc (ds : list byte) (c : byte) :
  decimalValue (ds ++ [c]) = decimalValue ds * 10 + (byteZ c - 48).
Proof. unfold decimalValue. rewrite fold_left_app. reflexivity. Qed.

Lemma decimal_digit (n : Z) :
  0 <= n < 10 ->
  isDigit (byteOfZ (48 + n)) = true /\ byteZ (byteOfZ (48 + n)) - 48 = n.
Proof.
  intros Hn. rewrite isDigit_range, byteZ_byteOfZ by lia. lia.
Qed.

(** The decimal digits of [n]: at least one, none superfluous. *)
Lemma digitsIn_decimal (fuel : nat) :
  forall n, 0 <= n < 10 ^ Z.of_nat (S fuel) ->
    exists d ds,
      digitsIn 10 (S fuel) n [] = d :: ds
      /\ Forall (fun c => isDigit c = true) (d :: ds)
      /\ decimalValue (d :: ds) = n
      /\ (d = "0"%byte -> n = 0 /\ ds = [])
      /\ (List.length (d :: ds) <= S fuel)%nat.
Proof.
  assert (Hone : forall f n, 0 <= n < 10 ->
            exists d ds,
              digitsIn 10 (S f) n [] = d :: ds
              /\ Forall (fun c => isDigit c = true) (d :: ds)
              /\ decimalValue (d :: ds) = n
              /\ (d = "0"%byte -> n = 0 /\ ds = [])
              /\ (List.length (d :: ds) <= S f)%nat).
  { intros f n Hn. rewrite digitsIn_S.
    rewrite Z.mod_small by lia.
    cmp_true (n <? 10). cbv iota.
    destruct (decimal_digit n Hn) as [Hd Hv].
    exists (byteOfZ (48 + n)), []. split; [reflexivity|].
    split; [constructor; [exact Hd | constructor]|].
    split; [unfold decimalValue; cbn [fold_left]; lia|].
    split; [|cbn [List.length]; lia].
    intros H0. rewrite H0 in Hv. change (byteZ "0") with 48 in Hv. split; [lia | reflexivity]. }
  induction fuel as [|fuel IH]; intros n Hn.
  - apply Hone. change (10 ^ Z.of_nat 1) with 10 in Hn. exact Hn.
  - destruct (Z.lt_ge_cases n 10) as [Hlt|Hge]; [apply Hone; lia|].
    rewrite digitsIn_S.
    cmp_false (n <? 10).
    assert (Hm : 0 <= n mod 10 < 10) by (apply Z.mod_pos_bound; lia).
    cmp_true (n mod 10 <? 10). cbv iota.
    destruct (decimal_digit (n mod 10) Hm) as [Hd Hv].
    assert (Hq : 0 <= n / 10 < 10 ^ Z.of_nat (S fuel)).
    { rewrite (Nat2Z.inj_succ (S fuel)), Z.pow_succ_r in Hn by lia.
      split; [apply Z.div_pos; lia | apply Z.div_lt_upper_bound; lia]. }
    destruct (IH (n / 10) Hq) as (d & ds & Hds & Hall & Hval & Hzero & Hlen).
    rewrite digitsIn_acc.
    rewrite Hds. exists d, (ds ++ [byteOfZ (48 + n mod 10)]).
    split; [reflexivity|].
    split; [change (d :: ds ++ [byteOfZ (48 + n mod 10)])
              with ((d :: ds) ++ [byteOfZ (48 + n mod 10)]);
            apply Forall_app; split; [exact Hall | constructor; [exact Hd | constructor]]|].
    split.
    { change (d :: ds ++ [byteOfZ (48 + n mod 10)])
        with ((d :: ds) ++ [byteOfZ (48 + n mod 10)]).
      rewrite decimalValue_snoc, Hval, Hv.
      pose proof (Z.div_mod n 10 ltac:(lia)). lia. }
    split.
    { intros H0. destruct (Hzero H0) as [Hz _].
      assert (10 <= n) by lia.
      pose proof (Z.div_le_lower_bound n 10 1 ltac:(lia) ltac:(lia)). lia. }
    cbn [List.length] in Hlen |- *. rewrite length_app. cbn [List.length]. lia.
Qed.

(** *** The tokenizer and the parser on a run of digits *)

Lemma scanWhile_to_end (p : byte -> bool) (data : list byte) (i : Z) :
  0 <= i <= len data ->
  (forall k c, i <= k -> nth_error data (Z.to_nat k) = Some c -> p c = true) ->
  scanWhile p (S (List.length data)) data i = Ok (len data).
Proof.
  intros Hi Hall.
  destruct (scanWhile_spec data p (S (List.length data)) i ltac:(lia)
              ltac:(unfold len in *; lia))
    as (j & Hj & Hle & Hlen & _ & Hstop).
  rewrite Hj. f_equal. specialize (Hlen ltac:(lia)).
  destruct (nth_error data (Z.to_nat j)) as [c|] eqn:E.
  - rewrite (Hall j c Hle E) in Hstop. discriminate.
  - apply nth_error_None in E. unfold len in *. lia.
Qed.

Lemma nth_error_digits (pre : list byte) (ds : list byte) (k : Z) (c : byte) :
  Forall (fun c => isDigit c = true) ds ->
  len pre <= k ->
  nth_error (pre ++ ds) (Z.to_nat k) = Some c -> isDigit c = true.
Proof.
  intros Hall Hk Hc. rewrite nth_error_app2 in Hc by (unfold len in Hk; lia).
  rewrite Forall_forall in Hall. apply Hall. eapply nth_error_In. exact Hc.
Qed.

Lemma inRangeAnd_end (data : list byte) (p : byte -> bool) :
  inRangeAnd data (len data) p = Ok false.
Proof. unfold inRangeAnd. rewrite Z.ltb_irrefl. reflexivity. Qed.

(** The number rule takes a sign and digits whole. *)
Lemma lexNumber_digits (neg : bool) (d : byte) (ds : list byte) :
  isDigit d = true ->
  Forall (fun c => isDigit c = true) ds ->
  (d = "0"%byte -> ds = []) ->
  lexNumber ((if neg then ["-"%byte] else []) ++ d :: ds) 0 (if neg then "-"%byte else d)
  = Ok (len ((if neg then ["-"%byte] else []) ++ d :: ds)).
Proof.
  intros Hd Hds Hzero.
  destruct (digit_not_sign d Hd) as (Hminus & _).
  pose proof (len_nonneg ds) as Hn.
  unfold lexNumber. destruct neg; cbn [app].
  - set (data := "-"%byte :: d :: ds).
    assert (Hlen : len data = len ds + 2) by (unfold data; rewrite !len_cons; lia).
    change (Byte.eqb "-" "-") with true. cbv iota zeta.
    rewrite (inRangeAnd_eq data (0 + 1)) by lia.
    change (nth_error data (Z.to_nat (0 + 1))) with (Some d). cbv iota. rewrite Hd.
    cbn [bind negb].
    rewrite (inRangeAnd_eq data (0 + 1)) by lia.
    change (nth_error data (Z.to_nat (0 + 1))) with (Some d). cbv iota. rewrite Hd.
    cbn [bind negb].
    rewrite (nth_error_idx data (0 + 1) d ltac:(lia) eq_refl). cbn [bind].
    destruct (Byte.eqb d "0") eqn:E0.
    + apply byte_eqb_eq in E0. subst d. pose proof (Hzero eq_refl) as Hnil. subst ds.
      reflexivity.
    + rewrite (scanWhile_to_end isDigit data (0 + 1)).
      * cbn [bind]. rewrite inRangeAnd_end. cbn [bind]. rewrite inRangeAnd_end. cbn [bind].
        cmp_false (len data <=? 0). cmp_false (0 =? len data - 1). reflexivity.
      * lia.
      * intros k c Hk Hc.
        apply (nth_error_digits ["-"%byte] (d :: ds) k c); [constructor; assumption | |exact Hc].
        change (len ["-"%byte]) with 1. lia.
  - set (data := d :: ds).
    assert (Hlen : len data = len ds + 1) by (unfold data; rewrite !len_cons; lia).
    rewrite Hminus. cbv iota. cbn [bind].
    rewrite (inRangeAnd_eq data 0) by lia.
    change (nth_error data (Z.to_nat 0)) with (Some d). cbv iota. rewrite Hd.
    cbn [bind negb].
    rewrite (nth_error_idx data 0 d ltac:(lia) eq_refl). cbn [bind].
    destruct (Byte.eqb d "0") eqn:E0.
    + apply byte_eqb_eq in E0. subst d. pose proof (Hzero eq_refl) as Hnil. subst ds.
      reflexivity.
    + rewrite (scanWhile_to_end isDigit data 0).
      * cbn [bind]. rewrite inRangeAnd_end. cbn [bind]. rewrite inRangeAnd_end. cbn [bind].
        cmp_false (len data <=? 0).
        destruct (0 =? len data - 1); [|reflexivity].
        cbn [bind]. rewrite Hminus. reflexivity.
      * lia.
      * intros k c Hk Hc.
        apply (nth_error_digits [] (d :: ds) k c); [constructor; assumption | |exact Hc].
        change (len (@nil byte)) with 0. lia.
Qed.

Lemma number_start (c : byte) :
  (Byte.eqb c "-" || isDigit c) = true ->
  isWhitespace c = false
  /\ forall data i,
       lexToken data i c
       = (j <- lexNumber data i c ;; Ok (mkToken TokenNumber (uint32 i) (uint32 j), j)).
Proof.
  intros H. destruct c; vm_compute in H; try discriminate H; split; reflexivity.
Qed.

Lemma digits_no_float_chars (neg : bool) (ds : list byte) :
  Forall (fun c => isDigit c = true) ds ->
  containsFloatCharsBytes ((if neg then ["-"%byte] else []) ++ ds) = false.
Proof.
  intros Hds. unfold containsFloatCharsBytes. rewrite existsb_app.
  assert (H : existsb (fun c => Byte.eqb c "." || Byte.eqb c "e" || Byte.eqb c "E") ds = false).
  { induction Hds as [|c l Hc _ IH]; [reflexivity|]. cbn [existsb].
    destruct (digit_not_sign c Hc) as (_ & _ & H1 & H2 & H3).
    rewrite H1, H2, H3, IH. reflexivity. }
  rewrite H. destruct neg; reflexivity.
Qed.

(** A sign and digits without a superfluous zero: one number token, and
    the integer or, outside [int64], the float conversion. *)
Lemma Parse_sign_digits (a : arch) (neg : bool) (d : byte) (ds : list byte) :
  isDigit d = true ->
  Forall (fun c => isDigit c = true) ds ->
  (d = "0"%byte -> ds = []) ->
  len ds + 2 < 4294967296 ->
  Parse a ((if neg then ["-"%byte] else []) ++ d :: ds)
  = if inInt64 (signedValue ((if neg then ["-"%byte] else []) ++ d :: ds))
    then Ok (VInt (signedValue ((if neg then ["-"%byte] else []) ++ d :: ds)))
    else (val <- ParseFloat ((if neg then ["-"%byte] else []) ++ d :: ds) ;;
          Ok (VFloat val)).
Proof.
  intros Hd Hds Hzero Hlen32.
  pose proof (lexNumber_digits neg d ds Hd Hds Hzero) as Hlex.
  pose proof (digits_no_float_chars neg (d :: ds) (Forall_cons d Hd Hds)) as Hnf.
  set (c := if neg then "-"%byte else d) in *.
  set (data := (if neg then ["-"%byte] else []) ++ d :: ds) in *.
  pose proof (len_nonneg ds) as Hn.
  assert (Hdata : exists rest, data = c :: rest)
    by (unfold data, c; destruct neg; eexists; reflexivity).
  destruct Hdata as [rest Hdata].
  assert (Hlen : 1 <= len data <= len ds + 2)
    by (unfold data; destruct neg; cbn [app]; rewrite ?len_cons; lia).
  assert (Hc : (Byte.eqb c "-" || isDigit c) = true)
    by (unfold c; destruct neg; [reflexivity | rewrite Hd; apply orb_true_r]).
  destruct (number_start c Hc) as [Hws Hlt].
  assert (Hidx : idx data 0 = Ok c)
    by (apply nth_error_idx; [lia | rewrite Hdata; reflexivity]).
  set (tok := mkToken TokenNumber (uint32 0) (uint32 (len data))).
  assert (Htok : SimpleTokenize data = Ok [tok]).
  { unfold SimpleTokenize. cmp_false (len data =? 0).
    assert (Hfuel : exists f, S (List.length data) = S (S f))
      by (exists (List.length rest); rewrite Hdata; reflexivity).
    destruct Hfuel as [f Hfuel]. rewrite Hfuel at 1.
    cbn [tokenizeLoop]. cmp_true (0 <? len data).
    assert (Hskip : scanWhile isWhitespace (S (List.length data)) data 0 = Ok 0).
    { cbn [scanWhile]. rewrite inRangeAnd_eq by lia.
      replace (nth_error data (Z.to_nat 0)) with (Some c) by (rewrite Hdata; reflexivity).
      rewrite Hws. reflexivity. }
    rewrite Hskip. cbn [bind]. cmp_false (len data <=? 0).
    rewrite Hidx. cbn [bind].
    change (lookback [] c) with (Ok tt). cbn [bind].
    rewrite Hlt, Hlex. cbn [bind app].
    rewrite Z.ltb_irrefl. reflexivity. }
  unfold Parse. rewrite Htok. cbn [bind].
  change (len [tok] =? 0) with false. cbv iota.
  change (S (List.length [tok])) with 2%nat.
  cbn [parseValue].
  change (len [tok] <=? 0) with false. cbv iota.
  change (idx [tok] 0) with (Ok tok). cbn [bind].
  change (Type_ tok) with TokenNumber. cbv iota.
  destruct (parseNumber_spec a data [tok] 0 0 (len data) c eq_refl ltac:(lia) ltac:(lia)
              Hidx Hlex) as (numBytes & Hslice & Hparse).
  assert (numBytes = data) as ->.
  { rewrite slice_in_range in Hslice by lia. injection Hslice as <-.
    rewrite Z.sub_0_r. change (Z.to_nat 0) with 0%nat. cbn [skipn].
    unfold len. rewrite Nat2Z.id. apply firstn_all. }
  rewrite Hparse, Hnf. cbn [negb andb].
  destruct (inInt64 (signedValue data)); [reflexivity|].
  destruct (ParseFloat data); reflexivity.
Qed.

Lemma FormatUint_decimal (u : Z) :
  0 <= u < 18446744073709551616 ->
  exists d ds,
    FormatUint u 10 = d :: ds
    /\ isDigit d = true
    /\ Forall (fun c => isDigit c = true) ds
    /\ decimalValue (d :: ds) = u
    /\ (d = "0"%byte -> ds = [])
    /\ len ds + 2 < 4294967296.
Proof.
  intros Hu. unfold FormatUint.
  destruct (digitsIn_decimal 63 u) as (d & ds & Hds & Hall & Hval & Hzero & Hlen).
  { split; [lia|]. eapply Z.lt_le_trans; [apply Hu|]. vm_compute. discriminate. }
  exists d, ds. split; [exact Hds|].
  inversion Hall as [|? ? Hd Hrest]; subst.
  split; [exact Hd|]. split; [exact Hrest|]. split; [reflexivity|].
  split; [intros H0; apply (Hzero H0)|].
  cbn [List.length] in Hlen. unfold len. lia.
Qed.

Lemma signedValue_digits (d : byte) (ds : list byte) :
  isDigit d = true -> signedValue (d :: ds) = decimalValue (d :: ds).
Proof.
  intros Hd. destruct (digit_not_sign d Hd) as (Hminus & _).
  cbn [signedValue]. rewrite Hminus. reflexivity.
Qed.

(** X20.  Round trip of an integer: what [encodeInt] writes for an [int64]
    into an empty buffer, [Parse] reads back as the Integer it was, the
    two ends of the range included. *)
Theorem encodeInt_Parse_round_trip (a : arch) (i : Z) :
  MinInt64 <= i <= MaxInt64 ->
  exists out, encodeInt [] i = Ok out /\ Parse a out = Ok (VInt i).
Proof.
  intros Hi. unfold MinInt64, MaxInt64 in Hi.
  unfold encodeInt, FormatInt. cbn [app]. eexists. split; [reflexivity|].
  destruct (i <? 0) eqn:Eneg.
  - apply Z.ltb_lt in Eneg.
    destruct (FormatUint_decimal (- i) ltac:(lia)) as (d & ds & Hds & Hd & Hall & Hval & Hz & Hl).
    rewrite Hds.
    pose proof (Parse_sign_digits a true d ds Hd Hall Hz Hl) as HParse.
    cbn [app] in HParse. rewrite HParse.
    change (signedValue ("-"%byte :: d :: ds)) with (- decimalValue (d :: ds)).
    rewrite Hval, Z.opp_involutive.
    replace (inInt64 i) with true
      by (symmetry; unfold inInt64, MinInt64, MaxInt64; apply andb_true_iff;
          split; apply Z.leb_le; lia).
    reflexivity.
  - apply Z.ltb_ge in Eneg.
    destruct (FormatUint_decimal i ltac:(lia)) as (d & ds & Hds & Hd & Hall & Hval & Hz & Hl).
    rewrite Hds.
    pose proof (Parse_sign_digits a false d ds Hd Hall Hz Hl) as HParse.
    cbn [app] in HParse. rewrite HParse.
    rewrite (signedValue_digits d ds Hd), Hval.
    replace (inInt64 i) with true
      by (symmetry; unfold inInt64, MinInt64, MaxInt64; apply andb_true_iff;
          split; apply Z.leb_le; lia).
    reflexivity.
Qed.

Lemma encodeInt_Parse_round_trip_witness :
  MinInt64 <= MinInt64 <= MaxInt64
  /\ exists out, encodeInt [] MinInt64 = Ok out /\ Parse generic out = Ok (VInt MinInt64).
Proof.
  assert (H : MinInt64 <= MinInt64 <= MaxInt64) by (vm_compute; split; discriminate).
  split; [exact H|].
  exact (encodeInt_Parse_round_trip generic MinInt64 H).
Defined.



(** ** Aligned buffers *)

Lemma repeat_split {A} (x : A) (m n t : nat) :
  (m + n <= t)%nat ->
  firstn n (skipn m (repeat x t)) = repeat x n.
Proof.
  intros H. replace t with (m + (n + (t - m - n)))%nat by lia.
  rewrite !repeat_app.
  rewrite skipn_app, repeat_length, Nat.sub_diag, skipn_all2 by (rewrite repeat_length; lia).
  cbn [skipn app].
  rewrite firstn_app, repeat_length, Nat.sub_diag, firstn_all2 by (rewrite repeat_length; lia).
  cbn [firstn]. apply app_nil_r.
Qed.

Lemma makeBytes_Ok (n : Z) : 0 <= n -> makeBytes n = Ok (repeat x00 (Z.to_nat n)).
Proof. intros H. unfold makeBytes. cmp_false (n <? 0). reflexivity. Qed.

Lemma len_repeat {A} (x : A) (n : nat) : len (repeat x n) = Z.of_nat n.
Proof. unfold len. rewrite repeat_length. reflexivity. Qed.

(** [copy] into a longer destination. *)
Lemma copyBytes_longer (dst src : list byte) :
  (List.length src <= List.length dst)%nat ->
  copyBytes dst src = src ++ skipn (List.length src) dst.
Proof. intros H. unfold copyBytes. rewrite firstn_all2 by exact H. reflexivity. Qed.

Lemma copyBytes_zeros (src : list byte) (n : nat) :
  (List.length src <= n)%nat ->
  copyBytes (repeat x00 n) src = src ++ repeat x00 (n - List.length src).
Proof.
  intros H. rewrite copyBytes_longer by (rewrite repeat_length; exact H). f_equal.
  replace n with (List.length src + (n - List.length src))%nat at 1 by lia.
  rewrite repeat_app, skipn_app, repeat_length, Nat.sub_diag.
  rewrite skipn_all2 by (rewrite repeat_length; lia). reflexivity.
Qed.

Lemma PadToAlignment_spec (data : list byte) (alignment : Z) :
  0 < alignment ->
  len data + alignment <= MaxInt64 ->
  exists k,
    PadToAlignment data alignment = Ok (data ++ repeat x00 k)
    /\ (len data + Z.of_nat k) mod alignment = 0
    /\ Z.of_nat k < alignment.
Proof.
  intros Ha Hmax. unfold MaxInt64 in Hmax. pose proof (len_nonneg data) as Hn.
  unfold PadToAlignment. cmp_false (alignment =? 0).
  rewrite Z.rem_mod_nonneg by lia.
  pose proof (Z.mod_pos_bound (len data) alignment Ha) as Hr.
  destruct (len data mod alignment =? 0) eqn:E0.
  - apply Z.eqb_eq in E0. exists 0%nat. cbn [repeat]. rewrite app_nil_r, Z.add_0_r.
    split; [reflexivity|]. split; [exact E0 | lia].
  - apply Z.eqb_neq in E0. cbv zeta.
    assert (Hmod : (len data + (alignment - len data mod alignment)) mod alignment = 0).
    { replace (len data + (alignment - len data mod alignment))
        with (len data - len data mod alignment + 1 * alignment) by lia.
      rewrite Z.mod_add by lia. rewrite Zminus_mod_idemp_r, Z.sub_diag.
      apply Z.mod_0_l. lia. }
    set (r := len data mod alignment) in *. clearbody r.
    rewrite (int64_small (alignment - r)) by (unfold MinInt64, MaxInt64; lia).
    rewrite (int64_small (len data + (alignment - r))) by (unfold MinInt64, MaxInt64; lia).
    rewrite makeBytes_Ok by lia. cbn [bind].
    assert (Hk : (Z.to_nat (len data + (alignment - r)) - List.length data
                  = Z.to_nat (alignment - r))%nat) by (unfold len in *; lia).
    rewrite copyBytes_zeros by (unfold len in *; lia).
    rewrite Hk.
    exists (Z.to_nat (alignment - r)).
    split; [reflexivity|].
    rewrite Z2Nat.id by lia. split; [exact Hmod | lia].
Qed.

(** X22.  [PadToAlignment] with a positive alignment returns the data
    followed by the fewest zero bytes that bring its length to a multiple
    of the alignment (none when it is one already).  An alignment of zero
    panics with a division by zero. *)
Theorem PadToAlignment_pads_with_zeros (data : list byte) (alignment : Z) :
  0 < alignment ->
  len data + alignment <= MaxInt64 ->
  (exists k,
     PadToAlignment data alignment = Ok (data ++ repeat x00 k)
     /\ (len data + Z.of_nat k) mod alignment = 0
     /\ Z.of_nat k < alignment)
  /\ PadToAlignment data 0 = Panic "integer divide by zero".
Proof.
  intros Ha Hmax. split; [apply PadToAlignment_spec; assumption | reflexivity].
Qed.

Lemma PadToAlignment_pads_with_zeros_witness :
  0 < 4
  /\ len (bytes "[1,2]") + 4 <= MaxInt64
  /\ (exists k,
        PadToAlignment (bytes "[1,2]") 4 = Ok (bytes "[1,2]" ++ repeat x00 k)
        /\ (len (bytes "[1,2]") + Z.of_nat k) mod 4 = 0
        /\ Z.of_nat k < 4)
  /\ PadToAlignment (bytes "[1,2]") 0 = Panic "integer divide by zero".
Proof.
  assert (H1 : 0 < 4) by lia.
  assert (H2 : len (bytes "[1,2]") + 4 <= MaxInt64) by (vm_compute; discriminate).
  split; [exact H1|]. split; [exact H2|].
  exact (PadToAlignment_pads_with_zeros (bytes "[1,2]") 4 H1 H2).
Defined.

(** *** Alignment arithmetic *)

Lemma ldiff_add (a m : Z) : a = Z.ldiff a m + Z.land a m.
Proof.
  rewrite Z.add_nocarry_lxor.
  - rewrite Z.lxor_lor.
    + symmetry. apply Z.lor_ldiff_and.
    + apply Z.bits_inj'. intros n Hn.
      rewrite !Z.land_spec, Z.ldiff_spec, Z.bits_0.
      destruct (Z.testbit a n), (Z.testbit m n); reflexivity.
  - apply Z.bits_inj'. intros n Hn.
    rewrite !Z.land_spec, Z.ldiff_spec, Z.bits_0.
    destruct (Z.testbit a n), (Z.testbit m n); reflexivity.
Qed.

Lemma ldiff_bounds (a m : Z) : 0 <= a -> 0 <= m -> a - m <= Z.ldiff a m <= a.
Proof.
  intros Ha Hm.
  pose proof (ldiff_add a m) as H1. pose proof (ldiff_add m a) as H2.
  assert (0 <= Z.land a m) by (apply Z.land_nonneg; left; exact Ha).
  assert (0 <= Z.ldiff m a) by (apply Z.ldiff_nonneg; left; exact Hm).
  rewrite (Z.land_comm m a) in H2. lia.
Qed.

Lemma uintptr_small (z : Z) : 0 <= z < 18446744073709551616 -> uintptr z = z.
Proof. intros H. unfold uintptr. apply Z.mod_small. exact H. Qed.

Lemma NewAlignedBuffer_spec (addr size alignment : Z) :
  1 <= alignment -> 0 <= size -> 2 <= size + alignment ->
  size + alignment <= MaxInt64 ->
  0 <= addr -> addr + size + alignment - 1 < 18446744073709551616 ->
  exists offset,
    0 <= offset < alignment
    /\ addr + offset = Z.ldiff (addr + (alignment - 1)) (alignment - 1)
    /\ NewAlignedBuffer addr size alignment
       = Ok (mkAlignedBuffer addr (repeat x00 (Z.to_nat (size + alignment - 1)))
               offset size size).
Proof.
  intros Hal Hsize Htotal Hmax Haddr Hfit. unfold MaxInt64 in Hmax.
  pose proof (ldiff_bounds (addr + (alignment - 1)) (alignment - 1) ltac:(lia) ltac:(lia))
    as Hb.
  set (aligned := Z.ldiff (addr + (alignment - 1)) (alignment - 1)) in *.
  exists (aligned - addr). split; [lia|]. split; [lia|].
  unfold NewAlignedBuffer. cbv zeta.
  rewrite (int64_small (size + alignment)) by (unfold MinInt64, MaxInt64; lia).
  rewrite (int64_small (size + alignment - 1)) by (unfold MinInt64, MaxInt64; lia).
  rewrite (int64_small (alignment - 1)) by (unfold MinInt64, MaxInt64; lia).
  rewrite makeBytes_Ok by lia. cbn [bind].
  set (data := repeat x00 (Z.to_nat (size + alignment - 1))).
  assert (Hlen : len data = size + alignment - 1)
    by (unfold data; rewrite len_repeat; lia).
  destruct (idx_in_range data 0 ltac:(lia)) as [c0 Hc0]. rewrite Hc0. cbn [bind].
  rewrite (uintptr_small (alignment - 1)) by lia.
  rewrite (uintptr_small (addr + (alignment - 1))) by lia.
  fold aligned.
  rewrite (uintptr_small (aligned - addr)) by lia.
  rewrite (uintptr_small size) by lia.
  rewrite (uintptr_small (aligned - addr + size)) by lia.
  rewrite slice_in_range by lia. cbn [bind].
  do 2 f_equal. lia.
Qed.

Lemma aligned_power_of_two (a k : Z) :
  0 <= k ->
  Z.ldiff a (2 ^ k - 1) mod 2 ^ k = 0
  /\ Z.land (Z.ldiff a (2 ^ k - 1)) (2 ^ k - 1) = 0.
Proof.
  intros Hk. replace (2 ^ k - 1) with (Z.ones k) by (rewrite Z.ones_equiv; lia).
  split; [|apply Z.land_ldiff].
  rewrite <- Z.land_ones by exact Hk. apply Z.land_ldiff.
Qed.

(** X23.  For a power of two as alignment, [NewAlignedBuffer] returns a
    buffer of [size] zero bytes whose first byte lies at the first multiple
    of the alignment at or after the address of the array it allocates;
    [IsAligned] holds of that address.  With size 0 and alignment 1 the
    array is empty and the call panics. *)
Theorem NewAlignedBuffer_is_aligned (addr size k : Z) :
  0 <= k < 63 -> 0 <= size -> 2 <= size + 2 ^ k ->
  size + 2 ^ k <= MaxInt64 ->
  0 <= addr -> addr + size + 2 ^ k - 1 < 18446744073709551616 ->
  (exists ab,
     NewAlignedBuffer addr size (2 ^ k) = Ok ab
     /\ Bytes ab = repeat x00 (Z.to_nat size)
     /\ ab_capacity ab = size
     /\ addr <= alignedAddr ab < addr + 2 ^ k
     /\ alignedAddr ab mod 2 ^ k = 0
     /\ IsAligned (alignedAddr ab) (2 ^ k) = true)
  /\ NewAlignedBuffer addr 0 1 = Panic "index out of range".
Proof.
  intros Hk Hsize Htotal Hmax Haddr Hfit. split; [|reflexivity].
  assert (Hpow : 1 <= 2 ^ k) by (pose proof (Z.pow_pos_nonneg 2 k ltac:(lia) ltac:(lia)); lia).
  destruct (NewAlignedBuffer_spec addr size (2 ^ k) Hpow Hsize Htotal Hmax Haddr Hfit)
    as (offset & Hoff & Hal & Hnew).
  destruct (aligned_power_of_two (addr + (2 ^ k - 1)) k ltac:(lia)) as [Hmod Hland].
  eexists. split; [exact Hnew|].
  unfold Bytes, alignedAddr, IsAligned. cbn [ab_len ab_offset ab_data ab_capacity ab_addr].
  split; [apply repeat_split; lia|]. split; [reflexivity|]. split; [lia|].
  rewrite Hal. split; [exact Hmod|].
  unfold MaxInt64 in Hmax.
  rewrite (int64_small (2 ^ k - 1)) by (unfold MinInt64, MaxInt64; lia).
  rewrite (uintptr_small (2 ^ k - 1)) by lia.
  rewrite Hland. reflexivity.
Qed.

Lemma NewAlignedBuffer_is_aligned_witness :
  0 <= 5 < 63 /\ 0 <= 100 /\ 2 <= 100 + 2 ^ 5
  /\ 100 + 2 ^ 5 <= MaxInt64
  /\ 0 <= 4099 /\ 4099 + 100 + 2 ^ 5 - 1 < 18446744073709551616
  /\ (exists ab,
        NewAlignedBuffer 4099 100 (2 ^ 5) = Ok ab
        /\ Bytes ab = repeat x00 (Z.to_nat 100)
        /\ ab_capacity ab = 100
        /\ 4099 <= alignedAddr ab < 4099 + 2 ^ 5
        /\ alignedAddr ab mod 2 ^ 5 = 0
        /\ IsAligned (alignedAddr ab) (2 ^ 5) = true)
  /\ NewAlignedBuffer 4099 0 1 = Panic "index out of range".
Proof.
  assert (H1 : 0 <= 5 < 63) by lia.
  assert (H2 : 0 <= 100) by lia.
  assert (H3 : 2 <= 100 + 2 ^ 5) by (vm_compute; discriminate).
  assert (H4 : 100 + 2 ^ 5 <= MaxInt64) by (vm_compute; discriminate).
  assert (H5 : 0 <= 4099) by lia.
  assert (H6 : 4099 + 100 + 2 ^ 5 - 1 < 18446744073709551616) by (vm_compute; reflexivity).
  split; [exact H1|]. split; [exact H2|]. split; [exact H3|]. split; [exact H4|].
  split; [exact H5|]. split; [exact H6|].
  exact (NewAlignedBuffer_is_aligned 4099 100 5 H1 H2 H3 H4 H5 H6).
Defined.

(** X24.  [Resize] to a size within the capacity keeps the array and the
    aligned address, and changes only the length: the bytes it exposes are
    those the array already holds, so that shrinking and growing again
    brings the old bytes back.  Beyond the capacity it allocates: the new
    buffer is aligned, and holds zero bytes, not the old contents. *)
Theorem Resize_keeps_or_discards (addr : Z) (ab : AlignedBuffer) (n k : Z) :
  0 <= ab_offset ab -> 0 <= ab_capacity ab ->
  ab_offset ab + ab_capacity ab <= len (ab_data ab) ->
  0 <= n -> 0 <= k < 63 -> n + 2 ^ k <= MaxInt64 ->
  0 <= addr -> addr + n + 2 ^ k - 1 < 18446744073709551616 ->
  exists ab1,
    Resize addr ab n (2 ^ k) = Ok ab1
    /\ if n <=? ab_capacity ab then
         Bytes ab1 = firstn (Z.to_nat n) (skipn (Z.to_nat (ab_offset ab)) (ab_data ab))
         /\ alignedAddr ab1 = alignedAddr ab
         /\ ab_capacity ab1 = ab_capacity ab
       else
         Bytes ab1 = repeat x00 (Z.to_nat n)
         /\ alignedAddr ab1 mod 2 ^ k = 0
         /\ ab_capacity ab1 = n.
Proof.
  intros Hoff Hcap Hfit Hn Hk Hmax Haddr Hfit'.
  unfold Resize. destruct (n <=? ab_capacity ab) eqn:E.
  - apply Z.leb_le in E.
    cmp_true (0 <=? n). cmp_true (n <=? len (ab_data ab) - ab_offset ab). cbn [andb].
    eexists. split; [reflexivity|]. split; [reflexivity|]. split; reflexivity.
  - apply Z.leb_gt in E.
    assert (Hpow : 1 <= 2 ^ k)
      by (pose proof (Z.pow_pos_nonneg 2 k ltac:(lia) ltac:(lia)); lia).
    destruct (NewAlignedBuffer_spec addr n (2 ^ k) Hpow Hn ltac:(lia) Hmax Haddr Hfit')
      as (offset & Ho & Hal & Hnew).
    destruct (aligned_power_of_two (addr + (2 ^ k - 1)) k ltac:(lia)) as [Hmod _].
    eexists. split; [exact Hnew|].
    unfold Bytes, alignedAddr. cbn [ab_len ab_offset ab_data ab_capacity ab_addr].
    split; [apply repeat_split; lia|]. split; [|reflexivity].
    rewrite Hal. exact Hmod.
Qed.

Lemma Resize_keeps_or_discards_witness :
  let ab := mkAlignedBuffer 4099 (bytes "...[1,2,3]....") 3 2 8 in
  0 <= ab_offset ab /\ 0 <= ab_capacity ab
  /\ ab_offset ab + ab_capacity ab <= len (ab_data ab)
  /\ 0 <= 7 /\ 0 <= 4 < 63 /\ 7 + 2 ^ 4 <= MaxInt64
  /\ 0 <= 8192 /\ 8192 + 7 + 2 ^ 4 - 1 < 18446744073709551616
  /\ exists ab1,
       Resize 8192 ab 7 (2 ^ 4) = Ok ab1
       /\ if 7 <=? ab_capacity ab then
            Bytes ab1 = firstn (Z.to_nat 7) (skipn (Z.to_nat (ab_offset ab)) (ab_data ab))
            /\ alignedAddr ab1 = alignedAddr ab
            /\ ab_capacity ab1 = ab_capacity ab
          else
            Bytes ab1 = repeat x00 (Z.to_nat 7)
            /\ alignedAddr ab1 mod 2 ^ 4 = 0
            /\ ab_capacity ab1 = 7.
Proof.
  intros ab.
  assert (H1 : 0 <= ab_offset ab) by (vm_compute; discriminate).
  assert (H2 : 0 <= ab_capacity ab) by (vm_compute; discriminate).
  assert (H3 : ab_offset ab + ab_capacity ab <= len (ab_data ab)) by (vm_compute; discriminate).
  assert (H4 : 0 <= 7) by lia.
  assert (H5 : 0 <= 4 < 63) by lia.
  assert (H6 : 7 + 2 ^ 4 <= MaxInt64) by (vm_compute; discriminate).
  assert (H7 : 0 <= 8192) by lia.
  assert (H8 : 8192 + 7 + 2 ^ 4 - 1 < 18446744073709551616) by (vm_compute; reflexivity).
  split; [exact H1|]. split; [exact H2|]. split; [exact H3|]. split; [exact H4|].
  split; [exact H5|]. split; [exact H6|]. split; [exact H7|]. split; [exact H8|].
  exact (Resize_keeps_or_discards 8192 ab 7 4 H1 H2 H3 H4 H5 H6 H7 H8).
Defined.

(** *** Processing in chunks *)

Lemma chunksFrom_nil (fuel n : nat) : chunksFrom fuel n [] = [].
Proof. destruct fuel; reflexivity. Qed.

Lemma chunksFrom_partition (n : nat) (fuel : nat) :
  forall l,
    (1 <= n)%nat -> (List.length l <= fuel)%nat ->
    List.concat (chunksFrom fuel n l) = l
    /\ Forall (fun c => 0 < len c <= Z.of_nat n) (chunksFrom fuel n l).
Proof.
  induction fuel as [|fuel IH]; intros l Hn Hf.
  - destruct l; [split; [reflexivity | constructor] | simpl in Hf; lia].
  - destruct l as [|x l]; [split; [reflexivity | constructor]|].
    cbn [chunksFrom].
    destruct (IH (skipn n (x :: l)) Hn) as [Hc Hall].
    { rewrite length_skipn. cbn [List.length] in Hf |- *. lia. }
    split.
    + cbn [List.concat]. rewrite Hc. apply firstn_skipn.
    + constructor; [|exact Hall].
      unfold len. rewrite length_firstn. cbn [List.length]. lia.
Qed.

Section Chunks.

Variable St : Type.
Variable processor : St -> list byte -> outcome St.
Variable c : Z.
Hypothesis Hc : 1 <= c.

(** What [ProcessAligned] does after its loop. *)
Let remainderStep (data : list byte) (st : St) : outcome St :=
  if c =? 0 then Panic "integer divide by zero"
  else
    let remainder := Z.rem (len data) c in
    if 0 <? remainder then
      padded <- makeBytes c ;;
      rest <- slice data (len data - remainder) (len data) ;;
      chunk <- slice (copyBytes padded rest) 0 remainder ;;
      processor st chunk
    else Ok st.

Lemma chunkLoop_chunks (data : list byte) (f1 : nat) :
  forall (f2 : nat) (pre rest : list byte) (st : St),
    data = pre ++ rest ->
    (List.length rest < f1)%nat -> (List.length rest <= f2)%nat ->
    len data + c <= MaxInt64 ->
    len pre mod c = 0 ->
    (st' <- chunkLoop St processor f1 data c (len pre) st ;; remainderStep data st')
    = processAll processor (chunksFrom f2 (Z.to_nat c) rest) st.
Proof.
  induction f1 as [|f1 IH]; intros f2 pre rest st Hdata Hf1 Hf2 Hmax Hpre; [lia|].
  unfold MaxInt64 in Hmax.
  pose proof (len_nonneg pre) as Hp. pose proof (len_nonneg rest) as Hr.
  assert (Hlen : len data = len pre + len rest) by (rewrite Hdata; apply len_app).
  cbn [chunkLoop].
  rewrite (int64_small (len pre + c)) by (unfold MinInt64, MaxInt64; lia).
  destruct (len pre + c <=? len data) eqn:E.
  - apply Z.leb_le in E.
    destruct rest as [|x rest']; [rewrite len_nil in *; lia|].
    set (rest := x :: rest') in *.
    destruct f2 as [|f2]; [simpl in Hf2; lia|].
    assert (Hfirst : len (firstn (Z.to_nat c) rest) = c)
      by (unfold len in *; rewrite length_firstn; lia).
    assert (Hsplit : data = pre ++ firstn (Z.to_nat c) rest ++ skipn (Z.to_nat c) rest)
      by (rewrite firstn_skipn; exact Hdata).
    assert (Hslice : slice data (len pre) (len pre + c) = Ok (firstn (Z.to_nat c) rest)).
    { pose proof (slice_middle pre (firstn (Z.to_nat c) rest) (skipn (Z.to_nat c) rest))
        as Hs.
      rewrite <- Hsplit, Hfirst in Hs. exact Hs. }
    rewrite Hslice. cbn [bind].
    change (chunksFrom (S f2) (Z.to_nat c) rest)
      with (firstn (Z.to_nat c) rest :: chunksFrom f2 (Z.to_nat c) (skipn (Z.to_nat c) rest)).
    cbn [processAll].
    destruct (processor st (firstn (Z.to_nat c) rest)) as [st1| | |]; cbn [bind];
      try reflexivity.
    replace (len pre + c) with (len (pre ++ firstn (Z.to_nat c) rest))
      by (rewrite len_app; lia).
    apply IH.
    + rewrite <- app_assoc. exact Hsplit.
    + rewrite length_skipn. unfold rest in *. cbn [List.length] in Hf1 |- *. lia.
    + rewrite length_skipn. unfold rest in *. cbn [List.length] in Hf2 |- *. lia.
    + unfold MaxInt64. exact Hmax.
    + rewrite len_app, Hfirst.
      replace (len pre + c) with (len pre + 1 * c) by lia.
      rewrite Z.mod_add by lia. exact Hpre.
  - apply Z.leb_gt in E. cbn [bind]. unfold remainderStep.
    cmp_false (c =? 0). cbv zeta.
    assert (Hrem : Z.rem (len data) c = len rest).
    { rewrite Z.rem_mod_nonneg by lia. rewrite Hlen.
      rewrite <- Zplus_mod_idemp_l, Hpre, Z.add_0_l. apply Z.mod_small. lia. }
    rewrite Hrem.
    destruct rest as [|x rest'].
    + rewrite chunksFrom_nil. reflexivity.
    + set (rest := x :: rest') in *.
      assert (0 < len rest) by (unfold rest; rewrite len_cons; pose proof (len_nonneg rest'); lia).
      cmp_true (0 <? len rest).
      rewrite makeBytes_Ok by lia. cbn [bind].
      replace (len data - len rest) with (len pre) by lia.
      assert (Hsuffix : slice data (len pre) (len data) = Ok rest)
        by (rewrite Hdata; apply slice_suffix).
      rewrite Hsuffix. cbn [bind].
      rewrite copyBytes_zeros by (unfold len in *; lia).
      pose proof (slice_middle [] rest (repeat x00 (Z.to_nat c - List.length rest))) as Hs.
      cbn [app] in Hs. change (len (@nil byte)) with 0 in Hs. rewrite Z.add_0_l in Hs.
      rewrite Hs. cbn [bind].
      destruct f2 as [|f2]; [unfold rest in Hf2; simpl in Hf2; lia|].
      change (chunksFrom (S f2) (Z.to_nat c) rest)
        with (firstn (Z.to_nat c) rest :: chunksFrom f2 (Z.to_nat c) (skipn (Z.to_nat c) rest)).
      rewrite firstn_all2, skipn_all2, chunksFrom_nil by (unfold len in *; lia).
      cbn [processAll].
      destruct (processor st rest); reflexivity.
Qed.

Lemma ProcessAligned_spec (addr fresh : Z) (data : list byte) (st : St) :
  data <> [] ->
  len data + c <= MaxInt64 ->
  0 <= fresh -> fresh + len data + c - 1 < 18446744073709551616 ->
  ProcessAligned St processor addr fresh data c st
  = processAll processor (chunks (Z.to_nat c) data) st.
Proof.
  intros Hne Hmax Hfresh Hfit.
  pose proof (len_nonneg data) as Hn.
  assert (Hpos : 0 < len data).
  { destruct data; [contradiction|]. rewrite len_cons. pose proof (len_nonneg data). lia. }
  unfold ProcessAligned.
  destruct (idx_in_range data 0 ltac:(lia)) as [c0 Hc0]. rewrite Hc0. cbn [bind].
  assert (Hcopy : (if negb (IsAligned addr c)
                   then aligned <- NewAlignedBuffer fresh (len data) c ;;
                        Ok (copyBytes (Bytes aligned) data)
                   else Ok data) = Ok data).
  { destruct (IsAligned addr c); cbn [negb]; [reflexivity|].
    destruct (NewAlignedBuffer_spec fresh (len data) c Hc Hn ltac:(lia) Hmax Hfresh Hfit)
      as (offset & Ho & _ & Hnew).
    rewrite Hnew. cbn [bind]. f_equal.
    unfold Bytes. cbn [ab_len ab_offset ab_data].
    rewrite repeat_split by lia.
    rewrite copyBytes_zeros by (unfold len; lia).
    replace (Z.to_nat (len data) - List.length data)%nat with 0%nat by (unfold len; lia).
    apply app_nil_r. }
  rewrite Hcopy. cbn [bind].
  apply (chunkLoop_chunks data (S (List.length data)) (List.length data) [] data st);
    [reflexivity | lia | lia | exact Hmax |].
  change (len (@nil byte)) with 0. apply Z.mod_0_l. lia.
Qed.

End Chunks.

(** X25.  [ProcessAligned] with a positive chunk size hands the buffer to
    the processor piece by piece, in order: pieces of [chunkSize] bytes and
    a shorter last one, which together are the buffer; it stops at the
    processor's first error.  This holds whether or not the buffer had to
    be copied to an aligned one.  On an empty buffer it panics. *)
Theorem ProcessAligned_processes_every_chunk (St : Type)
    (processor : St -> list byte -> outcome St)
    (addr fresh : Z) (data : list byte) (chunkSize : Z) (st : St) :
  1 <= chunkSize ->
  data <> [] ->
  len data + chunkSize <= MaxInt64 ->
  0 <= fresh -> fresh + len data + chunkSize - 1 < 18446744073709551616 ->
  ProcessAligned St processor addr fresh data chunkSize st
  = processAll processor (chunks (Z.to_nat chunkSize) data) st
  /\ List.concat (chunks (Z.to_nat chunkSize) data) = data
  /\ Forall (fun c => 0 < len c <= chunkSize) (chunks (Z.to_nat chunkSize) data)
  /\ ProcessAligned St processor addr fresh [] chunkSize st = Panic "index out of range".
Proof.
  intros Hc Hne Hmax Hfresh Hfit.
  split; [apply ProcessAligned_spec; assumption|].
  destruct (chunksFrom_partition (Z.to_nat chunkSize) (List.length data) data
              ltac:(lia) (Nat.le_refl _)) as [Hcat Hall].
  split; [exact Hcat|]. split; [|reflexivity].
  eapply Forall_impl; [|exact Hall]. intros x Hx. cbv beta in Hx. lia.
Qed.

Lemma ProcessAligned_processes_every_chunk_witness :
  let count := fun (n : Z) (chunk : list byte) => Ok (n + len chunk) in
  1 <= 4
  /\ bytes "[1,2,3,4]" <> []
  /\ len (bytes "[1,2,3,4]") + 4 <= MaxInt64
  /\ 0 <= 8192 /\ 8192 + len (bytes "[1,2,3,4]") + 4 - 1 < 18446744073709551616
  /\ ProcessAligned Z count 4099 8192 (bytes "[1,2,3,4]") 4 0
     = processAll count (chunks (Z.to_nat 4) (bytes "[1,2,3,4]")) 0
  /\ List.concat (chunks (Z.to_nat 4) (bytes "[1,2,3,4]")) = bytes "[1,2,3,4]"
  /\ Forall (fun c => 0 < len c <= 4) (chunks (Z.to_nat 4) (bytes "[1,2,3,4]"))
  /\ ProcessAligned Z count 4099 8192 [] 4 0 = Panic "index out of range".
Proof.
  intros count.
  assert (H1 : 1 <= 4) by lia.
  assert (H2 : bytes "[1,2,3,4]" <> []) by discriminate.
  assert (H3 : len (bytes "[1,2,3,4]") + 4 <= MaxInt64) by (vm_compute; discriminate).
  assert (H4 : 0 <= 8192) by lia.
  assert (H5 : 8192 + len (bytes "[1,2,3,4]") + 4 - 1 < 18446744073709551616)
    by (vm_compute; reflexivity).
  split; [exact H1|]. split; [exact H2|]. split; [exact H3|]. split; [exact H4|].
  split; [exact H5|].
  exact (ProcessAligned_processes_every_chunk Z count 4099 8192 (bytes "[1,2,3,4]") 4 0
           H1 H2 H3 H4 H5).
Defined.

(** ** The parser accepts values of the token grammar only *)

Section Grammar.

Variable a : arch.
Variable data : list byte.
Variable tokens : list Token.

Lemma typesBetween_one (p : Z) (t : Token) :
  idx tokens p = Ok t -> typesBetween tokens p (p + 1) = [Type_ t].
Proof.
  intros H. apply idx_Ok_iff in H. destruct H as [Hp Hn].
  unfold typesBetween. replace (p + 1 - p) with 1 by lia.
  change (Z.to_nat 1) with 1%nat.
  destruct (skipn (Z.to_nat p) tokens) as [|x rest] eqn:E.
  - exfalso. assert (Hnth : nth_error (skipn (Z.to_nat p) tokens) 0 = Some t)
      by (rewrite nth_error_skipn, Nat.add_0_r; exact Hn).
    rewrite E in Hnth. discriminate.
  - assert (Hnth : nth_error (skipn (Z.to_nat p) tokens) 0 = Some t)
      by (rewrite nth_error_skipn, Nat.add_0_r; exact Hn).
    rewrite E in Hnth. injection Hnth as ->. reflexivity.
Qed.

Lemma typesBetween_split (p q r : Z) :
  0 <= p <= q -> q <= r ->
  typesBetween tokens p r = typesBetween tokens p q ++ typesBetween tokens q r.
Proof.
  intros Hpq Hqr. unfold typesBetween. rewrite <- map_app. f_equal.
  replace (Z.to_nat (r - p)) with (Z.to_nat (q - p) + Z.to_nat (r - q))%nat by lia.
  rewrite firstn_add. f_equal. rewrite skipn_skipn. do 2 f_equal. lia.
Qed.

Lemma parseString_advances (pos : Z) (r : Value * Z) :
  parseString data tokens pos = Ok r -> snd r = pos + 1.
Proof.
  unfold parseString. intros H.
  apply bind_Ok_inv in H. destruct H as (t & _ & H). cbv zeta in H.
  destruct (_ <=? _); [injection H as <-; reflexivity|].
  apply bind_Ok_inv in H. destruct H as (str & _ & H).
  destruct (negb _); [injection H as <-; reflexivity|].
  apply bind_Ok_inv in H. destruct H as (s & _ & H). injection H as <-. reflexivity.
Qed.

Lemma parseNumber_advances (pos : Z) (r : Value * Z) :
  parseNumber a data tokens pos = Ok r -> snd r = pos + 1.
Proof.
  unfold parseNumber. intros H.
  apply bind_Ok_inv in H. destruct H as (t & _ & H). cbv zeta in H.
  apply bind_Ok_inv in H. destruct H as (numBytes & _ & H).
  apply bind_Ok_inv in H. destruct H as ([val|] & _ & H).
  - injection H as <-. reflexivity.
  - apply bind_Ok_inv in H. destruct H as (f & _ & H). injection H as <-. reflexivity.
Qed.

Lemma tokenTypeAt_type (pos : Z) (ty : TokenType) :
  tokenTypeAt tokens pos ty = Ok true ->
  exists t, idx tokens pos = Ok t /\ Type_ t = ty.
Proof.
  intros H. destruct (tokenTypeAt_true tokens pos ty H) as (t & Ht & Hty).
  exists t. split; [exact Ht|]. destruct (Type_ t), ty; try discriminate; reflexivity.
Qed.

Section Loops.

Variable pv : Z -> outcome (Value * Z).
Hypothesis Hpv : accepts tokens pv.

Lemma objectLoop_members (fuel : nat) :
  forall obj p v p',
    objectLoop data tokens pv fuel obj p = Ok (v, p') ->
    0 <= p < p' - 1 /\ p' <= len tokens
    /\ memberTokens (typesBetween tokens p (p' - 1))
    /\ typesBetween tokens (p' - 1) p' = [TokenObjectEnd].
Proof.
  induction fuel as [|fuel IH]; intros obj p v p' H; [discriminate|].
  cbn [objectLoop] in H.
  apply bind_Ok_inv in H. destruct H as (isKey & HisKey & H).
  destruct isKey; [|discriminate]. cbn [negb] in H.
  destruct (tokenTypeAt_type p TokenString HisKey) as (t & Ht & Hty).
  pose proof (typesBetween_one p t Ht) as H1. rewrite Hty in H1.
  apply idx_Ok_iff in Ht. destruct Ht as [Hp _].
  apply bind_Ok_inv in H. destruct H as ([key p1] & Hkey & H).
  pose proof (parseString_advances p _ Hkey) as Hp1. cbn [snd] in Hp1. subst p1.
  apply bind_Ok_inv in H. destruct H as (isColon & HisColon & H).
  destruct isColon; [|discriminate]. cbn [negb] in H.
  destruct (tokenTypeAt_type (p + 1) TokenColon HisColon) as (t1 & Ht1 & Hty1).
  pose proof (typesBetween_one (p + 1) t1 Ht1) as H2. rewrite Hty1 in H2.
  cbv zeta in H.
  apply bind_Ok_inv in H. destruct H as ([value p3] & Hval & H).
  destruct (Hpv _ _ _ Hval) as (Hr3 & Hlen3 & Hv).
  destruct (len tokens <=? p3) eqn:E; [discriminate|]. apply Z.leb_gt in E.
  apply bind_Ok_inv in H. destruct H as (t3 & Ht3 & H).
  pose proof (typesBetween_one p3 t3 Ht3) as H3.
  assert (Hhead : forall q, p3 <= q ->
            typesBetween tokens p q
            = TokenString :: TokenColon
                :: typesBetween tokens (p + 1 + 1) p3 ++ typesBetween tokens p3 q).
  { intros q Hq.
    rewrite (typesBetween_split p (p + 1) q), H1 by lia.
    rewrite (typesBetween_split (p + 1) (p + 1 + 1) q), H2 by lia.
    rewrite (typesBetween_split (p + 1 + 1) p3 q) by lia. reflexivity. }
  destruct (TokenType_eqb (Type_ t3) TokenObjectEnd) eqn:Eend.
  - injection H as _ <-.
    assert (Hty3 : Type_ t3 = TokenObjectEnd) by (destruct (Type_ t3); try discriminate; reflexivity).
    replace (p3 + 1 - 1) with p3 by lia.
    split; [lia|]. split; [lia|]. split.
    + rewrite (Hhead p3 ltac:(lia)).
      unfold typesBetween at 2. rewrite Z.sub_diag. cbn [Z.to_nat firstn map].
      rewrite app_nil_r. apply mt_last. exact Hv.
    + rewrite H3, Hty3. reflexivity.
  - destruct (TokenType_eqb (Type_ t3) TokenComma) eqn:Ecomma; [|discriminate].
    assert (Hty3 : Type_ t3 = TokenComma) by (destruct (Type_ t3); try discriminate; reflexivity).
    destruct (IH _ _ _ _ H) as (Hr & Hlen & Hms & Hend).
    split; [lia|]. split; [exact Hlen|]. split; [|exact Hend].
    rewrite (Hhead (p' - 1) ltac:(lia)).
    rewrite (typesBetween_split p3 (p3 + 1) (p' - 1)), H3, Hty3 by lia.
    cbn [app]. apply mt_more; assumption.
Qed.

Lemma arrayLoop_elements (fuel : nat) :
  forall arr p v p',
    arrayLoop tokens pv fuel arr p = Ok (v, p') ->
    0 <= p < p' - 1 /\ p' <= len tokens
    /\ elementTokens (typesBetween tokens p (p' - 1))
    /\ typesBetween tokens (p' - 1) p' = [TokenArrayEnd].
Proof.
  induction fuel as [|fuel IH]; intros arr p v p' H; [discriminate|].
  cbn [arrayLoop] in H.
  apply bind_Ok_inv in H. destruct H as ([value p3] & Hval & H).
  destruct (Hpv _ _ _ Hval) as (Hr3 & Hlen3 & Hv). cbv zeta in H.
  destruct (len tokens <=? p3) eqn:E; [discriminate|]. apply Z.leb_gt in E.
  apply bind_Ok_inv in H. destruct H as (t3 & Ht3 & H).
  pose proof (typesBetween_one p3 t3 Ht3) as H3.
  destruct (TokenType_eqb (Type_ t3) TokenArrayEnd) eqn:Eend.
  - injection H as _ <-.
    assert (Hty3 : Type_ t3 = TokenArrayEnd) by (destruct (Type_ t3); try discriminate; reflexivity).
    replace (p3 + 1 - 1) with p3 by lia.
    split; [lia|]. split; [lia|]. split; [apply et_last; exact Hv|].
    rewrite H3, Hty3. reflexivity.
  - destruct (TokenType_eqb (Type_ t3) TokenComma) eqn:Ecomma; [|discriminate].
    assert (Hty3 : Type_ t3 = TokenComma) by (destruct (Type_ t3); try discriminate; reflexivity).
    destruct (IH _ _ _ _ H) as (Hr & Hlen & Hes & Hend).
    split; [lia|]. split; [exact Hlen|]. split; [|exact Hend].
    rewrite (typesBetween_split p p3 (p' - 1)) by lia.
    rewrite (typesBetween_split p3 (p3 + 1) (p' - 1)), H3, Hty3 by lia.
    cbn [app]. apply et_more; assumption.
Qed.

End Loops.

Lemma parseValue_accepts (fuel : nat) : accepts tokens (parseValue a data tokens fuel).
Proof.
  induction fuel as [|fuel IH]; intros p v p' H; [discriminate|].
  cbn [parseValue] in H.
  destruct (len tokens <=? p) eqn:E; [discriminate|]. apply Z.leb_gt in E.
  apply bind_Ok_inv in H. destruct H as (t & Ht & H).
  pose proof (typesBetween_one p t Ht) as H1.
  pose proof Ht as Hidx. apply idx_Ok_iff in Hidx. destruct Hidx as [Hp _].
  assert (Hscalar : isScalarToken (Type_ t) = true -> p' = p + 1 ->
            0 <= p < p' /\ p' <= len tokens /\ valueTokens (typesBetween tokens p p')).
  { intros Hs ->. split; [lia|]. split; [lia|]. rewrite H1. apply vt_scalar. exact Hs. }
  destruct (Type_ t) eqn:Hty; try discriminate.
  - (* object *)
    unfold parseObject in H. cbv zeta in H.
    apply bind_Ok_inv in H. destruct H as (isEnd & HisEnd & H).
    destruct isEnd.
    + injection H as _ <-.
      destruct (tokenTypeAt_type (p + 1) TokenObjectEnd HisEnd) as (t1 & Ht1 & Hty1).
      pose proof (typesBetween_one (p + 1) t1 Ht1) as H2. rewrite Hty1 in H2.
      apply idx_Ok_iff in Ht1. destruct Ht1 as [Hp1 _].
      split; [lia|]. split; [lia|].
      rewrite (typesBetween_split p (p + 1) (p + 1 + 1)), H1, H2 by lia.
      apply vt_empty_object.
    + destruct (objectLoop_members _ IH _ _ _ _ _ H) as (Hr & Hlen & Hms & Hend).
      split; [lia|]. split; [exact Hlen|].
      rewrite (typesBetween_split p (p + 1) p'), H1 by lia.
      rewrite (typesBetween_split (p + 1) (p' - 1) p'), Hend by lia.
      apply vt_object. exact Hms.
  - (* array *)
    unfold parseArray in H. cbv zeta in H.
    apply bind_Ok_inv in H. destruct H as (isEnd & HisEnd & H).
    destruct isEnd.
    + injection H as _ <-.
      destruct (tokenTypeAt_type (p + 1) TokenArrayEnd HisEnd) as (t1 & Ht1 & Hty1).
      pose proof (typesBetween_one (p + 1) t1 Ht1) as H2. rewrite Hty1 in H2.
      apply idx_Ok_iff in Ht1. destruct Ht1 as [Hp1 _].
      split; [lia|]. split; [lia|].
      rewrite (typesBetween_split p (p + 1) (p + 1 + 1)), H1, H2 by lia.
      apply vt_empty_array.
    + destruct (arrayLoop_elements _ IH _ _ _ _ _ H) as (Hr & Hlen & Hes & Hend).
      split; [lia|]. split; [exact Hlen|].
      rewrite (typesBetween_split p (p + 1) p'), H1 by lia.
      rewrite (typesBetween_split (p + 1) (p' - 1) p'), Hend by lia.
      apply vt_array. exact Hes.
  - apply Hscalar; [reflexivity|]. apply (parseString_advances p _ H).
  - apply Hscalar; [reflexivity|]. apply (parseNumber_advances p _ H).
  - apply Hscalar; [reflexivity|]. injection H as _ <-. reflexivity.
  - apply Hscalar; [reflexivity|]. injection H as _ <-. reflexivity.
  - apply Hscalar; [reflexivity|]. injection H as _ <-. reflexivity.
Qed.

End Grammar.

(** X26.  When [Parse] returns a value, the tokens of the buffer begin
    with a value of the token grammar, and the value parser has consumed
    exactly those tokens: a scalar token, or brackets or braces around
    elements or members, each a value (after a string key and a colon, in
    an object), with one comma between two of them. *)
Theorem Parse_accepts_only_values (a : arch) (data : list byte) (v : Value) :
  Parse a data = Ok v ->
  exists tokens n,
    SimpleTokenize data = Ok tokens
    /\ parseValue a data tokens (S (List.length tokens)) 0 = Ok (v, n)
    /\ 0 < n <= len tokens
    /\ valueTokens (typesBetween tokens 0 n).
Proof.
  unfold Parse. intros H.
  apply bind_Ok_inv in H. destruct H as (tokens & Htok & H).
  destruct (len tokens =? 0); [discriminate|].
  apply bind_Ok_inv in H. destruct H as ([v' n] & Hval & H). injection H as ->.
  exists tokens, n. split; [exact Htok|]. split; [exact Hval|].
  destruct (parseValue_accepts a data tokens _ _ _ _ Hval) as (H1 & H2 & H3).
  split; [lia | exact H3].
Qed.

Lemma Parse_accepts_only_values_witness :
  Parse arm64 (json "{'a':[1,null]}")
  = Ok (VObject [(bytes "a", VArray [VInt 1; VNull])])
  /\ exists tokens n,
       SimpleTokenize (json "{'a':[1,null]}") = Ok tokens
       /\ parseValue arm64 (json "{'a':[1,null]}") tokens (S (List.length tokens)) 0
          = Ok (VObject [(bytes "a", VArray [VInt 1; VNull])], n)
       /\ 0 < n <= len tokens
       /\ valueTokens (typesBetween tokens 0 n).
Proof.
  assert (H : Parse arm64 (json "{'a':[1,null]}")
              = Ok (VObject [(bytes "a", VArray [VInt 1; VNull])]))
    by (vm_compute; reflexivity).
  split; [exact H|].
  exact (Parse_accepts_only_values arm64 (json "{'a':[1,null]}") _ H).
Defined.
